(** * The request scheduler of the inference server (examples/server/server.cpp)

    A shallow embedding of the task queue, the result queue, the slot pool
    and the scheduler loop of [server.cpp], with the properties of the
    specification stated and settled against it.

    Conventions of the embedding.
    - C++ [int], [int32_t] and [int64_t] values are integers of [Z].  Signed
      overflow is undefined behaviour in C++; where a property depends on
      the range (the id counter of the task queue, the context shift, the
      conversion of [n_past] to [size_t]) a value outside of it is undefined
      ([None]), elsewhere the counters are assumed to stay in range.
      [size_t] arithmetic wraps modulo [2^64] and is written out.
    - [std::vector] and [std::deque] are lists, [std::unordered_set<int>] is
      a [gset Z]; a vector indexed out of range is undefined ([None]).
    - A function that can throw, abort or run into undefined behaviour
      returns an [option]; [None] stands for every such outcome.
    - Calls into the inference library (tokenizer, decoder, sampler, KV
      cache, file I/O, clock) are external.  Their results are read from an
      [oracle] value supplied with each scheduler step, and the KV-cache
      calls the scheduler issues are recorded in [kv_log].
    - Timings and metrics are floating-point bookkeeping and are left out. *)

From stdpp Require Import base decidable option list gmap sets strings.
From Stdlib Require Import ZArith Lia.

Open Scope Z_scope.

(** ** Record update *)

Class Setter {R T : Type} (proj : R -> T) := set : T -> R -> R.
Arguments set {R T} proj {Setter} _ _ /.

Ltac mk_setter eta proj :=
  let r := fresh "r" in
  let v := fresh "v" in
  intros v r;
  let e := eval cbv beta delta [eta] in (eta r) in
  match eval pattern (proj r) in e with
  | ?f _ => let t := eval cbv beta in (f v) in exact t
  end.

Notation "r <| p := v |>" := (set p v r)
  (at level 1, left associativity, format "r  <| p  :=  v |>").

(** ** Machine constants *)

Definition INT32_MAX : Z := 2147483647.
Definition SIZE_MOD : Z := 2 ^ 64.

(** [std::vector<llama_token>::max_size()] of the common 64-bit standard
    libraries: [PTRDIFF_MAX / sizeof (int32_t)]. *)
Definition VECTOR_MAX_SIZE : Z := 2 ^ 61 - 1.

(** the values of an [int32_t] *)
Definition int32 (z : Z) : Prop := - 2 ^ 31 <= z <= INT32_MAX.

#[global] Instance int32_dec z : Decision (int32 z).
Proof. unfold int32. apply _. Defined.

(** [static_cast<int32_t>] of a wider integer: the value modulo [2^32] *)
Definition to_int32 (z : Z) : Z := (z + 2 ^ 31) mod 2 ^ 32 - 2 ^ 31.

(** conversion of an [int] to [size_t] *)
Definition to_size_t (z : Z) : Z := z mod SIZE_MOD.

Definition llama_token := Z.

(** ** Enumerations *)

Inductive stop_type := STOP_TYPE_FULL | STOP_TYPE_PARTIAL.

Inductive slot_state :=
| SLOT_STATE_IDLE
| SLOT_STATE_PROCESSING_PROMPT
| SLOT_STATE_DONE_PROMPT
| SLOT_STATE_GENERATING.

Inductive server_task_type :=
| SERVER_TASK_TYPE_COMPLETION
| SERVER_TASK_TYPE_CANCEL
| SERVER_TASK_TYPE_NEXT_RESPONSE
| SERVER_TASK_TYPE_METRICS
| SERVER_TASK_TYPE_SLOT_SAVE
| SERVER_TASK_TYPE_SLOT_RESTORE
| SERVER_TASK_TYPE_SLOT_ERASE
| SERVER_TASK_TYPE_SET_LORA.

Inductive server_task_cmpl_type :=
| SERVER_TASK_CMPL_TYPE_NORMAL
| SERVER_TASK_CMPL_TYPE_EMBEDDING
| SERVER_TASK_CMPL_TYPE_RERANK
| SERVER_TASK_CMPL_TYPE_INFILL.

(** The error taxonomy of [utils.hpp] (only the names are needed). *)
Inductive error_type :=
| ERROR_TYPE_INVALID_REQUEST
| ERROR_TYPE_AUTHENTICATION
| ERROR_TYPE_SERVER
| ERROR_TYPE_NOT_FOUND
| ERROR_TYPE_PERMISSION
| ERROR_TYPE_UNAVAILABLE
| ERROR_TYPE_NOT_SUPPORTED.

#[global] Instance slot_state_eq_dec : EqDecision slot_state.
Proof. solve_decision. Defined.
#[global] Instance server_task_type_eq_dec : EqDecision server_task_type.
Proof. solve_decision. Defined.
#[global] Instance server_task_cmpl_type_eq_dec : EqDecision server_task_cmpl_type.
Proof. solve_decision. Defined.

(** ** JSON values, as far as the scheduler inspects them *)

#[local] Unset Elimination Schemes.
Inductive json :=
| JNull
| JBool (b : bool)
| JInt (z : Z)
| JFloat (num : Z) (den : positive)   (* number_float: the quotient [num / den] *)
| JString (s : string)
| JArray (l : list json)
| JObject.
#[local] Set Elimination Schemes.

Definition is_string (j : json) : bool :=
  match j with JString _ => true | _ => false end.
Definition is_array (j : json) : bool :=
  match j with JArray _ => true | _ => false end.
Definition is_number_integer (j : json) : bool :=
  match j with JInt _ => true | _ => false end.
Definition is_number (j : json) : bool :=
  match j with JInt _ | JFloat _ _ => true | _ => false end.

(** [j.get<llama_token> ()], the conversion to [int32_t]: an integer is
    cast, a float is truncated towards zero, which is undefined when the
    result is no [int32_t], a boolean is 0 or 1, and every other value
    throws [type_error] *)
Definition get_llama_token (j : json) : option Z :=
  match j with
  | JInt z => Some (to_int32 z)
  | JFloat num den =>
      let z := Z.quot num (Z.pos den) in
      if decide (int32 z) then Some z else None
  | JBool b => Some (if b then 1 else 0)
  | _ => None
  end.

(** [json::size()]: 0 for null, the length for arrays, 1 for the scalars
    (objects carry no members in this model). *)
Definition json_size (j : json) : nat :=
  match j with JNull => 0%nat | JArray l => length l | JObject => 0%nat | _ => 1%nat end.

(** [json::empty()] *)
Definition json_empty (j : json) : bool :=
  match j with JNull => true | JArray l => bool_decide (l = []) | JObject => true | _ => false end.

(** The keys of [server_task::data] the scheduler reads.  A field is [None]
    when the key is absent (or null, or of the wrong type), which is when
    [json_value] of [utils.hpp] falls back to its default.  [d_json_schema]
    and [d_grammar] keep the JSON value, because the code tells an absent key
    from a null one. *)
Record task_data := {
  d_id_slot : option Z;
  d_prompt : option json;
  d_system_prompt : option string;
  d_index : option Z;
  d_stream : option bool;
  d_cache_prompt : option bool;
  d_n_predict : option Z;
  d_max_tokens : option Z;
  d_n_keep : option Z;
  d_n_discard : option Z;
  d_speculative_n_min : option Z;
  d_speculative_n_max : option Z;
  d_json_schema : option json;
  d_grammar : option json;
  d_stop : option json;
  d_input_prefix : option json;
  d_input_suffix : option json;
  d_reset_bucket : option bool;
}.

Definition empty_data : task_data :=
  {| d_id_slot := None; d_prompt := None; d_system_prompt := None;
     d_index := None; d_stream := None; d_cache_prompt := None;
     d_n_predict := None; d_max_tokens := None; d_n_keep := None;
     d_n_discard := None; d_speculative_n_min := None;
     d_speculative_n_max := None; d_json_schema := None; d_grammar := None;
     d_stop := None; d_input_prefix := None; d_input_suffix := None;
     d_reset_bucket := None |}.

(** [json_value (data, key, default)] *)
Definition json_value {A} (field : option A) (default : A) : A :=
  match field with Some v => v | None => default end.

(** ** Tasks and results *)

Module server_task.

Record t := {
  id : Z;             (* to be filled by server_queue *)
  id_target : Z;      (* used by SERVER_TASK_TYPE_CANCEL *)
  type : server_task_type;
  data : task_data;
  cmpl_type : server_task_cmpl_type;
}.

Definition eta (r : t) : t :=
  Build_t (id r) (id_target r) (type r) (data r) (cmpl_type r).
#[global] Instance set_id : Setter id := ltac:(mk_setter eta id).
Arguments set_id _ _ /.
#[global] Instance set_id_target : Setter id_target := ltac:(mk_setter eta id_target).
Arguments set_id_target _ _ /.
#[global] Instance set_data : Setter data := ltac:(mk_setter eta data).
Arguments set_data _ _ /.

(** a default-constructed task of the given type *)
Definition make (ty : server_task_type) : t :=
  {| id := -1; id_target := -1; type := ty; data := empty_data;
     cmpl_type := SERVER_TASK_CMPL_TYPE_NORMAL |}.

Definition get_list_id (tasks : list t) : gset Z := list_to_set (id <$> tasks).

End server_task.

(** The payload of a result: which response it is, with the members the
    properties below look at. *)
Record final_response := {
  fr_content : string;
  fr_id_slot : Z;
  fr_tokens_predicted : Z;
  fr_tokens_evaluated : Z;
  fr_truncated : bool;
  fr_stopped_eos : bool;
  fr_stopped_word : bool;
  fr_stopped_limit : bool;
  fr_stopping_word : string;
  fr_tokens_cached : Z;
  fr_index : Z;
}.

Inductive result_data :=
| data_error (message : string) (type : error_type)
| data_partial (content : string) (id_slot : Z) (index : Z)
| data_final (r : final_response)
| data_embedding (index : Z)
| data_rerank (index : Z)
| data_cancelled                       (* {"cancelled": true} *)
| data_metrics (idle processing deferred : Z)
| data_slot_save (id_slot n_saved n_written : Z)
| data_slot_restore (id_slot n_restored n_read : Z)
| data_slot_erase (id_slot n_erased : Z)
| data_success.                        (* {"success": true} *)

Module server_task_result.

Record t := {
  id : Z;
  data : result_data;
  stop : bool;
  error : bool;
}.

End server_task_result.

(** ** The task queue *)

Module server_queue.

Record t := {
  id : Z;
  running : bool;
  queue_tasks : list server_task.t;
  queue_tasks_deferred : list server_task.t;
}.

Definition eta (r : t) : t :=
  Build_t (id r) (running r) (queue_tasks r) (queue_tasks_deferred r).
#[global] Instance set_id : Setter id := ltac:(mk_setter eta id).
Arguments set_id _ _ /.
#[global] Instance set_running : Setter running := ltac:(mk_setter eta running).
Arguments set_running _ _ /.
#[global] Instance set_queue_tasks : Setter queue_tasks :=
  ltac:(mk_setter eta queue_tasks).
Arguments set_queue_tasks _ _ /.
#[global] Instance set_queue_tasks_deferred : Setter queue_tasks_deferred :=
  ltac:(mk_setter eta queue_tasks_deferred).
Arguments set_queue_tasks_deferred _ _ /.

Definition empty : t :=
  {| id := 0; running := false; queue_tasks := []; queue_tasks_deferred := [] |}.

(** [id++]: the value before the increment and the queue after it.  The
    increment of [INT32_MAX] is a signed overflow, hence undefined. *)
Definition next_id (q : t) : option (Z * t) :=
  if decide (id q = INT32_MAX) then None
  else Some (id q, q <| id := id q + 1 |>).

(** [if (task.id == -1) task.id = id++;] *)
Definition assign_id (task : server_task.t) (q : t) : option (server_task.t * t) :=
  if decide (server_task.id task = -1) then
    '(i, q') ← next_id q;
    Some (task <| server_task.id := i |>, q')
  else Some (task, q).

Definition push (task : server_task.t) (front : bool) (q : t) : t :=
  if front then q <| queue_tasks := task :: queue_tasks q |>
  else q <| queue_tasks := queue_tasks q ++ [task] |>.

(** Add a new task to the end (or the front) of the queue; returns the id. *)
Definition post (task : server_task.t) (front : bool) (q : t) : option (Z * t) :=
  '(task', q') ← assign_id task q;
  Some (server_task.id task', push task' front q').

(** multi-task version of post(): the loop over [tasks] under one lock *)
Fixpoint post_many (tasks : list server_task.t) (front : bool) (q : t) : option t :=
  match tasks with
  | [] => Some q
  | task :: rest =>
      '(task', q') ← assign_id task q;
      post_many rest front (push task' front q')
  end.

(** Add a new task, but defer until one slot is available *)
Definition defer (task : server_task.t) (q : t) : t :=
  q <| queue_tasks_deferred := queue_tasks_deferred q ++ [task] |>.

(** Get the next id for creating a new task *)
Definition get_new_id (q : t) : option (Z * t) := next_id q.

(** moves one task from the deferred queue to the main queue *)
Definition pop_deferred_task (q : t) : t :=
  match queue_tasks_deferred q with
  | [] => q
  | task :: rest =>
      q <| queue_tasks := queue_tasks q ++ [task] |> <| queue_tasks_deferred := rest |>
  end.

Definition terminate (q : t) : t := q <| running := false |>.

(** the consumer side of [start_loop]: take the task at the front *)
Definition pop_front (q : t) : option (server_task.t * t) :=
  match queue_tasks q with
  | [] => None
  | task :: rest => Some (task, q <| queue_tasks := rest |>)
  end.

(** the order in which the main queue hands out its tasks *)
Fixpoint drain (fuel : nat) (q : t) : list server_task.t :=
  match fuel with
  | O => []
  | S fuel' =>
      match pop_front q with
      | None => []
      | Some (task, q') => task :: drain fuel' q'
      end
  end.

End server_queue.

(** ** The result queue *)

Module server_response.

Record t := {
  waiting_task_ids : gset Z;
  queue_results : list server_task_result.t;
}.

Definition eta (r : t) : t := Build_t (waiting_task_ids r) (queue_results r).
#[global] Instance set_waiting_task_ids : Setter waiting_task_ids :=
  ltac:(mk_setter eta waiting_task_ids).
Arguments set_waiting_task_ids _ _ /.
#[global] Instance set_queue_results : Setter queue_results :=
  ltac:(mk_setter eta queue_results).
Arguments set_queue_results _ _ /.

Definition empty : t := {| waiting_task_ids := ∅; queue_results := [] |}.

Definition add_waiting_task_id (id_task : Z) (r : t) : t :=
  r <| waiting_task_ids := {[ id_task ]} ∪ waiting_task_ids r |>.

Definition add_waiting_tasks (tasks : list server_task.t) (r : t) : t :=
  foldl (λ r task, add_waiting_task_id (server_task.id task) r) r tasks.

Definition remove_waiting_task_id (id_task : Z) (r : t) : t :=
  r <| waiting_task_ids := waiting_task_ids r ∖ {[ id_task ]} |>.

(** the ids are visited in the iteration order of the caller's set *)
Definition remove_waiting_task_ids (id_tasks : list Z) (r : t) : t :=
  foldl (λ r id_task, remove_waiting_task_id id_task r) r id_tasks.

(** Send a new result to a waiting id_task: the result is appended when
    its id is among the waiting ids, and dropped otherwise. *)
Definition send (result : server_task_result.t) (r : t) : t :=
  if decide (server_task_result.id result ∈ waiting_task_ids r)
  then r <| queue_results := queue_results r ++ [result] |>
  else r.

(** the scan of [recv]: the first result whose id is in [id_tasks],
    and the queue without it *)
Fixpoint take_first (id_tasks : gset Z) (l : list server_task_result.t)
  : option (server_task_result.t * list server_task_result.t) :=
  match l with
  | [] => None
  | res :: rest =>
      if decide (server_task_result.id res ∈ id_tasks) then Some (res, rest)
      else '(found, rest') ← take_first id_tasks rest; Some (found, res :: rest')
  end.

(** [recv]; [None] when no result for [id_tasks] is queued and the
    caller keeps waiting *)
Definition recv (id_tasks : gset Z) (r : t) : option (server_task_result.t * t) :=
  '(res, rest) ← take_first id_tasks (queue_results r);
  Some (res, r <| queue_results := rest |>).

End server_response.

(** ** Requests parameters, batches and the slot *)

Module slot_params.

Record t := {
  stream : bool;
  cache_prompt : bool;    (* remember the prompt to avoid reprocessing all prompt *)
  n_keep : Z;             (* number of tokens to keep from initial prompt *)
  n_discard : Z;          (* number of tokens after n_keep that may be discarded
                             when shifting context, 0 defaults to half *)
  n_predict : Z;          (* new tokens to predict *)
  antiprompt : list string;
  speculative_n_min : Z;
  speculative_n_max : Z;
  input_prefix : json;
  input_suffix : json;
}.

Definition eta (r : t) : t :=
  Build_t (stream r) (cache_prompt r) (n_keep r) (n_discard r) (n_predict r)
    (antiprompt r) (speculative_n_min r) (speculative_n_max r)
    (input_prefix r) (input_suffix r).
#[global] Instance set_stream : Setter stream := ltac:(mk_setter eta stream).
Arguments set_stream _ _ /.
#[global] Instance set_cache_prompt : Setter cache_prompt :=
  ltac:(mk_setter eta cache_prompt).
Arguments set_cache_prompt _ _ /.
#[global] Instance set_n_keep : Setter n_keep := ltac:(mk_setter eta n_keep).
Arguments set_n_keep _ _ /.
#[global] Instance set_n_discard : Setter n_discard := ltac:(mk_setter eta n_discard).
Arguments set_n_discard _ _ /.
#[global] Instance set_n_predict : Setter n_predict := ltac:(mk_setter eta n_predict).
Arguments set_n_predict _ _ /.
#[global] Instance set_antiprompt : Setter antiprompt := ltac:(mk_setter eta antiprompt).
Arguments set_antiprompt _ _ /.
#[global] Instance set_speculative_n_min : Setter speculative_n_min :=
  ltac:(mk_setter eta speculative_n_min).
Arguments set_speculative_n_min _ _ /.
#[global] Instance set_speculative_n_max : Setter speculative_n_max :=
  ltac:(mk_setter eta speculative_n_max).
Arguments set_speculative_n_max _ _ /.
#[global] Instance set_input_prefix : Setter input_prefix :=
  ltac:(mk_setter eta input_prefix).
Arguments set_input_prefix _ _ /.
#[global] Instance set_input_suffix : Setter input_suffix :=
  ltac:(mk_setter eta input_suffix).
Arguments set_input_suffix _ _ /.

(** the member initialisers of [struct slot_params] *)
Definition default : t :=
  {| stream := true; cache_prompt := true; n_keep := 0; n_discard := 0;
     n_predict := -1; antiprompt := []; speculative_n_min := 5;
     speculative_n_max := 16; input_prefix := JNull; input_suffix := JNull |}.

End slot_params.

(** One entry of a [llama_batch]. *)
Record batch_token := {
  bt_token : llama_token;
  bt_pos : Z;
  bt_seq_id : Z;
  bt_logits : bool;
}.

Definition llama_batch := list batch_token.

Definition llama_batch_add (b : llama_batch) (tok : llama_token) (pos seq_id : Z)
    (logits : bool) : llama_batch :=
  b ++ [ {| bt_token := tok; bt_pos := pos; bt_seq_id := seq_id; bt_logits := logits |} ].

Definition n_tokens (b : llama_batch) : Z := Z.of_nat (length b).

Record completion_token_output := {
  tok : llama_token;
  text_to_send : string;
}.

(** The calls the scheduler makes on the KV cache of the head node and, with
    [to_workers], the matching [llama_send_kv_cache_*] call. *)
Inductive kv_call :=
| kv_cache_clear (to_workers : bool)
| kv_cache_seq_rm (to_workers : bool) (seq_id p0 p1 : Z)
| kv_cache_seq_add (to_workers : bool) (seq_id p0 p1 delta : Z)
| kv_cache_seq_cp (to_workers : bool) (seq_src seq_dst p0 p1 : Z)
| kv_cache_seq_div (to_workers : bool) (seq_id p0 p1 d : Z).

Module gpt_params.

(** the members of [gpt_params] (common.h) the scheduler reads *)
Record t := {
  n_parallel : Z;         (* number of parallel sequences to decode *)
  n_predict : Z;          (* new tokens to predict *)
  n_keep : Z;             (* number of tokens to keep from initial prompt *)
  n_ctx : Z;
  grp_attn_n : Z;         (* group-attention factor *)
  grp_attn_w : Z;         (* group-attention width *)
  ctx_shift : bool;       (* context shift on infinite text generation *)
  cont_batching : bool;   (* insert new sequences for decoding on-the-fly *)
  spm_infill : bool;
  input_suffix : string;
  system_prompt : string;
  speculative_model_empty : bool;   (* params.speculative.model.empty() *)
  speculative_n_min : Z;
  speculative_n_max : Z;
}.

Definition eta (r : t) : t :=
  Build_t (n_parallel r) (n_predict r) (n_keep r) (n_ctx r) (grp_attn_n r)
    (grp_attn_w r) (ctx_shift r) (cont_batching r) (spm_infill r)
    (input_suffix r) (system_prompt r) (speculative_model_empty r)
    (speculative_n_min r) (speculative_n_max r).
#[global] Instance set_n_parallel : Setter n_parallel := ltac:(mk_setter eta n_parallel).
Arguments set_n_parallel _ _ /.
#[global] Instance set_input_suffix : Setter input_suffix :=
  ltac:(mk_setter eta input_suffix).
Arguments set_input_suffix _ _ /.

End gpt_params.

(** ** The external collaborators *)

(** What the loaded model, its tokenizer and the helpers of [utils.hpp]
    answer.  These are functions of their arguments alone. *)
Record llama_model := {
  llama_tokenize : string -> bool -> list llama_token;   (* text, add_special *)
  llama_token_to_piece : llama_token -> string;
  llama_token_is_eog : llama_token -> bool;
  llama_n_ctx_train : Z;
  llama_n_ctx : Z;                  (* llama_n_ctx (ctx): the total context *)
  llama_n_batch : Z;
  llama_n_ubatch : Z;
  llama_add_bos_token : bool;
  llama_add_eos_token : bool;
  llama_token_bos : llama_token;
  llama_token_eos : llama_token;
  llama_token_sep : llama_token;
  llama_token_prefix : llama_token;
  llama_token_suffix : llama_token;
  llama_token_middle : llama_token;
  (* [find_partial_stop_string (stop, text)] of utils.hpp; [None] is npos *)
  find_partial_stop_string : string -> string -> option nat;
  (* [slot_prompt_similarity != 0.0f] *)
  slot_prompt_similarity_set : bool;
  (* the float test [(float) lcp_len / slot_prompt_len > slot_prompt_similarity] *)
  similarity_above : Z -> Z -> bool;
}.

(** The answers of the calls whose result depends on state outside the
    scheduler, for one step of the scheduler thread. *)
Record oracle := {
  ggml_time_us : Z;
  json_schema_to_grammar_ok : bool;       (* false: the conversion throws *)
  gpt_sampler_init_ok : bool;             (* false: returns nullptr *)
  system_decode_ret : nat -> Z;           (* llama_decode of the k-th system chunk *)
  llama_kv_cache_seq_rm_ok : Z -> bool;   (* partial removal, by slot id *)
  llama_decode_ret : nat -> Z;            (* the k-th llama_decode of update_slots *)
  gpt_sampler_sample : Z -> llama_token;              (* by slot id *)
  common_speculative_gen_draft : Z -> list llama_token;
  gpt_sampler_sample_and_accept_n : Z -> list llama_token;
  llama_state_seq_save_file : Z;                       (* bytes written *)
  llama_state_seq_load_file : Z * list llama_token;    (* bytes read, tokens *)
  llama_init_ok : bool;             (* load_model: the model was loaded *)
  llama_init_dft_ok : bool;         (* load_model: the draft model was loaded *)
  common_speculative_are_compatible : bool;
  draft_context_ok : Z -> bool;     (* init: llama_context_setup_backend, by slot id *)
  draft_context_nonnull : Z -> bool;
  speculator_nonnull : Z -> bool;
}.

(** Modelled from the spec: [common_part] of utils.hpp, which is not part of
    the sources at hand; the specification calls it the longest common
    prefix of its two arguments and uses its length. *)
Fixpoint common_part {A} `{EqDecision A} (a b : list A) : Z :=
  match a, b with
  | x :: a', y :: b' => if decide (x = y) then 1 + common_part a' b' else 0
  | _, _ => 0
  end.

(** ** Vectors of tokens *)

(** [v.resize (n)] with [n] a [size_t]: beyond [max_size ()] it throws
    [std::length_error]; new elements are value-initialised. *)
Definition resize (n : Z) (v : list llama_token) : option (list llama_token) :=
  if decide (n < 0 ∨ VECTOR_MAX_SIZE < n) then None
  else Some (take (Z.to_nat n) v ++ replicate (Z.to_nat n - length v) 0).

(** [v[i]] for a [size_t] index *)
Definition element_at (v : list llama_token) (i : Z) : option llama_token :=
  if decide (0 <= i) then v !! Z.to_nat i else None.

(** [v[i] = x] for a [size_t] index *)
Definition assign_at (v : list llama_token) (i : Z) (x : llama_token)
  : option (list llama_token) :=
  if decide (0 <= i < Z.of_nat (length v)) then Some (<[ Z.to_nat i := x ]> v) else None.

(** ** Text helpers *)

Definition string_length (s : string) : Z := Z.of_nat (String.length s).

(** [s.substr (pos)] for [pos <= s.size()] *)
Definition substr_from (pos : nat) (s : string) : string :=
  String.substring pos (String.length s - pos) s.

(** the bytes of a string, as [unsigned char] *)
Fixpoint string_bytes (s : string) : list Z :=
  match s with
  | EmptyString => []
  | String c s' => Z.of_N (Ascii.N_of_ascii c) :: string_bytes s'
  end.

(** The scan for an incomplete UTF-8 character at the end of the text, the
    loop [for (unsigned i = 1; i < 5 && i <= size; ++i)] of process_token.
    [rev_bytes] are the bytes from the last one backwards and [i] counts
    from 1. *)
Fixpoint utf8_incomplete_from (fuel : nat) (i : Z) (rev_bytes : list Z) : bool :=
  match fuel, rev_bytes with
  | S fuel', c :: rest =>
      if decide (Z.land c 192 = 128) then
        (* continuation byte: 10xxxxxx *)
        utf8_incomplete_from fuel' (i + 1) rest
      else if decide (Z.land c 224 = 192) then bool_decide (i < 2)
      else if decide (Z.land c 240 = 224) then bool_decide (i < 3)
      else if decide (Z.land c 248 = 240) then bool_decide (i < 4)
      else false
  | _, _ => false
  end.

Definition utf8_incomplete (text : string) : bool :=
  utf8_incomplete_from 4 1 (rev (string_bytes text)).

(** ** The slot *)

Module server_slot.

Record t := {
  id : Z;
  id_task : Z;
  batch_spec : llama_batch;
  ctx_dft : bool;                   (* ctx_dft != nullptr *)
  spec : bool;                      (* spec != nullptr *)
  index : Z;                        (* the index relative to completion multi-task request *)
  params : slot_params.t;
  state : slot_state;
  t_last_used : Z;                  (* used to determine the slot that has been used the longest *)
  n_ctx : Z;                        (* context size per slot *)
  n_past : Z;
  n_decoded : Z;
  n_remaining : Z;
  i_batch : Z;
  n_predict : Z;
  n_prompt_tokens : Z;
  n_prompt_tokens_processed : Z;
  prompt : json;
  prompt_tokens : list llama_token;
  generated_text : string;
  cache_tokens : list llama_token;
  generated_token_probs : list completion_token_output;
  cmpl_type : server_task_cmpl_type;
  has_next_token : bool;
  truncated : bool;
  stopped_eos : bool;
  stopped_word : bool;
  stopped_limit : bool;
  stopping_word : string;
  smpl : bool;                      (* smpl != nullptr *)
  sampled : llama_token;
  ga_i : Z;                         (* group-attention state *)
  ga_n : Z;                         (* group-attention factor *)
  ga_w : Z;                         (* group-attention width *)
  n_past_se : Z;                    (* self-extend *)
  n_sent_text : Z;                  (* number of sent text character *)
}.

Definition eta (r : t) : t :=
  Build_t (id r) (id_task r) (batch_spec r) (ctx_dft r) (spec r) (index r)
    (params r) (state r) (t_last_used r) (n_ctx r) (n_past r) (n_decoded r)
    (n_remaining r) (i_batch r) (n_predict r) (n_prompt_tokens r)
    (n_prompt_tokens_processed r) (prompt r) (prompt_tokens r)
    (generated_text r) (cache_tokens r) (generated_token_probs r) (cmpl_type r)
    (has_next_token r) (truncated r) (stopped_eos r) (stopped_word r)
    (stopped_limit r) (stopping_word r) (smpl r) (sampled r) (ga_i r) (ga_n r)
    (ga_w r) (n_past_se r) (n_sent_text r).

#[global] Instance set_id : Setter id := ltac:(mk_setter eta id).
Arguments set_id _ _ /.
#[global] Instance set_id_task : Setter id_task := ltac:(mk_setter eta id_task).
Arguments set_id_task _ _ /.
#[global] Instance set_batch_spec : Setter batch_spec := ltac:(mk_setter eta batch_spec).
Arguments set_batch_spec _ _ /.
#[global] Instance set_ctx_dft : Setter ctx_dft := ltac:(mk_setter eta ctx_dft).
Arguments set_ctx_dft _ _ /.
#[global] Instance set_spec : Setter spec := ltac:(mk_setter eta spec).
Arguments set_spec _ _ /.
#[global] Instance set_index : Setter index := ltac:(mk_setter eta index).
Arguments set_index _ _ /.
#[global] Instance set_params : Setter params := ltac:(mk_setter eta params).
Arguments set_params _ _ /.
#[global] Instance set_state : Setter state := ltac:(mk_setter eta state).
Arguments set_state _ _ /.
#[global] Instance set_n_ctx : Setter n_ctx := ltac:(mk_setter eta n_ctx).
Arguments set_n_ctx _ _ /.
#[global] Instance set_n_past : Setter n_past := ltac:(mk_setter eta n_past).
Arguments set_n_past _ _ /.
#[global] Instance set_n_decoded : Setter n_decoded := ltac:(mk_setter eta n_decoded).
Arguments set_n_decoded _ _ /.
#[global] Instance set_n_remaining : Setter n_remaining := ltac:(mk_setter eta n_remaining).
Arguments set_n_remaining _ _ /.
#[global] Instance set_i_batch : Setter i_batch := ltac:(mk_setter eta i_batch).
Arguments set_i_batch _ _ /.
#[global] Instance set_n_predict : Setter n_predict := ltac:(mk_setter eta n_predict).
Arguments set_n_predict _ _ /.
#[global] Instance set_n_prompt_tokens : Setter n_prompt_tokens :=
  ltac:(mk_setter eta n_prompt_tokens).
Arguments set_n_prompt_tokens _ _ /.
#[global] Instance set_n_prompt_tokens_processed : Setter n_prompt_tokens_processed :=
  ltac:(mk_setter eta n_prompt_tokens_processed).
Arguments set_n_prompt_tokens_processed _ _ /.
#[global] Instance set_prompt : Setter prompt := ltac:(mk_setter eta prompt).
Arguments set_prompt _ _ /.
#[global] Instance set_prompt_tokens : Setter prompt_tokens :=
  ltac:(mk_setter eta prompt_tokens).
Arguments set_prompt_tokens _ _ /.
#[global] Instance set_generated_text : Setter generated_text :=
  ltac:(mk_setter eta generated_text).
Arguments set_generated_text _ _ /.
#[global] Instance set_cache_tokens : Setter cache_tokens :=
  ltac:(mk_setter eta cache_tokens).
Arguments set_cache_tokens _ _ /.
#[global] Instance set_generated_token_probs : Setter generated_token_probs :=
  ltac:(mk_setter eta generated_token_probs).
Arguments set_generated_token_probs _ _ /.
#[global] Instance set_cmpl_type : Setter cmpl_type := ltac:(mk_setter eta cmpl_type).
Arguments set_cmpl_type _ _ /.
#[global] Instance set_has_next_token : Setter has_next_token :=
  ltac:(mk_setter eta has_next_token).
Arguments set_has_next_token _ _ /.
#[global] Instance set_truncated : Setter truncated := ltac:(mk_setter eta truncated).
Arguments set_truncated _ _ /.
#[global] Instance set_stopped_eos : Setter stopped_eos := ltac:(mk_setter eta stopped_eos).
Arguments set_stopped_eos _ _ /.
#[global] Instance set_stopped_word : Setter stopped_word :=
  ltac:(mk_setter eta stopped_word).
Arguments set_stopped_word _ _ /.
#[global] Instance set_stopped_limit : Setter stopped_limit :=
  ltac:(mk_setter eta stopped_limit).
Arguments set_stopped_limit _ _ /.
#[global] Instance set_stopping_word : Setter stopping_word :=
  ltac:(mk_setter eta stopping_word).
Arguments set_stopping_word _ _ /.
#[global] Instance set_smpl : Setter smpl := ltac:(mk_setter eta smpl).
Arguments set_smpl _ _ /.
#[global] Instance set_sampled : Setter sampled := ltac:(mk_setter eta sampled).
Arguments set_sampled _ _ /.
#[global] Instance set_ga_i : Setter ga_i := ltac:(mk_setter eta ga_i).
Arguments set_ga_i _ _ /.
#[global] Instance set_ga_n : Setter ga_n := ltac:(mk_setter eta ga_n).
Arguments set_ga_n _ _ /.
#[global] Instance set_ga_w : Setter ga_w := ltac:(mk_setter eta ga_w).
Arguments set_ga_w _ _ /.
#[global] Instance set_n_past_se : Setter n_past_se := ltac:(mk_setter eta n_past_se).
Arguments set_n_past_se _ _ /.
#[global] Instance set_n_sent_text : Setter n_sent_text := ltac:(mk_setter eta n_sent_text).
Arguments set_n_sent_text _ _ /.

(** A default-constructed slot: the member initialisers of the struct.
    [id] and [sampled] have none and are given 0 here.  No setter is
    declared for [t_last_used]: the source never assigns it. *)
Definition default : t :=
  {| id := 0; id_task := -1; batch_spec := []; ctx_dft := false; spec := false;
     index := 0; params := slot_params.default; state := SLOT_STATE_IDLE;
     t_last_used := -1; n_ctx := 0; n_past := 0; n_decoded := 0;
     n_remaining := -1; i_batch := -1; n_predict := -1; n_prompt_tokens := 0;
     n_prompt_tokens_processed := 0; prompt := JNull; prompt_tokens := [];
     generated_text := ""; cache_tokens := []; generated_token_probs := [];
     cmpl_type := SERVER_TASK_CMPL_TYPE_NORMAL; has_next_token := true;
     truncated := false; stopped_eos := false; stopped_word := false;
     stopped_limit := false; stopping_word := ""; smpl := false; sampled := 0;
     ga_i := 0; ga_n := 1; ga_w := 512; n_past_se := 0; n_sent_text := 0 |}.

Definition reset (slot : t) : t :=
  slot <| n_prompt_tokens := 0 |>
       <| generated_text := "" |>
       <| truncated := false |>
       <| stopped_eos := false |>
       <| stopped_word := false |>
       <| stopped_limit := false |>
       <| stopping_word := "" |>
       <| n_past := 0 |>
       <| n_sent_text := 0 |>
       <| cmpl_type := SERVER_TASK_CMPL_TYPE_NORMAL |>
       <| ga_i := 0 |>
       <| n_past_se := 0 |>
       <| generated_token_probs := [] |>.

(** [has_budget]: the answer and the slot, whose [n_remaining] it updates *)
Definition has_budget (global_params : gpt_params.t) (slot : t) : bool * t :=
  if decide (slot_params.n_predict (params slot) = -1
             ∧ gpt_params.n_predict global_params = -1)
  then (true, slot) (* limitless *)
  else
    let n_remaining' :=
      if decide (slot_params.n_predict (params slot) ≠ -1)
      then slot_params.n_predict (params slot) - n_decoded slot
      else if decide (gpt_params.n_predict global_params ≠ -1)
      then gpt_params.n_predict global_params - n_decoded slot
      else -1 in
    (bool_decide (n_remaining' > 0), slot <| n_remaining := n_remaining' |>).

Definition is_processing (slot : t) : bool :=
  bool_decide (state slot ≠ SLOT_STATE_IDLE).

Definition can_speculate (slot : t) : bool :=
  ctx_dft slot
  && bool_decide (slot_params.speculative_n_max (params slot) > 0)
  && slot_params.cache_prompt (params slot).

Definition add_token (token : completion_token_output) (slot : t) : t :=
  if is_processing slot
  then slot <| generated_token_probs := generated_token_probs slot ++ [token] |>
  else slot.

(** [release]; [callback_on_release] is the lambda installed by
    [server_context::init], which calls [queue_tasks.pop_deferred_task ()]. *)
Definition release (slot : t) (queue_tasks : server_queue.t) : t * server_queue.t :=
  if is_processing slot
  then (slot <| state := SLOT_STATE_IDLE |>, server_queue.pop_deferred_task queue_tasks)
  else (slot, queue_tasks).

(** one round of the loop of [find_stopping_strings] *)
Definition find_stopping_step (m : llama_model) (text : string)
    (last_token_size : nat) (type : stop_type)
    (acc : option nat * t) (word : string) : option nat * t :=
  let '(stop_pos, slot) := acc in
  let pos :=
    match type with
    | STOP_TYPE_FULL =>
        let tmp := (String.length word + last_token_size)%nat in
        let from_pos :=
          if decide (tmp < String.length text)%nat
          then (String.length text - tmp)%nat else 0%nat in
        String.index from_pos word text
    | STOP_TYPE_PARTIAL => find_partial_stop_string m word text
    end in
  match pos with
  | Some p =>
      if match stop_pos with None => true | Some q => bool_decide (p < q)%nat end then
        (Some p,
         match type with
         | STOP_TYPE_FULL =>
             slot <| stopped_word := true |>
                  <| stopping_word := word |>
                  <| has_next_token := false |>
         | STOP_TYPE_PARTIAL => slot
         end)
      else (stop_pos, slot)
  | None => (stop_pos, slot)
  end.

(** [find_stopping_strings]; [None] is [std::string::npos] *)
Definition find_stopping_strings (m : llama_model) (text : string)
    (last_token_size : nat) (type : stop_type) (slot : t) : option nat * t :=
  foldl (find_stopping_step m text last_token_size type) (None, slot)
        (slot_params.antiprompt (params slot)).

End server_slot.

(** ** The server context *)

Module server_context.

Import server_slot.

(** Inside this module the members of a slot go by their short names;
    [server_slot.params], [server_slot.n_ctx] and [server_slot.t] stay
    qualified, the short names being those of the context. *)
Record t := {
  params : gpt_params.t;
  model_dft : bool;                 (* model_dft != nullptr *)
  batch : llama_batch;
  clean_kv_cache : bool;
  add_bos_token : bool;
  has_eos_token : bool;
  n_ctx : Z;                        (* total context for all clients / slots *)
  system_need_update : bool;
  system_prompt : string;
  system_tokens : list llama_token;
  slots : list server_slot.t;
  queue_tasks : server_queue.t;
  queue_results : server_response.t;
  kv_log : list kv_call;            (* the KV-cache calls issued so far *)
}.

Definition eta (r : t) : t :=
  Build_t (params r) (model_dft r) (batch r) (clean_kv_cache r) (add_bos_token r)
    (has_eos_token r) (n_ctx r) (system_need_update r) (system_prompt r)
    (system_tokens r) (slots r) (queue_tasks r) (queue_results r) (kv_log r).

#[global] Instance set_params : Setter params := ltac:(mk_setter eta params).
Arguments set_params _ _ /.
#[global] Instance set_model_dft : Setter model_dft := ltac:(mk_setter eta model_dft).
Arguments set_model_dft _ _ /.
#[global] Instance set_batch : Setter batch := ltac:(mk_setter eta batch).
Arguments set_batch _ _ /.
#[global] Instance set_clean_kv_cache : Setter clean_kv_cache :=
  ltac:(mk_setter eta clean_kv_cache).
Arguments set_clean_kv_cache _ _ /.
#[global] Instance set_add_bos_token : Setter add_bos_token :=
  ltac:(mk_setter eta add_bos_token).
Arguments set_add_bos_token _ _ /.
#[global] Instance set_has_eos_token : Setter has_eos_token :=
  ltac:(mk_setter eta has_eos_token).
Arguments set_has_eos_token _ _ /.
#[global] Instance set_n_ctx : Setter n_ctx := ltac:(mk_setter eta n_ctx).
Arguments set_n_ctx _ _ /.
#[global] Instance set_system_need_update : Setter system_need_update :=
  ltac:(mk_setter eta system_need_update).
Arguments set_system_need_update _ _ /.
#[global] Instance set_system_prompt : Setter system_prompt :=
  ltac:(mk_setter eta system_prompt).
Arguments set_system_prompt _ _ /.
#[global] Instance set_system_tokens : Setter system_tokens :=
  ltac:(mk_setter eta system_tokens).
Arguments set_system_tokens _ _ /.
#[global] Instance set_slots : Setter slots := ltac:(mk_setter eta slots).
Arguments set_slots _ _ /.
#[global] Instance set_queue_tasks : Setter queue_tasks := ltac:(mk_setter eta queue_tasks).
Arguments set_queue_tasks _ _ /.
#[global] Instance set_queue_results : Setter queue_results :=
  ltac:(mk_setter eta queue_results).
Arguments set_queue_results _ _ /.
#[global] Instance set_kv_log : Setter kv_log := ltac:(mk_setter eta kv_log).
Arguments set_kv_log _ _ /.

(** a default-constructed context holding the given parameters *)
Definition make (params_ : gpt_params.t) : t :=
  {| params := params_; model_dft := false; batch := []; clean_kv_cache := true;
     add_bos_token := true; has_eos_token := false; n_ctx := 0;
     system_need_update := false; system_prompt := ""; system_tokens := [];
     slots := []; queue_tasks := server_queue.empty;
     queue_results := server_response.empty; kv_log := [] |}.

Definition kv (c : kv_call) (ctx : t) : t := ctx <| kv_log := kv_log ctx ++ [c] |>.

(** a slot releases itself through the callback installed by [init] *)
Definition release_slot (slot : server_slot.t) (ctx : t) : server_slot.t * t :=
  let '(slot', q) := release slot (queue_tasks ctx) in
  (slot', ctx <| queue_tasks := q |>).

(** *** Loops over the slots

    [for (server_slot & slot : slots) body]: the body gets the local
    variables of the enclosing function, the slot and the context, and
    answers with all three and with whether the loop goes on ([false] after
    a [break]).  The slot is written back at its index. *)
Fixpoint for_slots_from {L} (body : L -> server_slot.t -> t -> option (L * server_slot.t * t * bool))
    (todo : list nat) (locals : L) (ctx : t) : option (L * t) :=
  match todo with
  | [] => Some (locals, ctx)
  | i :: rest =>
      match slots ctx !! i with
      | None => Some (locals, ctx)
      | Some slot =>
          '(locals', slot', ctx', go_on) ← body locals slot ctx;
          let ctx'' := ctx' <| slots := <[ i := slot' ]> (slots ctx') |> in
          if go_on : bool then for_slots_from body rest locals' ctx''
          else Some (locals', ctx'')
      end
  end.

Definition for_slots_with {L} (body : L -> server_slot.t -> t -> option (L * server_slot.t * t * bool))
    (locals : L) (ctx : t) : option (L * t) :=
  for_slots_from body (seq 0 (length (slots ctx))) locals ctx.

(** a loop without local variables and without [break] *)
Definition for_slots (body : server_slot.t -> t -> option (server_slot.t * t))
    (ctx : t) : option t :=
  snd <$> for_slots_with
            (λ (_ : unit) slot ctx, '(slot', ctx') ← body slot ctx; Some (tt, slot', ctx', true))
            tt ctx.

(** the slot behind a pointer obtained from [get_slot_by_id] or
    [get_available_slot] is the one at index [i] *)
Definition with_slot (i : nat) (body : server_slot.t -> t -> option (server_slot.t * t))
    (ctx : t) : option t :=
  slot ← slots ctx !! i;
  '(slot', ctx') ← body slot ctx;
  Some (ctx' <| slots := <[ i := slot' ]> (slots ctx') |>).

(** *** Results *)

Definition send (res : server_task_result.t) (ctx : t) : t :=
  ctx <| queue_results := server_response.send res (queue_results ctx) |>.

Definition send_error (id_task : Z) (error : string) (type : error_type) (ctx : t) : t :=
  send {| server_task_result.id := id_task;
          server_task_result.stop := false;
          server_task_result.error := true;
          server_task_result.data := data_error error type |} ctx.

Definition send_partial_response (slot : server_slot.t) (tkn : completion_token_output)
    (ctx : t) : t :=
  send {| server_task_result.id := id_task slot;
          server_task_result.error := false;
          server_task_result.stop := false;
          server_task_result.data := data_partial (text_to_send tkn) (id slot) (index slot) |}
       ctx.

Definition send_final_response (slot : server_slot.t) (ctx : t) : t :=
  send {| server_task_result.id := id_task slot;
          server_task_result.error := false;
          server_task_result.stop := true;
          server_task_result.data :=
            data_final
              {| fr_content :=
                   if slot_params.stream (server_slot.params slot) then ""
                   else generated_text slot;
                 fr_id_slot := id slot;
                 fr_tokens_predicted := n_decoded slot;
                 fr_tokens_evaluated := n_prompt_tokens slot;
                 fr_truncated := truncated slot;
                 fr_stopped_eos := stopped_eos slot;
                 fr_stopped_word := stopped_word slot;
                 fr_stopped_limit := stopped_limit slot;
                 fr_stopping_word := stopping_word slot;
                 fr_tokens_cached := n_past slot;
                 fr_index := index slot |} |}
       ctx.

Definition send_embedding (slot : server_slot.t) (ctx : t) : t :=
  send {| server_task_result.id := id_task slot;
          server_task_result.error := false;
          server_task_result.stop := true;
          server_task_result.data := data_embedding (index slot) |} ctx.

Definition send_rerank (slot : server_slot.t) (ctx : t) : t :=
  send {| server_task_result.id := id_task slot;
          server_task_result.error := false;
          server_task_result.stop := true;
          server_task_result.data := data_rerank (index slot) |} ctx.

Section scheduler.

Variable m : llama_model.

(** *** process_token *)

(** The first half of [process_token]: the piece of the token is appended
    to the generated text, which is searched for the stop strings. *)
Definition process_token_text (result : completion_token_output)
    (slot : server_slot.t) (ctx : t) : server_slot.t * t :=
  let token_str := llama_token_to_piece m (tok result) in
  let slot := slot <| sampled := tok result |> in
  (* search stop word and delete it *)
  let slot := slot <| generated_text := (generated_text slot +:+ token_str)%string |> in
  let slot := slot <| has_next_token := true |> in
  (* check if there is incomplete UTF-8 character at the end *)
  let incomplete := utf8_incomplete (generated_text slot) in
  if incomplete then
    (slot <| has_next_token := true |>, ctx)
  else
    let pos := Z.to_nat (Z.min (n_sent_text slot) (string_length (generated_text slot))) in
    let str_test := substr_from pos (generated_text slot) in
    let '(stop_pos, slot) :=
      find_stopping_strings m str_test (String.length token_str) STOP_TYPE_FULL slot in
    let '(is_stop_full, stop_pos, pos, slot) :=
      match stop_pos with
      | Some sp =>
          let slot :=
            slot <| generated_text :=
                      String.substring 0 (pos + sp) (generated_text slot) |> in
          (true, stop_pos,
           Z.to_nat (Z.min (n_sent_text slot) (string_length (generated_text slot))),
           slot)
      | None =>
          let '(stop_pos, slot) :=
            find_stopping_strings m str_test (String.length token_str)
              STOP_TYPE_PARTIAL slot in
          (false, stop_pos, pos, slot)
      end in
    (* check if there is any token to predict *)
    let '(result, slot) :=
      if match stop_pos with
         | None => true
         | Some sp =>
             negb (has_next_token slot) && negb is_stop_full && bool_decide (0 < sp)%nat
         end
      then
        (* no send the stop word in the response *)
        let text := substr_from pos (generated_text slot) in
        ({| tok := tok result; text_to_send := text |},
         slot <| n_sent_text := n_sent_text slot + string_length text |>)
      else (result, slot) in
    let slot := add_token result slot in
    let ctx :=
      if slot_params.stream (server_slot.params slot)
      then send_partial_response slot result ctx else ctx in
    (slot, ctx).

(** The second half of [process_token]: "check the limits". *)
Definition process_token_limits (global_params : gpt_params.t) (token : llama_token)
    (slot : server_slot.t) : server_slot.t :=
  let slot :=
    (* [slot.n_decoded > 0 && slot.has_next_token && !slot.has_budget (params)]:
       has_budget is only called when the first two tests hold *)
    if bool_decide (n_decoded slot > 0) && has_next_token slot then
      let '(budget, slot) := has_budget global_params slot in
      if budget then slot
      else slot <| stopped_limit := true |> <| has_next_token := false |>
    else slot in
  (* we stop when it reaches the context limit, otherwise it may run forever *)
  let slot :=
    if decide (n_decoded slot >= server_slot.n_ctx slot) then
      slot <| truncated := true |> <| stopped_limit := true |> <| has_next_token := false |>
    else slot in
  let slot :=
    if llama_token_is_eog m token then
      slot <| stopped_eos := true |> <| has_next_token := false |>
    else slot in
  let n_ctx_train := llama_n_ctx_train m in
  let slot :=
    if decide (slot_params.n_predict (server_slot.params slot) < 1
               ∧ n_predict slot < 1
               ∧ ga_n slot = 1
               ∧ n_prompt_tokens slot + n_decoded slot >= n_ctx_train) then
      slot <| truncated := true |> <| stopped_limit := true |> <| has_next_token := false |>
    else slot in
  slot.

(** [process_token]: the answer is [slot.has_next_token] *)
Definition process_token (result : completion_token_output)
    (slot : server_slot.t) (ctx : t) : bool * server_slot.t * t :=
  let '(slot, ctx) := process_token_text result slot ctx in
  let slot := process_token_limits (params ctx) (tok result) slot in
  (has_next_token slot, slot, ctx).

(** *** Start-up *)

(** [load_model]: the answer and the context *)
Definition load_model (o : oracle) (params_ : gpt_params.t) (ctx : t) : bool * t :=
  let ctx := ctx <| params := params_ |> in
  (* dedicate one sequence to the system prompt *)
  let ctx :=
    ctx <| params := (params ctx) <| gpt_params.n_parallel :=
                                       gpt_params.n_parallel (params ctx) + 1 |> |> in
  (* load draft model first *)
  let with_draft := negb (gpt_params.speculative_model_empty (params ctx)) in
  if with_draft && negb (llama_init_dft_ok o) then (false, ctx)
  else
    let ctx := if with_draft then ctx <| model_dft := true |> else ctx in
    (* but be sneaky about it *)
    let ctx :=
      ctx <| params := (params ctx) <| gpt_params.n_parallel :=
                                         gpt_params.n_parallel (params ctx) - 1 |> |> in
    if negb (llama_init_ok o) then (false, ctx)
    else
      let ctx := ctx <| n_ctx := llama_n_ctx m |> in
      let ctx := ctx <| add_bos_token := llama_add_bos_token m |> in
      let ctx := ctx <| has_eos_token := negb (llama_add_eos_token m) |> in
      if with_draft && negb (common_speculative_are_compatible o)
      then (false, ctx <| model_dft := false |>)
      else (true, ctx).

(** The loop of [init] over the slot ids; the flag tells whether the loop
    ran to its end ([false] after one of the early [return]s). *)
Fixpoint init_slots (o : oracle) (n_ctx_slot : Z) (ids : list Z) (ctx : t)
  : option (bool * t) :=
  match ids with
  | [] => Some (true, ctx)
  | i :: rest =>
      let slot := server_slot.default in
      let slot := slot <| id := i |> in
      let slot := slot <| server_slot.n_ctx := n_ctx_slot |> in
      let slot := slot <| n_predict := gpt_params.n_predict (params ctx) |> in
      let draft :=
        if model_dft ctx then
          let slot := slot <| batch_spec := [] |> in
          let slot := slot <| ctx_dft := draft_context_nonnull o i |> in
          if negb (draft_context_ok o i) then None
          else if negb (ctx_dft slot) then None
          else
            let slot := slot <| spec := speculator_nonnull o i |> in
            if negb (spec slot) then None else Some slot
        else Some slot in
      match draft with
      | None => Some (false, ctx)
      | Some slot =>
          let ga_n := gpt_params.grp_attn_n (params ctx) in
          let ga_w := gpt_params.grp_attn_w (params ctx) in
          if decide (ga_n ≠ 1 ∧ ¬ (ga_n > 0 ∧ Z.rem ga_w ga_n = 0)) then
            None (* GGML_ASSERT *)
          else
            let slot := slot <| ga_i := 0 |> <| server_slot.ga_n := ga_n |>
                             <| server_slot.ga_w := ga_w |> in
            let slot := reset slot in
            init_slots o n_ctx_slot rest (ctx <| slots := slots ctx ++ [slot] |>)
      end
  end.

Definition init (o : oracle) (ctx : t) : option t :=
  let n_parallel := gpt_params.n_parallel (params ctx) in
  if decide (n_parallel = 0) then None (* division by zero *)
  else
    let n_ctx_slot := Z.quot (n_ctx ctx) n_parallel in
    '(finished, ctx) ←
      init_slots o n_ctx_slot (Z.of_nat <$> seq 0 (Z.to_nat n_parallel)) ctx;
    if finished : bool then
      (* [slots.front ()] *)
      if decide (slots ctx = []) then None
      else Some (ctx <| batch := [] |>)
    else Some ctx.

(** *** Slot selection *)

(** the position of the slot [get_slot_by_id] points to *)
Definition get_slot_by_id (id_ : Z) (ctx : t) : option nat :=
  fst <$> list_find (λ slot, id slot = id_) (slots ctx).

Definition string_chars (s : string) : list Ascii.ascii := String.list_ascii_of_string s.

(** the first loop of [get_available_slot]: the slot that has at least n%
    prompt similarity; the accumulator holds [max_lcp_len] and [ret] *)
Definition similar_slot_step (prompt_ : string) (acc : Z * option nat)
    (entry : nat * server_slot.t) : Z * option nat :=
  let '(max_lcp_len, ret) := acc in
  let '(i, slot) := entry in
  (* skip the slot if it is not available *)
  if is_processing slot then acc
  else
    match prompt slot with
    | JString slot_prompt =>
        let slot_prompt_len := string_length slot_prompt in
        let lcp_len := common_part (string_chars slot_prompt) (string_chars prompt_) in
        if bool_decide (lcp_len > max_lcp_len) && similarity_above m lcp_len slot_prompt_len
        then (lcp_len, Some i) else acc
    | _ => acc (* skip the slot if it does not contains prompt *)
    end.

(** the second loop: the slot that has been least recently used; the
    accumulator holds [t_last] and [ret] *)
Definition lru_slot_step (acc : Z * option nat) (entry : nat * server_slot.t)
  : Z * option nat :=
  let '(t_last, ret) := acc in
  let '(i, slot) := entry in
  if is_processing slot then acc
  else if decide (t_last_used slot < t_last) then (t_last_used slot, Some i)
  else acc.

(** the first half of [get_available_slot]: "find the slot that has at
    least n% prompt similarity", skipped when the similarity is not set or
    the prompt is empty *)
Definition similar_slot (prompt_ : string) (ctx : t) : option nat :=
  if slot_prompt_similarity_set m && negb (bool_decide (prompt_ = ""))
  then snd (foldl (similar_slot_step prompt_) (0, None)
                  (imap (λ i slot, (i, slot)) (slots ctx)))
  else None.

(** the second half: "find the slot that has been least recently used",
    [t_last] starting from [ggml_time_us ()] *)
Definition lru_slot (o : oracle) (ctx : t) : option nat :=
  snd (foldl lru_slot_step (ggml_time_us o, None)
             (imap (λ i slot, (i, slot)) (slots ctx))).

Definition get_available_slot (o : oracle) (prompt_ : string) (ctx : t) : option nat :=
  match similar_slot prompt_ ctx with
  | Some i => Some i
  | None => lru_slot o ctx
  end.

(** *** Launching a slot *)

(** the stop words of the request: [if (!word.empty ()) push_back (word)],
    where the conversion of a non-string throws *)
Fixpoint stop_words (words : list json) : option (list string) :=
  match words with
  | [] => Some []
  | word :: rest =>
      if json_empty word then stop_words rest
      else match word with
           | JString w => cons w <$> stop_words rest
           | _ => None
           end
  end.

(** the prompt a launched slot keeps; [None] when the request is rejected *)
Definition launch_prompt (p : json) : option json :=
  match p with
  | JString _ => Some p
  | JArray [JString _] => Some p
  | JArray (JInt _ :: _) => Some p
  | JArray [JArray l] => Some (JArray l)
  | JArray (e1 :: e2 :: rest) =>
      (* array of strings *)
      if forallb is_string (e1 :: e2 :: rest) then Some p else None
  | _ => None
  end.

Definition non_null (j : option json) : bool :=
  match j with Some JNull | None => false | Some _ => true end.

(** the first assignments of [launch_slot_with_task]: the parameters of the
    request over the defaults *)
Definition request_params (data : task_data) (global_params : gpt_params.t)
    (sp : slot_params.t) : slot_params.t :=
  let default_params := slot_params.default in
  let sp := sp <| slot_params.stream := json_value (d_stream data) false |> in
  let sp := sp <| slot_params.cache_prompt := json_value (d_cache_prompt data) true |> in
  let sp := sp <| slot_params.n_predict :=
                    json_value (d_n_predict data)
                      (json_value (d_max_tokens data) (slot_params.n_predict default_params)) |> in
  let sp := sp <| slot_params.n_keep :=
                    json_value (d_n_keep data) (gpt_params.n_keep global_params) |> in
  let sp := sp <| slot_params.n_discard :=
                    json_value (d_n_discard data) (slot_params.n_discard default_params) |> in
  let sp := sp <| slot_params.speculative_n_min :=
                    json_value (d_speculative_n_min data)
                      (gpt_params.speculative_n_min global_params) |> in
  let sp := sp <| slot_params.speculative_n_max :=
                    json_value (d_speculative_n_max data)
                      (gpt_params.speculative_n_max global_params) |> in
  sp <| slot_params.speculative_n_min :=
          Z.min (slot_params.speculative_n_max sp) (slot_params.speculative_n_min sp) |>.

(** the assignments after the grammar has been accepted: no prompt cache
    with group attention, [n_predict] within the server's, the infill
    parts *)
Definition adjusted_params (data : task_data) (slot : server_slot.t) : slot_params.t :=
  let default_params := slot_params.default in
  let sp := server_slot.params slot in
  let sp :=
    if slot_params.cache_prompt sp && bool_decide (ga_n slot ≠ 1)
    then sp <| slot_params.cache_prompt := false |> else sp in
  let sp :=
    if decide (n_predict slot > 0 ∧ slot_params.n_predict sp > n_predict slot)
    then sp <| slot_params.n_predict := n_predict slot |> else sp in
  (* infill *)
  let sp := sp <| slot_params.input_prefix :=
                    json_value (d_input_prefix data) (slot_params.input_prefix default_params) |> in
  sp <| slot_params.input_suffix :=
          json_value (d_input_suffix data) (slot_params.input_suffix default_params) |>.

(** "get prompt": the slot with the prompt of the request, or the message
    of the rejection *)
Definition checked_prompt (task : server_task.t) (slot : server_slot.t)
  : string + server_slot.t :=
  if decide (server_task.cmpl_type task ≠ SERVER_TASK_CMPL_TYPE_INFILL) then
    match d_prompt (server_task.data task) with
    | None => inl "prompt must be provided"
    | Some p =>
        match launch_prompt p with
        | Some kept => inr (slot <| prompt := kept |>)
        | None => inl "prompt must be a string, an array of strings or an array of integers"
        end
    end
  else inr slot.

(** [launch_slot_with_task]: the answer, the slot and the context.  The
    sampler parameters the request overrides are opaque to the scheduler and
    are not kept; the error messages are written without their inner
    quotation marks. *)
Definition launch_slot_with_task (o : oracle) (slot : server_slot.t)
    (task : server_task.t) (ctx : t) : option (bool * server_slot.t * t) :=
  let data := server_task.data task in
  let reject (slot : server_slot.t) msg :=
    Some (false, slot, send_error (server_task.id task) msg ERROR_TYPE_INVALID_REQUEST ctx) in
  let slot :=
    slot <| server_slot.params := request_params data (params ctx) (server_slot.params slot) |> in
  (* process "json_schema" and "grammar" *)
  if non_null (d_json_schema data) && non_null (d_grammar data) then
    reject slot "Either json_schema or grammar can be specified, but not both"
  else if bool_decide (is_Some (d_json_schema data) ∧ d_grammar data = None)
          && negb (json_schema_to_grammar_ok o) then
    reject slot "json_schema:"
  else
    let slot := slot <| server_slot.params := adjusted_params data slot |> in
    (* get prompt *)
    match checked_prompt task slot with
    | inl msg => reject slot msg
    | inr slot =>
        words ←
          match d_stop data with
          | Some (JArray words) => stop_words words
          | _ => Some []
          end;
        let slot :=
          slot <| server_slot.params :=
                    (server_slot.params slot) <| slot_params.antiprompt := words |> |> in
        let slot := slot <| smpl := gpt_sampler_init_ok o |> in
        if negb (smpl slot) then
          (* for now, the only error that may happen here is invalid grammar *)
          reject slot "Failed to parse grammar"
        else
          let slot := if ctx_dft slot then slot <| batch_spec := [] |> else slot in
          let slot := slot <| state := SLOT_STATE_PROCESSING_PROMPT |> in
          let slot := slot <| prompt_tokens := [] |> in
          Some (true, slot, ctx)
    end.

(** *** The system prompt *)

Definition kv_cache_clear (ctx : t) : t :=
  let ctx := kv (kv_cache_clear false) ctx in
  let ctx := kv (kv_cache_clear true) ctx in
  ctx <| clean_kv_cache := false |>.

(** the batch of one chunk of the system prompt: [n] tokens from [i] on, at
    their own positions in sequence 0 *)
Definition system_chunk (tokens : list llama_token) (i n : Z) : llama_batch :=
  imap (λ j token, {| bt_token := token; bt_pos := i + Z.of_nat j; bt_seq_id := 0;
                      bt_logits := false |})
       (take (Z.to_nat n) (drop (Z.to_nat i) tokens)).

(** The loop [for (i = 0; i < n_tokens_prompt; i += n_batch)] of
    [system_prompt_update], [k] counting the calls of [llama_decode].  The
    answer is [false] when a decode failed.  With [n_batch >= 1] the loop
    makes at most [n_tokens_prompt] rounds, which is the fuel it is given;
    with a smaller [n_batch] it does not end, and neither does this. *)
Fixpoint system_prompt_decode (o : oracle) (fuel k : nat) (i : Z) (ctx : t)
  : option (bool * t) :=
  let n_batch := llama_n_batch m in
  let n_tokens_prompt := Z.of_nat (length (system_tokens ctx)) in
  if decide (i < n_tokens_prompt) then
    match fuel with
    | O => None
    | S fuel' =>
        let n_tokens := Z.min n_batch (n_tokens_prompt - i) in
        let ctx := ctx <| batch := system_chunk (system_tokens ctx) i n_tokens |> in
        if decide (system_decode_ret o k ≠ 0) then Some (false, ctx)
        else system_prompt_decode o fuel' (S k) (i + n_batch) ctx
    end
  else Some (true, ctx).

Definition system_prompt_update (o : oracle) (ctx : t) : option t :=
  let ctx := kv_cache_clear ctx in
  let ctx := ctx <| system_tokens := [] |> in
  if bool_decide (system_prompt ctx ≠ "") then
    let ctx := ctx <| system_tokens := llama_tokenize m (system_prompt ctx) true |> in
    '(decoded, ctx) ← system_prompt_decode o (length (system_tokens ctx)) 0 0 ctx;
    if decoded : bool then
      (* assign the system KV cache to all parallel sequences *)
      let ctx :=
        foldl (λ ctx i,
                 kv (kv_cache_seq_cp true 0 (i - 1) (-1) (-1))
                    (kv (kv_cache_seq_cp false 0 i (-1) (-1)) ctx))
              ctx
              ((λ j, 1 + Z.of_nat j) <$> seq 0 (Z.to_nat (gpt_params.n_parallel (params ctx)))) in
      Some (ctx <| system_need_update := false |>)
    else Some ctx
  else Some (ctx <| system_need_update := false |>).

Definition system_prompt_set (sys_prompt : string) (ctx : t) : option t :=
  let ctx := ctx <| system_prompt := sys_prompt |> in
  (* release all slots *)
  ctx ← for_slots (λ slot ctx, Some (release_slot slot ctx)) ctx;
  Some (ctx <| system_need_update := true |>).

(** *** Cancellation (called by the HTTP handlers) *)

Definition cancel_result (id_task : Z) : server_task_result.t :=
  {| server_task_result.id := id_task;
     server_task_result.stop := true;
     server_task_result.error := false;
     server_task_result.data := data_cancelled |}.

Definition cancel_task (id_task : Z) : server_task.t :=
  (server_task.make SERVER_TASK_TYPE_CANCEL) <| server_task.id_target := id_task |>.

(** [cancel_tasks]; [id_tasks] lists the set in its iteration order *)
Definition cancel_tasks (id_tasks : list Z) (ctx : t) : option t :=
  let ctx :=
    foldl (λ ctx id_task,
             (* notify the results queue that the task is cancelled *)
             let ctx := send (cancel_result id_task) ctx in
             (* remove the task from the waiting queue *)
             ctx <| queue_results :=
                      server_response.remove_waiting_task_id id_task (queue_results ctx) |>)
          ctx id_tasks in
  (* push to beginning of the queue, so it has highest priority *)
  q ← server_queue.post_many (cancel_task <$> id_tasks) true (queue_tasks ctx);
  Some (ctx <| queue_tasks := q |>).

(** *** process_single_task *)

Definition defer (task : server_task.t) (ctx : t) : t :=
  ctx <| queue_tasks := server_queue.defer task (queue_tasks ctx) |>.

Definition success_result (task : server_task.t) (d : result_data) : server_task_result.t :=
  {| server_task_result.id := server_task.id task;
     server_task_result.stop := true;
     server_task_result.error := false;
     server_task_result.data := d |}.

(** the common opening of the three slot tasks: look the slot up by
    [id_slot], answer "Invalid slot ID" or defer the task, or go on with
    [action] on the idle slot *)
Definition on_idle_slot (task : server_task.t)
    (action : Z -> server_slot.t -> t -> option (server_slot.t * t)) (ctx : t) : option t :=
  id_slot ← d_id_slot (server_task.data task);
  match get_slot_by_id id_slot ctx with
  | None =>
      Some (send_error (server_task.id task) "Invalid slot ID" ERROR_TYPE_INVALID_REQUEST ctx)
  | Some i =>
      slot ← slots ctx !! i;
      if is_processing slot then
        (* if requested slot is unavailable, we defer this task for processing later *)
        Some (defer task ctx)
      else with_slot i (action id_slot) ctx
  end.

(** what SERVER_TASK_TYPE_SLOT_SAVE does with the idle slot it names *)
Definition slot_save (o : oracle) (task : server_task.t) (id_slot : Z)
    (slot : server_slot.t) (ctx : t) : option (server_slot.t * t) :=
  let token_count := Z.of_nat (length (cache_tokens slot)) in
  let nwrite := llama_state_seq_save_file o in
  Some (slot, send (success_result task (data_slot_save id_slot token_count nwrite)) ctx).

(** SERVER_TASK_TYPE_SLOT_RESTORE: [cache_tokens] is resized to [n_ctx],
    filled from the file, and resized to the number of tokens read *)
Definition slot_restore (o : oracle) (task : server_task.t) (id_slot : Z)
    (slot : server_slot.t) (ctx : t) : option (server_slot.t * t) :=
  cache ← resize (server_slot.n_ctx slot) (cache_tokens slot);
  let '(nread, loaded) := llama_state_seq_load_file o in
  (* the tokens of the file are written over the front of the vector *)
  let cache := take (length cache) loaded ++ drop (length loaded) cache in
  let token_count := Z.of_nat (length loaded) in
  if decide (nread = 0) then
    cache ← resize 0 cache;
    Some (slot <| cache_tokens := cache |>,
          send_error (server_task.id task)
            "Unable to restore slot, no available space in KV cache or invalid slot save file"
            ERROR_TYPE_INVALID_REQUEST ctx)
  else
    cache ← resize token_count cache;
    Some (slot <| cache_tokens := cache |>,
          send (success_result task (data_slot_restore id_slot token_count nread)) ctx).

(** SERVER_TASK_TYPE_SLOT_ERASE *)
Definition slot_erase (task : server_task.t) (id_slot : Z)
    (slot : server_slot.t) (ctx : t) : option (server_slot.t * t) :=
  (* Erase token cache *)
  let n_erased := Z.of_nat (length (cache_tokens slot)) in
  let ctx := kv (kv_cache_seq_rm false (id slot + 1) (-1) (-1)) ctx in
  Some (slot <| cache_tokens := [] |>,
        send (success_result task (data_slot_erase id_slot n_erased)) ctx).

Definition process_single_task (o : oracle) (task : server_task.t) (ctx : t) : option t :=
  let data := server_task.data task in
  match server_task.type task with
  | SERVER_TASK_TYPE_COMPLETION =>
      let id_slot := json_value (d_id_slot data) (-1) in
      let found :=
        if decide (id_slot ≠ -1) then get_slot_by_id id_slot ctx
        else
          let prompt_ := match d_prompt data with Some (JString p) => p | _ => "" end in
          get_available_slot o prompt_ ctx in
      match found with
      | None =>
          (* if no slot is available, we defer this task for processing later *)
          Some (defer task ctx)
      | Some i =>
          slot ← slots ctx !! i;
          if is_processing slot then
            (* if requested slot is unavailable, we defer this task for processing later *)
            Some (defer task ctx)
          else
            ctx ←
              match d_system_prompt data with
              | Some sys_prompt =>
                  ctx ← system_prompt_set sys_prompt ctx;
                  for_slots (λ slot ctx, Some (slot <| n_past := 0 |> <| n_past_se := 0 |>, ctx))
                            ctx
              | None => Some ctx
              end;
            with_slot i
              (λ slot ctx,
                 let slot := reset slot in
                 let slot := slot <| id_task := server_task.id task |> in
                 let slot := slot <| cmpl_type := server_task.cmpl_type task |> in
                 let slot := slot <| index := json_value (d_index data) 0 |> in
                 '(_, slot, ctx) ← launch_slot_with_task o slot task ctx;
                 Some (slot, ctx))
              ctx
      end
  | SERVER_TASK_TYPE_CANCEL =>
      (* release slot linked with the task id *)
      snd <$> for_slots_with
                (λ (_ : unit) slot ctx,
                   if decide (id_task slot = server_task.id_target task) then
                     let '(slot, ctx) := release_slot slot ctx in
                     Some (tt, slot, ctx, false)
                   else Some (tt, slot, ctx, true))
                tt ctx
  | SERVER_TASK_TYPE_NEXT_RESPONSE =>
      (* do nothing *)
      Some ctx
  | SERVER_TASK_TYPE_METRICS =>
      let n_idle_slots :=
        Z.of_nat (length (filter (λ slot, state slot = SLOT_STATE_IDLE) (slots ctx))) in
      let n_processing_slots :=
        Z.of_nat (length (filter (λ slot, state slot ≠ SLOT_STATE_IDLE) (slots ctx))) in
      let deferred :=
        Z.of_nat (length (server_queue.queue_tasks_deferred (queue_tasks ctx))) in
      Some (send (success_result task (data_metrics n_idle_slots n_processing_slots deferred))
                 ctx)
  | SERVER_TASK_TYPE_SLOT_SAVE => on_idle_slot task (slot_save o task) ctx
  | SERVER_TASK_TYPE_SLOT_RESTORE => on_idle_slot task (slot_restore o task) ctx
  | SERVER_TASK_TYPE_SLOT_ERASE => on_idle_slot task (slot_erase task) ctx
  | SERVER_TASK_TYPE_SET_LORA =>
      Some (send (success_result task data_success) ctx)
  end.

(** *** update_slots: context shift *)

(** The slide of [cache_tokens] at a context shift,
    [for (size_t i = n_keep + n_discard; i < size; i++) cache[i - n_discard] = cache[i];]
    followed by [cache.resize (size - n_discard)], in [size_t] arithmetic. *)
Definition shift_cache (n_keep n_discard : Z) (cache : list llama_token)
  : option (list llama_token) :=
  let first := to_size_t (n_keep + n_discard) in
  let size := Z.of_nat (length cache) in
  cache' ←
    foldl (λ acc i,
             c ← acc;
             x ← element_at c i;
             assign_at c (to_size_t (i - n_discard)) x)
          (Some cache)
          ((λ k, first + Z.of_nat k) <$> seq 0 (Z.to_nat (size - first)));
  resize (to_size_t (size - n_discard)) cache'.

(** the body of the loop "apply context-shift if needed" *)
Definition context_shift (slot : server_slot.t) (ctx : t) : option (server_slot.t * t) :=
  let n_system := Z.of_nat (length (system_tokens ctx)) in
  if decide (ga_n slot = 1) then
    if is_processing slot
       && bool_decide (n_system + n_past slot >= server_slot.n_ctx slot - 1) then
      if negb (gpt_params.ctx_shift (params ctx)) then
        (* this check is redundant (for good)
           we should never get here, because generation should already stopped
           in process_token() *)
        let '(slot, ctx) := release_slot slot ctx in
        Some (slot, send_error (id_task slot) "context shift is disabled" ERROR_TYPE_SERVER ctx)
      else
        (* Shift context *)
        let n_keep :=
          slot_params.n_keep (server_slot.params slot)
          + (if add_bos_token ctx then 1 else 0) in
        let n_left := n_system + n_past slot - n_keep in
        let n_discard :=
          if decide (slot_params.n_discard (server_slot.params slot) ≠ 0)
          then slot_params.n_discard (server_slot.params slot)
          else Z.quot n_left 2 in
        if decide (¬ (int32 n_discard ∧ int32 (n_past slot - n_discard))) then
          None (* outside the range of int *)
        else
        let ctx := kv (kv_cache_seq_rm false (id slot + 1) n_keep (n_keep + n_discard)) ctx in
        let ctx :=
          kv (kv_cache_seq_add false (id slot + 1) (n_keep + n_discard)
                (n_system + n_past slot) (- n_discard)) ctx in
        let ctx := kv (kv_cache_seq_rm true (id slot) n_keep (n_keep + n_discard)) ctx in
        let ctx :=
          kv (kv_cache_seq_add true (id slot) (n_keep + n_discard)
                (n_system + n_past slot) (- n_discard)) ctx in
        slot ←
          (if slot_params.cache_prompt (server_slot.params slot) then
             cache ← shift_cache n_keep n_discard (cache_tokens slot);
             Some (slot <| cache_tokens := cache |>)
           else Some slot);
        let slot := slot <| n_past := n_past slot - n_discard |> in
        let slot := slot <| truncated := true |> in
        Some (slot, ctx)
    else Some (slot, ctx)
  else Some (slot, ctx).

(** *** update_slots: the sampled tokens of the ongoing sequences *)

Definition add_sampled_token (slot : server_slot.t) (ctx : t) : option (server_slot.t * t) :=
  if decide (state slot ≠ SLOT_STATE_GENERATING) then Some (slot, ctx)
  else
    let slot := slot <| i_batch := n_tokens (batch ctx) |> in
    let slot_npast := if decide (n_past_se slot > 0) then n_past_se slot else n_past slot in
    let ctx :=
      ctx <| batch := llama_batch_add (batch ctx) (sampled slot)
                        (Z.of_nat (length (system_tokens ctx)) + slot_npast)
                        (id slot + 1) true |> in
    let slot := slot <| n_past := n_past slot + 1 |> in
    let slot :=
      if slot_params.cache_prompt (server_slot.params slot)
      then slot <| cache_tokens := cache_tokens slot ++ [sampled slot] |>
      else slot in
    Some (slot, ctx).

(** *** update_slots: prompt assembly *)

(** one round of the loop of [tokenize] over the elements of an array; the
    accumulator holds [first] and [prompt_tokens], and is [None] once a
    conversion has thrown *)
Definition tokenize_step (add_special : bool) (acc : option (bool * list llama_token))
    (p : json) : option (bool * list llama_token) :=
  '(first, prompt_tokens) ← acc;
  match p with
  | JString s_ =>
      Some (false,
            prompt_tokens ++ llama_tokenize m s_ (if first : bool then add_special else false))
  | _ =>
      token ← get_llama_token p;
      Some (false, prompt_tokens ++ [token])
  end.

(** [server_context::tokenize] *)
Definition tokenize (json_prompt : json) (add_special : bool) : option (list llama_token) :=
  match json_prompt with
  | JArray l => snd <$> foldl (tokenize_step add_special) (Some (true, [])) l
  | JString s_ => Some (llama_tokenize m s_ add_special)
  | _ => None
  end.

Definition infill_tokens (slot : server_slot.t) (ctx : t) : option (list llama_token * t) :=
  let add_bos := llama_add_bos_token m in
  let '(suff_rm_leading_spc, ctx) :=
    match gpt_params.input_suffix (params ctx) with
    | String c0 (String c rest) =>
        if decide (c0 = Ascii.Space) then
          (false,
           ctx <| params := (params ctx) <| gpt_params.input_suffix := String c rest |> |>)
        else (true, ctx)
    | _ => (true, ctx)
    end in
  prefix_tokens ← tokenize (slot_params.input_prefix (server_slot.params slot)) false;
  suffix_tokens ← tokenize (slot_params.input_suffix (server_slot.params slot)) false;
  let space_token := 29871 in (* TODO: this should not be hardcoded *)
  let suffix_tokens :=
    match suffix_tokens with
    | first :: rest =>
        if suff_rm_leading_spc && bool_decide (first = space_token) then rest
        else suffix_tokens
    | [] => suffix_tokens
    end in
  let prefix_tokens := llama_token_prefix m :: prefix_tokens in
  let suffix_tokens := llama_token_suffix m :: suffix_tokens in
  let embd_inp := if gpt_params.spm_infill (params ctx) then suffix_tokens else prefix_tokens in
  let embd_end := if gpt_params.spm_infill (params ctx) then prefix_tokens else suffix_tokens in
  let embd_inp := if add_bos then llama_token_bos m :: embd_inp else embd_inp in
  let embd_inp := embd_inp ++ embd_end in
  let middle_token := llama_token_middle m in
  let embd_inp := if decide (middle_token >= 0) then embd_inp ++ [middle_token] else embd_inp in
  Some (embd_inp, ctx).

Definition is_embedding (slot : server_slot.t) : bool :=
  bool_decide (cmpl_type slot = SERVER_TASK_CMPL_TYPE_EMBEDDING
               ∨ cmpl_type slot = SERVER_TASK_CMPL_TYPE_RERANK).

(** "we haven't tokenized the prompt yet - do it now": the tokens of the
    prompt, by the type of the completion.  [inl] stands for the rerank
    prompt that is not an array of two. *)
Definition assemble_prompt (slot : server_slot.t) (ctx : t)
  : option (unit + list llama_token * t) :=
  if decide (cmpl_type slot = SERVER_TASK_CMPL_TYPE_INFILL) then
    '(tokens, ctx) ← infill_tokens slot ctx; Some (inr (tokens, ctx))
  else if decide (cmpl_type slot = SERVER_TASK_CMPL_TYPE_RERANK) then
    (* require slot.prompt to be array of 2 strings *)
    match prompt slot with
    | JArray [query; doc] =>
        (* prompt: [BOS]query[EOS][SEP]doc[EOS] *)
        part0 ← tokenize query false;
        part1 ← tokenize doc false;
        Some (inr ([llama_token_bos m] ++ part0
                   ++ [llama_token_eos m; llama_token_sep m] ++ part1
                   ++ [llama_token_eos m], ctx))
    | _ => Some (inl tt)
    end
  else
    (* add BOS if there isn't system prompt *)
    tokens ← tokenize (prompt slot) (bool_decide (system_prompt ctx = ""));
    Some (inr (tokens, ctx)).

(** "if input prompt is too big, truncate it (if group attention
    self-extend is disabled)" *)
Definition truncate_prompt (slot : server_slot.t) : option server_slot.t :=
  if decide (ga_n slot = 1 ∧ n_prompt_tokens slot >= server_slot.n_ctx slot) then
    let n_keep := slot_params.n_keep (server_slot.params slot) in
    let n_left := server_slot.n_ctx slot - n_keep in
    let n_block_size := Z.quot n_left 2 in
    if decide (n_block_size = 0) then None (* division by zero *)
    else
      let erased_blocks :=
        Z.quot (n_prompt_tokens slot - n_keep - n_block_size) n_block_size in
      let from := n_keep + erased_blocks * n_block_size in
      (* the iterators must stay inside the vector *)
      if decide (0 <= n_keep <= n_prompt_tokens slot
                 ∧ 0 <= from <= n_prompt_tokens slot) then
        let new_tokens :=
          take (Z.to_nat n_keep) (prompt_tokens slot)
          ++ drop (Z.to_nat from) (prompt_tokens slot) in
        let slot := slot <| prompt_tokens := new_tokens |> in
        let slot := slot <| truncated := true |> in
        let slot := slot <| n_prompt_tokens := Z.of_nat (length new_tokens) |> in
        if decide (n_prompt_tokens slot < server_slot.n_ctx slot)
        then Some slot else None (* GGML_ASSERT *)
      else None
  else Some slot.

(** the position a tokenized prompt starts from: with [cache_prompt], after
    the tokens it shares with the cached ones *)
Definition reuse_cache (slot : server_slot.t) : option server_slot.t :=
  if negb (slot_params.cache_prompt (server_slot.params slot)) then
    Some (slot <| n_past_se := 0 |> <| ga_i := 0 |>)
  else if decide (ga_n slot = 1) then
    (* reuse any previously computed tokens that are common with the new prompt *)
    Some (slot <| n_past := common_part (cache_tokens slot) (prompt_tokens slot) |>)
  else None (* GGML_ASSERT *).

(** the checks of a tokenized, non-empty prompt against the sizes of the
    batch and of the context; [inl] stands for the [continue]s *)
Definition check_prompt (n_ubatch : Z) (slot : server_slot.t) (ctx : t)
  : option (server_slot.t * t + server_slot.t * t) :=
  let n_system := Z.of_nat (length (system_tokens ctx)) in
  if is_embedding slot then
    (* this prompt is too large to process - discard it *)
    if decide (n_prompt_tokens slot > n_ubatch) then
      let '(slot, ctx) := release_slot slot ctx in
      Some (inl (slot,
                 send_error (id_task slot)
                   "input is too large to process. increase the physical batch size"
                   ERROR_TYPE_SERVER ctx))
    else Some (inr (slot, ctx))
  else if negb (gpt_params.ctx_shift (params ctx))
          && bool_decide (n_system + n_prompt_tokens slot >= server_slot.n_ctx slot) then
    (* if context shift is disabled, we make sure prompt size is smaller than KV size *)
    let '(slot, ctx) := release_slot slot ctx in
    Some (inl (slot,
               send_error (id_task slot)
                 "the request exceeds the available context size. try increasing the context size or enable context shift"
                 ERROR_TYPE_INVALID_REQUEST ctx))
  else
    let sp := server_slot.params slot in
    let sp :=
      if decide (slot_params.n_keep sp < 0)
      then sp <| slot_params.n_keep := n_system + n_prompt_tokens slot + 3 |>
      else sp in
    let sp :=
      sp <| slot_params.n_keep :=
              Z.min (server_slot.n_ctx slot - 4) (slot_params.n_keep sp) |> in
    let slot := slot <| server_slot.params := sp |> in
    slot ← truncate_prompt slot;
    slot ← reuse_cache slot;
    Some (inr (slot, ctx)).

(** "we have to evaluate at least 1 token to generate logits." *)
Definition leave_one_token (slot : server_slot.t) : server_slot.t :=
  if decide (n_past slot = n_prompt_tokens slot ∧ n_past slot > 0) then
    let slot := slot <| n_past := n_past slot - 1 |> in
    if decide (ga_i slot > 0) then slot <| n_past_se := n_past_se slot - 1 |>
    else slot
  else slot.

(** The block run when [prompt_tokens] is empty.  [inl] stands for its
    [continue]s. *)
Definition tokenize_prompt (n_ubatch : Z) (slot : server_slot.t) (ctx : t)
  : option (server_slot.t * t + server_slot.t * t) :=
  assembled ← assemble_prompt slot ctx;
  match assembled with
  | inl _ =>
      let '(slot, ctx) := release_slot slot ctx in
      Some (inl (slot, send_error (id_task slot) "invalid prompt for rerank task"
                         ERROR_TYPE_INVALID_REQUEST ctx))
  | inr (tokens, ctx) =>
      let slot := slot <| prompt_tokens := tokens |> in
      let slot := slot <| n_past := 0 |> in
      let slot := slot <| n_prompt_tokens := Z.of_nat (length tokens) |> in
      (* empty prompt passed -> release the slot and send empty response *)
      if decide (prompt_tokens slot = []) then
        let '(slot, ctx) := release_slot slot ctx in
        Some (inl (slot, send_final_response slot ctx))
      else
        checked ← check_prompt n_ubatch slot ctx;
        match checked with
        | inl r => Some (inl r)
        | inr (slot, ctx) =>
            Some (inr ((leave_one_token slot) <| n_prompt_tokens_processed := 0 |>, ctx))
        end
  end.

(** the loop [while (slot_npast >= ga_i + ga_w)] inside the admission of
    the prompt tokens; it ends within the fuel it is given exactly when each
    round lowers [slot_npast - ga_i], and runs forever otherwise *)
Fixpoint ga_while (fuel : nat) (ga_n_ ga_w_ slot_npast ga_i_ : Z) : option (Z * Z) :=
  if decide (slot_npast >= ga_i_ + ga_w_) then
    match fuel with
    | O => None
    | S fuel' =>
        let bd := Z.quot ga_w_ ga_n_ * (ga_n_ - 1) in
        ga_while fuel' ga_n_ ga_w_ (slot_npast - bd) (ga_i_ + Z.quot ga_w_ ga_n_)
    end
  else Some (slot_npast, ga_i_).

(** "add prompt tokens for processing in the current batch": the loop
    [for (; n_past < n_prompt_tokens && batch.n_tokens < n_batch; ++n_past)];
    it makes at most [n_prompt_tokens - n_past] rounds *)
Fixpoint add_prompt_tokens (fuel : nat) (n_batch slot_npast ga_i_ : Z)
    (slot : server_slot.t) (ctx : t) : option (server_slot.t * t) :=
  if decide (n_past slot < n_prompt_tokens slot ∧ n_tokens (batch ctx) < n_batch) then
    match fuel with
    | O => None
    | S fuel' =>
        '(slot_npast, ga_i_) ←
          (if decide (ga_n slot ≠ 1)
           then ga_while (Z.to_nat (slot_npast - ga_i_ - ga_w slot + 1))
                         (ga_n slot) (ga_w slot) slot_npast ga_i_
           else Some (slot_npast, ga_i_));
        token ← element_at (prompt_tokens slot) (n_past slot);
        let ctx :=
          ctx <| batch := llama_batch_add (batch ctx) token
                            (Z.of_nat (length (system_tokens ctx)) + slot_npast)
                            (id slot + 1) false |> in
        let slot :=
          if slot_params.cache_prompt (server_slot.params slot)
          then slot <| cache_tokens := cache_tokens slot ++ [token] |>
          else slot in
        let slot := slot <| n_prompt_tokens_processed := n_prompt_tokens_processed slot + 1 |> in
        add_prompt_tokens fuel' n_batch (slot_npast + 1) ga_i_
          (slot <| n_past := n_past slot + 1 |>) ctx
    end
  else Some (slot, ctx).

(** [batch.logits[batch.n_tokens - 1] = true] *)
Definition set_last_logits (b : llama_batch) : llama_batch :=
  match reverse b with
  | [] => b
  | last :: before =>
      reverse before
      ++ [ {| bt_token := bt_token last; bt_pos := bt_pos last;
              bt_seq_id := bt_seq_id last; bt_logits := true |} ]
  end.

(** "keep only the common part" of the sequence of the slot in the KV
    cache *)
Definition keep_common_part (o : oracle) (slot : server_slot.t) (ctx : t)
  : server_slot.t * t :=
  let n_system := Z.of_nat (length (system_tokens ctx)) in
  let p0 := n_system + n_past slot in
  let ctx := kv (kv_cache_seq_rm false (id slot + 1) p0 (-1)) ctx in
  if negb (llama_kv_cache_seq_rm_ok o (id slot)) then
    (* could not partially delete (likely using a non-Transformer model) *)
    let ctx := kv (kv_cache_seq_rm false (id slot + 1) (-1) (-1)) ctx in
    let ctx := kv (kv_cache_seq_rm true (id slot) (-1) (-1)) ctx in
    let ctx :=
      if decide (n_system ≠ 0) then
        (* copy over the system prompt when there is one *)
        let ctx := kv (kv_cache_seq_cp false 0 (id slot + 1) (-1) (-1)) ctx in
        kv (kv_cache_seq_cp true 0 (id slot) (-1) (-1)) ctx
      else ctx in
    (* there is no common part left (except for the system prompt) *)
    (slot <| n_past := 0 |> <| n_past_se := 0 |> <| ga_i := 0 |>, ctx)
  else (slot, kv (kv_cache_seq_rm true (id slot) p0 (-1)) ctx).

(** The prompt of a slot enters the batch: the cached tokens are cut down
    to the common part, the prompt tokens are added while the batch has
    room, and the slot whose whole prompt is in becomes DONE_PROMPT. *)
Definition admit_prompt (o : oracle) (n_batch : Z) (slot : server_slot.t) (ctx : t)
  : option (server_slot.t * t) :=
  (* keep only the common part *)
  let '(slot, ctx) := keep_common_part o slot ctx in
  (* remove the non-common part from the cache *)
  cache ←
    (if decide (int32 (n_past slot))
     then resize (to_size_t (n_past slot)) (cache_tokens slot)
     else None (* outside the range of int *));
  let slot := slot <| cache_tokens := cache |> in
  let slot_npast := if decide (n_past_se slot > 0) then n_past_se slot else n_past slot in
  (* add prompt tokens for processing in the current batch *)
  '(slot, ctx) ←
    add_prompt_tokens (Z.to_nat (n_prompt_tokens slot - n_past slot)) n_batch
      slot_npast (ga_i slot) slot ctx;
  (* entire prompt has been processed *)
  if decide (n_past slot = n_prompt_tokens slot) then
    let slot := slot <| state := SLOT_STATE_DONE_PROMPT |> in
    if decide (n_tokens (batch ctx) > 0) then
      (* extract the logits only for the last token *)
      let ctx := ctx <| batch := set_last_logits (batch ctx) |> in
      let slot := slot <| n_decoded := 0 |> in
      let slot := slot <| i_batch := n_tokens (batch ctx) - 1 |> in
      Some (slot, ctx)
    else None (* GGML_ASSERT *)
  else Some (slot, ctx).

(** The body of the loop "next, batch any pending prompts without
    exceeding n_batch"; its local variable is [batch_type]
    (-1: none, 0: non-embedding, 1: embedding). *)
Definition add_prompt (o : oracle) (n_batch n_ubatch : Z) (batch_type : Z)
    (slot : server_slot.t) (ctx : t) : option (Z * server_slot.t * t * bool) :=
  let continue (slot : server_slot.t) (ctx : t) := Some (batch_type, slot, ctx, true) in
  (* [if (batch.n_tokens >= n_batch) break;] at the end of the body *)
  let finish (batch_type : Z) (slot : server_slot.t) (ctx : t) :=
    Some (batch_type, slot, ctx, negb (bool_decide (n_tokens (batch ctx) >= n_batch))) in
  (* this slot still has a prompt to be processed *)
  if decide (state slot = SLOT_STATE_PROCESSING_PROMPT) then
    tokenized ←
      (if decide (prompt_tokens slot = []) then tokenize_prompt n_ubatch slot ctx
       else Some (inr (slot, ctx)));
    match tokenized with
    | inl (slot, ctx) => continue slot ctx
    | inr (slot, ctx) =>
        (* non-causal tasks require to fit the entire prompt in the physical batch *)
        if is_embedding slot
           && bool_decide (n_tokens (batch ctx) + n_prompt_tokens slot > n_batch) then
          (* cannot fit the prompt in the current batch - will try next iter *)
          continue slot ctx
        else
          (* check that we are in the right batch_type, if not defer the slot *)
          let slot_type := if is_embedding slot then 1 else 0 in
          if decide (batch_type ≠ -1 ∧ batch_type ≠ slot_type) then continue slot ctx
          else
            let batch_type := if decide (batch_type = -1) then slot_type else batch_type in
            '(slot, ctx) ← admit_prompt o n_batch slot ctx;
            finish batch_type slot ctx
    end
  else finish batch_type slot ctx.

(** *** update_slots: decoding, sampling and speculation *)

(** the body of the loop "context extension via Self-Extend" run before
    each decode; the [while] ends within its fuel exactly when each round
    lowers [n_past_se - ga_i] *)
Fixpoint self_extend_while (fuel : nat) (slot : server_slot.t) (ctx : t)
  : option (server_slot.t * t) :=
  if decide (n_past_se slot >= ga_i slot + ga_w slot) then
    match fuel with
    | O => None
    | S fuel' =>
        let ib := Z.quot (ga_n slot * ga_i slot) (ga_w slot) in
        let bd := Z.quot (ga_w slot) (ga_n slot) * (ga_n slot - 1) in
        let dd := Z.quot (ga_w slot) (ga_n slot) - ib * bd - ga_w slot in
        let calls (to_workers : bool) (seq : Z) :=
          [ kv_cache_seq_add to_workers seq (ga_i slot) (n_past_se slot) (ib * bd);
            kv_cache_seq_div to_workers seq (ga_i slot + ib * bd)
              (ga_i slot + ib * bd + ga_w slot) (ga_n slot);
            kv_cache_seq_add to_workers seq (ga_i slot + ib * bd + ga_w slot)
              (n_past_se slot + ib * bd) dd ] in
        let ctx :=
          foldl (λ ctx j, kv j ctx) ctx
                (flat_map (λ '(a, b), [a; b])
                          (zip (calls false (id slot + 1)) (calls true (id slot)))) in
        let slot := slot <| n_past_se := n_past_se slot - bd |> in
        let slot := slot <| ga_i := ga_i slot + Z.quot (ga_w slot) (ga_n slot) |> in
        self_extend_while fuel' slot ctx
    end
  else Some (slot, ctx).

Definition self_extend (n_tokens_ : Z) (slot : server_slot.t) (ctx : t)
  : option (server_slot.t * t) :=
  if decide (ga_n slot ≠ 1) then
    '(slot, ctx) ←
      self_extend_while (Z.to_nat (n_past_se slot - ga_i slot - ga_w slot + 1)) slot ctx;
    Some (slot <| n_past_se := n_past_se slot + n_tokens_ |>, ctx)
  else Some (slot, ctx).

(** "release slot because of stop condition" *)
Definition release_and_send_final (slot : server_slot.t) (ctx : t) : server_slot.t * t :=
  let '(slot, ctx) := release_slot slot ctx in
  (slot, send_final_response slot ctx).

(** The commit of the tokens accepted from a speculation: [ids] is the
    answer of [gpt_sampler_sample_and_accept_n].  [ids.end () - 1] on an
    empty vector is undefined. *)
Definition speculative_commit (id_ : llama_token) (ids : list llama_token)
    (slot : server_slot.t) : option server_slot.t :=
  let slot := slot <| n_past := n_past slot + Z.of_nat (length ids) |> in
  let slot := slot <| n_decoded := n_decoded slot + Z.of_nat (length ids) |> in
  let slot := slot <| cache_tokens := cache_tokens slot ++ [id_] |> in
  if decide (ids = []) then None
  else Some (slot <| cache_tokens := cache_tokens slot ++ removelast ids |>).

(** the loop over the accepted tokens, ended by the [break] after a stop *)
Fixpoint process_accepted (ids : list llama_token) (slot : server_slot.t) (ctx : t)
  : server_slot.t * t :=
  match ids with
  | [] => (slot, ctx)
  | id_ :: rest =>
      let '(go_on, slot, ctx) :=
        process_token {| tok := id_; text_to_send := "" |} slot ctx in
      if go_on : bool then process_accepted rest slot ctx
      else release_and_send_final slot ctx
  end.

(** the batch of a speculation: [id_] at [n_past], then the draft *)
Definition speculation_batch (id_ : llama_token) (draft : list llama_token)
    (slot : server_slot.t) : llama_batch :=
  llama_batch_add [] id_ (n_past slot) (id slot + 1) true
  ++ imap (λ j token, {| bt_token := token; bt_pos := n_past slot + 1 + Z.of_nat j;
                         bt_seq_id := id slot + 1; bt_logits := true |}) draft.

(** The body of the loop over the slots after a successful decode of the
    tokens [i, i + n_tokens_) of the batch. *)
Definition sample_slot (o : oracle) (i n_tokens_ : Z) (slot : server_slot.t) (ctx : t)
  : option (server_slot.t * t) :=
  if decide (i_batch slot < i ∨ i_batch slot >= i + n_tokens_) then Some (slot, ctx)
  else
    let after_prompt :=
      if decide (state slot = SLOT_STATE_DONE_PROMPT) then
        if decide (cmpl_type slot = SERVER_TASK_CMPL_TYPE_EMBEDDING) then
          (* prompt evaluated for embedding *)
          let ctx := send_embedding slot ctx in
          let '(slot, ctx) := release_slot slot ctx in
          inl (slot <| i_batch := -1 |>, ctx)
        else if decide (cmpl_type slot = SERVER_TASK_CMPL_TYPE_RERANK) then
          let ctx := send_rerank slot ctx in
          let '(slot, ctx) := release_slot slot ctx in
          inl (slot <| i_batch := -1 |>, ctx)
        else
          (* prompt evaluated for next-token prediction *)
          inr (slot <| state := SLOT_STATE_GENERATING |>)
      else if decide (state slot ≠ SLOT_STATE_GENERATING) then inl (slot, ctx)
      else inr slot in
    match after_prompt with
    | inl r => Some r
    | inr slot =>
        let id_ := gpt_sampler_sample o (id slot) in
        let slot := slot <| i_batch := -1 |> in
        let slot := slot <| n_decoded := n_decoded slot + 1 |> in
        let '(go_on, slot, ctx) :=
          process_token {| tok := id_; text_to_send := "" |} slot ctx in
        if negb go_on then
          (* release slot because of stop condition *)
          Some (release_and_send_final slot ctx)
        else if negb (can_speculate slot) then
          (* check if the slot supports speculative decoding *)
          Some (slot, ctx)
        else
          let draft := common_speculative_gen_draft o (id slot) in
          (* ignore small drafts *)
          if decide (slot_params.speculative_n_min (server_slot.params slot)
                     > Z.of_nat (length draft)) then Some (slot, ctx)
          else
            (* construct the speculation batch *)
            let slot := slot <| batch_spec := speculation_batch id_ draft slot |> in
            (* the accepted tokens from the speculation *)
            let ids := gpt_sampler_sample_and_accept_n o (id slot) in
            slot ← speculative_commit id_ ids slot;
            let ctx := kv (kv_cache_seq_rm false (id slot + 1) (n_past slot) (-1)) ctx in
            let ctx := kv (kv_cache_seq_rm true (id slot) (n_past slot) (-1)) ctx in
            Some (process_accepted ids slot ctx)
    end.

(** "process the created batch of tokens": the loop
    [for (i = 0; i < batch.n_tokens; i += n_batch)], [k] counting the calls
    of [llama_decode].  A failed decode halves [n_batch] and tries the same
    [i] again, or gives up when [n_batch] is 1.  For [n_batch >= 1] the loop
    makes at most [batch.n_tokens + n_batch] rounds, which is the fuel
    [update_slots] gives it. *)
Fixpoint decode_batch (o : oracle) (fuel k : nat) (i n_batch : Z) (ctx : t) : option t :=
  if decide (i < n_tokens (batch ctx)) then
    match fuel with
    | O => None
    | S fuel' =>
        let n_tokens_ := Z.min n_batch (n_tokens (batch ctx) - i) in
        ctx ← for_slots (self_extend n_tokens_) ctx;
        let ret := llama_decode_ret o k in
        if decide (ret ≠ 0) then
          if decide (n_batch = 1 ∨ ret < 0) then
            (* if you get here, it means the KV cache is full - try increasing
               it via the context size *)
            for_slots
              (λ slot ctx,
                 let '(slot, ctx) := release_slot slot ctx in
                 Some (slot,
                       send_error (id_task slot)
                         "Input prompt is too big compared to KV size. Please try increasing KV size."
                         ERROR_TYPE_SERVER ctx))
              ctx
          else
            (* retry with half the batch size to try to find a free slot in
               the KV cache *)
            let n_batch := Z.quot n_batch 2 in
            let i := i - n_batch in
            decode_batch o fuel' (S k) (i + n_batch) n_batch ctx
        else
          ctx ← for_slots (sample_slot o i n_tokens_) ctx;
          decode_batch o fuel' (S k) (i + n_batch) n_batch ctx
    end
  else Some ctx.

(** *** update_slots *)

Definition update_slots (o : oracle) (ctx : t) : option t :=
  ctx ← (if system_need_update ctx then system_prompt_update o ctx else Some ctx);
  (* check if all slots are idle *)
  if forallb (λ slot, negb (is_processing slot)) (slots ctx) then
    Some (if bool_decide (system_prompt ctx = "") && clean_kv_cache ctx
          then kv_cache_clear ctx else ctx)
  else
    (* posting NEXT_RESPONSE *)
    '(_, q) ←
      server_queue.post (server_task.make SERVER_TASK_TYPE_NEXT_RESPONSE) false
        (queue_tasks ctx);
    let ctx := ctx <| queue_tasks := q |> in
    (* apply context-shift if needed *)
    ctx ← for_slots context_shift ctx;
    (* start populating the batch for this iteration *)
    let ctx := ctx <| batch := [] |> in
    (* frist, add sampled tokens from any ongoing sequences *)
    ctx ← for_slots add_sampled_token ctx;
    (* process in chunks of params.n_batch *)
    let n_batch := llama_n_batch m in
    let n_ubatch := llama_n_ubatch m in
    (* track if this is an embedding or non-embedding batch *)
    let batch_type := if decide (n_tokens (batch ctx) > 0) then 0 else -1 in
    (* next, batch any pending prompts without exceeding n_batch *)
    ctx ←
      (if gpt_params.cont_batching (params ctx) || bool_decide (n_tokens (batch ctx) = 0)
       then snd <$> for_slots_with (add_prompt o n_batch n_ubatch) batch_type ctx
       else Some ctx);
    if decide (n_tokens (batch ctx) = 0) then
      (* no tokens to decode *)
      Some ctx
    else
      (* process the created batch of tokens *)
      decode_batch o (length (batch ctx) + Z.to_nat n_batch) 0 0 n_batch ctx.

End scheduler.

(** *** The tasks of a request (called by the HTTP handlers) *)

(** what [create_tasks_cmpl] returns, or that it throws
    [std::runtime_error (error_msg)] *)
Inductive created_tasks :=
| prompt_error
| created (tasks : list server_task.t).

(** [data["prompt"] = prompt] *)
Definition with_prompt (prompt : json) (d : task_data) : task_data :=
  {| d_id_slot := d_id_slot d; d_prompt := Some prompt;
     d_system_prompt := d_system_prompt d; d_index := d_index d;
     d_stream := d_stream d; d_cache_prompt := d_cache_prompt d;
     d_n_predict := d_n_predict d; d_max_tokens := d_max_tokens d;
     d_n_keep := d_n_keep d; d_n_discard := d_n_discard d;
     d_speculative_n_min := d_speculative_n_min d;
     d_speculative_n_max := d_speculative_n_max d;
     d_json_schema := d_json_schema d; d_grammar := d_grammar d;
     d_stop := d_stop d; d_input_prefix := d_input_prefix d;
     d_input_suffix := d_input_suffix d; d_reset_bucket := d_reset_bucket d |}.

(** [data["index"] = i] *)
Definition with_index (i : Z) (d : task_data) : task_data :=
  {| d_id_slot := d_id_slot d; d_prompt := d_prompt d;
     d_system_prompt := d_system_prompt d; d_index := Some i;
     d_stream := d_stream d; d_cache_prompt := d_cache_prompt d;
     d_n_predict := d_n_predict d; d_max_tokens := d_max_tokens d;
     d_n_keep := d_n_keep d; d_n_discard := d_n_discard d;
     d_speculative_n_min := d_speculative_n_min d;
     d_speculative_n_max := d_speculative_n_max d;
     d_json_schema := d_json_schema d; d_grammar := d_grammar d;
     d_stop := d_stop d; d_input_prefix := d_input_prefix d;
     d_input_suffix := d_input_suffix d; d_reset_bucket := d_reset_bucket d |}.

Section requests.

(** [json_is_array_of_numbers] of utils.hpp, which is not part of the
    sources at hand *)
Variable json_is_array_of_numbers : json -> bool.

(** the lambda [create_task] of [create_tasks_cmpl]; [tasks] is the vector
    it pushes to *)
Definition create_task (cmpl_type_ : server_task_cmpl_type) (task_data_ : task_data)
    (replace_prompt : bool) (prompt_ : json) (tasks : list server_task.t) (ctx : t)
  : option (list server_task.t * t) :=
  '(id_, q) ← server_queue.get_new_id (queue_tasks ctx);
  let task :=
    {| server_task.id := id_;
       server_task.id_target := -1;
       server_task.cmpl_type := cmpl_type_;
       server_task.type := SERVER_TASK_TYPE_COMPLETION;
       server_task.data :=
         if replace_prompt then with_prompt prompt_ task_data_ else task_data_ |} in
  Some (tasks ++ [task], ctx <| queue_tasks := q |>).

(** [for (size_t i = 1; i < prompts.size (); i++)] of the rerank:
    [question] is [prompts[0]], [documents] are the prompts from [i] on *)
Fixpoint rerank_tasks (cmpl_type_ : server_task_cmpl_type) (data_ : task_data)
    (question : json) (i : nat) (documents : list json)
    (tasks : list server_task.t) (ctx : t) : option (list server_task.t * t) :=
  match documents with
  | [] => Some (tasks, ctx)
  | document :: rest =>
      let qd := JArray [question; document] in
      let data_ := with_index (Z.of_nat i - 1) data_ in
      '(tasks, ctx) ← create_task cmpl_type_ data_ true qd tasks ctx;
      rerank_tasks cmpl_type_ data_ question (S i) rest tasks ctx
  end.

(** [for (size_t i = 0; i < prompts.size (); i++)] of the multi-prompt
    tasks: [prompts] are the prompts from [i] on *)
Fixpoint multi_prompt_tasks (cmpl_type_ : server_task_cmpl_type) (data_ : task_data)
    (i : nat) (prompts : list json)
    (tasks : list server_task.t) (ctx : t) : option (created_tasks * t) :=
  match prompts with
  | [] => Some (created tasks, ctx)
  | e :: rest =>
      if is_string e || json_is_array_of_numbers e then
        let data_ := with_index (Z.of_nat i) data_ in
        '(tasks, ctx) ← create_task cmpl_type_ data_ true e tasks ctx;
        multi_prompt_tasks cmpl_type_ data_ (S i) rest tasks ctx
      else Some (prompt_error, ctx)
  end.

Definition create_tasks_cmpl (data_ : task_data) (cmpl_type_ : server_task_cmpl_type)
    (ctx : t) : option (created_tasks * t) :=
  match d_prompt data_ with
  | None => Some (prompt_error, ctx)
  | Some prompt_ =>
      (* if the prompt is a singleton (i.e. a string or a list of tokens), we
         only need to create single task *)
      if is_string prompt_ || json_is_array_of_numbers prompt_ then
        let data_ := with_index 0 data_ in
        '(tasks, ctx) ← create_task cmpl_type_ data_ false JNull [] ctx;
        Some (created tasks, ctx)
      else
        (* otherwise, it's a multiple-prompt task, we break it into smaller
           tasks *)
        match prompt_ with
        | JArray prompts =>
            if decide (cmpl_type_ = SERVER_TASK_CMPL_TYPE_RERANK) then
              (* prompts[0] is the question, the rest are the
                 answers/documents *)
              match prompts with
              | [] => Some (created [], ctx)
              | question :: documents =>
                  '(tasks, ctx) ←
                    rerank_tasks cmpl_type_ data_ question 1 documents [] ctx;
                  Some (created tasks, ctx)
              end
            else multi_prompt_tasks cmpl_type_ data_ 0 prompts [] ctx
        | _ =>
            (* invalid case *)
            Some (prompt_error, ctx)
        end
  end.

(** The opening of [handle_completions_generic], which the handlers of the
    chat completions, of the embeddings and of the rerank repeat: the tasks
    are created, their ids join the waiting ids, and they are posted.  An
    exception of [create_tasks_cmpl] leaves the handler. *)
Definition post_tasks_cmpl (data_ : task_data) (cmpl_type_ : server_task_cmpl_type)
    (ctx : t) : option (created_tasks * t) :=
  '(r, ctx) ← create_tasks_cmpl data_ cmpl_type_ ctx;
  match r with
  | prompt_error => Some (prompt_error, ctx)
  | created tasks =>
      let ctx :=
        ctx <| queue_results :=
                 server_response.add_waiting_tasks tasks (queue_results ctx) |> in
      q ← server_queue.post_many tasks false (queue_tasks ctx);
      Some (created tasks, ctx <| queue_tasks := q |>)
  end.

End requests.

End server_context.

(** ** The server as a transition system

    The scheduler thread runs [start_loop]: it takes the tasks of the main
    queue one by one through [process_single_task] and, the queue found
    empty, runs [update_slots].  The HTTP handlers run beside it and touch
    the two queues only.  An event is one call of either side, taken as a
    whole; [ev_update_slots] is allowed whatever the queue holds, since a
    handler may post between the scheduler's look at the queue and its
    call. *)

Inductive event :=
| ev_post (task : server_task.t) (front : bool)
| ev_post_many (tasks : list server_task.t) (front : bool)
| ev_get_new_id
| ev_add_waiting_task_id (id_task : Z)
| ev_add_waiting_tasks (tasks : list server_task.t)
| ev_remove_waiting_task_id (id_task : Z)
| ev_remove_waiting_task_ids (id_tasks : list Z)
| ev_recv (id_tasks : gset Z)
| ev_cancel_tasks (id_tasks : list Z)
| ev_terminate
| ev_process_single_task (o : oracle)
| ev_update_slots (o : oracle).

Definition on_queue_tasks (f : server_queue.t -> option server_queue.t)
    (ctx : server_context.t) : option server_context.t :=
  q ← f (server_context.queue_tasks ctx);
  Some (ctx <| server_context.queue_tasks := q |>).

Definition on_queue_results (f : server_response.t -> server_response.t)
    (ctx : server_context.t) : option server_context.t :=
  Some (ctx <| server_context.queue_results := f (server_context.queue_results ctx) |>).

Definition step (m : llama_model) (ev : event) (ctx : server_context.t)
  : option server_context.t :=
  match ev with
  | ev_post task front => on_queue_tasks (λ q, snd <$> server_queue.post task front q) ctx
  | ev_post_many tasks front => on_queue_tasks (server_queue.post_many tasks front) ctx
  | ev_get_new_id => on_queue_tasks (λ q, snd <$> server_queue.get_new_id q) ctx
  | ev_add_waiting_task_id id_task =>
      on_queue_results (server_response.add_waiting_task_id id_task) ctx
  | ev_add_waiting_tasks tasks => on_queue_results (server_response.add_waiting_tasks tasks) ctx
  | ev_remove_waiting_task_id id_task =>
      on_queue_results (server_response.remove_waiting_task_id id_task) ctx
  | ev_remove_waiting_task_ids id_tasks =>
      on_queue_results (server_response.remove_waiting_task_ids id_tasks) ctx
  | ev_recv id_tasks =>
      '(_, r) ← server_response.recv id_tasks (server_context.queue_results ctx);
      Some (ctx <| server_context.queue_results := r |>)
  | ev_cancel_tasks id_tasks => server_context.cancel_tasks id_tasks ctx
  | ev_terminate => on_queue_tasks (λ q, Some (server_queue.terminate q)) ctx
  | ev_process_single_task o =>
      '(task, q) ← server_queue.pop_front (server_context.queue_tasks ctx);
      server_context.process_single_task m o task (ctx <| server_context.queue_tasks := q |>)
  | ev_update_slots o => server_context.update_slots m o ctx
  end.

Fixpoint run (m : llama_model) (evs : list event) (ctx : server_context.t)
  : option server_context.t :=
  match evs with
  | [] => Some ctx
  | ev :: rest => ctx' ← step m ev ctx; run m rest ctx'
  end.

(** [main]: the system prompt of the command line, [load_model], [init] *)
Definition start (m : llama_model) (o : oracle) (params_ : gpt_params.t)
  : option server_context.t :=
  let ctx := server_context.make params_ in
  ctx ←
    (if bool_decide (gpt_params.system_prompt params_ ≠ "")
     then server_context.system_prompt_set (gpt_params.system_prompt params_) ctx
     else Some ctx);
  let '(loaded, ctx) := server_context.load_model m o params_ ctx in
  if loaded : bool then server_context.init o ctx else None.

(** the states the server can be in *)
Definition reachable (m : llama_model) (ctx : server_context.t) : Prop :=
  ∃ o params_ ctx0 evs, start m o params_ = Some ctx0 ∧ run m evs ctx0 = Some ctx.

(** ** Vocabulary of the properties *)

(** the tasks as [post] leaves them: an id still at -1 is filled in from
    the counter, which starts at [next] *)
Fixpoint with_ids (next : Z) (tasks : list server_task.t) : list server_task.t :=
  match tasks with
  | [] => []
  | task :: rest =>
      if decide (server_task.id task = -1)
      then task <| server_task.id := next |> :: with_ids (next + 1) rest
      else task :: with_ids next rest
  end.

(** the tasks posted in bulk leave the main queue in their input order,
    relative to one another *)
Definition dequeued_in_input_order (tasks : list server_task.t) (front : bool)
    (q : server_queue.t) : Prop :=
  ∃ q', server_queue.post_many tasks front q = Some q'
        ∧ with_ids (server_queue.id q) tasks
            `sublist_of` server_queue.drain (length (server_queue.queue_tasks q')) q'.

(** a model, an oracle and a configuration to run the scheduler on: two
    slots, a total context of 64 tokens, batches of 8 tokens, a tokenizer
    that maps a text to its bytes (after BOS = 1), and a sampler that always
    draws token 97 *)
Definition example_model : llama_model :=
  {| llama_tokenize := λ text add_special,
       (if add_special then [1] else []) ++ string_bytes text;
     llama_token_to_piece := λ token, String (Ascii.ascii_of_N (Z.to_N token)) EmptyString;
     llama_token_is_eog := λ token, bool_decide (token = 2);
     llama_n_ctx_train := 4096; llama_n_ctx := 64;
     llama_n_batch := 8; llama_n_ubatch := 8;
     llama_add_bos_token := true; llama_add_eos_token := false;
     llama_token_bos := 1; llama_token_eos := 2; llama_token_sep := 3;
     llama_token_prefix := 4; llama_token_suffix := 5; llama_token_middle := 6;
     find_partial_stop_string := λ _ _, None;
     slot_prompt_similarity_set := false;
     similarity_above := λ _ _, false |}.

Definition example_oracle : oracle :=
  {| ggml_time_us := 1000;
     json_schema_to_grammar_ok := true; gpt_sampler_init_ok := true;
     system_decode_ret := λ _, 0; llama_kv_cache_seq_rm_ok := λ _, true;
     llama_decode_ret := λ _, 0; gpt_sampler_sample := λ _, 97;
     common_speculative_gen_draft := λ _, [];
     gpt_sampler_sample_and_accept_n := λ _, [98];
     llama_state_seq_save_file := 12; llama_state_seq_load_file := (12, [7; 8; 9]);
     llama_init_ok := true; llama_init_dft_ok := true;
     common_speculative_are_compatible := true;
     draft_context_ok := λ _, true; draft_context_nonnull := λ _, true;
     speculator_nonnull := λ _, true |}.

Definition example_params : gpt_params.t :=
  {| gpt_params.n_parallel := 2; gpt_params.n_predict := -1; gpt_params.n_keep := 0;
     gpt_params.n_ctx := 64; gpt_params.grp_attn_n := 1; gpt_params.grp_attn_w := 512;
     gpt_params.ctx_shift := true; gpt_params.cont_batching := true;
     gpt_params.spm_infill := false; gpt_params.input_suffix := "";
     gpt_params.system_prompt := ""; gpt_params.speculative_model_empty := true;
     gpt_params.speculative_n_min := 5; gpt_params.speculative_n_max := 16 |}.

(** the context shift as the specification words it: [n_keep] is the
    request's [n_keep] parameter *)
Definition shifted_by_request_n_keep (slot : server_slot.t) (ctx : server_context.t) : Prop :=
  let n_keep := slot_params.n_keep (server_slot.params slot) in
  let n_left :=
    Z.of_nat (length (server_context.system_tokens ctx)) + server_slot.n_past slot - n_keep in
  let n_discard :=
    if decide (slot_params.n_discard (server_slot.params slot) ≠ 0)
    then slot_params.n_discard (server_slot.params slot)
    else Z.quot n_left 2 in
  ∃ slot' ctx',
    server_context.context_shift slot ctx = Some (slot', ctx')
    ∧ server_slot.n_past slot' = server_slot.n_past slot - n_discard
    ∧ server_slot.truncated slot' = true
    ∧ server_slot.cache_tokens slot'
      = take (Z.to_nat n_keep) (server_slot.cache_tokens slot)
        ++ drop (Z.to_nat (n_keep + n_discard)) (server_slot.cache_tokens slot).

(** a generating slot that has filled its context of 11 tokens, with
    [n_keep = 2] requested *)
Definition full_slot : server_slot.t :=
  server_slot.default
    <| server_slot.state := SLOT_STATE_GENERATING |>
    <| server_slot.id_task := 7 |>
    <| server_slot.n_ctx := 11 |>
    <| server_slot.n_past := 10 |>
    <| server_slot.cache_tokens := [100; 101; 102; 103; 104; 105; 106; 107; 108; 109] |>
    <| server_slot.params := slot_params.default <| slot_params.n_keep := 2 |> |>.

Definition example_context : server_context.t :=
  (server_context.make example_params) <| server_context.slots := [full_slot] |>.

(** the first stop condition as the specification words it: whenever the
    generation budget per [n_predict] is exhausted, [stopped_limit] is set *)
Definition budget_sets_stopped_limit (m : llama_model) (result : completion_token_output)
    (slot : server_slot.t) (ctx : server_context.t) : Prop :=
  (server_slot.has_budget (server_context.params ctx) slot).1 = false →
  server_slot.stopped_limit (server_context.process_token m result slot ctx).1.2 = true.

(** a generating slot with one token left to predict and the stop word "a" *)
Definition one_token_left : server_slot.t :=
  server_slot.default
    <| server_slot.state := SLOT_STATE_GENERATING |>
    <| server_slot.id_task := 7 |>
    <| server_slot.n_ctx := 32 |>
    <| server_slot.n_prompt_tokens := 3 |>
    <| server_slot.n_past := 4 |>
    <| server_slot.n_decoded := 1 |>
    <| server_slot.params :=
         slot_params.default <| slot_params.n_predict := 1 |>
                             <| slot_params.antiprompt := ["a"] |> |>.

(** what [process_token] leaves alone in a slot *)
Definition same_but_text_and_stops (slot slot' : server_slot.t) : Prop :=
  server_slot.id slot' = server_slot.id slot
  ∧ server_slot.id_task slot' = server_slot.id_task slot
  ∧ server_slot.state slot' = server_slot.state slot
  ∧ server_slot.t_last_used slot' = server_slot.t_last_used slot
  ∧ server_slot.params slot' = server_slot.params slot
  ∧ server_slot.n_ctx slot' = server_slot.n_ctx slot
  ∧ server_slot.n_past slot' = server_slot.n_past slot
  ∧ server_slot.n_decoded slot' = server_slot.n_decoded slot
  ∧ server_slot.n_predict slot' = server_slot.n_predict slot
  ∧ server_slot.n_prompt_tokens slot' = server_slot.n_prompt_tokens slot
  ∧ server_slot.cache_tokens slot' = server_slot.cache_tokens slot
  ∧ server_slot.ctx_dft slot' = server_slot.ctx_dft slot
  ∧ server_slot.ga_n slot' = server_slot.ga_n slot
  ∧ server_slot.index slot' = server_slot.index slot.

(** *** What holds of every reachable state *)

(** of a slot: [t_last_used] still has its initial value; a slot that is
    processing carries the id of a task; and a slot whose prompt is done, or
    that is generating, with [cache_prompt] set has as many cached tokens as
    [n_past] says *)
Definition slot_ok (slot : server_slot.t) : Prop :=
  server_slot.t_last_used slot = -1
  ∧ (server_slot.state slot ≠ SLOT_STATE_IDLE → server_slot.id_task slot ≠ -1)
  ∧ (server_slot.state slot = SLOT_STATE_DONE_PROMPT
     ∨ server_slot.state slot = SLOT_STATE_GENERATING →
     slot_params.cache_prompt (server_slot.params slot) = true →
     Z.of_nat (length (server_slot.cache_tokens slot)) = server_slot.n_past slot).

(** of the task queue: the id counter has not gone below zero and every
    queued task has been given an id *)
Definition queue_ok (q : server_queue.t) : Prop :=
  0 <= server_queue.id q
  ∧ Forall (λ task, server_task.id task ≠ -1) (server_queue.queue_tasks q)
  ∧ Forall (λ task, server_task.id task ≠ -1) (server_queue.queue_tasks_deferred q).

Definition server_ok (ctx : server_context.t) : Prop :=
  Forall slot_ok (server_context.slots ctx) ∧ queue_ok (server_context.queue_tasks ctx).

(** a step of the scheduler that leaves the slots and the task queue alone *)
Definition same_slots_and_tasks (ctx ctx' : server_context.t) : Prop :=
  server_context.slots ctx' = server_context.slots ctx
  ∧ server_context.queue_tasks ctx' = server_context.queue_tasks ctx.

(** the body of a loop over the slots keeps [server_ok] *)
Definition body_ok {L}
    (body : L -> server_slot.t -> server_context.t
            -> option (L * server_slot.t * server_context.t * bool)) : Prop :=
  ∀ l slot ctx l' slot' ctx' go_on,
    server_ok ctx → slot_ok slot →
    body l slot ctx = Some (l', slot', ctx', go_on) →
    server_ok ctx' ∧ slot_ok slot'.

(** two cancel tasks with their ids *)
Definition two_tasks : list server_task.t :=
  [ (server_task.make SERVER_TASK_TYPE_CANCEL) <| server_task.id := 10 |>;
    (server_task.make SERVER_TASK_TYPE_CANCEL) <| server_task.id := 11 |> ].

(** what the assembly and the admission of a prompt leave alone in a slot *)
Definition same_task (slot slot' : server_slot.t) : Prop :=
  server_slot.t_last_used slot' = server_slot.t_last_used slot
  ∧ server_slot.id_task slot' = server_slot.id_task slot
  ∧ server_slot.state slot' = server_slot.state slot
  ∧ slot_params.cache_prompt (server_slot.params slot')
    = slot_params.cache_prompt (server_slot.params slot).

(** *** A completion from its request to its end *)

(** a completion request: the prompt "hi" and at most three tokens *)
Definition completion_request : server_task.t :=
  (server_task.make SERVER_TASK_TYPE_COMPLETION)
    <| server_task.data :=
         {| d_id_slot := None; d_prompt := Some (JString "hi"); d_system_prompt := None;
            d_index := None; d_stream := None; d_cache_prompt := None;
            d_n_predict := Some 3; d_max_tokens := None; d_n_keep := None;
            d_n_discard := None; d_speculative_n_min := None;
            d_speculative_n_max := None; d_json_schema := None; d_grammar := None;
            d_stop := None; d_input_prefix := None; d_input_suffix := None;
            d_reset_bucket := None |} |>.

(** the handler posts the request and waits for its results; the scheduler
    launches it on a slot and, iteration after iteration, takes the
    NEXT_RESPONSE task off the queue and generates a token, until the third
    one ends the completion *)
Definition completion_run : list event :=
  [ ev_post completion_request false; ev_add_waiting_task_id 0;
    ev_process_single_task example_oracle; ev_update_slots example_oracle;
    ev_process_single_task example_oracle; ev_update_slots example_oracle;
    ev_process_single_task example_oracle; ev_update_slots example_oracle ].

(** the invariant as the specification words it *)
Definition idle_iff_no_task (ctx : server_context.t) : Prop :=
  ∀ slot, slot ∈ server_context.slots ctx →
    server_slot.state slot = SLOT_STATE_IDLE ↔ server_slot.id_task slot = -1.

(** *** The cached tokens and [n_past] *)

(** with [cache_prompt] set, the slot has as many cached tokens as [n_past]
    says *)
Definition cache_in_step (slot : server_slot.t) : Prop :=
  slot_params.cache_prompt (server_slot.params slot) = true →
  Z.of_nat (length (server_slot.cache_tokens slot)) = server_slot.n_past slot.

(** the invariant as the specification words it: of every slot *)
Definition cache_always_in_step (ctx : server_context.t) : Prop :=
  ∀ slot, slot ∈ server_context.slots ctx → cache_in_step slot.

(** a request to restore slot 0 from a file *)
Definition restore_request : server_task.t :=
  (server_task.make SERVER_TASK_TYPE_SLOT_RESTORE)
    <| server_task.data :=
         {| d_id_slot := Some 0; d_prompt := None; d_system_prompt := None;
            d_index := None; d_stream := None; d_cache_prompt := None;
            d_n_predict := None; d_max_tokens := None; d_n_keep := None;
            d_n_discard := None; d_speculative_n_min := None;
            d_speculative_n_max := None; d_json_schema := None; d_grammar := None;
            d_stop := None; d_input_prefix := None; d_input_suffix := None;
            d_reset_bucket := None |} |>.

(** the handler posts the request and waits; the scheduler restores the
    slot and runs an iteration *)
Definition restore_run : list event :=
  [ ev_post restore_request false; ev_add_waiting_task_id 0;
    ev_process_single_task example_oracle; ev_update_slots example_oracle ].

(** the first steps of [completion_run]: the completion has its prompt
    decoded and its first token sampled *)
Definition generating_run : list event :=
  [ ev_post completion_request false; ev_add_waiting_task_id 0;
    ev_process_single_task example_oracle; ev_update_slots example_oracle ].

(** *** The calls of the two queues

    Every member function of [server_queue] and of [server_response] takes
    the lock of its queue, so the threads of the server see a queue go
    through a sequence of whole calls. *)

Inductive queue_call :=
| call_post (task : server_task.t) (front : bool)
| call_post_many (tasks : list server_task.t) (front : bool)
| call_defer (task : server_task.t)
| call_get_new_id
| call_pop_deferred_task
| call_terminate
| call_pop_front.

Definition queue_call_run (c : queue_call) (q : server_queue.t) : option server_queue.t :=
  match c with
  | call_post task front => snd <$> server_queue.post task front q
  | call_post_many tasks front => server_queue.post_many tasks front q
  | call_defer task => Some (server_queue.defer task q)
  | call_get_new_id => snd <$> server_queue.get_new_id q
  | call_pop_deferred_task => Some (server_queue.pop_deferred_task q)
  | call_terminate => Some (server_queue.terminate q)
  | call_pop_front => snd <$> server_queue.pop_front q
  end.

Fixpoint queue_calls_run (cs : list queue_call) (q : server_queue.t)
  : option server_queue.t :=
  match cs with
  | [] => Some q
  | c :: rest => q' ← queue_call_run c q; queue_calls_run rest q'
  end.

Inductive response_call :=
| call_add_waiting_task_id (id_task : Z)
| call_add_waiting_tasks (tasks : list server_task.t)
| call_remove_waiting_task_id (id_task : Z)
| call_remove_waiting_task_ids (id_tasks : list Z)
| call_send (result : server_task_result.t)
| call_recv (id_tasks : gset Z).

(** [None]: a [recv] that finds no result and keeps waiting *)
Definition response_call_run (c : response_call) (r : server_response.t)
  : option server_response.t :=
  match c with
  | call_add_waiting_task_id id_task => Some (server_response.add_waiting_task_id id_task r)
  | call_add_waiting_tasks tasks => Some (server_response.add_waiting_tasks tasks r)
  | call_remove_waiting_task_id id_task =>
      Some (server_response.remove_waiting_task_id id_task r)
  | call_remove_waiting_task_ids id_tasks =>
      Some (server_response.remove_waiting_task_ids id_tasks r)
  | call_send result => Some (server_response.send result r)
  | call_recv id_tasks => snd <$> server_response.recv id_tasks r
  end.

Fixpoint response_calls_run (cs : list response_call) (r : server_response.t)
  : option server_response.t :=
  match cs with
  | [] => Some r
  | c :: rest => r' ← response_call_run c r; response_calls_run rest r'
  end.

(** the call registers a waiter for the task [t] *)
Definition registers (t : Z) (c : response_call) : Prop :=
  match c with
  | call_add_waiting_task_id id_task => id_task = t
  | call_add_waiting_tasks tasks => t ∈ server_task.id <$> tasks
  | _ => False
  end.

(** the queued results of the task [t], oldest first *)
Definition results_of (t : Z) (r : server_response.t) : list server_task_result.t :=
  filter (λ res, server_task_result.id res = t) (server_response.queue_results r).

(** *** The slots as [init] makes them *)

(** a slot that has not served any task *)
Definition fresh_slot (slot : server_slot.t) : Prop :=
  server_slot.state slot = SLOT_STATE_IDLE
  ∧ server_slot.id_task slot = -1
  ∧ server_slot.cache_tokens slot = []
  ∧ server_slot.prompt_tokens slot = []
  ∧ server_slot.n_past slot = 0.

(** the ids of the slots, in the order of the vector *)
Definition slot_ids (ctx : server_context.t) : list Z :=
  server_slot.id <$> server_context.slots ctx.

(** *** What the scheduler does to the result queue *)

(** from [ctx] to [ctx'] the waiting ids are the same and the result queue
    has only grown at its end, by results whose ids satisfy [T] and had a
    waiter *)
Definition sent_to (T : Z → Prop) (ctx ctx' : server_context.t) : Prop :=
  let r := server_context.queue_results ctx in
  let r' := server_context.queue_results ctx' in
  server_response.waiting_task_ids r' = server_response.waiting_task_ids r
  ∧ ∃ new,
      server_response.queue_results r' = server_response.queue_results r ++ new
      ∧ Forall (λ res, T (server_task_result.id res)
                       ∧ server_task_result.id res ∈ server_response.waiting_task_ids r)
               new.

(** the ids of the tasks the slots hold, or held last *)
Definition slot_tasks (ctx : server_context.t) : list Z :=
  server_slot.id_task <$> server_context.slots ctx.

(** [completion_run] up to its last iteration: the completion has two of
    its three tokens *)
Definition last_token_run : list event :=
  [ ev_post completion_request false; ev_add_waiting_task_id 0;
    ev_process_single_task example_oracle; ev_update_slots example_oracle;
    ev_process_single_task example_oracle; ev_update_slots example_oracle;
    ev_process_single_task example_oracle ].

(** *** The tasks of a request *)

(** the task that [create_task] makes of the request's data for the prompt
    [p], as the [k]-th task after the id counter stood at [first] *)
Definition created_task (cmpl_type_ : server_task_cmpl_type) (data_ : task_data)
    (first : Z) (k : nat) (p : json) : server_task.t :=
  {| server_task.id := first + Z.of_nat k;
     server_task.id_target := -1;
     server_task.cmpl_type := cmpl_type_;
     server_task.type := SERVER_TASK_TYPE_COMPLETION;
     server_task.data := server_context.with_prompt p
                           (server_context.with_index (Z.of_nat k) data_) |}.

(** the id counter of the task queue moved on by [n] *)
Definition ids_taken (n : nat) (ctx : server_context.t) : server_context.t :=
  ctx <| server_context.queue_tasks :=
           (server_context.queue_tasks ctx)
             <| server_queue.id := server_queue.id (server_context.queue_tasks ctx)
                                   + Z.of_nat n |> |>.

(** [json_is_array_of_numbers] as utils.hpp of llama.cpp has it, for the
    examples *)
Definition array_of_numbers (j : json) : bool :=
  match j with JArray l => forallb is_number l | _ => false end.

(** the data of [completion_request] with another prompt *)
Definition request_data (p : json) : task_data :=
  server_context.with_prompt p (server_task.data completion_request).

(** *** The ids the task queue hands out *)





(** *** The results of one task *)





(** *** The final result of a task *)







(** * Properties *)

(** ** The task queue *)

Lemma drain_all (q : server_queue.t) :
  server_queue.drain (length (server_queue.queue_tasks q)) q = server_queue.queue_tasks q.
Proof.
  destruct q as [i r tasks d]. simpl.
  induction tasks as [|task tasks IH]; simpl; [done|].
  unfold server_queue.pop_front. simpl. by rewrite IH.
Qed.

Lemma post_many_queue (tasks : list server_task.t) (front : bool) (q : server_queue.t) :
  server_queue.id q + Z.of_nat (length tasks) <= INT32_MAX →
  ∃ q', server_queue.post_many tasks front q = Some q'
        ∧ server_queue.queue_tasks q'
          = (if front
             then reverse (with_ids (server_queue.id q) tasks) ++ server_queue.queue_tasks q
             else server_queue.queue_tasks q ++ with_ids (server_queue.id q) tasks)
        ∧ server_queue.queue_tasks_deferred q' = server_queue.queue_tasks_deferred q
        ∧ server_queue.id q <= server_queue.id q'
          <= server_queue.id q + Z.of_nat (length tasks).
Proof.
  revert q. induction tasks as [|task tasks IH]; intros q Hid.
  - exists q. simpl. split; [done|]. split; [|split; [done|lia]].
    destruct front; simpl; [done|]. by rewrite app_nil_r.
  - simpl. unfold server_queue.assign_id, server_queue.next_id.
    rewrite length_cons in Hid.
    destruct (decide (server_task.id task = -1)) as [Hm|Hm]; simpl.
    + destruct (decide (server_queue.id q = INT32_MAX)) as [He|He]; [lia|]. simpl.
      destruct (IH (server_queue.push (task <| server_task.id := server_queue.id q |>) front
                      (q <| server_queue.id := server_queue.id q + 1 |>)))
        as (q' & Hpost & Hq & Hd & Hi).
      { destruct front; simpl; lia. }
      exists q'. split; [done|].
      destruct front; simpl in *.
      * rewrite Hq, reverse_cons, <- app_assoc. split; [done|]. split; [done|lia].
      * rewrite Hq, <- app_assoc. split; [done|]. split; [done|lia].
    + destruct (IH (server_queue.push task front q)) as (q' & Hpost & Hq & Hd & Hi).
      { destruct front; simpl; lia. }
      exists q'. split; [done|].
      destruct front; simpl in *.
      * rewrite Hq, reverse_cons, <- app_assoc. split; [done|]. split; [done|lia].
      * rewrite Hq, <- app_assoc. split; [done|]. split; [done|lia].
Qed.

(** C5, as stated, fails for [front = true]: two tasks posted in bulk to
    the front of an empty queue leave it in the reverse of their input
    order. *)
Lemma post_many_front_not_in_input_order :
  ¬ dequeued_in_input_order two_tasks true server_queue.empty.
Proof.
  intros (q' & Hpost & Hsub).
  vm_compute in Hpost. injection Hpost as <-.
  vm_compute in Hsub.
  apply sublist_cons_l in Hsub as (k1 & k2 & Heq & Hsub).
  destruct k1 as [|x1 [|x2 [|x3 k1]]]; simplify_eq/=.
  apply sublist_cons_l in Hsub as (k1 & k2 & Heq & _).
  destruct k1; simplify_eq/=.
Qed.

(** C5 (amended): the bulk [post] fills in the missing ids and inserts the
    tasks in one step; with [front = false] they are appended, so they are
    dequeued in their input order after what the queue held; with
    [front = true] each task is pushed in front of the previous one, so they
    are dequeued first and in the reverse of their input order.  The deferred
    queue is left alone. *)
Theorem post_many_order (tasks : list server_task.t) (front : bool) (q : server_queue.t) :
  server_queue.id q + Z.of_nat (length tasks) <= INT32_MAX →
  ∃ q', server_queue.post_many tasks front q = Some q'
        ∧ server_queue.drain (length (server_queue.queue_tasks q')) q'
          = (if front
             then reverse (with_ids (server_queue.id q) tasks) ++ server_queue.queue_tasks q
             else server_queue.queue_tasks q ++ with_ids (server_queue.id q) tasks)
        ∧ server_queue.queue_tasks_deferred q' = server_queue.queue_tasks_deferred q
        ∧ (front = false → dequeued_in_input_order tasks front q).
Proof.
  intros Hid.
  destruct (post_many_queue tasks front q Hid) as (q' & Hpost & Hq & Hd & _).
  exists q'. split; [done|]. rewrite drain_all. split; [done|]. split; [done|].
  intros ->. exists q'. split; [done|]. rewrite drain_all, Hq.
  apply sublist_inserts_l. done.
Qed.

Lemma post_many_order_witness :
  ∃ q', server_queue.post_many two_tasks true server_queue.empty = Some q'
        ∧ server_queue.drain (length (server_queue.queue_tasks q')) q'
          = reverse (with_ids 0 two_tasks) ++ [].
Proof.
  destruct (post_many_order two_tasks true server_queue.empty) as (q' & H1 & H2 & _).
  - vm_compute. discriminate.
  - exists q'. split; [exact H1|exact H2].
Defined.

(** ** Start-up *)

(** taking a hypothesis about a computation apart, branch by branch *)
Ltac destr H :=
  repeat (simpl in H;
          first [ discriminate H
                | match type of H with
                  | context [match ?x with _ => _ end] => destruct x eqn:?
                  | context [if ?x then _ else _] => destruct x eqn:?
                  end ]).

(** the same for every equation among the hypotheses *)
Ltac destr_eqs :=
  repeat (simplify_eq/=;
          match goal with
          | H : _ ≫= _ = Some _ |- _ => apply bind_Some in H as (? & ? & ?)
          | H : _ <$> _ = Some _ |- _ => apply fmap_Some in H as (? & ? & ?)
          | H : context [match ?x with _ => _ end] |- _ =>
              match type of H with _ = _ => destruct x eqn:? end
          | H : context [if ?x then _ else _] |- _ =>
              match type of H with _ = _ => destruct x eqn:? end
          end).

Lemma load_model_context m o params_ ctx ctx' :
  server_context.load_model m o params_ ctx = (true, ctx') →
  server_context.n_ctx ctx' = llama_n_ctx m
  ∧ gpt_params.n_parallel (server_context.params ctx') = gpt_params.n_parallel params_
  ∧ server_context.slots ctx' = server_context.slots ctx.
Proof.
  unfold server_context.load_model. intros H. destr H; simplify_eq/=.
  all: repeat split; try done; lia.
Qed.

Lemma init_slots_n_ctx o n_ctx_slot ids ctx finished ctx' :
  server_context.init_slots o n_ctx_slot ids ctx = Some (finished, ctx') →
  Forall (λ slot, server_slot.n_ctx slot = n_ctx_slot) (server_context.slots ctx) →
  Forall (λ slot, server_slot.n_ctx slot = n_ctx_slot) (server_context.slots ctx')
  ∧ server_context.n_ctx ctx' = server_context.n_ctx ctx
  ∧ server_context.params ctx' = server_context.params ctx.
Proof.
  revert ctx. induction ids as [|i ids IH]; intros ctx H Hall; simpl in H.
  - by simplify_eq.
  - destr_eqs; try done.
    all: match goal with
         | Hi : server_context.init_slots _ _ _ _ = Some _ |- _ =>
             apply IH in Hi as (? & ? & ?); [done|]
         end.
    all: simpl; apply Forall_app; split; [done|]; apply Forall_singleton.
    all: repeat case_match; by simplify_eq/=.
Qed.

Lemma system_prompt_set_no_slots sys_prompt ctx ctx' :
  server_context.slots ctx = [] →
  server_context.system_prompt_set sys_prompt ctx = Some ctx' →
  server_context.slots ctx' = [].
Proof.
  unfold server_context.system_prompt_set, server_context.for_slots,
    server_context.for_slots_with.
  intros Hs H. simpl in H. rewrite Hs in H. simpl in H. by simplify_eq/=.
Qed.

(** C6, as stated, fails: with a total context of 64 tokens and two
    parallel slots every slot gets 64 / 2 = 32 tokens, not 64 / (2 + 1). *)
Lemma init_n_ctx_not_over_slots_plus_one :
  ¬ (∀ m o params_ ctx,
       start m o params_ = Some ctx →
       Forall (λ slot, server_slot.n_ctx slot
                       = Z.quot (llama_n_ctx m) (gpt_params.n_parallel params_ + 1))
              (server_context.slots ctx)).
Proof.
  intros H.
  specialize (H example_model example_oracle example_params).
  destruct (start example_model example_oracle example_params) as [ctx|] eqn:Hstart;
    [|by vm_compute in Hstart].
  specialize (H ctx eq_refl).
  vm_compute in Hstart. injection Hstart as <-.
  apply Forall_cons in H as [H _]. vm_compute in H. discriminate.
Qed.

(** C6 (amended): after server initialisation every slot's context budget
    [n_ctx] is the total context size divided by the configured number of
    parallel slots (the integer quotient).  The sequence [load_model] adds
    for the system prompt is taken back before [init] divides. *)
Theorem init_n_ctx m o params_ ctx :
  start m o params_ = Some ctx →
  Forall (λ slot, server_slot.n_ctx slot
                  = Z.quot (llama_n_ctx m) (gpt_params.n_parallel params_))
         (server_context.slots ctx).
Proof.
  unfold start. intros H.
  destruct (if bool_decide (gpt_params.system_prompt params_ ≠ "")
            then server_context.system_prompt_set (gpt_params.system_prompt params_)
                   (server_context.make params_)
            else Some (server_context.make params_)) as [ctx1|] eqn:H1;
    simpl in H; [|done].
  assert (server_context.slots ctx1 = []) as Hs1.
  { destruct (bool_decide _); [|by simplify_eq].
    by eapply system_prompt_set_no_slots, H1. }
  destruct (server_context.load_model m o params_ ctx1) as [loaded ctx2] eqn:H2.
  destruct loaded; [|done].
  apply load_model_context in H2 as (Hn & Hp & Hs2).
  unfold server_context.init in H. rewrite Hn, Hp in H.
  destr_eqs.
  all: match goal with
       | Hi : server_context.init_slots _ _ _ _ = Some _ |- _ =>
           apply init_slots_n_ctx in Hi as (? & ? & ?); [done|]
       end.
  all: rewrite Hs2, Hs1; constructor.
Qed.

Lemma init_n_ctx_witness :
  ∃ ctx, start example_model example_oracle example_params = Some ctx
         ∧ Forall (λ slot, server_slot.n_ctx slot = 32) (server_context.slots ctx)
         ∧ length (server_context.slots ctx) = 2%nat.
Proof.
  destruct (start example_model example_oracle example_params) as [ctx|] eqn:Hstart;
    [|by vm_compute in Hstart].
  exists ctx. split; [done|]. split.
  - exact (init_n_ctx _ _ _ _ Hstart).
  - vm_compute in Hstart. by injection Hstart as <-.
Defined.

(** ** The speculative commit *)

(** C10: the commit of a speculation reads [ids.end () - 1] and is undefined
    for an empty [ids]; for [ids.size () >= 1] it appends the verified token
    and all accepted tokens but the last to [cache_tokens], which grows by
    [ids.size ()], and adds [ids.size ()] to [n_past] and to [n_decoded]. *)
Theorem speculative_commit_counts (id_ : llama_token) (ids : list llama_token)
    (slot : server_slot.t) :
  (ids = [] → server_context.speculative_commit id_ ids slot = None)
  ∧ ((1 <= length ids)%nat →
     ∃ slot', server_context.speculative_commit id_ ids slot = Some slot'
       ∧ server_slot.cache_tokens slot'
         = server_slot.cache_tokens slot ++ id_ :: removelast ids
       ∧ Z.of_nat (length (server_slot.cache_tokens slot'))
         = Z.of_nat (length (server_slot.cache_tokens slot)) + Z.of_nat (length ids)
       ∧ server_slot.n_past slot' = server_slot.n_past slot + Z.of_nat (length ids)
       ∧ server_slot.n_decoded slot' = server_slot.n_decoded slot + Z.of_nat (length ids)).
Proof.
  unfold server_context.speculative_commit. split.
  - intros ->. done.
  - intros Hlen. destruct (decide (ids = [])) as [->|Hne]; [simpl in Hlen; lia|].
    eexists. split; [done|]. simpl. rewrite <- app_assoc. split; [done|].
    split; [|done].
    destruct (exists_last Hne) as (front & last & ->).
    rewrite removelast_last, !length_app. simpl. lia.
Qed.

Lemma speculative_commit_counts_witness :
  ∃ slot', server_context.speculative_commit 97 [98; 99] server_slot.default = Some slot'
    ∧ server_slot.cache_tokens slot' = [97; 98]
    ∧ server_slot.n_past slot' = 2
    ∧ server_slot.n_decoded slot' = 2.
Proof.
  destruct (speculative_commit_counts 97 [98; 99] server_slot.default) as [_ H].
  destruct H as (slot' & H1 & H2 & _ & H3 & H4); [simpl; lia|].
  exists slot'. split; [exact H1|]. split; [exact H2|]. split; [exact H3|exact H4].
Defined.

(** ** The context shift *)

Lemma shift_cache_loop (n_discard : Z) (cache : list llama_token) (nk d k : nat) :
  n_discard = Z.of_nat d →
  (nk + d + k <= length cache)%nat →
  Z.of_nat (length cache) < SIZE_MOD →
  foldl (λ acc i,
           c ← acc;
           x ← element_at c i;
           assign_at c (to_size_t (i - n_discard)) x)
        (Some cache)
        ((λ j, Z.of_nat (nk + d) + Z.of_nat j) <$> seq 0 k)
  = Some (take nk cache ++ take k (drop (nk + d) cache) ++ drop (nk + k) cache).
Proof.
  intros -> Hlen Hsize. induction k as [|k IH].
  - simpl. rewrite Nat.add_0_r. by rewrite take_drop.
  - rewrite seq_S, fmap_app, foldl_app, IH by lia. simpl.
    destruct (lookup_lt_is_Some_2 cache (nk + d + k)) as [x Hx]; [lia|].
    destruct (lookup_lt_is_Some_2 cache (nk + k)) as [y Hy]; [lia|].
    set (c := take nk cache ++ take k (drop (nk + d) cache) ++ drop (nk + k) cache).
    assert (length c = length cache) as Hc.
    { unfold c. rewrite !length_app, !length_take, !length_drop. lia. }
    assert (c !! (nk + d + k)%nat = Some x) as Hcx.
    { unfold c. rewrite lookup_app_r by (rewrite length_take; lia).
      rewrite lookup_app_r by (rewrite !length_take, length_drop; lia).
      rewrite lookup_drop, !length_take, length_drop, <- Hx. f_equal. lia. }
    unfold element_at, assign_at, to_size_t.
    rewrite decide_True by lia.
    replace (Z.to_nat (Z.of_nat (nk + d) + Z.of_nat k)) with (nk + d + k)%nat by lia.
    rewrite Hcx. simpl.
    replace ((Z.of_nat (nk + d) + Z.of_nat k - Z.of_nat d) `mod` SIZE_MOD)
      with (Z.of_nat (nk + k)).
    2:{ rewrite Z.mod_small; lia. }
    rewrite decide_True by lia. f_equal.
    rewrite Nat2Z.id. unfold c.
    rewrite insert_app_r_alt by (rewrite length_take; lia).
    rewrite insert_app_r_alt by (rewrite !length_take, length_drop; lia).
    rewrite !length_take, length_drop.
    replace (nk + k - nk `min` length cache - k `min` (length cache - (nk + d)))%nat
      with 0%nat by lia.
    rewrite (drop_S _ _ _ Hy). simpl.
    rewrite (take_S_r _ _ x) by (rewrite lookup_drop, <- Hx; f_equal; lia).
    rewrite <- !app_assoc. simpl. do 4 f_equal. lia.
Qed.

Lemma shift_cache_slide (n_keep n_discard : Z) (cache : list llama_token) :
  0 <= n_keep → 0 <= n_discard →
  n_keep + n_discard <= Z.of_nat (length cache) →
  Z.of_nat (length cache) <= VECTOR_MAX_SIZE →
  server_context.shift_cache n_keep n_discard cache
  = Some (take (Z.to_nat n_keep) cache ++ drop (Z.to_nat (n_keep + n_discard)) cache).
Proof.
  intros Hk Hd Hle Hmax. unfold server_context.shift_cache.
  assert (VECTOR_MAX_SIZE < SIZE_MOD) as Hlt by (by vm_compute).
  replace (to_size_t (n_keep + n_discard)) with (n_keep + n_discard)
    by (unfold to_size_t; rewrite Z.mod_small; lia).
  pose proof (shift_cache_loop n_discard cache (Z.to_nat n_keep) (Z.to_nat n_discard)
                (Z.to_nat (Z.of_nat (length cache) - (n_keep + n_discard)))) as Hloop.
  replace (Z.of_nat (Z.to_nat n_keep + Z.to_nat n_discard)) with (n_keep + n_discard)
    in Hloop by lia.
  rewrite Hloop by lia. simpl.
  unfold resize, to_size_t. rewrite Z.mod_small by lia.
  rewrite decide_False by lia. f_equal.
  replace (Z.to_nat (n_keep + n_discard))
    with (Z.to_nat n_keep + Z.to_nat n_discard)%nat by lia.
  rewrite (take_ge (drop _ cache)) by (rewrite length_drop; lia).
  rewrite app_assoc.
  rewrite take_app_length' by (rewrite length_app, length_take, length_drop; lia).
  rewrite !length_app, length_take, !length_drop.
  match goal with
  | |- _ ++ replicate ?n 0 = _ => replace n with 0%nat by lia
  end.
  simpl. by rewrite app_nil_r.
Qed.

Lemma shift_cache_short (n_keep n_discard : Z) (cache : list llama_token) :
  0 <= n_keep <= INT32_MAX → 0 <= n_discard <= INT32_MAX →
  Z.of_nat (length cache) < n_discard →
  server_context.shift_cache n_keep n_discard cache = None.
Proof.
  intros Hk Hd Hlt. unfold server_context.shift_cache, INT32_MAX in *.
  assert (SIZE_MOD = 2 ^ 64) as Hmod by done.
  assert (VECTOR_MAX_SIZE = 2 ^ 61 - 1) as Hmax by done.
  replace (to_size_t (n_keep + n_discard)) with (n_keep + n_discard)
    by (unfold to_size_t; rewrite Z.mod_small; lia).
  replace (Z.to_nat (Z.of_nat (length cache) - (n_keep + n_discard))) with 0%nat by lia.
  simpl. unfold resize, to_size_t.
  replace (Z.of_nat (length cache) - n_discard)
    with (Z.of_nat (length cache) - n_discard + SIZE_MOD + (-1) * SIZE_MOD) by lia.
  rewrite Z.mod_add by lia. rewrite Z.mod_small by lia.
  rewrite decide_True by lia. done.
Qed.

(** C7, as stated, fails: on a slot that asked for [n_keep = 2], on a
    server whose model adds a BOS token, the scheduler keeps 3 tokens and
    discards 3 of the 7 that are left, where the statement has it keep 2 and
    discard 4. *)
Lemma context_shift_not_by_request_n_keep :
  server_slot.is_processing full_slot = true
  ∧ server_slot.ga_n full_slot = 1
  ∧ Z.of_nat (length (server_context.system_tokens example_context))
    + server_slot.n_past full_slot >= server_slot.n_ctx full_slot - 1
  ∧ gpt_params.ctx_shift (server_context.params example_context) = true
  ∧ ¬ shifted_by_request_n_keep full_slot example_context.
Proof.
  repeat split; try done.
  intros (slot' & ctx' & Hshift & Hpast & _).
  vm_compute in Hshift. injection Hshift as <- <-.
  vm_compute in Hpast. discriminate.
Qed.

(** C7 (amended): for a processing slot with [ga_n = 1] and
    [|system_tokens| + n_past >= n_ctx - 1], with context shift enabled, let
    [n_keep] be the slot's [n_keep] parameter plus one when the model adds a
    BOS token, [n_left = |system_tokens| + n_past - n_keep] and [n_discard]
    the request's [n_discard] if nonzero, else [n_left / 2].  Provided
    [n_discard] and [n_past - n_discard] are values of an [int] and, when
    [cache_prompt] is set, [0 <= n_keep], [0 <= n_discard] and
    [n_keep + n_discard <= |cache_tokens|] (a size a vector can have), the
    scheduler discards [n_discard] tokens from position [n_keep] on: it
    issues [seq_rm (n_keep, n_keep + n_discard)] and
    [seq_add (n_keep + n_discard, |system_tokens| + n_past, - n_discard)] on
    the slot's sequence (and sends both to the workers), slides
    [cache_tokens] left by [n_discard] over [n_keep + n_discard, end) when
    [cache_prompt] is set, lowers [n_past] by [n_discard] and sets
    [truncated].  The server does not check the [n_discard] of a request:
    with [cache_prompt] set, [n_keep] and [n_discard] values of an [int],
    [0 <= n_keep] and [|cache_tokens| < n_discard], the resize of
    [cache_tokens] to
    [|cache_tokens| - n_discard] wraps around and throws, and the shift is
    not completed.  With context shift disabled the slot is released and an
    error is sent to its task. *)
Theorem context_shift_discards (slot : server_slot.t) (ctx : server_context.t) :
  let n_system := Z.of_nat (length (server_context.system_tokens ctx)) in
  let n_keep :=
    slot_params.n_keep (server_slot.params slot)
    + (if server_context.add_bos_token ctx then 1 else 0) in
  let n_left := n_system + server_slot.n_past slot - n_keep in
  let n_discard :=
    if decide (slot_params.n_discard (server_slot.params slot) ≠ 0)
    then slot_params.n_discard (server_slot.params slot)
    else Z.quot n_left 2 in
  let cache := server_slot.cache_tokens slot in
  server_slot.is_processing slot = true →
  server_slot.ga_n slot = 1 →
  n_system + server_slot.n_past slot >= server_slot.n_ctx slot - 1 →
  (gpt_params.ctx_shift (server_context.params ctx) = true →
   int32 n_discard → int32 (server_slot.n_past slot - n_discard) →
   (slot_params.cache_prompt (server_slot.params slot) = true →
    0 <= n_keep ∧ 0 <= n_discard
    ∧ n_keep + n_discard <= Z.of_nat (length cache) <= VECTOR_MAX_SIZE) →
   ∃ slot' ctx',
     server_context.context_shift slot ctx = Some (slot', ctx')
     ∧ server_context.kv_log ctx'
       = server_context.kv_log ctx
         ++ [ kv_cache_seq_rm false (server_slot.id slot + 1) n_keep (n_keep + n_discard);
              kv_cache_seq_add false (server_slot.id slot + 1) (n_keep + n_discard)
                (n_system + server_slot.n_past slot) (- n_discard);
              kv_cache_seq_rm true (server_slot.id slot) n_keep (n_keep + n_discard);
              kv_cache_seq_add true (server_slot.id slot) (n_keep + n_discard)
                (n_system + server_slot.n_past slot) (- n_discard) ]
     ∧ server_slot.cache_tokens slot'
       = (if slot_params.cache_prompt (server_slot.params slot)
          then take (Z.to_nat n_keep) cache ++ drop (Z.to_nat (n_keep + n_discard)) cache
          else cache)
     ∧ server_slot.n_past slot' = server_slot.n_past slot - n_discard
     ∧ server_slot.truncated slot' = true
     ∧ server_slot.state slot' = server_slot.state slot)
  ∧ (gpt_params.ctx_shift (server_context.params ctx) = true →
     slot_params.cache_prompt (server_slot.params slot) = true →
     0 <= n_keep <= INT32_MAX → int32 n_discard →
     Z.of_nat (length cache) < n_discard →
     server_context.context_shift slot ctx = None)
  ∧ (gpt_params.ctx_shift (server_context.params ctx) = false →
     ∃ slot' ctx',
       server_context.context_shift slot ctx = Some (slot', ctx')
       ∧ server_slot.state slot' = SLOT_STATE_IDLE
       ∧ server_slot.n_past slot' = server_slot.n_past slot
       ∧ server_context.queue_results ctx'
         = server_response.send
             {| server_task_result.id := server_slot.id_task slot;
                server_task_result.data :=
                  data_error "context shift is disabled" ERROR_TYPE_SERVER;
                server_task_result.stop := false;
                server_task_result.error := true |}
             (server_context.queue_results ctx)).
Proof.
  intros n_system n_keep n_left n_discard cache Hproc Hga Hfull.
  unfold server_context.context_shift.
  rewrite decide_True by done. rewrite Hproc. simpl.
  fold n_system. rewrite bool_decide_eq_true_2 by done.
  split; [|split].
  - intros Hshift Hd Hp Hcache. rewrite Hshift. simpl.
    fold n_keep. fold n_left. fold n_discard.
    rewrite decide_False by (intros Hn; apply Hn; done).
    destruct (slot_params.cache_prompt (server_slot.params slot)) eqn:Hcp.
    + destruct (Hcache eq_refl) as (Hk & Hd0 & Hle & Hmax).
      rewrite shift_cache_slide by done. simpl.
      eexists _, _. split; [done|]. simpl. rewrite <- !app_assoc. done.
    + simpl. eexists _, _. split; [done|]. simpl. rewrite <- !app_assoc. done.
  - intros Hshift Hcp Hk Hd Hshort. rewrite Hshift, Hcp. simpl.
    fold n_keep. fold n_left. fold n_discard.
    case_decide; [done|].
    rewrite shift_cache_short; [done|done| |done].
    unfold int32 in Hd. lia.
  - intros Hshift. rewrite Hshift. simpl.
    unfold server_context.release_slot, server_slot.release. rewrite Hproc.
    eexists _, _. split; [done|]. done.
Qed.

Lemma context_shift_discards_witness :
  ∃ slot' ctx',
    server_context.context_shift full_slot example_context = Some (slot', ctx')
    ∧ server_slot.cache_tokens slot' = [100; 101; 102; 106; 107; 108; 109]
    ∧ server_slot.n_past slot' = 7
    ∧ server_slot.truncated slot' = true.
Proof.
  destruct (context_shift_discards full_slot example_context) as [H _];
    [done | done | vm_compute; discriminate |].
  destruct H as (slot' & ctx' & H1 & _ & H2 & H3 & H4 & _);
    [done | vm_compute; split; discriminate | vm_compute; split; discriminate
    | intros _; vm_compute; repeat split; discriminate |].
  exists slot', ctx'. split; [exact H1|]. split; [exact H2|]. split; [exact H3|exact H4].
Defined.

(** ** process_token *)

Lemma same_but_text_and_stops_refl slot : same_but_text_and_stops slot slot.
Proof. by repeat split. Qed.

Lemma same_but_text_and_stops_trans s1 s2 s3 :
  same_but_text_and_stops s1 s2 → same_but_text_and_stops s2 s3 →
  same_but_text_and_stops s1 s3.
Proof.
  unfold same_but_text_and_stops. intros H12 H23.
  destruct_and!. repeat split; congruence.
Qed.

Ltac same_slot := by (unfold same_but_text_and_stops; repeat split).

Lemma find_stopping_strings_same m text n ty slot :
  same_but_text_and_stops slot (server_slot.find_stopping_strings m text n ty slot).2
  ∧ server_slot.truncated (server_slot.find_stopping_strings m text n ty slot).2
    = server_slot.truncated slot
  ∧ server_slot.stopped_eos (server_slot.find_stopping_strings m text n ty slot).2
    = server_slot.stopped_eos slot
  ∧ server_slot.stopped_limit (server_slot.find_stopping_strings m text n ty slot).2
    = server_slot.stopped_limit slot.
Proof.
  unfold server_slot.find_stopping_strings.
  generalize (slot_params.antiprompt (server_slot.params slot)).
  generalize (@None nat). 
  assert (∀ words pos s,
    same_but_text_and_stops slot s
    ∧ server_slot.truncated s = server_slot.truncated slot
    ∧ server_slot.stopped_eos s = server_slot.stopped_eos slot
    ∧ server_slot.stopped_limit s = server_slot.stopped_limit slot →
    let r := (foldl (server_slot.find_stopping_step m text n ty) (pos, s) words).2 in
    same_but_text_and_stops slot r
    ∧ server_slot.truncated r = server_slot.truncated slot
    ∧ server_slot.stopped_eos r = server_slot.stopped_eos slot
    ∧ server_slot.stopped_limit r = server_slot.stopped_limit slot) as Hgen.
  { induction words as [|word words IH]; intros pos s Hs; simpl; [done|].
    unfold server_slot.find_stopping_step at 2.
    repeat case_match; try (apply IH; done).
    all: apply IH; destruct Hs as (Hs & ? & ? & ?); split; [|done].
    all: eapply same_but_text_and_stops_trans; [exact Hs|same_slot]. }
  intros pos words. apply Hgen. split; [apply same_but_text_and_stops_refl|done].
Qed.

Lemma add_token_same token slot :
  same_but_text_and_stops slot (server_slot.add_token token slot)
  ∧ server_slot.truncated (server_slot.add_token token slot) = server_slot.truncated slot
  ∧ server_slot.stopped_eos (server_slot.add_token token slot) = server_slot.stopped_eos slot
  ∧ server_slot.stopped_limit (server_slot.add_token token slot)
    = server_slot.stopped_limit slot
  ∧ server_slot.has_next_token (server_slot.add_token token slot)
    = server_slot.has_next_token slot.
Proof. unfold server_slot.add_token. case_match; repeat split. Qed.

Lemma process_token_text_same m result slot ctx :
  let slot' := (server_context.process_token_text m result slot ctx).1 in
  same_but_text_and_stops slot slot'
  ∧ server_slot.truncated slot' = server_slot.truncated slot
  ∧ server_slot.stopped_eos slot' = server_slot.stopped_eos slot
  ∧ server_slot.stopped_limit slot' = server_slot.stopped_limit slot.
Proof.
  unfold server_context.process_token_text.
  set (s0 := slot <| server_slot.sampled := tok result |>
                  <| server_slot.generated_text :=
                       (server_slot.generated_text
                          (slot <| server_slot.sampled := tok result |>)
                        +:+ llama_token_to_piece m (tok result))%string |>
                  <| server_slot.has_next_token := true |>).
  assert (same_but_text_and_stops slot s0
          ∧ server_slot.truncated s0 = server_slot.truncated slot
          ∧ server_slot.stopped_eos s0 = server_slot.stopped_eos slot
          ∧ server_slot.stopped_limit s0 = server_slot.stopped_limit slot) as H0.
  { split; [same_slot|done]. }
  destruct (utf8_incomplete (server_slot.generated_text s0)); [simpl; exact H0|].
  set (pos := Z.to_nat _).
  pose proof (find_stopping_strings_same m
                (substr_from pos (server_slot.generated_text s0))
                (String.length (llama_token_to_piece m (tok result)))
                STOP_TYPE_FULL s0) as Hfull.
  destruct (server_slot.find_stopping_strings m _ _ STOP_TYPE_FULL s0) as [stop_pos s1].
  simpl in Hfull.
  assert (same_but_text_and_stops slot s1
          ∧ server_slot.truncated s1 = server_slot.truncated slot
          ∧ server_slot.stopped_eos s1 = server_slot.stopped_eos slot
          ∧ server_slot.stopped_limit s1 = server_slot.stopped_limit slot) as H1.
  { destruct H0 as (? & ? & ? & ?), Hfull as (? & ? & ? & ?).
    split; [by eapply same_but_text_and_stops_trans|]. repeat split; congruence. }
  clear H0 Hfull.
  destruct stop_pos as [sp|].
  - simpl. repeat case_match; simplify_eq/=.
    all: match goal with
         | |- context [server_slot.add_token ?t ?s] =>
             destruct (add_token_same t s) as (Ha & ? & ? & ? & ?)
         end.
    all: destruct H1 as (? & ? & ? & ?).
    all: split; [eapply same_but_text_and_stops_trans; [|exact Ha];
                 eapply same_but_text_and_stops_trans; [eassumption|same_slot]|].
    all: repeat split; simpl in *; congruence.
  - pose proof (find_stopping_strings_same m
                  (substr_from pos (server_slot.generated_text s0))
                  (String.length (llama_token_to_piece m (tok result)))
                  STOP_TYPE_PARTIAL s1) as Hpart.
    destruct (server_slot.find_stopping_strings m _ _ STOP_TYPE_PARTIAL s1)
      as [stop_pos s2].
    simpl in Hpart.
    assert (same_but_text_and_stops slot s2
            ∧ server_slot.truncated s2 = server_slot.truncated slot
            ∧ server_slot.stopped_eos s2 = server_slot.stopped_eos slot
            ∧ server_slot.stopped_limit s2 = server_slot.stopped_limit slot) as H2.
    { destruct H1 as (? & ? & ? & ?), Hpart as (? & ? & ? & ?).
      split; [by eapply same_but_text_and_stops_trans|]. repeat split; congruence. }
    clear H1 Hpart.
    simpl. repeat case_match; simplify_eq/=.
    all: match goal with
         | |- context [server_slot.add_token ?t ?s] =>
             destruct (add_token_same t s) as (Ha & ? & ? & ? & ?)
         end.
    all: destruct H2 as (? & ? & ? & ?).
    all: split; [eapply same_but_text_and_stops_trans; [|exact Ha];
                 first [ eassumption
                       | eapply same_but_text_and_stops_trans; [eassumption|same_slot] ]|].
    all: repeat split; simpl in *; congruence.
Qed.

Lemma has_budget_same_answer global_params slot slot' :
  same_but_text_and_stops slot slot' →
  (server_slot.has_budget global_params slot').1
  = (server_slot.has_budget global_params slot).1.
Proof.
  unfold same_but_text_and_stops, server_slot.has_budget. intros H.
  destruct_and!.
  repeat match goal with H : _ = _ |- _ => rewrite H end.
  by repeat case_decide.
Qed.

(** C8, as stated, fails in its first condition: when the token that uses
    up the budget also completes a stop word, the budget check is skipped
    and [stopped_limit] stays unset. *)
Lemma stop_word_hides_exhausted_budget :
  ¬ budget_sets_stopped_limit example_model {| tok := 97; text_to_send := "" |}
      one_token_left example_context.
Proof.
  unfold budget_sets_stopped_limit. intros H.
  assert ((server_slot.has_budget (server_context.params example_context)
             one_token_left).1 = false) as Hb by (by vm_compute).
  specialize (H Hb). vm_compute in H. discriminate.
Qed.

Lemma process_token_text_context m result slot ctx :
  let ctx' := (server_context.process_token_text m result slot ctx).2 in
  server_context.params ctx' = server_context.params ctx
  ∧ server_context.slots ctx' = server_context.slots ctx
  ∧ server_context.queue_tasks ctx' = server_context.queue_tasks ctx
  ∧ server_response.waiting_task_ids (server_context.queue_results ctx')
    = server_response.waiting_task_ids (server_context.queue_results ctx).
Proof.
  unfold server_context.process_token_text.
  repeat (case_match; simplify_eq/=); try done.
  all: unfold server_context.send_partial_response, server_context.send,
         server_response.send; simpl.
  all: repeat case_decide; done.
Qed.

Lemma process_token_limits_flags m global_params token s1 :
  let budget_exhausted :=
    bool_decide (server_slot.n_decoded s1 > 0)
    && server_slot.has_next_token s1
    && negb (server_slot.has_budget global_params s1).1 in
  let context_limit := bool_decide (server_slot.n_decoded s1 >= server_slot.n_ctx s1) in
  let eog := llama_token_is_eog m token in
  let train_limit :=
    bool_decide (slot_params.n_predict (server_slot.params s1) < 1
                 ∧ server_slot.n_predict s1 < 1
                 ∧ server_slot.ga_n s1 = 1
                 ∧ server_slot.n_prompt_tokens s1 + server_slot.n_decoded s1
                   >= llama_n_ctx_train m) in
  let slot' := server_context.process_token_limits m global_params token s1 in
  server_slot.stopped_limit slot'
  = server_slot.stopped_limit s1 || budget_exhausted || context_limit || train_limit
  ∧ server_slot.truncated slot' = server_slot.truncated s1 || context_limit || train_limit
  ∧ server_slot.stopped_eos slot' = server_slot.stopped_eos s1 || eog
  ∧ server_slot.has_next_token slot'
    = server_slot.has_next_token s1 && negb budget_exhausted && negb context_limit
      && negb eog && negb train_limit.
Proof.
  intros budget_exhausted context_limit eog train_limit slot'.
  subst slot' budget_exhausted context_limit train_limit eog.
  unfold server_context.process_token_limits.
  set (a := if bool_decide (server_slot.n_decoded s1 > 0) && server_slot.has_next_token s1
            then _ else s1).
  assert (server_slot.n_decoded a = server_slot.n_decoded s1
          ∧ server_slot.n_ctx a = server_slot.n_ctx s1
          ∧ server_slot.params a = server_slot.params s1
          ∧ server_slot.n_predict a = server_slot.n_predict s1
          ∧ server_slot.ga_n a = server_slot.ga_n s1
          ∧ server_slot.n_prompt_tokens a = server_slot.n_prompt_tokens s1
          ∧ server_slot.truncated a = server_slot.truncated s1
          ∧ server_slot.stopped_eos a = server_slot.stopped_eos s1
          ∧ server_slot.stopped_limit a
            = server_slot.stopped_limit s1
              || bool_decide (server_slot.n_decoded s1 > 0)
                 && server_slot.has_next_token s1
                 && negb (server_slot.has_budget global_params s1).1
          ∧ server_slot.has_next_token a
            = server_slot.has_next_token s1
              && negb (bool_decide (server_slot.n_decoded s1 > 0)
                       && server_slot.has_next_token s1
                       && negb (server_slot.has_budget global_params s1).1)) as Ha.
  { subst a. unfold server_slot.has_budget.
    destruct (bool_decide (server_slot.n_decoded s1 > 0));
      destruct (server_slot.has_next_token s1) eqn:Hn; simpl;
      rewrite ?orb_false_r; try done.
    repeat case_decide; simpl; rewrite ?orb_false_r, ?orb_true_r; try done.
    all: destruct (bool_decide _); simpl; rewrite ?orb_false_r, ?orb_true_r; done. }
  clearbody a. destruct Ha as (Hd & Hc & Hp & Hnp & Hg & Hpt & Ht & He & Hl & Hn).
  rewrite <- Hl, <- Hn.
  rewrite <- Hd, <- Hc, <- Hp, <- Hnp, <- Hg, <- Hpt, <- Ht, <- He.
  clear.
  destruct (decide (server_slot.n_decoded a >= server_slot.n_ctx a)) as [H2|H2];
    [rewrite (bool_decide_eq_true_2 _ H2)|rewrite (bool_decide_eq_false_2 _ H2)];
    destruct (llama_token_is_eog m token); simpl;
    case_decide as H4;
    [rewrite (bool_decide_eq_true_2 _ H4)|rewrite (bool_decide_eq_false_2 _ H4)
    |rewrite (bool_decide_eq_true_2 _ H4)|rewrite (bool_decide_eq_false_2 _ H4)
    |rewrite (bool_decide_eq_true_2 _ H4)|rewrite (bool_decide_eq_false_2 _ H4)
    |rewrite (bool_decide_eq_true_2 _ H4)|rewrite (bool_decide_eq_false_2 _ H4)];
    simpl; rewrite ?orb_true_r, ?orb_false_r, ?andb_true_r, ?andb_false_r; done.
Qed.

(** C8 (amended): after the text of the token has been appended and
    searched for stop strings, [process_token] evaluates four stop
    conditions in this order, each of which clears [has_next_token]:
    (1) the budget per [n_predict] is exhausted, checked only when
    [n_decoded > 0] and no stop string has just ended the generation
    (sets [stopped_limit]); (2) [n_decoded >= n_ctx] (sets [truncated] and
    [stopped_limit]); (3) the token is an end-of-generation token (sets
    [stopped_eos]); (4) the request's and the server's [n_predict] are both
    below 1, [ga_n = 1] and [n_prompt_tokens + n_decoded] has reached the
    training context length (sets [truncated] and [stopped_limit]).  No
    other flag changes, and the answer is [has_next_token]. *)
Theorem process_token_stop_conditions (m : llama_model) (result : completion_token_output)
    (slot : server_slot.t) (ctx : server_context.t) :
  let texted := (server_context.process_token_text m result slot ctx).1 in
  let budget_exhausted :=
    bool_decide (server_slot.n_decoded slot > 0)
    && server_slot.has_next_token texted
    && negb (server_slot.has_budget (server_context.params ctx) slot).1 in
  let context_limit :=
    bool_decide (server_slot.n_decoded slot >= server_slot.n_ctx slot) in
  let eog := llama_token_is_eog m (tok result) in
  let train_limit :=
    bool_decide (slot_params.n_predict (server_slot.params slot) < 1
                 ∧ server_slot.n_predict slot < 1
                 ∧ server_slot.ga_n slot = 1
                 ∧ server_slot.n_prompt_tokens slot + server_slot.n_decoded slot
                   >= llama_n_ctx_train m) in
  let answer := (server_context.process_token m result slot ctx).1.1 in
  let slot' := (server_context.process_token m result slot ctx).1.2 in
  server_slot.stopped_limit slot'
  = server_slot.stopped_limit slot || budget_exhausted || context_limit || train_limit
  ∧ server_slot.truncated slot'
    = server_slot.truncated slot || context_limit || train_limit
  ∧ server_slot.stopped_eos slot' = server_slot.stopped_eos slot || eog
  ∧ server_slot.has_next_token slot'
    = server_slot.has_next_token texted && negb budget_exhausted && negb context_limit
      && negb eog && negb train_limit
  ∧ answer = server_slot.has_next_token slot'.
Proof.
  intros texted budget_exhausted context_limit eog train_limit answer slot'.
  pose proof (process_token_text_same m result slot ctx) as (Hsame & Ht & He & Hl).
  fold texted in Hsame, Ht, He, Hl.
  pose proof (has_budget_same_answer (server_context.params ctx) _ _ Hsame) as Hb.
  pose proof (process_token_limits_flags m (server_context.params ctx) (tok result) texted)
    as Hflags.
  simpl in Hflags.
  assert (slot' = server_context.process_token_limits m (server_context.params ctx)
                    (tok result) texted) as Hslot'.
  { subst slot' texted. clear.
    pose proof (process_token_text_context m result slot ctx) as [Hp _].
    unfold server_context.process_token.
    destruct (server_context.process_token_text m result slot ctx). simpl in *.
    by rewrite Hp. }
  assert (answer = server_slot.has_next_token slot') as Hanswer.
  { subst answer slot'. clear. unfold server_context.process_token.
    destruct (server_context.process_token_text m result slot ctx). reflexivity. }
  rewrite <- Hslot' in Hflags.
  unfold same_but_text_and_stops in Hsame. destruct_and!.
  subst budget_exhausted context_limit train_limit eog.
  repeat match goal with H : _ texted = _ slot |- _ => rewrite <- H; clear H end.
  rewrite <- Hb. done.
Qed.

(** ** The invariant of the server *)

Lemma same_slots_and_tasks_refl ctx : same_slots_and_tasks ctx ctx.
Proof. split; reflexivity. Qed.

Lemma same_slots_and_tasks_trans c1 c2 c3 :
  same_slots_and_tasks c1 c2 → same_slots_and_tasks c2 c3 → same_slots_and_tasks c1 c3.
Proof. intros [? ?] [? ?]. split; congruence. Qed.

Lemma server_ok_same ctx ctx' :
  same_slots_and_tasks ctx ctx' → server_ok ctx → server_ok ctx'.
Proof. intros [Hs Hq] [? ?]. split; congruence. Qed.

Lemma send_same res ctx : same_slots_and_tasks ctx (server_context.send res ctx).
Proof. split; reflexivity. Qed.

Lemma kv_same c ctx : same_slots_and_tasks ctx (server_context.kv c ctx).
Proof. split; reflexivity. Qed.

Lemma pop_deferred_task_ok q : queue_ok q → queue_ok (server_queue.pop_deferred_task q).
Proof.
  unfold queue_ok, server_queue.pop_deferred_task. intros (Hid & Hq & Hd).
  destruct (server_queue.queue_tasks_deferred q) as [|task rest] eqn:Hdef;
    [by rewrite Hdef|].
  simpl. apply Forall_cons in Hd as [? ?].
  split; [done|]. split; [|done]. apply Forall_app. split; [done|]. by apply Forall_singleton.
Qed.

Lemma defer_ok task q :
  server_task.id task ≠ -1 → queue_ok q → queue_ok (server_queue.defer task q).
Proof.
  unfold queue_ok, server_queue.defer. intros Ht (Hid & Hq & Hd). simpl.
  split; [done|]. split; [done|]. apply Forall_app. split; [done|]. by apply Forall_singleton.
Qed.

Lemma assign_id_ok task q task' q' :
  queue_ok q → server_queue.assign_id task q = Some (task', q') →
  server_task.id task' ≠ -1 ∧ queue_ok q'
  ∧ server_queue.queue_tasks q' = server_queue.queue_tasks q.
Proof.
  unfold queue_ok, server_queue.assign_id, server_queue.next_id.
  intros (Hid & Hq & Hd) H.
  repeat case_decide; simplify_eq/=; repeat split; try done; lia.
Qed.

Lemma push_ok task front q :
  server_task.id task ≠ -1 → queue_ok q → queue_ok (server_queue.push task front q).
Proof.
  unfold queue_ok, server_queue.push. intros Ht (Hid & Hq & Hd).
  destruct front; simpl; (split; [done|]); (split; [|done]).
  - by apply Forall_cons.
  - apply Forall_app. split; [done|]. by apply Forall_singleton.
Qed.

Lemma post_ok task front q i q' :
  queue_ok q → server_queue.post task front q = Some (i, q') → queue_ok q'.
Proof.
  unfold server_queue.post. intros Hq H.
  apply bind_Some in H as ([task' q1] & Ha & H). simplify_eq/=.
  apply assign_id_ok in Ha as (? & ? & ?); [|done]. by apply push_ok.
Qed.

Lemma post_many_ok tasks front q q' :
  queue_ok q → server_queue.post_many tasks front q = Some q' → queue_ok q'.
Proof.
  revert q. induction tasks as [|task tasks IH]; intros q Hq H; simpl in H.
  - by simplify_eq.
  - apply bind_Some in H as ([task' q1] & Ha & H).
    apply assign_id_ok in Ha as (? & ? & ?); [|done].
    eapply IH; [|done]. by apply push_ok.
Qed.

Lemma next_id_ok q i q' : queue_ok q → server_queue.next_id q = Some (i, q') → queue_ok q'.
Proof.
  unfold queue_ok, server_queue.next_id. intros (Hid & Hq & Hd) H.
  case_decide; simplify_eq/=. repeat split; try done; lia.
Qed.

Lemma pop_front_ok q task q' :
  queue_ok q → server_queue.pop_front q = Some (task, q') →
  server_task.id task ≠ -1 ∧ queue_ok q'.
Proof.
  unfold queue_ok, server_queue.pop_front. intros (Hid & Hq & Hd) H.
  destruct (server_queue.queue_tasks q) as [|t rest]; simplify_eq/=.
  apply Forall_cons in Hq as [? ?]. done.
Qed.

Lemma release_slot_ok slot ctx :
  server_ok ctx → slot_ok slot →
  server_ok (server_context.release_slot slot ctx).2
  ∧ slot_ok (server_context.release_slot slot ctx).1
  ∧ server_slot.state (server_context.release_slot slot ctx).1 = SLOT_STATE_IDLE
  ∧ server_slot.id_task (server_context.release_slot slot ctx).1 = server_slot.id_task slot
  ∧ server_context.slots (server_context.release_slot slot ctx).2 = server_context.slots ctx.
Proof.
  unfold server_context.release_slot, server_slot.release, server_slot.is_processing.
  intros [Hs Hq] (Ht & Hid & Hc).
  case_bool_decide as Hst; simpl.
  - split; [split; [done|by apply pop_deferred_task_ok]|].
    split; [|done]. unfold slot_ok. simpl. split; [done|]. split; [done|].
    intros [?|?]; done.
  - split; [done|]. split; [done|]. split; [|done].
    by destruct (decide (server_slot.state slot = SLOT_STATE_IDLE)).
Qed.

(** an invariant [Q] of the context that does not look at the slots and
    an invariant [P] of every slot go through a loop over the slots when
    its body keeps them *)
Lemma for_slots_from_inv {L} (Q : server_context.t → Prop) (P : server_slot.t → Prop)
    (body : L -> server_slot.t -> server_context.t
            -> option (L * server_slot.t * server_context.t * bool))
    todo l ctx l' ctx' :
  (∀ ctx sl, Q ctx → Q (ctx <| server_context.slots := sl |>)) →
  (∀ l slot ctx l' slot' ctx' go_on,
     Q ctx → Forall P (server_context.slots ctx) → P slot →
     body l slot ctx = Some (l', slot', ctx', go_on) →
     Q ctx' ∧ Forall P (server_context.slots ctx') ∧ P slot') →
  Q ctx → Forall P (server_context.slots ctx) →
  server_context.for_slots_from body todo l ctx = Some (l', ctx') →
  Q ctx' ∧ Forall P (server_context.slots ctx').
Proof.
  intros HQ Hbody. revert l ctx.
  induction todo as [|i todo IH]; intros l ctx Hq Hp H; simpl in H; [by simplify_eq|].
  destruct (server_context.slots ctx !! i) as [slot|] eqn:Hi; [|by simplify_eq].
  apply bind_Some in H as ([[[l1 slot1] ctx1] go_on] & Hb & H).
  assert (P slot) as Hslot by (by eapply Forall_lookup_1 in Hp).
  destruct (Hbody _ _ _ _ _ _ _ Hq Hp Hslot Hb) as (Hq1 & Hp1 & Hslot1).
  assert (Forall P (<[ i := slot1 ]> (server_context.slots ctx1))) as Hp2
    by (by apply Forall_insert).
  destruct go_on; [eapply IH; [| |exact H]|simplify_eq]; simpl; eauto.
Qed.

Lemma for_slots_inv (Q : server_context.t → Prop) (P : server_slot.t → Prop)
    body ctx ctx' :
  (∀ ctx sl, Q ctx → Q (ctx <| server_context.slots := sl |>)) →
  (∀ slot ctx slot' ctx',
     Q ctx → Forall P (server_context.slots ctx) → P slot →
     body slot ctx = Some (slot', ctx') →
     Q ctx' ∧ Forall P (server_context.slots ctx') ∧ P slot') →
  Q ctx → Forall P (server_context.slots ctx) →
  server_context.for_slots body ctx = Some ctx' →
  Q ctx' ∧ Forall P (server_context.slots ctx').
Proof.
  unfold server_context.for_slots, server_context.for_slots_with.
  intros HQ Hbody Hq Hp H.
  apply fmap_Some in H as ([l1 ctx1] & H & ->). simpl.
  eapply (for_slots_from_inv Q P); [done| |done|done|exact H].
  intros l slot c l' slot' c' go_on Hc Hs Hslot Hb.
  apply bind_Some in Hb as ([s2 c2] & Hb & ?). simplify_eq/=.
  by eapply Hbody.
Qed.

Lemma queue_ok_slots ctx sl :
  queue_ok (server_context.queue_tasks ctx) →
  queue_ok (server_context.queue_tasks (ctx <| server_context.slots := sl |>)).
Proof. done. Qed.

Lemma for_slots_with_ok {L}
    (body : L -> server_slot.t -> server_context.t
            -> option (L * server_slot.t * server_context.t * bool))
    l ctx l' ctx' :
  body_ok body → server_ok ctx →
  server_context.for_slots_with body l ctx = Some (l', ctx') →
  server_ok ctx'.
Proof.
  unfold server_context.for_slots_with, server_ok. intros Hbody [Hp Hq] H.
  apply and_comm.
  eapply (for_slots_from_inv (λ ctx, queue_ok (server_context.queue_tasks ctx)) slot_ok);
    [apply queue_ok_slots| |done|done|exact H].
  intros l0 slot c l1 slot' c' go_on Hc Hs Hslot Hb.
  destruct (Hbody _ _ _ _ _ _ _ (conj Hs Hc) Hslot Hb) as [[? ?] ?]. done.
Qed.

Lemma for_slots_ok body ctx ctx' :
  (∀ slot ctx slot' ctx',
     server_ok ctx → slot_ok slot → body slot ctx = Some (slot', ctx') →
     server_ok ctx' ∧ slot_ok slot') →
  server_ok ctx →
  server_context.for_slots body ctx = Some ctx' →
  server_ok ctx'.
Proof.
  unfold server_ok. intros Hbody [Hp Hq] H. apply and_comm.
  eapply (for_slots_inv (λ ctx, queue_ok (server_context.queue_tasks ctx)) slot_ok);
    [apply queue_ok_slots| |done|done|exact H].
  intros slot c slot' c' Hc Hs Hslot Hb.
  destruct (Hbody _ _ _ _ (conj Hs Hc) Hslot Hb) as [[? ?] ?]. done.
Qed.

Lemma with_slot_ok i body ctx ctx' :
  (∀ slot slot' ctx1,
     server_context.slots ctx !! i = Some slot → slot_ok slot →
     body slot ctx = Some (slot', ctx1) →
     server_ok ctx1 ∧ slot_ok slot') →
  server_ok ctx →
  server_context.with_slot i body ctx = Some ctx' →
  server_ok ctx'.
Proof.
  unfold server_context.with_slot. intros Hbody Hok H.
  apply bind_Some in H as (slot & Hi & H).
  apply bind_Some in H as ([slot1 ctx1] & Hb & H). simplify_eq/=.
  assert (slot_ok slot) as Hslot.
  { destruct Hok as [Hs _]. by eapply Forall_lookup_1 in Hs. }
  destruct (Hbody _ _ _ Hi Hslot Hb) as [[? ?] ?].
  split; simpl; [by apply Forall_insert|done].
Qed.

(** a loop without [break] whose body leaves the other slots alone brings
    every slot to what the body establishes *)
Lemma for_slots_from_all {L} (R : server_slot.t → Prop)
    (body : L -> server_slot.t -> server_context.t
            -> option (L * server_slot.t * server_context.t * bool))
    n k l ctx l' ctx' :
  (∀ l slot ctx l' slot' ctx' go_on,
     body l slot ctx = Some (l', slot', ctx', go_on) →
     R slot' ∧ go_on = true ∧ server_context.slots ctx' = server_context.slots ctx) →
  length (server_context.slots ctx) = (k + n)%nat →
  Forall R (take k (server_context.slots ctx)) →
  server_context.for_slots_from body (seq k n) l ctx = Some (l', ctx') →
  Forall R (server_context.slots ctx').
Proof.
  intros Hbody. revert k l ctx.
  induction n as [|n IH]; intros k l ctx Hlen Hall H; simpl in H.
  - simplify_eq. rewrite take_ge in Hall by lia. done.
  - destruct (server_context.slots ctx !! k) as [slot|] eqn:Hk.
    2:{ apply lookup_ge_None in Hk. lia. }
    apply bind_Some in H as ([[[l1 slot1] ctx1] go_on] & Hb & H).
    destruct (Hbody _ _ _ _ _ _ _ Hb) as (HR & -> & Hs).
    eapply (IH (S k)); [| |exact H]; simpl; rewrite Hs.
    + rewrite length_insert. lia.
    + rewrite (take_S_r _ _ slot1).
      2:{ apply list_lookup_insert_eq. apply lookup_lt_Some in Hk. done. }
      rewrite take_insert_ge by lia.
      apply Forall_app. split; [done|]. by apply Forall_singleton.
Qed.

Lemma for_slots_all (R : server_slot.t → Prop) body ctx ctx' :
  (∀ slot ctx slot' ctx',
     body slot ctx = Some (slot', ctx') →
     R slot' ∧ server_context.slots ctx' = server_context.slots ctx) →
  server_context.for_slots body ctx = Some ctx' →
  Forall R (server_context.slots ctx').
Proof.
  unfold server_context.for_slots, server_context.for_slots_with. intros Hbody H.
  apply fmap_Some in H as ([l1 ctx1] & H & ->). simpl.
  eapply (for_slots_from_all R _ _ 0); [|done|by rewrite take_0|exact H].
  intros l slot c l' slot' c' go_on Hb.
  apply bind_Some in Hb as ([s2 c2] & Hb & ?). simplify_eq/=.
  destruct (Hbody _ _ _ _ Hb). done.
Qed.

(** taking apart the equation of a computation along its outermost
    branches only *)
Ltac destr_head :=
  repeat match goal with
         | H : Some _ = Some _ |- _ => injection H as H; try subst
         | H : (_, _) = (_, _) |- _ => injection H as H; try subst
         | H : None = Some _ |- _ => discriminate H
         | H : inl _ = inl _ |- _ => injection H as H; try subst
         | H : inr _ = inr _ |- _ => injection H as H; try subst
         | H : inl _ = inr _ |- _ => discriminate H
         | H : inr _ = inl _ |- _ => discriminate H
         | H : _ ≫= _ = Some _ |- _ => apply bind_Some in H as (? & ? & H)
         | H : _ <$> _ = Some _ |- _ => apply fmap_Some in H as (? & ? & H)
         | H : (match ?x with _ => _ end) = _ |- _ => destruct x eqn:?; cbn beta iota in H
         end.

Lemma checked_prompt_slot task slot slot' :
  server_context.checked_prompt task slot = inr slot' →
  slot' = slot ∨ ∃ kept, slot' = slot <| server_slot.prompt := kept |>.
Proof.
  unfold server_context.checked_prompt. intros H.
  repeat case_match; simplify_eq; eauto.
Qed.

(** the two ways out of [launch_slot_with_task], with the slot each leaves *)
Lemma launch_run o slot task ctx answer slot' ctx' :
  server_context.launch_slot_with_task o slot task ctx = Some (answer, slot', ctx') →
  let data := server_task.data task in
  let slot0 :=
    slot <| server_slot.params :=
              server_context.request_params data (server_context.params ctx)
                (server_slot.params slot) |> in
  let slot1 := slot0 <| server_slot.params := server_context.adjusted_params data slot0 |> in
  if answer then
    ctx' = ctx
    ∧ ∃ slot2 words,
        server_context.checked_prompt task slot1 = inr slot2
        ∧ let slot3 :=
            slot2 <| server_slot.params :=
                       (server_slot.params slot2) <| slot_params.antiprompt := words |> |>
                  <| server_slot.smpl := true |> in
          slot' = (if server_slot.ctx_dft slot3
                   then slot3 <| server_slot.batch_spec := [] |> else slot3)
                    <| server_slot.state := SLOT_STATE_PROCESSING_PROMPT |>
                    <| server_slot.prompt_tokens := [] |>
  else
    (∃ msg, ctx' = server_context.send_error (server_task.id task) msg
                     ERROR_TYPE_INVALID_REQUEST ctx)
    ∧ (slot' = slot0 ∨ slot' = slot1
       ∨ ∃ slot2 words,
           server_context.checked_prompt task slot1 = inr slot2
           ∧ slot' = slot2 <| server_slot.params :=
                                (server_slot.params slot2)
                                  <| slot_params.antiprompt := words |> |>
                           <| server_slot.smpl := false |>).
Proof.
  intros H. unfold server_context.launch_slot_with_task in H. cbv zeta in H. cbv zeta.
  match type of H with
  | (if ?b then _ else _) = _ => destruct b
  end.
  { simplify_eq. split; [eauto|]. by left. }
  match type of H with
  | (if ?b then _ else _) = _ => destruct b
  end.
  { simplify_eq. split; [eauto|]. by left. }
  match type of H with
  | match ?c with _ => _ end = _ => destruct c as [msg|slot2] eqn:Hc
  end.
  { simplify_eq. split; [eauto|]. right. by left. }
  apply bind_Some in H as (words & _ & H).
  destruct (gpt_sampler_init_ok o) eqn:Hsmpl; simpl in H.
  - simplify_eq. split; [done|]. exists slot2, words. split; [done|].
    done.
  - simplify_eq. split; [eauto|]. right. right. exists slot2, words.
    by split.
Qed.

Lemma launch_slot_with_task_ok o slot task ctx answer slot' ctx' :
  server_slot.state slot = SLOT_STATE_IDLE →
  server_slot.t_last_used slot = -1 →
  server_slot.id_task slot ≠ -1 →
  server_context.launch_slot_with_task o slot task ctx = Some (answer, slot', ctx') →
  slot_ok slot' ∧ same_slots_and_tasks ctx ctx'
  ∧ server_slot.id_task slot' = server_slot.id_task slot.
Proof.
  intros Hst Ht Hid H. apply launch_run in H. cbv zeta in H.
  assert (∀ s, server_slot.t_last_used s = -1 → server_slot.id_task s ≠ -1 →
               server_slot.state s = SLOT_STATE_IDLE
               ∨ server_slot.state s = SLOT_STATE_PROCESSING_PROMPT →
               slot_ok s) as Hok.
  { intros s ? ? Hs. unfold slot_ok. split; [done|]. split; [done|].
    intros [Hs'|Hs']; rewrite Hs' in Hs; by destruct Hs. }
  destruct answer.
  - destruct H as (-> & slot2 & words & Hc & ->).
    split; [|split; [split; reflexivity|]].
    + apply Hok.
      * apply checked_prompt_slot in Hc as [->|[kept ->]]; by case_match.
      * apply checked_prompt_slot in Hc as [->|[kept ->]]; by case_match.
      * right. by case_match.
    + apply checked_prompt_slot in Hc as [->|[kept ->]]; by case_match.
  - destruct H as [[msg ->] Hslot].
    split; [|split; [apply send_same|]].
    + apply Hok.
      * destruct Hslot as [->|[->|(slot2 & words & Hc & ->)]]; try done.
        by apply checked_prompt_slot in Hc as [->|[kept ->]].
      * destruct Hslot as [->|[->|(slot2 & words & Hc & ->)]]; try done.
        by apply checked_prompt_slot in Hc as [->|[kept ->]].
      * left. destruct Hslot as [->|[->|(slot2 & words & Hc & ->)]]; try done.
        by apply checked_prompt_slot in Hc as [->|[kept ->]].
    + destruct Hslot as [->|[->|(slot2 & words & Hc & ->)]]; try done.
      by apply checked_prompt_slot in Hc as [->|[kept ->]].
Qed.

Lemma system_prompt_set_ok sys_prompt ctx ctx' :
  server_ok ctx →
  server_context.system_prompt_set sys_prompt ctx = Some ctx' →
  server_ok ctx'
  ∧ Forall (λ slot, server_slot.state slot = SLOT_STATE_IDLE) (server_context.slots ctx').
Proof.
  unfold server_context.system_prompt_set. intros Hok H.
  apply bind_Some in H as (ctx1 & Hloop & H). simplify_eq/=.
  split.
  - eapply server_ok_same with ctx1; [split; reflexivity|].
    eapply for_slots_ok; [| |exact Hloop].
    + intros slot c slot' c' Hc Hs Hb. injection Hb as Hb.
      destruct (release_slot_ok slot c Hc Hs) as (H1 & H2 & _).
      rewrite Hb in H1, H2. done.
    + eapply server_ok_same; [|exact Hok]. split; reflexivity.
  - eapply (for_slots_all (λ slot, server_slot.state slot = SLOT_STATE_IDLE));
      [|exact Hloop].
    intros slot c slot' c' Hb. injection Hb as Hb.
    unfold server_context.release_slot, server_slot.release, server_slot.is_processing
      in Hb.
    case_bool_decide as Hst; simplify_eq/=; [done|].
    split; [|done]. by destruct (decide (server_slot.state slot' = SLOT_STATE_IDLE)).
Qed.

Lemma reset_positions_ok ctx ctx' :
  server_ok ctx →
  Forall (λ slot, server_slot.state slot = SLOT_STATE_IDLE) (server_context.slots ctx) →
  server_context.for_slots
    (λ slot ctx,
       Some (slot <| server_slot.n_past := 0 |> <| server_slot.n_past_se := 0 |>, ctx))
    ctx = Some ctx' →
  server_ok ctx'
  ∧ Forall (λ slot, server_slot.state slot = SLOT_STATE_IDLE) (server_context.slots ctx').
Proof.
  intros [Hs Hq] Hidle H.
  eapply (for_slots_inv
            (λ ctx, queue_ok (server_context.queue_tasks ctx))
            (λ slot, slot_ok slot ∧ server_slot.state slot = SLOT_STATE_IDLE))
    in H as [Hq' Hp']; [|apply queue_ok_slots| |done|by apply Forall_and].
  - apply Forall_and in Hp' as [? ?]. done.
  - intros slot c slot' c' Hc Hall [Hslot Hst] Hb. simplify_eq/=.
    split; [done|]. split; [done|]. split; [|done].
    destruct Hslot as (? & ? & ?). unfold slot_ok. simpl. rewrite Hst.
    repeat split; try done. intros [?|?]; done.
Qed.

Lemma not_processing_idle slot :
  server_slot.is_processing slot = false → server_slot.state slot = SLOT_STATE_IDLE.
Proof.
  unfold server_slot.is_processing. intros H. case_bool_decide; [done|].
  by destruct (decide (server_slot.state slot = SLOT_STATE_IDLE)).
Qed.

Lemma defer_server_ok task ctx :
  server_task.id task ≠ -1 → server_ok ctx → server_ok (server_context.defer task ctx).
Proof. intros Hid [Hs Hq]. split; [done|]. by apply defer_ok. Qed.

Lemma idle_slot_ok slot slot' :
  slot_ok slot →
  server_slot.state slot' = SLOT_STATE_IDLE →
  server_slot.t_last_used slot' = server_slot.t_last_used slot →
  slot_ok slot'.
Proof.
  intros (? & ? & ?) Hst Ht. unfold slot_ok. rewrite Hst, Ht.
  repeat split; try done. intros [?|?]; done.
Qed.

Lemma on_idle_slot_ok task action ctx ctx' :
  (∀ id_slot slot c slot' c',
     server_slot.state slot = SLOT_STATE_IDLE →
     action id_slot slot c = Some (slot', c') →
     same_slots_and_tasks c c'
     ∧ server_slot.state slot' = SLOT_STATE_IDLE
     ∧ server_slot.t_last_used slot' = server_slot.t_last_used slot) →
  server_task.id task ≠ -1 →
  server_ok ctx →
  server_context.on_idle_slot task action ctx = Some ctx' →
  server_ok ctx'.
Proof.
  unfold server_context.on_idle_slot. intros Haction Hid Hok H.
  destr_head.
  - by apply defer_server_ok.
  - eapply with_slot_ok; [|exact Hok|exact H].
    intros slot slot' c Hi Hslot Hb. simplify_eq.
    match goal with Hp : server_slot.is_processing _ = false |- _ =>
      apply not_processing_idle in Hp as Hst end.
    destruct (Haction _ _ _ _ _ Hst Hb) as (Hsame & Hst' & Ht).
    split; [by eapply server_ok_same|]. by eapply idle_slot_ok.
  - by eapply server_ok_same; [apply send_same|].
Qed.

Lemma process_single_task_ok m o task ctx ctx' :
  server_task.id task ≠ -1 →
  server_ok ctx →
  server_context.process_single_task m o task ctx = Some ctx' →
  server_ok ctx'.
Proof.
  intros Hid Hok H. unfold server_context.process_single_task in H.
  cbv zeta in H.
  destruct (server_task.type task).
  - (* a completion *)
    match type of H with
    | match ?f with _ => _ end = _ => destruct f as [i|] eqn:Hfound
    end; [|simplify_eq; by apply defer_server_ok].
    apply bind_Some in H as (slot & Hi & H).
    destruct (server_slot.is_processing slot) eqn:Hproc;
      [simplify_eq; by apply defer_server_ok|].
    apply not_processing_idle in Hproc.
    apply bind_Some in H as (ctx1 & Hsys & H).
    assert (server_ok ctx1
            ∧ ∀ slot1, server_context.slots ctx1 !! i = Some slot1 →
                       server_slot.state slot1 = SLOT_STATE_IDLE) as [Hok1 Hidle].
    { destruct (d_system_prompt (server_task.data task)) as [sys_prompt|].
      - apply bind_Some in Hsys as (ctx0 & Hset & Hreset).
        apply system_prompt_set_ok in Hset as [Hok0 Hidle0]; [|done].
        apply reset_positions_ok in Hreset as [? Hidle1]; [|done|done].
        split; [done|]. intros slot1 Hi1.
        by eapply (Forall_lookup_1 _ _ _ _ Hidle1).
      - simplify_eq. split; [done|]. intros slot1 Hi1. by simplify_eq. }
    eapply with_slot_ok; [|exact Hok1|exact H].
    intros slot1 slot' c Hi1 Hslot1 Hb.
    apply bind_Some in Hb as ([[answer s2] c2] & Hlaunch & Hb). simplify_eq.
    destruct Hslot1 as (Ht & _ & _).
    apply launch_slot_with_task_ok in Hlaunch as (? & ? & _); [| |done|done].
    + split; [by eapply server_ok_same|done].
    + simpl. by apply Hidle.
  - (* a cancellation *)
    apply fmap_Some in H as ([l c] & H & ->). simpl.
    eapply for_slots_with_ok; [|exact Hok|exact H].
    intros l0 slot c0 l1 slot' c1 go_on Hc Hs Hb.
    destruct (release_slot_ok slot c0 Hc Hs) as (H1 & H2 & _).
    case_decide; [|by simplify_eq].
    destruct (server_context.release_slot slot c0). by simplify_eq.
  - by simplify_eq.
  - simplify_eq. by eapply server_ok_same; [apply send_same|].
  - eapply on_idle_slot_ok; [|done|done|exact H].
    intros id_slot slot c slot' c' Hst Ha.
    unfold server_context.slot_save in Ha. simpl in Ha. simplify_eq.
    split; [apply send_same|done].
  - eapply on_idle_slot_ok; [|done|done|exact H].
    intros id_slot slot c slot' c' Hst Ha.
    unfold server_context.slot_restore in Ha. cbv beta zeta in Ha. destr_head.
    all: split; [apply send_same|done].
  - eapply on_idle_slot_ok; [|done|done|exact H].
    intros id_slot slot c slot' c' Hst Ha.
    unfold server_context.slot_erase in Ha. simpl in Ha. simplify_eq.
    split; [|done].
    eapply same_slots_and_tasks_trans; [apply kv_same|apply send_same].
  - simplify_eq. by eapply server_ok_same; [apply send_same|].
Qed.

(** ** The scheduler iteration keeps the invariant *)

Lemma slot_ok_same slot slot' :
  server_slot.t_last_used slot' = server_slot.t_last_used slot →
  server_slot.id_task slot' = server_slot.id_task slot →
  server_slot.state slot' = server_slot.state slot →
  slot_params.cache_prompt (server_slot.params slot')
  = slot_params.cache_prompt (server_slot.params slot) →
  server_slot.n_past slot' = server_slot.n_past slot →
  server_slot.cache_tokens slot' = server_slot.cache_tokens slot →
  slot_ok slot → slot_ok slot'.
Proof.
  unfold slot_ok. intros -> -> -> -> -> ->. done.
Qed.

Lemma resize_length n v v' :
  resize n v = Some v' → Z.of_nat (length v') = n ∧ n <= VECTOR_MAX_SIZE.
Proof.
  unfold resize. intros H. case_decide; simplify_eq.
  rewrite length_app, length_take, length_replicate. lia.
Qed.

Lemma to_size_t_int32 z : int32 z → to_size_t z <= VECTOR_MAX_SIZE → to_size_t z = z.
Proof.
  unfold int32, to_size_t, INT32_MAX, VECTOR_MAX_SIZE, SIZE_MOD.
  change (2 ^ 64) with 18446744073709551616.
  change (2 ^ 61) with 2305843009213693952.
  change (2 ^ 31) with 2147483648.
  intros Hz Hle.
  destruct (decide (0 <= z)); [rewrite Z.mod_small; lia|].
  replace z with (z + 18446744073709551616 + (-1) * 18446744073709551616) in Hle by lia.
  rewrite Z.mod_add, Z.mod_small in Hle by lia. lia.
Qed.

Lemma shift_cache_length n_keep n_discard cache cache' :
  server_context.shift_cache n_keep n_discard cache = Some cache' →
  Z.of_nat (length cache') = to_size_t (Z.of_nat (length cache) - n_discard)
  ∧ to_size_t (Z.of_nat (length cache) - n_discard) <= VECTOR_MAX_SIZE.
Proof.
  unfold server_context.shift_cache. intros H.
  apply bind_Some in H as (c & _ & H). by apply resize_length in H.
Qed.

Lemma context_shift_ok slot ctx slot' ctx' :
  server_ok ctx → slot_ok slot →
  server_context.context_shift slot ctx = Some (slot', ctx') →
  server_ok ctx' ∧ slot_ok slot'.
Proof.
  intros Hok Hslot H. unfold server_context.context_shift in H. cbv zeta in H.
  case_decide; [|by simplify_eq].
  match type of H with
  | (if ?b then _ else _) = _ => destruct b
  end; [|by simplify_eq].
  match type of H with
  | (if ?b then _ else _) = _ => destruct b
  end.
  - destruct (release_slot_ok slot ctx Hok Hslot) as (H1 & H2 & _).
    destruct (server_context.release_slot slot ctx) as [s c]. simplify_eq.
    split; [|done]. by eapply server_ok_same; [apply send_same|].
  - case_decide as Hint; [done|]. destruct Hint as [Hd Hp].
    apply bind_Some in H as (s1 & Hs1 & H). simplify_eq. split.
    { eapply server_ok_same; [|exact Hok]. split; reflexivity. }
    destruct Hslot as (Ht & Hid & Hcache).
    destruct (slot_params.cache_prompt (server_slot.params slot)) eqn:Hcp.
    + apply bind_Some in Hs1 as (cache & Hsh & Hs1). simplify_eq.
      unfold slot_ok. simpl. split; [done|]. split; [done|].
      intros Hst _. apply shift_cache_length in Hsh as [-> Hmax].
      rewrite Hcache in * by done. by apply to_size_t_int32.
    + simplify_eq. unfold slot_ok. simpl. rewrite Hcp. done.
Qed.

Lemma add_sampled_token_ok slot ctx slot' ctx' :
  server_ok ctx → slot_ok slot →
  server_context.add_sampled_token slot ctx = Some (slot', ctx') →
  server_ok ctx' ∧ slot_ok slot'.
Proof.
  intros Hok Hslot H. unfold server_context.add_sampled_token in H.
  case_decide; [by simplify_eq|]. cbv zeta in H. simpl in H.
  split.
  { eapply server_ok_same; [|exact Hok]. simplify_eq. split; reflexivity. }
  destruct Hslot as (Ht & Hid & Hcache).
  destruct (slot_params.cache_prompt (server_slot.params slot)) eqn:Hcp;
    simplify_eq; unfold slot_ok; simpl; rewrite ?Hcp; [|done].
  split; [done|]. split; [done|]. intros Hst _.
  rewrite length_app. simpl. rewrite <- Hcache by done. lia.
Qed.

Lemma infill_tokens_same m slot ctx tokens ctx' :
  server_context.infill_tokens m slot ctx = Some (tokens, ctx') →
  same_slots_and_tasks ctx ctx'.
Proof.
  unfold server_context.infill_tokens. intros H. cbv zeta in H.
  match type of H with
  | (let '(_, _) := ?x in _) = _ =>
      assert (same_slots_and_tasks ctx x.2) as Hsame; [|destruct x as [b c]]
  end.
  { clear H. repeat case_match; split; reflexivity. }
  destr_head. done.
Qed.

Lemma prompt_slot_ok slot slot' :
  slot_ok slot →
  server_slot.state slot' = SLOT_STATE_PROCESSING_PROMPT →
  server_slot.t_last_used slot' = server_slot.t_last_used slot →
  server_slot.id_task slot' = server_slot.id_task slot →
  server_slot.state slot = SLOT_STATE_PROCESSING_PROMPT →
  slot_ok slot'.
Proof.
  intros (Ht & Hid & _) Hst' Ht' Hid' Hst. unfold slot_ok.
  rewrite Hst', Ht', Hid'. rewrite Hst in Hid.
  repeat split; try done. intros [?|?]; done.
Qed.

Lemma same_task_refl slot : same_task slot slot.
Proof. by unfold same_task. Qed.

Lemma same_task_trans s1 s2 s3 : same_task s1 s2 → same_task s2 s3 → same_task s1 s3.
Proof. unfold same_task. intros (?&?&?&?) (?&?&?&?). repeat split; congruence. Qed.

Lemma prompt_slot_same slot slot' :
  slot_ok slot → same_task slot slot' →
  server_slot.state slot = SLOT_STATE_PROCESSING_PROMPT →
  slot_ok slot' ∧ server_slot.state slot' = SLOT_STATE_PROCESSING_PROMPT.
Proof.
  intros Hok (Ht & Hid & Hst' & _) Hst. split; [|congruence].
  eapply prompt_slot_ok; [exact Hok|congruence|done|done|done].
Qed.

Lemma assemble_prompt_same m slot ctx tokens ctx' :
  server_context.assemble_prompt m slot ctx = Some (inr (tokens, ctx')) →
  same_slots_and_tasks ctx ctx'.
Proof.
  unfold server_context.assemble_prompt. intros H.
  destr_head.
  all: try match goal with
       | Hi : server_context.infill_tokens _ _ _ = Some _ |- _ =>
           apply infill_tokens_same in Hi
       end.
  all: try done.
  all: split; reflexivity.
Qed.

Lemma truncate_prompt_same slot slot' :
  server_context.truncate_prompt slot = Some slot' → same_task slot slot'.
Proof.
  unfold server_context.truncate_prompt. intros H. cbv zeta in H.
  destr_head; by unfold same_task.
Qed.

Lemma reuse_cache_same slot slot' :
  server_context.reuse_cache slot = Some slot' → same_task slot slot'.
Proof.
  unfold server_context.reuse_cache. intros H.
  destr_head; by unfold same_task.
Qed.

Lemma leave_one_token_same slot : same_task slot (server_context.leave_one_token slot).
Proof.
  unfold server_context.leave_one_token. cbv zeta.
  repeat case_decide; by unfold same_task.
Qed.

Lemma release_and_send_error_ok slot ctx slot' ctx' error type :
  server_ok ctx → slot_ok slot →
  server_context.release_slot slot ctx = (slot', ctx') →
  server_ok (server_context.send_error (server_slot.id_task slot') error type ctx')
  ∧ slot_ok slot'.
Proof.
  intros Hok Hslot Hrel.
  destruct (release_slot_ok slot ctx Hok Hslot) as (H1 & H2 & _).
  rewrite Hrel in H1, H2. split; [|done].
  by eapply server_ok_same; [apply send_same|].
Qed.

Lemma check_prompt_ok n_ubatch slot ctx r :
  server_ok ctx → slot_ok slot →
  server_slot.state slot = SLOT_STATE_PROCESSING_PROMPT →
  server_context.check_prompt n_ubatch slot ctx = Some r →
  match r with
  | inl (s, c) => server_ok c ∧ slot_ok s
  | inr (s, c) =>
      server_ok c ∧ slot_ok s ∧ server_slot.state s = SLOT_STATE_PROCESSING_PROMPT
  end.
Proof.
  intros Hok Hslot Hst H. unfold server_context.check_prompt in H.
  cbv zeta in H.
  destruct (server_context.is_embedding slot).
  - case_decide.
    + destruct (server_context.release_slot slot ctx) as [s c] eqn:Hrel.
      simplify_eq. by eapply release_and_send_error_ok.
    + by simplify_eq.
  - match type of H with
    | (if ?b then _ else _) = _ => destruct b
    end.
    + destruct (server_context.release_slot slot ctx) as [s c] eqn:Hrel.
      simplify_eq. by eapply release_and_send_error_ok.
    + apply bind_Some in H as (s1 & H1 & H).
      apply bind_Some in H as (s2 & H2 & H). simplify_eq.
      apply truncate_prompt_same in H1. apply reuse_cache_same in H2.
      split; [done|]. eapply prompt_slot_same; [exact Hslot| |done].
      eapply same_task_trans; [|exact H2].
      eapply same_task_trans; [|exact H1].
      unfold same_task. simpl. by repeat case_decide.
Qed.

Lemma tokenize_prompt_ok m n_ubatch slot ctx r :
  server_ok ctx → slot_ok slot →
  server_slot.state slot = SLOT_STATE_PROCESSING_PROMPT →
  server_context.tokenize_prompt m n_ubatch slot ctx = Some r →
  match r with
  | inl (s, c) => server_ok c ∧ slot_ok s
  | inr (s, c) =>
      server_ok c ∧ slot_ok s ∧ server_slot.state s = SLOT_STATE_PROCESSING_PROMPT
  end.
Proof.
  intros Hok Hslot Hst H. unfold server_context.tokenize_prompt in H.
  apply bind_Some in H as (assembled & Ha & H).
  destruct assembled as [[]|[tokens c0]].
  - destruct (server_context.release_slot slot ctx) as [s c] eqn:Hrel.
    simplify_eq. by eapply release_and_send_error_ok.
  - apply assemble_prompt_same in Ha.
    assert (server_ok c0) as Hok0 by (by eapply server_ok_same).
    cbv zeta in H.
    match type of H with
    | context [server_context.check_prompt _ ?s _] =>
        assert (slot_ok s ∧ server_slot.state s = SLOT_STATE_PROCESSING_PROMPT)
          as [Hs1 Hst1]
          by (eapply prompt_slot_same; [exact Hslot|by unfold same_task|done]);
        generalize dependent s; intros s1 H Hs1 Hst1
    end.
    case_decide.
    + destruct (server_context.release_slot s1 c0) as [s c] eqn:Hrel.
      simplify_eq.
      destruct (release_slot_ok s1 c0 Hok0 Hs1) as (H1 & H2 & _).
      rewrite Hrel in H1, H2. split; [|done].
      by eapply server_ok_same; [apply send_same|].
    + apply bind_Some in H as (checked & Hc & H).
      apply check_prompt_ok in Hc; [|done..].
      destruct checked as [[s c]|[s c]]; simplify_eq; [done|].
      destruct Hc as (Hc1 & Hc2 & Hc3). split; [done|].
      eapply prompt_slot_same; [exact Hc2| |exact Hc3].
      eapply same_task_trans; [apply leave_one_token_same|].
      unfold same_task. simpl. done.
Qed.

Lemma add_prompt_tokens_ok fuel n_batch slot_npast ga_i_ slot ctx slot' ctx' :
  server_context.add_prompt_tokens fuel n_batch slot_npast ga_i_ slot ctx
  = Some (slot', ctx') →
  same_task slot slot' ∧ same_slots_and_tasks ctx ctx'
  ∧ (slot_params.cache_prompt (server_slot.params slot) = true →
     Z.of_nat (length (server_slot.cache_tokens slot)) = server_slot.n_past slot →
     Z.of_nat (length (server_slot.cache_tokens slot')) = server_slot.n_past slot').
Proof.
  revert slot_npast ga_i_ slot ctx.
  induction fuel as [|fuel IH]; intros slot_npast ga_i_ slot ctx H; simpl in H.
  - case_decide; [done|]. simplify_eq.
    split; [apply same_task_refl|]. split; [split; reflexivity|done].
  - case_decide.
    2:{ simplify_eq. split; [apply same_task_refl|]. split; [split; reflexivity|done]. }
    apply bind_Some in H as ([npast1 ga1] & _ & H).
    apply bind_Some in H as (token & _ & H).
    apply IH in H as (Hsame & Hctx & Hlen). clear IH.
    destruct (slot_params.cache_prompt (server_slot.params slot)) eqn:Hcp.
    + split; [|split].
      * eapply same_task_trans; [|exact Hsame]. unfold same_task. simpl. by rewrite Hcp.
      * eapply same_slots_and_tasks_trans; [|exact Hctx]. split; reflexivity.
      * intros _ Hl. apply Hlen; simpl; [done|].
        rewrite length_app. simpl. lia.
    + split; [|split].
      * eapply same_task_trans; [|exact Hsame]. unfold same_task. simpl. by rewrite Hcp.
      * eapply same_slots_and_tasks_trans; [|exact Hctx]. split; reflexivity.
      * done.
Qed.

Lemma keep_common_part_same o slot ctx :
  same_task slot (server_context.keep_common_part o slot ctx).1
  ∧ same_slots_and_tasks ctx (server_context.keep_common_part o slot ctx).2.
Proof.
  unfold server_context.keep_common_part. cbv zeta.
  repeat case_match; simpl; split; try (by unfold same_task); split; reflexivity.
Qed.

Lemma admit_prompt_ok o n_batch slot ctx slot' ctx' :
  server_ok ctx → slot_ok slot →
  server_slot.state slot = SLOT_STATE_PROCESSING_PROMPT →
  server_context.admit_prompt o n_batch slot ctx = Some (slot', ctx') →
  server_ok ctx' ∧ slot_ok slot'.
Proof.
  intros Hok Hslot Hst H. unfold server_context.admit_prompt in H.
  destruct (keep_common_part_same o slot ctx) as [Hs1 Hc1].
  destruct (server_context.keep_common_part o slot ctx) as [s1 c1]. simpl in Hs1, Hc1.
  apply bind_Some in H as (cache & Hcache & H).
  destruct (decide (int32 (server_slot.n_past s1))) as [Hint|]; [|done]. apply resize_length in Hcache as [Hlen Hmax].
  rewrite to_size_t_int32 in Hlen by done.
  cbv zeta in H.
  apply bind_Some in H as ([s2 c2] & Htokens & H).
  apply add_prompt_tokens_ok in Htokens as (Hs2 & Hc2 & Hlen2).
  simpl in Hlen2.
  assert (same_task slot s2) as Hs.
  { eapply same_task_trans; [exact Hs1|]. eapply same_task_trans; [|exact Hs2].
    by unfold same_task. }
  assert (server_ok c2) as Hok2.
  { eapply server_ok_same; [exact Hc2|]. by eapply server_ok_same. }
  destruct (prompt_slot_same _ _ Hslot Hs Hst) as [(Ht2 & Hid2 & _) Hst2].
  case_decide.
  - case_decide; [|done]. simplify_eq. split.
    { eapply server_ok_same; [|exact Hok2]. split; reflexivity. }
    unfold slot_ok. simpl. split; [done|]. split; [by rewrite Hst2 in Hid2; auto|].
    intros _ Hcp. apply Hlen2; [|done].
    destruct Hs2 as (_ & _ & _ & Hcp2). simpl in Hcp2. by rewrite <- Hcp2.
  - simplify_eq. split; [done|]. unfold slot_ok. rewrite Hst2.
    split; [done|]. split; [by rewrite Hst2 in Hid2|]. intros [?|?]; done.
Qed.

Lemma add_prompt_ok m o n_batch n_ubatch :
  body_ok (server_context.add_prompt m o n_batch n_ubatch).
Proof.
  intros batch_type slot ctx l' slot' ctx' go_on Hok Hslot H.
  unfold server_context.add_prompt in H. cbv zeta in H.
  case_decide as Hst; [|by simplify_eq].
  apply bind_Some in H as (tokenized & Htok & H).
  assert (match tokenized with
          | inl (s, c) => server_ok c ∧ slot_ok s
          | inr (s, c) =>
              server_ok c ∧ slot_ok s
              ∧ server_slot.state s = SLOT_STATE_PROCESSING_PROMPT
          end) as Hr.
  { destruct (decide (server_slot.prompt_tokens slot = [])).
    - exact (tokenize_prompt_ok m n_ubatch slot ctx tokenized Hok Hslot Hst Htok).
    - by simplify_eq. }
  clear Htok. destruct tokenized as [[s c]|[s c]]; [by simplify_eq|].
  destruct Hr as (Hokc & Hs & Hsts).
  match type of H with
  | (if ?b then _ else _) = _ => destruct b
  end; [by simplify_eq|].
  case_decide; [by simplify_eq|].
  apply bind_Some in H as ([s2 c2] & Hadmit & H). simplify_eq.
  by eapply admit_prompt_ok.
Qed.

Lemma has_budget_same global_params slot :
  same_but_text_and_stops slot (server_slot.has_budget global_params slot).2.
Proof. unfold server_slot.has_budget. case_decide; same_slot. Qed.

Lemma process_token_limits_same m global_params token slot :
  same_but_text_and_stops slot
    (server_context.process_token_limits m global_params token slot).
Proof.
  unfold server_context.process_token_limits. cbv zeta.
  match goal with
  | |- context [if ?b then (let '(_, _) := server_slot.has_budget _ _ in _) else slot] =>
      set (s1 := if b then _ else slot)
  end.
  assert (same_but_text_and_stops slot s1) as H1.
  { unfold s1. case_match; [|same_slot].
    pose proof (has_budget_same global_params slot) as Hb.
    destruct (server_slot.has_budget global_params slot) as [budget s].
    destruct budget; [done|]. simpl in Hb.
    eapply same_but_text_and_stops_trans; [exact Hb|same_slot]. }
  clearbody s1.
  match goal with
  | |- context [if decide (server_slot.n_decoded s1 >= _) then ?a else s1] =>
      set (s2 := if decide (server_slot.n_decoded s1 >= server_slot.n_ctx s1) then a else s1)
  end.
  assert (same_but_text_and_stops slot s2) as H2.
  { eapply same_but_text_and_stops_trans; [exact H1|]. unfold s2. case_decide; same_slot. }
  clearbody s2. clear H1 s1.
  match goal with
  | |- context [if llama_token_is_eog m token then ?a else s2] =>
      set (s3 := if llama_token_is_eog m token then a else s2)
  end.
  assert (same_but_text_and_stops slot s3) as H3.
  { eapply same_but_text_and_stops_trans; [exact H2|]. unfold s3. case_match; same_slot. }
  clearbody s3. clear H2 s2.
  eapply same_but_text_and_stops_trans; [exact H3|]. case_decide; same_slot.
Qed.

Lemma slot_ok_text slot slot' :
  same_but_text_and_stops slot slot' → slot_ok slot → slot_ok slot'.
Proof.
  intros (_ & Hid & Hst & Ht & Hp & _ & Hn & _ & _ & _ & Hc & _).
  apply slot_ok_same; congruence.
Qed.

Lemma process_token_ok m result slot ctx go_on slot' ctx' :
  server_context.process_token m result slot ctx = (go_on, slot', ctx') →
  same_but_text_and_stops slot slot' ∧ same_slots_and_tasks ctx ctx'.
Proof.
  unfold server_context.process_token. intros H.
  pose proof (process_token_text_same m result slot ctx) as (Hs & _).
  pose proof (process_token_text_context m result slot ctx) as (_ & Hsl & Hq & _).
  destruct (server_context.process_token_text m result slot ctx) as [s c].
  simpl in *. simplify_eq. split; [|done].
  eapply same_but_text_and_stops_trans; [exact Hs|apply process_token_limits_same].
Qed.

Lemma release_and_send_final_ok slot ctx slot' ctx' :
  server_ok ctx → slot_ok slot →
  server_context.release_and_send_final slot ctx = (slot', ctx') →
  server_ok ctx' ∧ slot_ok slot'.
Proof.
  unfold server_context.release_and_send_final. intros Hok Hslot H.
  destruct (release_slot_ok slot ctx Hok Hslot) as (H1 & H2 & _).
  destruct (server_context.release_slot slot ctx) as [s c]. simplify_eq.
  split; [|done]. by eapply server_ok_same; [apply send_same|].
Qed.

Lemma speculative_commit_ok id_ ids slot slot' :
  slot_ok slot →
  server_context.speculative_commit id_ ids slot = Some slot' →
  slot_ok slot'.
Proof.
  unfold server_context.speculative_commit. cbv zeta.
  intros (Ht & Hid & Hc) H. case_decide as Hids; simplify_eq.
  unfold slot_ok. simpl. split; [done|]. split; [done|].
  intros Hst Hcp. rewrite !length_app, <- Hc by done. simpl.
  destruct ids as [|x ids] using rev_ind; [done|].
  rewrite removelast_last, length_app. simpl. lia.
Qed.

Lemma process_accepted_ok m ids slot ctx slot' ctx' :
  server_ok ctx → slot_ok slot →
  server_context.process_accepted m ids slot ctx = (slot', ctx') →
  server_ok ctx' ∧ slot_ok slot'.
Proof.
  revert slot ctx. induction ids as [|id_ ids IH]; intros slot ctx Hok Hslot H; simpl in H.
  - by simplify_eq.
  - destruct (server_context.process_token m _ slot ctx) as [[go_on s] c] eqn:Hp.
    apply process_token_ok in Hp as [Hs Hc].
    assert (server_ok c) by (by eapply server_ok_same).
    assert (slot_ok s) by (by eapply slot_ok_text).
    destruct go_on; [by eapply IH|by eapply release_and_send_final_ok].
Qed.

Lemma self_extend_while_same fuel slot ctx slot' ctx' :
  server_context.self_extend_while fuel slot ctx = Some (slot', ctx') →
  (slot_ok slot → slot_ok slot') ∧ same_slots_and_tasks ctx ctx'.
Proof.
  revert slot ctx. induction fuel as [|fuel IH]; intros slot ctx H; simpl in H.
  - case_decide; [done|]. simplify_eq. split; [done|split; reflexivity].
  - case_decide; [|simplify_eq; split; [done|split; reflexivity]].
    apply IH in H as [Hs Hc]. split.
    + intros Hslot. apply Hs. revert Hslot. by apply slot_ok_same.
    + eapply same_slots_and_tasks_trans; [|exact Hc]. split; reflexivity.
Qed.

Lemma self_extend_ok n_tokens_ slot ctx slot' ctx' :
  server_ok ctx → slot_ok slot →
  server_context.self_extend n_tokens_ slot ctx = Some (slot', ctx') →
  server_ok ctx' ∧ slot_ok slot'.
Proof.
  unfold server_context.self_extend. intros Hok Hslot H.
  case_decide; [|by simplify_eq].
  apply bind_Some in H as ([s c] & Hw & H). simplify_eq.
  apply self_extend_while_same in Hw as [Hs Hc].
  split; [by eapply server_ok_same|].
  specialize (Hs Hslot). revert Hs. by apply slot_ok_same.
Qed.

Lemma sample_slot_ok m o i n_tokens_ slot ctx slot' ctx' :
  server_ok ctx → slot_ok slot →
  server_context.sample_slot m o i n_tokens_ slot ctx = Some (slot', ctx') →
  server_ok ctx' ∧ slot_ok slot'.
Proof.
  intros Hok Hslot H. unfold server_context.sample_slot in H.
  case_decide; [by simplify_eq|]. cbv zeta in H.
  match type of H with
  | match ?a with _ => _ end = _ =>
      assert (match a with
              | inl (s, c) => server_ok c ∧ slot_ok s
              | inr s => slot_ok s
              end) as Ha; [|destruct a as [[s c]|s]]
  end.
  { clear H. destruct Hslot as (Ht & Hid & Hc).
    case_decide as Hst.
    - case_decide; [|case_decide].
      + assert (server_ok (server_context.send_embedding slot ctx)) as Hok1
          by (eapply server_ok_same; [apply send_same|done]).
        destruct (release_slot_ok slot _ Hok1 (conj Ht (conj Hid Hc))) as (Hr1 & Hr2 & _).
        destruct (server_context.release_slot slot _) as [s c].
        split; [done|]. revert Hr2. by apply slot_ok_same.
      + assert (server_ok (server_context.send_rerank slot ctx)) as Hok1
          by (eapply server_ok_same; [apply send_same|done]).
        destruct (release_slot_ok slot _ Hok1 (conj Ht (conj Hid Hc))) as (Hr1 & Hr2 & _).
        destruct (server_context.release_slot slot _) as [s c].
        split; [done|]. revert Hr2. by apply slot_ok_same.
      + unfold slot_ok. simpl. split; [done|]. split; [rewrite Hst in Hid; auto|].
        intros _. apply Hc. by left.
    - case_decide; done. }
  { by simplify_eq. }
  destruct (server_context.process_token m _ _ ctx) as [[go_on s1] c1] eqn:Hp.
  apply process_token_ok in Hp as [Hs1 Hc1].
  assert (server_ok c1) as Hok1 by (by eapply server_ok_same).
  assert (slot_ok s1) as Hslot1.
  { eapply slot_ok_text; [exact Hs1|]. revert Ha. by apply slot_ok_same. }
  clear Hs1 Hc1 Ha.
  destruct go_on; simpl in H; [|simplify_eq; by eapply release_and_send_final_ok].
  destruct (server_slot.can_speculate s1); simpl in H; [|by simplify_eq].
  case_decide; [by simplify_eq|].
  apply bind_Some in H as (s2 & Hcommit & H). simplify_eq.
  apply speculative_commit_ok in Hcommit.
  2:{ revert Hslot1. by apply slot_ok_same. }
  apply process_accepted_ok in H; [done| |done].
  eapply server_ok_same; [|exact Hok1]. split; reflexivity.
Qed.

Lemma decode_batch_ok m o fuel k i n_batch ctx ctx' :
  server_ok ctx →
  server_context.decode_batch m o fuel k i n_batch ctx = Some ctx' →
  server_ok ctx'.
Proof.
  revert k i n_batch ctx.
  induction fuel as [|fuel IH]; intros k i n_batch ctx Hok H; simpl in H.
  - case_decide; [done|]. by simplify_eq.
  - case_decide; [|by simplify_eq].
    apply bind_Some in H as (ctx1 & Hext & H).
    assert (server_ok ctx1) as Hok1.
    { eapply for_slots_ok; [|exact Hok|exact Hext].
      intros slot c slot' c' Hc Hs Hb. by eapply self_extend_ok. }
    case_decide.
    + case_decide.
      * eapply for_slots_ok; [|exact Hok1|exact H].
        intros slot c slot' c' Hc Hs Hb. cbv beta in Hb.
        destruct (server_context.release_slot slot c) as [s1 c1] eqn:Hrel.
        simplify_eq. by eapply release_and_send_error_ok.
      * by eapply IH.
    + apply bind_Some in H as (ctx2 & Hsample & H).
      eapply IH; [|exact H].
      eapply for_slots_ok; [|exact Hok1|exact Hsample].
      intros slot c slot' c' Hc Hs Hb. by eapply sample_slot_ok.
Qed.

Lemma system_prompt_decode_same m o fuel k i ctx decoded ctx' :
  server_context.system_prompt_decode m o fuel k i ctx = Some (decoded, ctx') →
  same_slots_and_tasks ctx ctx'.
Proof.
  revert k i ctx. induction fuel as [|fuel IH]; intros k i ctx H; simpl in H.
  - case_decide; [done|]. simplify_eq. split; reflexivity.
  - case_decide; [|simplify_eq; split; reflexivity].
    case_decide; [simplify_eq; split; reflexivity|].
    apply IH in H. eapply same_slots_and_tasks_trans; [|exact H]. split; reflexivity.
Qed.

Lemma foldl_same {A} (f : server_context.t → A → server_context.t) l ctx :
  (∀ c a, same_slots_and_tasks c (f c a)) →
  same_slots_and_tasks ctx (foldl f ctx l).
Proof.
  intros Hf. revert ctx. induction l as [|a l IH]; intros ctx; simpl.
  - split; reflexivity.
  - eapply same_slots_and_tasks_trans; [apply Hf|apply IH].
Qed.

Lemma system_prompt_update_same m o ctx ctx' :
  server_context.system_prompt_update m o ctx = Some ctx' →
  same_slots_and_tasks ctx ctx'.
Proof.
  unfold server_context.system_prompt_update. cbv zeta. intros H.
  case_bool_decide; [|simplify_eq; split; reflexivity].
  apply bind_Some in H as ([decoded c] & Hd & H).
  apply system_prompt_decode_same in Hd.
  assert (same_slots_and_tasks ctx c) as Hc.
  { eapply same_slots_and_tasks_trans; [|exact Hd]. split; reflexivity. }
  destruct decoded; simplify_eq; [|done].
  eapply same_slots_and_tasks_trans; [exact Hc|].
  split; simpl.
  - refine (proj1 (foldl_same _ _ _ _)). intros c0 a. split; reflexivity.
  - refine (proj2 (foldl_same _ _ _ _)). intros c0 a. split; reflexivity.
Qed.

Lemma update_slots_ok m o ctx ctx' :
  server_ok ctx →
  server_context.update_slots m o ctx = Some ctx' →
  server_ok ctx'.
Proof.
  intros Hok H. unfold server_context.update_slots in H.
  apply bind_Some in H as (ctx1 & Hsys & H).
  assert (server_ok ctx1) as Hok1.
  { destruct (server_context.system_need_update ctx); [|by simplify_eq].
    apply system_prompt_update_same in Hsys. by eapply server_ok_same. }
  clear Hsys Hok.
  match type of H with
  | (if ?b then _ else _) = _ => destruct b
  end.
  { simplify_eq. case_match; [|done].
    eapply server_ok_same; [|exact Hok1]. split; reflexivity. }
  apply bind_Some in H as ([i q] & Hpost & H).
  destruct Hok1 as [Hs1 Hq1]. apply post_ok in Hpost; [|done].
  cbv zeta in H.
  apply bind_Some in H as (ctx2 & Hshift & H).
  assert (server_ok ctx2) as Hok2.
  { eapply for_slots_ok; [| |exact Hshift]; [|by split].
    intros slot c slot' c' Hc Hs Hb. by eapply context_shift_ok. }
  apply bind_Some in H as (ctx3 & Hsampled & H).
  assert (server_ok ctx3) as Hok3.
  { eapply for_slots_ok; [| |exact Hsampled].
    - intros slot c slot' c' Hc Hs Hb. by eapply add_sampled_token_ok.
    - eapply server_ok_same; [|exact Hok2]. split; reflexivity. }
  apply bind_Some in H as (ctx4 & Hprompt & H).
  assert (server_ok ctx4) as Hok4.
  { match type of Hprompt with
    | (if ?b then _ else _) = _ => destruct b
    end; [|by simplify_eq].
    apply fmap_Some in Hprompt as ([l c] & Hprompt & ->). simpl.
    eapply for_slots_with_ok; [apply add_prompt_ok|exact Hok3|exact Hprompt]. }
  case_decide; [by simplify_eq|].
  by eapply decode_batch_ok.
Qed.

(** ** Every reachable state satisfies the invariant *)

Lemma make_ok params_ : server_ok (server_context.make params_).
Proof.
  split; simpl; [done|]. unfold queue_ok, server_queue.empty. simpl. done.
Qed.

Lemma load_model_same m o params_ ctx :
  same_slots_and_tasks ctx (server_context.load_model m o params_ ctx).2.
Proof.
  unfold server_context.load_model. cbv zeta.
  repeat case_match; split; reflexivity.
Qed.

Lemma init_slots_ok o n_ctx_slot ids ctx finished ctx' :
  server_ok ctx →
  server_context.init_slots o n_ctx_slot ids ctx = Some (finished, ctx') →
  server_ok ctx'.
Proof.
  revert ctx. induction ids as [|i ids IH]; intros ctx Hok H; simpl in H.
  - by simplify_eq.
  - destr_eqs; try done.
    all: match goal with
         | Hi : server_context.init_slots _ _ _ _ = Some _ |- _ =>
             apply IH in Hi; [done|]
         end.
    all: destruct Hok as [Hs Hq]; split; [|done]; simpl.
    all: apply Forall_app; split; [done|]; apply Forall_singleton.
    all: unfold slot_ok; repeat case_match; simplify_eq/=.
    all: repeat split; try done; intros [?|?]; done.
Qed.

Lemma init_ok o ctx ctx' :
  server_ok ctx → server_context.init o ctx = Some ctx' → server_ok ctx'.
Proof.
  unfold server_context.init. cbv zeta. intros Hok H.
  case_decide; [done|].
  apply bind_Some in H as ([finished c] & Hinit & H).
  apply init_slots_ok in Hinit; [|done].
  destruct finished; [|by simplify_eq].
  case_decide; simplify_eq. eapply server_ok_same; [|exact Hinit]. split; reflexivity.
Qed.

Lemma start_ok m o params_ ctx :
  start m o params_ = Some ctx → server_ok ctx.
Proof.
  unfold start. cbv zeta. intros H.
  apply bind_Some in H as (ctx1 & Hsys & H).
  assert (server_ok ctx1) as Hok1.
  { case_bool_decide; [|simplify_eq; apply make_ok].
    eapply system_prompt_set_ok; [apply make_ok|exact Hsys]. }
  pose proof (load_model_same m o params_ ctx1) as Hload.
  destruct (server_context.load_model m o params_ ctx1) as [loaded c].
  destruct loaded; [|done].
  eapply init_ok; [|exact H]. by eapply server_ok_same.
Qed.

Lemma cancel_tasks_ok id_tasks ctx ctx' :
  server_ok ctx → server_context.cancel_tasks id_tasks ctx = Some ctx' → server_ok ctx'.
Proof.
  unfold server_context.cancel_tasks. cbv zeta. intros Hok H.
  apply bind_Some in H as (q & Hpost & H). simplify_eq.
  match type of Hpost with
  | context [foldl ?f ctx id_tasks] =>
      assert (same_slots_and_tasks ctx (foldl f ctx id_tasks)) as Hsame
        by (apply foldl_same; intros c a; split; reflexivity);
      generalize dependent (foldl f ctx id_tasks); intros c Hpost Hsame
  end.
  destruct (server_ok_same _ _ Hsame Hok) as [Hs Hq].
  apply post_many_ok in Hpost; [|done]. by split.
Qed.

Lemma step_ok m ev ctx ctx' :
  server_ok ctx → step m ev ctx = Some ctx' → server_ok ctx'.
Proof.
  intros Hok H. pose proof Hok as [Hs Hq].
  destruct ev; simpl in H;
    unfold on_queue_tasks, on_queue_results in H.
  - apply bind_Some in H as (q & Hpost & H).
    apply fmap_Some in Hpost as ([i q1] & Hpost & ->). simplify_eq.
    apply post_ok in Hpost; [|done]. by split.
  - apply bind_Some in H as (q & Hpost & H). simplify_eq.
    apply post_many_ok in Hpost; [|done]. by split.
  - apply bind_Some in H as (q & Hnew & H).
    apply fmap_Some in Hnew as ([i q1] & Hnew & ->). simplify_eq.
    apply next_id_ok in Hnew; [|done]. by split.
  - by simplify_eq.
  - by simplify_eq.
  - by simplify_eq.
  - by simplify_eq.
  - apply bind_Some in H as ([res r] & _ & H). by simplify_eq.
  - by eapply cancel_tasks_ok.
  - simplify_eq/=. split; [done|]. by destruct Hq as (? & ? & ?).
  - apply bind_Some in H as ([task q] & Hpop & H).
    apply pop_front_ok in Hpop as [Hid Hq']; [|done].
    eapply process_single_task_ok; [exact Hid| |exact H]. by split.
  - by eapply update_slots_ok.
Qed.

Lemma run_ok m evs ctx ctx' :
  server_ok ctx → run m evs ctx = Some ctx' → server_ok ctx'.
Proof.
  revert ctx. induction evs as [|ev evs IH]; intros ctx Hok H; simpl in H.
  - by simplify_eq.
  - apply bind_Some in H as (ctx1 & Hstep & H).
    eapply IH; [|exact H]. by eapply step_ok.
Qed.

Lemma reachable_ok m ctx : reachable m ctx → server_ok ctx.
Proof.
  intros (o & params_ & ctx0 & evs & Hstart & Hrun).
  eapply run_ok; [|exact Hrun]. by eapply start_ok.
Qed.

(** ** Slots and the tasks they run *)

Lemma release_keeps_id_task slot q :
  server_slot.state (server_slot.release slot q).1 = SLOT_STATE_IDLE
  ∧ server_slot.id_task (server_slot.release slot q).1 = server_slot.id_task slot.
Proof.
  unfold server_slot.release.
  destruct (server_slot.is_processing slot) eqn:Hp; simpl; [done|].
  split; [|done]. by apply not_processing_idle.
Qed.

(** C1, as stated, fails: when a completion has run to its end, its slot
    is idle again and still carries the id of the task, 0. *)
Lemma idle_slot_keeps_id_task :
  ∃ ctx0 ctx,
    start example_model example_oracle example_params = Some ctx0
    ∧ run example_model completion_run ctx0 = Some ctx
    ∧ ¬ idle_iff_no_task ctx.
Proof.
  destruct (start example_model example_oracle example_params) as [ctx0|] eqn:Hstart;
    [|by vm_compute in Hstart].
  destruct (run example_model completion_run ctx0) as [ctx|] eqn:Hrun.
  2:{ vm_compute in Hstart. injection Hstart as <-. by vm_compute in Hrun. }
  exists ctx0, ctx. split; [done|]. split; [done|]. intros Hiff.
  assert (∃ slot, server_context.slots ctx !! 0%nat = Some slot
                  ∧ server_slot.state slot = SLOT_STATE_IDLE
                  ∧ server_slot.id_task slot = 0) as (slot & Hi & Hst & Hid).
  { vm_compute in Hstart. injection Hstart as <-.
    vm_compute in Hrun. injection Hrun as <-.
    eexists. split; [reflexivity|]. split; reflexivity. }
  apply list_elem_of_lookup_2, Hiff in Hi. apply Hi in Hst. by rewrite Hid in Hst.
Qed.

(** C1, amended: in every reachable state a slot without a task id
    ([id_task = -1]) is idle, that is, a processing slot carries the id of
    its task.  The converse does not hold, because [release] returns the
    slot to IDLE and leaves [id_task] as it is. *)
Theorem processing_slot_has_task (m : llama_model) (ctx : server_context.t)
    (slot : server_slot.t) (q : server_queue.t) :
  reachable m ctx →
  slot ∈ server_context.slots ctx →
  (server_slot.id_task slot = -1 → server_slot.state slot = SLOT_STATE_IDLE)
  ∧ server_slot.state (server_slot.release slot q).1 = SLOT_STATE_IDLE
  ∧ server_slot.id_task (server_slot.release slot q).1 = server_slot.id_task slot.
Proof.
  intros Hreach Hin. split; [|apply release_keeps_id_task].
  apply reachable_ok in Hreach as [Hslots _].
  rewrite Forall_forall in Hslots. destruct (Hslots _ Hin) as (_ & Hid & _).
  intros Hnone. destruct (decide (server_slot.state slot = SLOT_STATE_IDLE)); [done|].
  by destruct Hid.
Qed.

Lemma processing_slot_has_task_witness :
  ∃ ctx slot,
    start example_model example_oracle example_params = Some ctx
    ∧ server_context.slots ctx !! 0%nat = Some slot
    ∧ (server_slot.id_task slot = -1 → server_slot.state slot = SLOT_STATE_IDLE)
    ∧ server_slot.state (server_slot.release slot server_queue.empty).1 = SLOT_STATE_IDLE.
Proof.
  destruct (start example_model example_oracle example_params) as [ctx|] eqn:Hstart;
    [|by vm_compute in Hstart].
  destruct (server_context.slots ctx !! 0%nat) as [slot|] eqn:Hi.
  2:{ vm_compute in Hstart. injection Hstart as <-. by vm_compute in Hi. }
  exists ctx, slot. split; [done|]. split; [done|].
  destruct (processing_slot_has_task example_model ctx slot server_queue.empty)
    as (H1 & H2 & _).
  - by exists example_oracle, example_params, ctx, [].
  - by eapply list_elem_of_lookup_2.
  - done.
Defined.

(** ** The choice of a slot *)

Lemma lru_loop_done (f : nat → nat) (l : list server_slot.t) (t_last : Z)
    (ret : option nat) :
  Forall (λ slot, server_slot.t_last_used slot = -1) l →
  t_last <= -1 →
  foldl server_context.lru_slot_step (t_last, ret) (imap (λ i slot, (f i, slot)) l)
  = (t_last, ret).
Proof.
  revert f. induction l as [|slot l IH]; intros f Hall Ht; [done|].
  apply Forall_cons in Hall as [Hslot Hall]. simpl.
  rewrite Hslot. destruct (server_slot.is_processing slot).
  - by apply (IH (f ∘ S)).
  - rewrite decide_False by lia. by apply (IH (f ∘ S)).
Qed.

Lemma lru_loop_first (f : nat → nat) (l : list server_slot.t) (t_last : Z) :
  Forall (λ slot, server_slot.t_last_used slot = -1) l →
  -1 < t_last →
  snd (foldl server_context.lru_slot_step (t_last, None) (imap (λ i slot, (f i, slot)) l))
  = f <$> (fst <$> list_find (λ slot, server_slot.state slot = SLOT_STATE_IDLE) l).
Proof.
  revert f. induction l as [|slot l IH]; intros f Hall Ht; [done|].
  apply Forall_cons in Hall as [Hslot Hall]. simpl.
  rewrite Hslot. unfold server_slot.is_processing.
  destruct (decide (server_slot.state slot = SLOT_STATE_IDLE)) as [Hst|Hst].
  - rewrite bool_decide_false by (by intros []). rewrite decide_True by lia.
    etrans; [apply (f_equal snd), (lru_loop_done (f ∘ S)); [done|lia]|done].
  - rewrite bool_decide_true by done.
    etrans; [exact (IH (f ∘ S) Hall Ht)|].
    by destruct (list_find _ l) as [[j y]|].
Qed.

(** C9: in every reachable state [t_last_used] is -1 in all slots;
    hence, with a clock that is not negative and the similarity search
    selecting no slot, [get_available_slot] answers with the first idle
    slot of the vector, and with none when no slot is idle. *)
Theorem get_available_slot_first_idle (m : llama_model) (o : oracle)
    (prompt_ : string) (ctx : server_context.t) :
  reachable m ctx →
  0 <= ggml_time_us o →
  server_context.similar_slot m prompt_ ctx = None →
  Forall (λ slot, server_slot.t_last_used slot = -1) (server_context.slots ctx)
  ∧ server_context.get_available_slot m o prompt_ ctx
    = fst <$> list_find (λ slot, server_slot.state slot = SLOT_STATE_IDLE)
                        (server_context.slots ctx).
Proof.
  intros Hreach Htime Hsim.
  assert (Forall (λ slot, server_slot.t_last_used slot = -1) (server_context.slots ctx))
    as Hall.
  { apply reachable_ok in Hreach as [Hslots _].
    eapply Forall_impl; [exact Hslots|]. by intros slot (? & _). }
  split; [done|].
  unfold server_context.get_available_slot. rewrite Hsim.
  unfold server_context.lru_slot.
  rewrite (lru_loop_first id) by (done || lia).
  by destruct (list_find _ _) as [[j y]|].
Qed.

Lemma get_available_slot_first_idle_witness :
  ∃ ctx,
    start example_model example_oracle example_params = Some ctx
    ∧ server_context.get_available_slot example_model example_oracle "hi" ctx
      = fst <$> list_find (λ slot, server_slot.state slot = SLOT_STATE_IDLE)
                          (server_context.slots ctx).
Proof.
  destruct (start example_model example_oracle example_params) as [ctx|] eqn:Hstart;
    [|by vm_compute in Hstart].
  exists ctx. split; [done|].
  apply (get_available_slot_first_idle example_model example_oracle "hi" ctx).
  - by exists example_oracle, example_params, ctx, [].
  - by vm_compute.
  - reflexivity.
Defined.

(** ** The cached tokens and [n_past] *)

Lemma add_sampled_token_in_step slot ctx slot' ctx' :
  server_context.add_sampled_token slot ctx = Some (slot', ctx') →
  cache_in_step slot → cache_in_step slot'.
Proof.
  unfold server_context.add_sampled_token, cache_in_step. intros H Hc.
  case_decide; [by simplify_eq|]. cbv zeta in H. simpl in H.
  destruct (slot_params.cache_prompt (server_slot.params slot)) eqn:Hcp;
    simplify_eq; simpl; rewrite ?Hcp; [|done].
  intros _. rewrite length_app. simpl. rewrite <- Hc by done. lia.
Qed.

Lemma context_shift_in_step slot ctx slot' ctx' :
  server_context.context_shift slot ctx = Some (slot', ctx') →
  cache_in_step slot → cache_in_step slot'.
Proof.
  intros H Hc. unfold server_context.context_shift in H. cbv zeta in H.
  case_decide; [|by simplify_eq].
  match type of H with
  | (if ?b then _ else _) = _ => destruct b
  end; [|by simplify_eq].
  match type of H with
  | (if ?b then _ else _) = _ => destruct b
  end.
  - unfold server_context.release_slot, server_slot.release in H.
    destruct (server_slot.is_processing slot); simplify_eq/=; done.
  - case_decide as Hint; [done|]. destruct Hint as [Hd Hp].
    apply bind_Some in H as (s1 & Hs1 & H). simplify_eq.
    unfold cache_in_step in *.
    destruct (slot_params.cache_prompt (server_slot.params slot)) eqn:Hcp.
    + apply bind_Some in Hs1 as (cache & Hsh & Hs1). simplify_eq. simpl.
      intros _. apply shift_cache_length in Hsh as [-> Hmax].
      rewrite Hc in * by done. by apply to_size_t_int32.
    + simplify_eq. simpl. by rewrite Hcp.
Qed.

Lemma admit_prompt_in_step o n_batch slot ctx slot' ctx' :
  server_context.admit_prompt o n_batch slot ctx = Some (slot', ctx') →
  cache_in_step slot'.
Proof.
  intros H. unfold server_context.admit_prompt in H.
  destruct (server_context.keep_common_part o slot ctx) as [s1 c1].
  apply bind_Some in H as (cache & Hcache & H).
  destruct (decide (int32 (server_slot.n_past s1))) as [Hint|]; [|done].
  apply resize_length in Hcache as [Hlen Hmax].
  rewrite to_size_t_int32 in Hlen by done.
  cbv zeta in H.
  apply bind_Some in H as ([s2 c2] & Htokens & H).
  apply add_prompt_tokens_ok in Htokens as (Hs2 & Hc2 & Hlen2).
  simpl in Hlen2. destruct Hs2 as (_ & _ & _ & Hcp2). simpl in Hcp2.
  unfold cache_in_step.
  case_decide.
  - case_decide; [|done]. simplify_eq. simpl.
    intros Hcp. apply Hlen2; [|done]. by rewrite <- Hcp2.
  - simplify_eq. intros Hcp. apply Hlen2; [|done]. by rewrite <- Hcp2.
Qed.

Lemma speculative_commit_in_step id_ ids slot slot' :
  server_context.speculative_commit id_ ids slot = Some slot' →
  cache_in_step slot → cache_in_step slot'.
Proof.
  unfold server_context.speculative_commit, cache_in_step. cbv zeta.
  intros H Hc. case_decide as Hids; simplify_eq. simpl.
  intros Hcp. rewrite !length_app, <- Hc by done. simpl.
  destruct ids as [|x ids] using rev_ind; [done|].
  rewrite removelast_last, length_app. simpl. lia.
Qed.

Lemma slot_restore_cache o task id_slot slot ctx slot' ctx' :
  server_context.slot_restore o task id_slot slot ctx = Some (slot', ctx') →
  server_slot.n_past slot' = server_slot.n_past slot
  ∧ server_slot.params slot' = server_slot.params slot
  ∧ Z.of_nat (length (server_slot.cache_tokens slot'))
    = if decide ((llama_state_seq_load_file o).1 = 0) then 0
      else Z.of_nat (length (llama_state_seq_load_file o).2).
Proof.
  unfold server_context.slot_restore. intros H.
  apply bind_Some in H as (cache & _ & H).
  destruct (llama_state_seq_load_file o) as [nread loaded]. simpl.
  cbv zeta in H. case_decide.
  - apply bind_Some in H as (cache' & Hr & H). simplify_eq. simpl.
    by apply resize_length in Hr as [-> _].
  - apply bind_Some in H as (cache' & Hr & H). simplify_eq. simpl.
    by apply resize_length in Hr as [-> _].
Qed.

(** C2, as stated, fails: a slot of the freshly started server has
    [cache_prompt] set; restored from a file of three tokens, it holds three
    cached tokens while its [n_past] is still 0, and stays so over the
    scheduler iteration that follows. *)
Lemma restored_slot_out_of_step :
  ∃ ctx0 ctx,
    start example_model example_oracle example_params = Some ctx0
    ∧ run example_model restore_run ctx0 = Some ctx
    ∧ ¬ cache_always_in_step ctx.
Proof.
  destruct (start example_model example_oracle example_params) as [ctx0|] eqn:Hstart;
    [|by vm_compute in Hstart].
  destruct (run example_model restore_run ctx0) as [ctx|] eqn:Hrun.
  2:{ vm_compute in Hstart. injection Hstart as <-. by vm_compute in Hrun. }
  exists ctx0, ctx. split; [done|]. split; [done|]. intros Hall.
  assert (∃ slot, server_context.slots ctx !! 0%nat = Some slot
                  ∧ slot_params.cache_prompt (server_slot.params slot) = true
                  ∧ server_slot.cache_tokens slot = [7; 8; 9]
                  ∧ server_slot.n_past slot = 0) as (slot & Hi & Hcp & Hcache & Hn).
  { vm_compute in Hstart. injection Hstart as <-.
    vm_compute in Hrun. injection Hrun as <-.
    eexists. split; [reflexivity|]. repeat split; reflexivity. }
  apply list_elem_of_lookup_2, Hall in Hi. specialize (Hi Hcp).
  rewrite Hcache, Hn in Hi. done.
Qed.

(** C2, amended: in every reachable state, a slot whose prompt is done or
    that is generating is in step: with [cache_prompt] set it has [n_past]
    cached tokens.  The addition of the sampled token, the context shift and
    the speculative commit keep a slot in step, and the admission of a
    prompt puts it in step.  The restoration of a slot does not: it leaves
    [n_past] alone and sets the number of cached tokens to the number of
    tokens read from the file, or to 0 when nothing could be read. *)
Theorem cache_tokens_in_step (m : llama_model) :
  (∀ ctx slot,
     reachable m ctx → slot ∈ server_context.slots ctx →
     server_slot.state slot = SLOT_STATE_DONE_PROMPT
     ∨ server_slot.state slot = SLOT_STATE_GENERATING →
     cache_in_step slot)
  ∧ (∀ slot ctx slot' ctx',
       server_context.add_sampled_token slot ctx = Some (slot', ctx') →
       cache_in_step slot → cache_in_step slot')
  ∧ (∀ o n_batch slot ctx slot' ctx',
       server_context.admit_prompt o n_batch slot ctx = Some (slot', ctx') →
       cache_in_step slot')
  ∧ (∀ slot ctx slot' ctx',
       server_context.context_shift slot ctx = Some (slot', ctx') →
       cache_in_step slot → cache_in_step slot')
  ∧ (∀ id_ ids slot slot',
       server_context.speculative_commit id_ ids slot = Some slot' →
       cache_in_step slot → cache_in_step slot')
  ∧ (∀ o task id_slot slot ctx slot' ctx',
       server_context.slot_restore o task id_slot slot ctx = Some (slot', ctx') →
       server_slot.n_past slot' = server_slot.n_past slot
       ∧ server_slot.params slot' = server_slot.params slot
       ∧ Z.of_nat (length (server_slot.cache_tokens slot'))
         = if decide ((llama_state_seq_load_file o).1 = 0) then 0
           else Z.of_nat (length (llama_state_seq_load_file o).2)).
Proof.
  split; [|split; [|split; [|split; [|split]]]].
  - intros ctx slot Hreach Hin Hst.
    apply reachable_ok in Hreach as [Hslots _].
    rewrite Forall_forall in Hslots. destruct (Hslots _ Hin) as (_ & _ & Hc).
    unfold cache_in_step. by apply Hc.
  - apply add_sampled_token_in_step.
  - apply admit_prompt_in_step.
  - apply context_shift_in_step.
  - apply speculative_commit_in_step.
  - apply slot_restore_cache.
Qed.

Lemma cache_tokens_in_step_witness :
  ∃ ctx0 ctx slot,
    start example_model example_oracle example_params = Some ctx0
    ∧ run example_model generating_run ctx0 = Some ctx
    ∧ server_context.slots ctx !! 0%nat = Some slot
    ∧ server_slot.state slot = SLOT_STATE_GENERATING
    ∧ cache_in_step slot.
Proof.
  destruct (start example_model example_oracle example_params) as [ctx0|] eqn:Hstart;
    [|by vm_compute in Hstart].
  destruct (run example_model generating_run ctx0) as [ctx|] eqn:Hrun.
  2:{ vm_compute in Hstart. injection Hstart as <-. by vm_compute in Hrun. }
  destruct (server_context.slots ctx !! 0%nat) as [slot|] eqn:Hi.
  2:{ vm_compute in Hstart. injection Hstart as <-.
      vm_compute in Hrun. injection Hrun as <-. by vm_compute in Hi. }
  assert (server_slot.state slot = SLOT_STATE_GENERATING) as Hst.
  { vm_compute in Hstart. injection Hstart as <-.
    vm_compute in Hrun. injection Hrun as <-.
    vm_compute in Hi. by injection Hi as <-. }
  exists ctx0, ctx, slot. do 4 (split; [done|]).
  apply (proj1 (cache_tokens_in_step example_model) ctx slot).
  - by exists example_oracle, example_params, ctx0, generating_run.
  - by eapply list_elem_of_lookup_2.
  - by right.
Defined.

(** ** The task queue over sequences of calls *)

Lemma assign_id_counter task q task' q' :
  server_queue.assign_id task q = Some (task', q') →
  server_queue.id q <= server_queue.id q'.
Proof.
  unfold server_queue.assign_id, server_queue.next_id. intros H.
  repeat case_decide; simplify_eq/=; lia.
Qed.

Lemma post_many_counter tasks front q q' :
  server_queue.post_many tasks front q = Some q' →
  server_queue.id q <= server_queue.id q'.
Proof.
  revert q. induction tasks as [|task tasks IH]; intros q H; simpl in H.
  - simplify_eq. lia.
  - apply bind_Some in H as ([task' q1] & Ha & H).
    apply assign_id_counter in Ha. apply IH in H.
    unfold server_queue.push in H. destruct front; simpl in H; lia.
Qed.

Lemma queue_call_counter c q q' :
  queue_call_run c q = Some q' → server_queue.id q <= server_queue.id q'.
Proof.
  destruct c; simpl; intros H.
  - apply fmap_Some in H as ([i q1] & H & ->).
    unfold server_queue.post in H.
    apply bind_Some in H as ([task' q2] & Ha & H). simplify_eq/=.
    apply assign_id_counter in Ha. unfold server_queue.push. destruct front; simpl; lia.
  - by apply post_many_counter in H.
  - simplify_eq/=. lia.
  - apply fmap_Some in H as ([i q1] & H & ->).
    unfold server_queue.get_new_id, server_queue.next_id in H.
    case_decide; simplify_eq/=. lia.
  - simplify_eq. unfold server_queue.pop_deferred_task. case_match; simpl; lia.
  - simplify_eq/=. lia.
  - apply fmap_Some in H as ([i q1] & H & ->).
    unfold server_queue.pop_front in H. case_match; simplify_eq/=. lia.
Qed.

Lemma queue_calls_counter cs q q' :
  queue_calls_run cs q = Some q' → server_queue.id q <= server_queue.id q'.
Proof.
  revert q. induction cs as [|c cs IH]; intros q H; simpl in H.
  - simplify_eq. lia.
  - apply bind_Some in H as (q1 & Hc & H).
    apply queue_call_counter in Hc. apply IH in H. lia.
Qed.











Lemma pop_deferred_all (q : server_queue.t) :
  Nat.iter (length (server_queue.queue_tasks_deferred q)) server_queue.pop_deferred_task q
  = q <| server_queue.queue_tasks :=
           server_queue.queue_tasks q ++ server_queue.queue_tasks_deferred q |>
      <| server_queue.queue_tasks_deferred := [] |>.
Proof.
  remember (length (server_queue.queue_tasks_deferred q)) as n eqn:Hn.
  revert q Hn. induction n as [|n IH]; intros q Hn.
  - destruct q as [i r main deferred]. simpl in *.
    destruct deferred; [|done]. by rewrite app_nil_r.
  - rewrite Nat.iter_succ_r.
    destruct q as [i r main deferred]. simpl in *.
    destruct deferred as [|task rest]; [done|].
    unfold server_queue.pop_deferred_task at 2. simpl.
    rewrite IH by (simpl in *; lia). simpl. by rewrite <- app_assoc.
Qed.

Lemma defer_all (tasks : list server_task.t) (q : server_queue.t) :
  foldl (λ q task, server_queue.defer task q) q tasks
  = q <| server_queue.queue_tasks_deferred :=
           server_queue.queue_tasks_deferred q ++ tasks |>.
Proof.
  revert q. induction tasks as [|task tasks IH]; intros q; simpl.
  - destruct q. simpl. by rewrite app_nil_r.
  - rewrite IH. destruct q. simpl. by rewrite <- app_assoc.
Qed.

(** X2: deferred tasks come back in the order they were deferred.  When
    the tasks [tasks] have been deferred one after the other, as many calls
    of [pop_deferred_task] as there are deferred tasks append the earlier
    deferred tasks and then [tasks] to the main queue, in this order, and
    empty the deferred queue; one more call changes nothing. *)
Theorem deferred_tasks_return_in_order (q : server_queue.t) (tasks : list server_task.t) :
  let back := server_queue.queue_tasks_deferred q ++ tasks in
  let q' :=
    Nat.iter (length back) server_queue.pop_deferred_task
      (foldl (λ q task, server_queue.defer task q) q tasks) in
  q' = q <| server_queue.queue_tasks := server_queue.queue_tasks q ++ back |>
         <| server_queue.queue_tasks_deferred := [] |>
  ∧ server_queue.pop_deferred_task q' = q'.
Proof.
  intros back q'.
  assert (q' = q <| server_queue.queue_tasks := server_queue.queue_tasks q ++ back |>
                 <| server_queue.queue_tasks_deferred := [] |>) as ->.
  { unfold q', back. rewrite defer_all.
    pose proof (pop_deferred_all
                  (q <| server_queue.queue_tasks_deferred :=
                          server_queue.queue_tasks_deferred q ++ tasks |>)) as H.
    destruct q. simpl in *. exact H. }
  split; [done|]. by destruct q.
Qed.

(** ** The result queue *)

(** membership in the sets of waiting ids, taken apart *)
Ltac waiting_ids :=
  simpl in *; try (apply set_eq; intros ?);
  repeat (rewrite ?elem_of_difference, ?elem_of_union, ?elem_of_list_to_set,
            ?elem_of_singleton, ?elem_of_cons, ?elem_of_nil, ?elem_of_empty in *);
  intuition congruence.

Lemma take_first_match (id_tasks : gset Z) (l : list server_task_result.t) :
  match server_response.take_first id_tasks l with
  | Some (res, rest) =>
      ∃ before after,
        l = before ++ res :: after
        ∧ server_task_result.id res ∈ id_tasks
        ∧ Forall (λ x, server_task_result.id x ∉ id_tasks) before
        ∧ rest = before ++ after
  | None => Forall (λ x, server_task_result.id x ∉ id_tasks) l
  end.
Proof.
  induction l as [|x l IH]; simpl; [done|].
  case_decide as Hx.
  - exists [], l. done.
  - destruct (server_response.take_first id_tasks l) as [[res rest]|]; simpl.
    + destruct IH as (before & after & -> & Hin & Hall & ->).
      exists (x :: before), after. repeat split; try done. by apply Forall_cons.
    + by apply Forall_cons.
Qed.

(** X3: [recv] hands out the oldest queued result whose id is among
    [id_tasks], takes it off the queue and keeps the other results in their
    order; it finds nothing exactly when no queued result has such an id.
    The waiting ids are left alone. *)
Theorem recv_oldest_match (id_tasks : gset Z) (r : server_response.t) :
  match server_response.recv id_tasks r with
  | Some (res, r') =>
      ∃ before after,
        server_response.queue_results r = before ++ res :: after
        ∧ server_task_result.id res ∈ id_tasks
        ∧ Forall (λ x, server_task_result.id x ∉ id_tasks) before
        ∧ server_response.queue_results r' = before ++ after
        ∧ server_response.waiting_task_ids r' = server_response.waiting_task_ids r
  | None =>
      Forall (λ x, server_task_result.id x ∉ id_tasks) (server_response.queue_results r)
  end.
Proof.
  unfold server_response.recv.
  pose proof (take_first_match id_tasks (server_response.queue_results r)) as H.
  destruct (server_response.take_first id_tasks (server_response.queue_results r))
    as [[res rest]|]; simpl; [|done].
  destruct H as (before & after & Hq & Hin & Hall & ->).
  exists before, after. done.
Qed.

Lemma add_waiting_tasks_ids tasks r :
  server_response.waiting_task_ids (server_response.add_waiting_tasks tasks r)
  = list_to_set (server_task.id <$> tasks) ∪ server_response.waiting_task_ids r
  ∧ server_response.queue_results (server_response.add_waiting_tasks tasks r)
    = server_response.queue_results r.
Proof.
  unfold server_response.add_waiting_tasks.
  revert r. induction tasks as [|task tasks IH]; intros r; simpl.
  - split; [waiting_ids|done].
  - destruct (IH (server_response.add_waiting_task_id (server_task.id task) r))
      as [-> ->]. simpl. split; [waiting_ids|done].
Qed.

Lemma remove_waiting_task_ids_ids id_tasks r :
  server_response.waiting_task_ids (server_response.remove_waiting_task_ids id_tasks r)
  = server_response.waiting_task_ids r ∖ list_to_set id_tasks
  ∧ server_response.queue_results (server_response.remove_waiting_task_ids id_tasks r)
    = server_response.queue_results r.
Proof.
  unfold server_response.remove_waiting_task_ids.
  revert r. induction id_tasks as [|t id_tasks IH]; intros r; simpl.
  - split; [waiting_ids|done].
  - destruct (IH (server_response.remove_waiting_task_id t r)) as [-> ->]. simpl.
    split; [waiting_ids|done].
Qed.

Lemma response_call_no_waiter t c r r' :
  (t ∉ server_response.waiting_task_ids r) →
  (¬ registers t c) →
  response_call_run c r = Some r' →
  (t ∉ server_response.waiting_task_ids r')
  ∧ sublist (results_of t r') (results_of t r).
Proof.
  intros Ht Hc H. unfold results_of. destruct c; simpl in *; simplify_eq.
  - split; [waiting_ids|done].
  - destruct (add_waiting_tasks_ids tasks r) as [-> ->]. split; [|done].
    waiting_ids.
  - simpl. split; [waiting_ids|done].
  - destruct (remove_waiting_task_ids_ids id_tasks r) as [-> ->].
    split; [waiting_ids|done].
  - unfold server_response.send. case_decide as Hin; [|done]. simpl.
    split; [done|]. rewrite filter_app, filter_cons_False, filter_nil, app_nil_r; [done|].
    intros Heq. by rewrite Heq in Hin.
  - apply fmap_Some in H as ([res r1] & H & ->). simpl.
    pose proof (recv_oldest_match id_tasks r) as Hr. rewrite H in Hr.
    destruct Hr as (before & after & -> & _ & _ & -> & ->).
    split; [done|]. rewrite !filter_app.
    apply sublist_app; [done|]. rewrite filter_cons.
    case_decide; [by apply sublist_cons|done].
Qed.

(** X4: without a waiter no result gets into the queue.  From a state in
    which no waiter is registered for the task [t], through any sequence of
    calls none of which registers one, [t] stays without waiter and the
    queued results of [t] are among those queued before, in their order:
    [send] has dropped every new one. *)
Theorem no_result_without_waiter (t : Z) (cs : list response_call)
    (r r' : server_response.t) :
  (t ∉ server_response.waiting_task_ids r) →
  Forall (λ c, ¬ registers t c) cs →
  response_calls_run cs r = Some r' →
  (t ∉ server_response.waiting_task_ids r')
  ∧ sublist (results_of t r') (results_of t r).
Proof.
  revert r. induction cs as [|c cs IH]; intros r Ht Hcs H; simpl in H.
  - by simplify_eq.
  - apply Forall_cons in Hcs as [Hc Hcs].
    apply bind_Some in H as (r1 & Hrun & H).
    destruct (response_call_no_waiter t c r r1 Ht Hc Hrun) as [Ht1 Hsub1].
    destruct (IH r1 Ht1 Hcs H) as [Ht' Hsub]. split; [done|].
    by etrans.
Qed.

Lemma no_result_without_waiter_witness :
  ∃ r',
    response_calls_run
      [call_send (server_context.cancel_result 7); call_add_waiting_task_id 8;
       call_send (server_context.cancel_result 8)] server_response.empty = Some r'
    ∧ results_of 7 r' = [].
Proof.
  eexists. split; [reflexivity|].
  destruct (no_result_without_waiter 7
              [call_send (server_context.cancel_result 7); call_add_waiting_task_id 8;
               call_send (server_context.cancel_result 8)]
              server_response.empty _ ltac:(apply not_elem_of_empty)
              ltac:(repeat constructor; simpl; (done || lia)) eq_refl) as [_ Hsub].
  by apply sublist_nil_r in Hsub.
Defined.

Lemma filter_ext_in {A} (P1 P2 : A → Prop) `{!∀ x, Decision (P1 x)}
    `{!∀ x, Decision (P2 x)} (l : list A) :
  (∀ x, x ∈ l → P1 x ↔ P2 x) → filter P1 l = filter P2 l.
Proof.
  induction l as [|x l IH]; intros Hext; [done|].
  rewrite !filter_cons. rewrite IH by (intros y Hy; apply Hext; by right).
  destruct (Hext x ltac:(by left)). repeat case_decide; tauto.
Qed.

Lemma post_many_result tasks q q' :
  server_queue.post_many tasks true q = Some q' →
  server_queue.queue_tasks q'
  = reverse (with_ids (server_queue.id q) tasks) ++ server_queue.queue_tasks q
  ∧ server_queue.queue_tasks_deferred q' = server_queue.queue_tasks_deferred q.
Proof.
  revert q. induction tasks as [|task tasks IH]; intros q H; simpl in H.
  - by simplify_eq.
  - apply bind_Some in H as ([task' q1] & Ha & H).
    apply IH in H as [-> ->]. clear IH.
    unfold server_queue.assign_id, server_queue.next_id in Ha. simpl.
    repeat case_decide; simplify_eq/=.
    + by rewrite reverse_cons, <- app_assoc.
    + by rewrite reverse_cons, <- app_assoc.
Qed.

Lemma cancel_loop (id_tasks : list Z) (ctx : server_context.t) :
  NoDup id_tasks →
  let ctx' :=
    foldl (λ ctx id_task,
             (server_context.send (server_context.cancel_result id_task) ctx)
               <| server_context.queue_results :=
                    server_response.remove_waiting_task_id id_task
                      (server_context.queue_results
                         (server_context.send (server_context.cancel_result id_task) ctx)) |>)
          ctx id_tasks in
  server_response.waiting_task_ids (server_context.queue_results ctx')
  = server_response.waiting_task_ids (server_context.queue_results ctx)
    ∖ list_to_set id_tasks
  ∧ server_response.queue_results (server_context.queue_results ctx')
    = server_response.queue_results (server_context.queue_results ctx)
      ++ (server_context.cancel_result
            <$> filter (λ t, t ∈ server_response.waiting_task_ids
                                   (server_context.queue_results ctx)) id_tasks)
  ∧ server_context.slots ctx' = server_context.slots ctx
  ∧ server_context.queue_tasks ctx' = server_context.queue_tasks ctx.
Proof.
  revert ctx. induction id_tasks as [|t id_tasks IH]; intros ctx Hnd.
  - simpl. rewrite app_nil_r. repeat split; try done. waiting_ids.
  - apply NoDup_cons in Hnd as [Hnotin Hnd]. cbv zeta. cbn [foldl].
    match goal with
    | |- context [foldl _ ?c id_tasks] =>
        specialize (IH c Hnd); cbv zeta in IH; destruct IH as (Hw & Hq & Hs & Ht)
    end.
    rewrite Hw, Hq, Hs, Ht. clear Hw Hq Hs Ht.
    unfold server_context.send, server_response.send. simpl.
    destruct (decide (t ∈ server_response.waiting_task_ids
                            (server_context.queue_results ctx))) as [Hin|Hin]; simpl.
    + rewrite filter_cons_True by done. simpl.
      rewrite <- app_assoc. simpl.
      split; [waiting_ids|]. split; [|done]. do 3 f_equal.
      apply filter_ext_in. intros x Hx. waiting_ids.
    + rewrite filter_cons_False by done.
      split; [waiting_ids|]. split; [|done]. do 2 f_equal.
      apply filter_ext_in. intros x Hx. waiting_ids.
Qed.

(** X5: what [cancel_tasks] does for a set of task ids, listed without
    repetition.  Every id that has a waiter gets the acknowledgement
    ([stop], not [error], payload [cancelled]) appended to the queued
    results, in the order of the ids; the others get none.  All the ids lose
    their waiter; the slots are not touched; and the task queue gets one
    cancel task per id, all in front of the tasks already queued, with ids
    taken from the counter, the task of the last id first. *)
Theorem cancel_tasks_effect (id_tasks : list Z) (ctx ctx' : server_context.t) :
  NoDup id_tasks →
  server_context.cancel_tasks id_tasks ctx = Some ctx' →
  let r := server_context.queue_results ctx in
  let q := server_context.queue_tasks ctx in
  server_response.waiting_task_ids (server_context.queue_results ctx')
  = server_response.waiting_task_ids r ∖ list_to_set id_tasks
  ∧ server_response.queue_results (server_context.queue_results ctx')
    = server_response.queue_results r
      ++ (server_context.cancel_result
            <$> filter (λ t, t ∈ server_response.waiting_task_ids r) id_tasks)
  ∧ server_context.slots ctx' = server_context.slots ctx
  ∧ server_queue.queue_tasks (server_context.queue_tasks ctx')
    = reverse (with_ids (server_queue.id q) (server_context.cancel_task <$> id_tasks))
      ++ server_queue.queue_tasks q
  ∧ server_queue.queue_tasks_deferred (server_context.queue_tasks ctx')
    = server_queue.queue_tasks_deferred q.
Proof.
  intros Hnd H. unfold server_context.cancel_tasks in H. cbv zeta in H.
  apply bind_Some in H as (q' & Hpost & H). simplify_eq.
  destruct (cancel_loop id_tasks ctx Hnd) as (Hw & Hq & Hs & Ht).
  simpl. split; [exact Hw|]. split; [exact Hq|]. split; [exact Hs|].
  rewrite Ht in Hpost. by apply post_many_result in Hpost.
Qed.

Lemma cancel_tasks_effect_witness :
  let ctx :=
    (server_context.make example_params)
      <| server_context.queue_results :=
           server_response.add_waiting_task_id 5 server_response.empty |> in
  ∃ ctx',
    server_context.cancel_tasks [5; 6] ctx = Some ctx'
    ∧ server_response.queue_results (server_context.queue_results ctx')
      = [server_context.cancel_result 5].
Proof.
  intros ctx. eexists. split; [vm_compute; reflexivity|].
  assert (NoDup [5; 6]) as Hnd
    by (repeat constructor; rewrite ?elem_of_cons, ?elem_of_nil; intuition lia).
  destruct (cancel_tasks_effect [5; 6] ctx _ Hnd eq_refl) as (_ & Hq & _).
  etrans; [exact Hq|]. by vm_compute.
Defined.

(** ** The launch of a completion *)

Lemma launch_answer (o : oracle) (slot slot' : server_slot.t) (task : server_task.t)
    (ctx ctx' : server_context.t) (answer : bool) :
  server_context.launch_slot_with_task o slot task ctx = Some (answer, slot', ctx') →
  server_slot.id slot' = server_slot.id slot
  ∧ server_slot.id_task slot' = server_slot.id_task slot
  ∧ server_slot.cache_tokens slot' = server_slot.cache_tokens slot
  ∧ server_slot.n_past slot' = server_slot.n_past slot
  ∧ if answer
    then ctx' = ctx
         ∧ server_slot.state slot' = SLOT_STATE_PROCESSING_PROMPT
         ∧ server_slot.prompt_tokens slot' = []
    else server_slot.state slot' = server_slot.state slot
         ∧ ∃ msg, ctx' = server_context.send_error (server_task.id task) msg
                           ERROR_TYPE_INVALID_REQUEST ctx.
Proof.
  intros H. apply launch_run in H. cbv zeta in H. destruct answer.
  - destruct H as (-> & slot2 & words & Hc & ->).
    apply checked_prompt_slot in Hc as [->|[kept ->]]; by case_match.
  - destruct H as [[msg ->] Hslot].
    destruct Hslot as [->|[->|(slot2 & words & Hc & ->)]]; [by eauto 10..|].
    apply checked_prompt_slot in Hc as [->|[kept ->]]; by eauto 10.
Qed.

(** X6: the two outcomes of [launch_slot_with_task].  When it answers
    [true] it has sent nothing, and the slot is in PROCESSING_PROMPT with no
    prompt tokens yet.  When it answers [false] the state of the slot is as
    before and exactly one result has been sent, an error of type
    INVALID_REQUEST for the id of the task.  Either way the slot keeps its
    id, the id of its task, its cached tokens and [n_past]. *)
Theorem launch_outcome (o : oracle) (slot slot' : server_slot.t) (task : server_task.t)
    (ctx ctx' : server_context.t) (answer : bool) :
  server_context.launch_slot_with_task o slot task ctx = Some (answer, slot', ctx') →
  server_slot.id slot' = server_slot.id slot
  ∧ server_slot.id_task slot' = server_slot.id_task slot
  ∧ server_slot.cache_tokens slot' = server_slot.cache_tokens slot
  ∧ server_slot.n_past slot' = server_slot.n_past slot
  ∧ if answer
    then ctx' = ctx
         ∧ server_slot.state slot' = SLOT_STATE_PROCESSING_PROMPT
         ∧ server_slot.prompt_tokens slot' = []
    else server_slot.state slot' = server_slot.state slot
         ∧ ∃ msg, ctx' = server_context.send_error (server_task.id task) msg
                           ERROR_TYPE_INVALID_REQUEST ctx.
Proof. apply launch_answer. Qed.

Lemma launch_outcome_witness :
  ∃ slot' ctx',
    server_context.launch_slot_with_task example_oracle server_slot.default
      completion_request example_context = Some (true, slot', ctx')
    ∧ ctx' = example_context
    ∧ server_slot.state slot' = SLOT_STATE_PROCESSING_PROMPT.
Proof.
  eexists _, _. split; [vm_compute; reflexivity|].
  refine (let H := launch_outcome example_oracle server_slot.default _ completion_request
                     example_context _ true eq_refl in _).
  destruct H as (_ & _ & _ & _ & Hc & Hst & _). by split.
Defined.

Lemma adjusted_params_limits data slot :
  let sp := server_context.adjusted_params data slot in
  (server_slot.n_predict slot > 0 →
   slot_params.n_predict (server_slot.params slot) <= server_slot.n_predict slot
   ∨ slot_params.n_predict sp <= server_slot.n_predict slot)
  ∧ (server_slot.n_predict slot > 0 →
     slot_params.n_predict sp <= server_slot.n_predict slot)
  ∧ (slot_params.cache_prompt sp = true → server_slot.ga_n slot = 1)
  ∧ slot_params.speculative_n_min sp
    = slot_params.speculative_n_min (server_slot.params slot)
  ∧ slot_params.speculative_n_max sp
    = slot_params.speculative_n_max (server_slot.params slot).
Proof.
  unfold server_context.adjusted_params. cbv zeta.
  destruct (slot_params.cache_prompt (server_slot.params slot)) eqn:Hcp; simpl;
    [case_bool_decide as Hga; simpl|]; case_decide as Hn; simpl;
    rewrite ?Hcp; repeat split; try done; try lia.
  all: try (intros _; by destruct (decide (server_slot.ga_n slot = 1))).
Qed.

(** X7: the limits a launch puts on the parameters of the request.  After
    a launch that answered [true]: when the server has an [n_predict] above
    0, the [n_predict] of the request is not above it; the prompt cache is
    on only without group attention ([ga_n = 1]); and the smallest draft
    length of the speculation is not above the largest. *)
Theorem launch_limits (o : oracle) (slot slot' : server_slot.t) (task : server_task.t)
    (ctx ctx' : server_context.t) :
  server_context.launch_slot_with_task o slot task ctx = Some (true, slot', ctx') →
  server_slot.n_predict slot' = server_slot.n_predict slot
  ∧ server_slot.ga_n slot' = server_slot.ga_n slot
  ∧ (server_slot.n_predict slot > 0 →
     slot_params.n_predict (server_slot.params slot') <= server_slot.n_predict slot)
  ∧ (slot_params.cache_prompt (server_slot.params slot') = true →
     server_slot.ga_n slot = 1)
  ∧ slot_params.speculative_n_min (server_slot.params slot')
    <= slot_params.speculative_n_max (server_slot.params slot').
Proof.
  intros H. apply launch_run in H. cbv zeta in H.
  destruct H as (-> & slot2 & words & Hc & ->).
  set (slot0 := slot <| server_slot.params := _ |>) in *.
  destruct (adjusted_params_limits (server_task.data task) slot0)
    as (_ & Hn & Hcp & Hmin & Hmax).
  assert (slot_params.speculative_n_min (server_slot.params slot0)
          <= slot_params.speculative_n_max (server_slot.params slot0)) as Hspec.
  { subst slot0. unfold server_context.request_params. simpl. lia. }
  assert (server_slot.params slot2
          = server_context.adjusted_params (server_task.data task) slot0
          ∧ server_slot.n_predict slot2 = server_slot.n_predict slot
          ∧ server_slot.ga_n slot2 = server_slot.ga_n slot) as (Hp & Hnp & Hga).
  { by apply checked_prompt_slot in Hc as [->|[kept ->]]. }
  assert (∀ s : server_slot.t,
            server_slot.params
              ((if server_slot.ctx_dft s then s <| server_slot.batch_spec := [] |> else s)
                 <| server_slot.state := SLOT_STATE_PROCESSING_PROMPT |>
                 <| server_slot.prompt_tokens := [] |>) = server_slot.params s
            ∧ server_slot.n_predict
                ((if server_slot.ctx_dft s then s <| server_slot.batch_spec := [] |> else s)
                   <| server_slot.state := SLOT_STATE_PROCESSING_PROMPT |>
                   <| server_slot.prompt_tokens := [] |>) = server_slot.n_predict s
            ∧ server_slot.ga_n
                ((if server_slot.ctx_dft s then s <| server_slot.batch_spec := [] |> else s)
                   <| server_slot.state := SLOT_STATE_PROCESSING_PROMPT |>
                   <| server_slot.prompt_tokens := [] |>) = server_slot.ga_n s) as Hlast.
  { intros s. by destruct (server_slot.ctx_dft s). }
  destruct (Hlast (slot2 <| server_slot.params :=
                              (server_slot.params slot2)
                                <| slot_params.antiprompt := words |> |>
                         <| server_slot.smpl := true |>)) as (-> & -> & ->).
  cbn [server_slot.params server_slot.n_predict server_slot.ga_n
       server_slot.set_params server_slot.set_smpl set
       slot_params.n_predict slot_params.cache_prompt slot_params.speculative_n_min
       slot_params.speculative_n_max slot_params.set_antiprompt].
  rewrite Hp, Hnp, Hga.
  split; [done|]. split; [done|]. split; [exact Hn|]. split; [exact Hcp|].
  rewrite Hmin, Hmax. exact Hspec.
Qed.

Lemma launch_limits_witness :
  ∃ slot' ctx',
    server_context.launch_slot_with_task example_oracle
      (server_slot.default <| server_slot.n_predict := 2 |>)
      completion_request example_context = Some (true, slot', ctx')
    ∧ slot_params.n_predict (server_slot.params slot') <= 2.
Proof.
  eexists _, _. split; [vm_compute; reflexivity|].
  refine (let H := launch_limits example_oracle
                     (server_slot.default <| server_slot.n_predict := 2 |>) _
                     completion_request example_context _ eq_refl in _).
  destruct H as (_ & _ & Hn & _). apply Hn. by vm_compute.
Defined.

(** ** The results of the tasks *)

Lemma for_slots_results (R : server_response.t) body ctx ctx' :
  (∀ slot c slot' c',
     body slot c = Some (slot', c') →
     server_context.queue_results c' = server_context.queue_results c) →
  server_context.queue_results ctx = R →
  server_context.for_slots body ctx = Some ctx' →
  server_context.queue_results ctx' = R.
Proof.
  intros Hbody HR H.
  eapply (for_slots_inv (λ c, server_context.queue_results c = R) (λ _, True))
    in H as [H _]; [done|done| |done|].
  - intros slot c slot' c' Hc _ _ Hb. split; [|split; [|done]].
    + by rewrite (Hbody _ _ _ _ Hb).
    + by apply Forall_true.
  - by apply Forall_true.
Qed.

Lemma release_slot_results slot ctx :
  server_context.queue_results (server_context.release_slot slot ctx).2
  = server_context.queue_results ctx.
Proof.
  unfold server_context.release_slot.
  by destruct (server_slot.release slot (server_context.queue_tasks ctx)).
Qed.

Lemma system_prompt_set_results sys_prompt ctx ctx' :
  server_context.system_prompt_set sys_prompt ctx = Some ctx' →
  server_context.queue_results ctx' = server_context.queue_results ctx.
Proof.
  unfold server_context.system_prompt_set. intros H.
  apply bind_Some in H as (ctx1 & Hloop & H). simplify_eq/=.
  eapply for_slots_results; [| |exact Hloop]; [|reflexivity].
  intros slot c slot' c' Hb. injection Hb as Hb.
  pose proof (release_slot_results slot c) as Hr. by rewrite Hb in Hr.
Qed.

(** X8: a completion task gets no result from [process_single_task]
    unless its launch is refused.  Processing a completion task leaves the
    waiting ids alone and either leaves the queued results as they are (the
    task was deferred, or launched on a slot, or nobody waits for it) or
    appends a single result: an error of type INVALID_REQUEST for the id of
    the task, which has [error] set and [stop] not set. *)
Theorem completion_task_results (m : llama_model) (o : oracle) (task : server_task.t)
    (ctx ctx' : server_context.t) :
  server_task.type task = SERVER_TASK_TYPE_COMPLETION →
  server_context.process_single_task m o task ctx = Some ctx' →
  let r := server_context.queue_results ctx in
  let r' := server_context.queue_results ctx' in
  server_response.waiting_task_ids r' = server_response.waiting_task_ids r
  ∧ (server_response.queue_results r' = server_response.queue_results r
     ∨ ∃ msg,
         server_task.id task ∈ server_response.waiting_task_ids r
         ∧ server_response.queue_results r'
           = server_response.queue_results r
             ++ [ {| server_task_result.id := server_task.id task;
                     server_task_result.data := data_error msg ERROR_TYPE_INVALID_REQUEST;
                     server_task_result.stop := false;
                     server_task_result.error := true |} ]).
Proof.
  intros Hty H. unfold server_context.process_single_task in H.
  cbv zeta in H. rewrite Hty in H.
  match type of H with
  | match ?f with _ => _ end = _ => destruct f as [i|]
  end; [|simplify_eq; simpl; by split; [|left]].
  apply bind_Some in H as (slot & Hi & H).
  destruct (server_slot.is_processing slot);
    [simplify_eq; simpl; by split; [|left]|].
  apply bind_Some in H as (ctx1 & Hsys & H).
  assert (server_context.queue_results ctx1 = server_context.queue_results ctx) as Hr1.
  { destruct (d_system_prompt (server_task.data task)) as [sys_prompt|];
      [|by simplify_eq].
    apply bind_Some in Hsys as (ctx0 & Hset & Hreset).
    apply system_prompt_set_results in Hset.
    eapply for_slots_results; [|exact Hset|exact Hreset].
    intros s c s' c' Hb. simpl in Hb. by simplify_eq. }
  clear Hsys. unfold server_context.with_slot in H.
  apply bind_Some in H as (slot1 & Hi1 & H).
  apply bind_Some in H as ([slot2 ctx2] & Hb & H). simplify_eq/=.
  apply bind_Some in Hb as ([[answer s2] c2] & Hlaunch & Hb). simplify_eq.
  apply launch_answer in Hlaunch as (_ & _ & _ & _ & Hout).
  rewrite <- Hr1. destruct answer.
  - destruct Hout as (-> & _). by split; [|left].
  - destruct Hout as (_ & msg & ->).
    unfold server_context.send_error, server_context.send, server_response.send. simpl.
    case_decide; simpl; [|by split; [|left]].
    split; [done|]. right. by exists msg.
Qed.

Lemma completion_task_results_witness :
  let task :=
    completion_request <| server_task.id := 4 |>
                       <| server_task.data := empty_data |> in
  ∃ ctx0 ctx' msg,
    start example_model example_oracle example_params = Some ctx0
    ∧ server_context.process_single_task example_model example_oracle task
        (ctx0 <| server_context.queue_results :=
                   server_response.add_waiting_task_id 4 server_response.empty |>)
      = Some ctx'
    ∧ server_response.queue_results (server_context.queue_results ctx')
      = [ {| server_task_result.id := 4;
             server_task_result.data := data_error msg ERROR_TYPE_INVALID_REQUEST;
             server_task_result.stop := false;
             server_task_result.error := true |} ].
Proof.
  intros task.
  destruct (start example_model example_oracle example_params) as [ctx0|] eqn:Hstart;
    [|by vm_compute in Hstart].
  set (ctx := ctx0 <| server_context.queue_results :=
                        server_response.add_waiting_task_id 4 server_response.empty |>).
  destruct (server_context.process_single_task example_model example_oracle task ctx)
    as [ctx'|] eqn:Hp.
  2:{ vm_compute in Hstart. injection Hstart as <-. by vm_compute in Hp. }
  destruct (completion_task_results example_model example_oracle task ctx ctx' eq_refl Hp)
    as [_ [Hsame|(msg & _ & Hq)]].
  - vm_compute in Hstart. injection Hstart as <-.
    vm_compute in Hp. injection Hp as <-. by vm_compute in Hsame.
  - exists ctx0, ctx', msg. split; [done|]. split; [done|]. exact Hq.
Defined.

(** ** The tokens of a prompt *)

Lemma tokenize_step_none m add_special l :
  foldl (server_context.tokenize_step m add_special) None l = None.
Proof. induction l as [|p l IH]; [done|]. exact IH. Qed.

Lemma tokenize_step_tail m add_special l first acc :
  snd <$> foldl (server_context.tokenize_step m add_special) (Some (false, acc)) l
  = (λ tokens, acc ++ tokens)
      <$> (snd <$> foldl (server_context.tokenize_step m false) (Some (first, [])) l).
Proof.
  revert add_special first acc.
  induction l as [|p l IH]; intros add_special first acc.
  - simpl. by rewrite app_nil_r.
  - cbn [foldl].
    assert (∀ x : list llama_token,
              snd <$> foldl (server_context.tokenize_step m add_special)
                            (Some (false, acc ++ x)) l
              = (λ tokens, acc ++ tokens)
                  <$> (snd <$> foldl (server_context.tokenize_step m false)
                                     (Some (false, [] ++ x)) l)) as Hx.
    { intros x. rewrite (IH _ false (acc ++ x)).
      etrans; [|apply (f_equal (fmap _)); symmetry; exact (IH false false x)].
      destruct (snd <$> foldl (server_context.tokenize_step m false)
                              (Some (false, [])) l) as [tokens|]; simpl; [|done].
      by rewrite <- app_assoc. }
    destruct p; simpl; try case_decide; simpl; rewrite ?tokenize_step_none; try done.
    all: destruct first; apply Hx.
Qed.

Lemma tokenize_cons m p rest add_special :
  server_context.tokenize m (JArray (p :: rest)) add_special
  = match p with
    | JString s_ =>
        (λ tokens, llama_tokenize m s_ add_special ++ tokens)
          <$> server_context.tokenize m (JArray rest) false
    | _ =>
        token ← get_llama_token p;
        (λ tokens, token :: tokens) <$> server_context.tokenize m (JArray rest) false
    end.
Proof.
  unfold server_context.tokenize. cbn [foldl].
  destruct p; simpl; try case_decide; simpl; rewrite ?tokenize_step_none; try done.
  all: by rewrite (tokenize_step_tail m add_special rest true).
Qed.

Lemma to_int32_id z : to_int32 z = z ↔ int32 z.
Proof.
  unfold to_int32, int32, INT32_MAX.
  pose proof (Z.mod_pos_bound (z + 2 ^ 31) (2 ^ 32) ltac:(lia)) as Hb.
  split.
  - intros Hz. lia.
  - intros Hz. rewrite Z.mod_small by lia. lia.
Qed.

Lemma tokenize_ids m tokens add_special :
  server_context.tokenize m (JArray (JInt <$> tokens)) add_special
  = Some (to_int32 <$> tokens).
Proof.
  revert add_special. induction tokens as [|z tokens IH]; intros add_special; [done|].
  rewrite !fmap_cons, tokenize_cons, IH. done.
Qed.

(** X9: how [tokenize] treats an array.  The tokens of an array are the
    tokens of its first element followed by the tokens of the rest, and only
    a string in the first place is tokenized with [add_special]: every later
    string is tokenized without special tokens.  Any other element is
    converted to an [int32_t]: an integer is cast (taken modulo [2^32]), a
    boolean is 0 or 1, a float is truncated towards zero, which is undefined
    when the result is no [int32_t], and null, an array or an object make
    the conversion throw.  So an array of integers yields these integers
    cast to [int32_t], whatever [add_special] says, and the cast leaves
    exactly the values of an [int32_t] as they are. *)
Theorem tokenize_array (m : llama_model) (p : json) (rest : list json)
    (tokens : list Z) (add_special : bool) :
  server_context.tokenize m (JArray (p :: rest)) add_special
  = match p with
    | JString s_ =>
        (λ tokens, llama_tokenize m s_ add_special ++ tokens)
          <$> server_context.tokenize m (JArray rest) false
    | JInt z =>
        (λ tokens, to_int32 z :: tokens) <$> server_context.tokenize m (JArray rest) false
    | JBool b =>
        (λ tokens, (if b then 1 else 0) :: tokens)
          <$> server_context.tokenize m (JArray rest) false
    | JFloat num den =>
        if decide (int32 (Z.quot num (Z.pos den)))
        then (λ tokens, Z.quot num (Z.pos den) :: tokens)
               <$> server_context.tokenize m (JArray rest) false
        else None
    | JNull | JArray _ | JObject => None
    end
  ∧ server_context.tokenize m (JArray (JInt <$> tokens)) add_special
    = Some (to_int32 <$> tokens)
  ∧ ∀ z, to_int32 z = z ↔ int32 z.
Proof.
  split; [|split; [apply tokenize_ids|apply to_int32_id]].
  rewrite tokenize_cons. destruct p; simpl; try done.
  by case_decide.
Qed.

Lemma tokenize_array_witness :
  server_context.tokenize example_model
    (JArray [JInt 4294967297; JInt (-5000000000); JInt 7; JFloat 7 2; JBool true]) true
  = Some [1; -705032704; 7; 3; 1].
Proof.
  destruct (tokenize_array example_model (JInt 4294967297)
              [JInt (-5000000000); JInt 7; JFloat 7 2; JBool true] [] true) as [H _].
  rewrite H. by vm_compute.
Defined.

(** ** The truncation and the admission of a prompt *)

Lemma truncate_prompt_cut (slot : server_slot.t) :
  let n_keep := slot_params.n_keep (server_slot.params slot) in
  let n_ctx := server_slot.n_ctx slot in
  let n_prompt := server_slot.n_prompt_tokens slot in
  let n_block_size := Z.quot (n_ctx - n_keep) 2 in
  let from := n_keep + Z.quot (n_prompt - n_keep - n_block_size) n_block_size * n_block_size in
  server_slot.ga_n slot = 1 →
  n_prompt = Z.of_nat (length (server_slot.prompt_tokens slot)) →
  0 <= n_keep <= n_ctx - 4 →
  n_ctx <= n_prompt →
  ∃ slot',
    server_context.truncate_prompt slot = Some slot'
    ∧ server_slot.prompt_tokens slot'
      = take (Z.to_nat n_keep) (server_slot.prompt_tokens slot)
        ++ drop (Z.to_nat from) (server_slot.prompt_tokens slot)
    ∧ n_keep + n_block_size <= from <= n_prompt - n_block_size
    ∧ server_slot.n_prompt_tokens slot'
      = Z.of_nat (length (server_slot.prompt_tokens slot'))
    ∧ n_keep + n_block_size <= server_slot.n_prompt_tokens slot' < n_ctx
    ∧ server_slot.truncated slot' = true.
Proof.
  intros n_keep n_ctx n_prompt n_block_size from Hga Hlen Hkeep Hbig.
  assert (2 <= n_block_size ∧ 2 * n_block_size <= n_ctx - n_keep
          ∧ n_ctx - n_keep <= 2 * n_block_size + 1) as (Hb2 & Hb & Hb').
  { unfold n_block_size.
    pose proof (Z.quot_rem' (n_ctx - n_keep) 2).
    pose proof (Z.rem_bound_pos (n_ctx - n_keep) 2). lia. }
  set (r := n_prompt - n_keep - n_block_size) in *.
  assert (n_block_size <= r) as Hr by (unfold r; lia).
  assert (n_block_size <= Z.quot r n_block_size * n_block_size
          ∧ Z.quot r n_block_size * n_block_size <= r
          ∧ r < Z.quot r n_block_size * n_block_size + n_block_size) as (Hq1 & Hq2 & Hq3).
  { pose proof (Z.quot_rem' r n_block_size).
    pose proof (Z.rem_bound_pos r n_block_size).
    assert (0 <= Z.quot r n_block_size) as Hq0 by (apply Z.quot_pos; lia).
    assert (1 <= Z.quot r n_block_size) as Hq1.
    { destruct (decide (1 <= Z.quot r n_block_size)) as [|Hn]; [done|].
      assert (Z.quot r n_block_size = 0) as Hz by lia. rewrite Hz in *. lia. }
    split; [|lia]. nia. }
  assert (n_keep + n_block_size <= from <= n_prompt - n_block_size) as Hfrom
    by (unfold from, r in *; lia).
  unfold server_context.truncate_prompt. cbv zeta.
  fold n_keep n_ctx n_prompt n_block_size. fold r. fold from.
  rewrite decide_True by (split; [done|lia]).
  rewrite decide_False by lia.
  rewrite decide_True by lia.
  simpl.
  assert (Z.of_nat (length (take (Z.to_nat n_keep) (server_slot.prompt_tokens slot)
                            ++ drop (Z.to_nat from) (server_slot.prompt_tokens slot)))
          = n_keep + (n_prompt - from)) as Hnew.
  { rewrite length_app, length_take, length_drop. lia. }
  rewrite decide_True by (rewrite Hnew; unfold from, r in *; lia).
  eexists. split; [done|]. simpl. split; [done|]. split; [done|]. split; [done|].
  split; [|done]. rewrite Hnew. unfold from, r in *. lia.
Qed.

(** X10: the truncation of a prompt that does not fit never trips its
    assertion.  On a slot without group attention whose prompt has at least
    [n_ctx] tokens, with [0 <= n_keep <= n_ctx - 4], [truncate_prompt]
    answers: it keeps the first [n_keep] tokens, drops whole blocks of
    [(n_ctx - n_keep) / 2] tokens after them and keeps the tokens from there
    to the end; the new prompt has at least [n_keep] tokens and one block,
    and fewer than [n_ctx] tokens, and the slot is marked truncated. *)
Theorem truncate_prompt_fits (slot : server_slot.t) :
  let n_keep := slot_params.n_keep (server_slot.params slot) in
  let n_ctx := server_slot.n_ctx slot in
  let n_prompt := server_slot.n_prompt_tokens slot in
  let n_block_size := Z.quot (n_ctx - n_keep) 2 in
  let from := n_keep + Z.quot (n_prompt - n_keep - n_block_size) n_block_size * n_block_size in
  server_slot.ga_n slot = 1 →
  n_prompt = Z.of_nat (length (server_slot.prompt_tokens slot)) →
  0 <= n_keep <= n_ctx - 4 →
  n_ctx <= n_prompt →
  ∃ slot',
    server_context.truncate_prompt slot = Some slot'
    ∧ server_slot.prompt_tokens slot'
      = take (Z.to_nat n_keep) (server_slot.prompt_tokens slot)
        ++ drop (Z.to_nat from) (server_slot.prompt_tokens slot)
    ∧ n_keep + n_block_size <= from <= n_prompt - n_block_size
    ∧ server_slot.n_prompt_tokens slot'
      = Z.of_nat (length (server_slot.prompt_tokens slot'))
    ∧ n_keep + n_block_size <= server_slot.n_prompt_tokens slot' < n_ctx
    ∧ server_slot.truncated slot' = true.
Proof. apply truncate_prompt_cut. Qed.

Lemma truncate_prompt_fits_witness :
  let slot :=
    server_slot.default
      <| server_slot.n_ctx := 8 |>
      <| server_slot.prompt_tokens := [1; 2; 3; 4; 5; 6; 7; 8; 9; 10; 11] |>
      <| server_slot.n_prompt_tokens := 11 |>
      <| server_slot.params := slot_params.default <| slot_params.n_keep := 2 |> |> in
  ∃ slot',
    server_context.truncate_prompt slot = Some slot'
    ∧ server_slot.prompt_tokens slot' = [1; 2; 9; 10; 11].
Proof.
  intros slot.
  destruct (truncate_prompt_fits slot) as (slot' & Ht & Htokens & _);
    [reflexivity|reflexivity|by vm_compute|by vm_compute|].
  exists slot'. split; [done|]. rewrite Htokens. reflexivity.
Defined.

Lemma reuse_cache_prompt slot :
  server_slot.ga_n slot = 1 →
  ∃ slot',
    server_context.reuse_cache slot = Some slot'
    ∧ server_slot.prompt_tokens slot' = server_slot.prompt_tokens slot
    ∧ server_slot.n_prompt_tokens slot' = server_slot.n_prompt_tokens slot
    ∧ server_slot.params slot' = server_slot.params slot.
Proof.
  intros Hga. unfold server_context.reuse_cache.
  destruct (negb _); [by eexists|].
  rewrite decide_True by done. by eexists.
Qed.

Lemma truncate_prompt_bound slot :
  server_slot.ga_n slot = 1 →
  server_slot.n_prompt_tokens slot = Z.of_nat (length (server_slot.prompt_tokens slot)) →
  0 <= slot_params.n_keep (server_slot.params slot) <= server_slot.n_ctx slot - 4 →
  ∃ slot',
    server_context.truncate_prompt slot = Some slot'
    ∧ server_slot.ga_n slot' = 1
    ∧ server_slot.params slot' = server_slot.params slot
    ∧ server_slot.n_prompt_tokens slot'
      = Z.of_nat (length (server_slot.prompt_tokens slot'))
    ∧ server_slot.n_prompt_tokens slot' < server_slot.n_ctx slot.
Proof.
  intros Hga Hlen Hkeep.
  destruct (decide (server_slot.n_ctx slot <= server_slot.n_prompt_tokens slot)) as [Hbig|Hfit].
  - destruct (truncate_prompt_cut slot Hga Hlen Hkeep Hbig)
      as (slot' & Ht & _ & _ & Hlen' & Hn' & _).
    exists slot'. split; [done|].
    unfold server_context.truncate_prompt in Ht. cbv zeta in Ht.
    repeat case_decide; simplify_eq/=; repeat split; try done; lia.
  - exists slot. unfold server_context.truncate_prompt.
    rewrite decide_False by lia. repeat split; try done; lia.
Qed.

(** X11: a prompt that passes the checks fits the context of its slot.
    For a completion that is no embedding, on a slot without group attention
    and with a context of at least 4 tokens, [check_prompt] always answers,
    without tripping an assertion: either it refuses the prompt (only with
    context shift disabled, when the system prompt and the prompt together
    reach [n_ctx]) and the slot is idle, or it hands the slot on with a
    prompt of fewer than [n_ctx] tokens and with [n_keep] between 0 and
    [n_ctx - 4]. *)
Theorem checked_prompt_fits (n_ubatch : Z) (slot : server_slot.t) (ctx : server_context.t) :
  server_context.is_embedding slot = false →
  server_slot.ga_n slot = 1 →
  4 <= server_slot.n_ctx slot →
  server_slot.n_prompt_tokens slot = Z.of_nat (length (server_slot.prompt_tokens slot)) →
  ∃ r,
    server_context.check_prompt n_ubatch slot ctx = Some r
    ∧ match r with
      | inl (slot', ctx') =>
          gpt_params.ctx_shift (server_context.params ctx) = false
          ∧ Z.of_nat (length (server_context.system_tokens ctx))
            + server_slot.n_prompt_tokens slot >= server_slot.n_ctx slot
          ∧ server_slot.state slot' = SLOT_STATE_IDLE
      | inr (slot', ctx') =>
          ctx' = ctx
          ∧ server_slot.n_prompt_tokens slot'
            = Z.of_nat (length (server_slot.prompt_tokens slot'))
          ∧ server_slot.n_prompt_tokens slot' < server_slot.n_ctx slot
          ∧ 0 <= slot_params.n_keep (server_slot.params slot') <= server_slot.n_ctx slot - 4
      end.
Proof.
  intros Hemb Hga Hctx Hlen. unfold server_context.check_prompt. cbv zeta.
  rewrite Hemb.
  match goal with
  | |- context [if ?b then _ else _] => destruct b eqn:Hb
  end.
  - apply andb_true_iff in Hb as [Hshift Hfit].
    apply bool_decide_eq_true in Hfit. apply negb_true_iff in Hshift.
    pose proof (release_keeps_id_task slot (server_context.queue_tasks ctx)) as [Hst _].
    unfold server_context.release_slot.
    destruct (server_slot.release slot (server_context.queue_tasks ctx)) as [s q].
    eexists. split; [done|]. done.
  - match goal with
    | |- context [server_context.truncate_prompt ?s] => set (s1 := s)
    end.
    assert (0 <= slot_params.n_keep (server_slot.params s1) <= server_slot.n_ctx slot - 4)
      as Hkeep.
    { unfold s1. cbn -[Z.min Z.add Z.sub].
      destruct (decide (slot_params.n_keep (server_slot.params slot) < 0));
        cbn -[Z.min Z.add Z.sub]; lia. }
    destruct (truncate_prompt_bound s1 Hga Hlen Hkeep) as (s2 & -> & Hga2 & Hp2 & Hlen2 & Hn2).
    simpl. destruct (reuse_cache_prompt s2 Hga2) as (s3 & -> & Hp3 & Hn3 & Hk3). simpl.
    eexists. split; [done|]. simpl.
    rewrite Hn3, Hp3, Hk3, Hp2. done.
Qed.

Lemma checked_prompt_fits_witness :
  let slot :=
    server_slot.default
      <| server_slot.n_ctx := 8 |>
      <| server_slot.prompt_tokens := [1; 2; 3; 4; 5; 6; 7; 8; 9; 10; 11] |>
      <| server_slot.n_prompt_tokens := 11 |>
      <| server_slot.params := slot_params.default <| slot_params.n_keep := 2 |> |> in
  ∃ slot',
    server_context.check_prompt 8 slot example_context = Some (inr (slot', example_context))
    ∧ server_slot.n_prompt_tokens slot' < 8.
Proof.
  intros slot.
  destruct (checked_prompt_fits 8 slot example_context) as (r & Hr & Hprop);
    [reflexivity|reflexivity|by vm_compute|reflexivity|].
  destruct r as [[s c]|[s c]].
  - by destruct Hprop as (Hshift & _).
  - destruct Hprop as (-> & _ & Hn & _). by exists s.
Defined.

(** X12: the loop that adds the prompt tokens to the batch.  Without group
    attention, from a position [n_past >= 0] inside the prompt and with the
    fuel [update_slots] gives it, the loop always ends.  It adds to the batch
    exactly the prompt tokens from [n_past] on, as many as [n_past] and
    [n_prompt_tokens_processed] grow by; it stops at the end of the prompt or
    when the batch holds [n_batch] tokens, never goes beyond the end of the
    prompt, and never makes the batch larger than [n_batch] unless it was so
    before. *)
Theorem add_prompt_tokens_fills_batch (fuel : nat) (n_batch slot_npast ga_i_ : Z)
    (slot : server_slot.t) (ctx : server_context.t) :
  server_slot.ga_n slot = 1 →
  0 <= server_slot.n_past slot →
  server_slot.n_prompt_tokens slot <= Z.of_nat (length (server_slot.prompt_tokens slot)) →
  (Z.to_nat (server_slot.n_prompt_tokens slot - server_slot.n_past slot) <= fuel)%nat →
  ∃ slot' ctx',
    server_context.add_prompt_tokens fuel n_batch slot_npast ga_i_ slot ctx
    = Some (slot', ctx')
    ∧ let added := server_slot.n_past slot' - server_slot.n_past slot in
      0 <= added
      ∧ n_tokens (server_context.batch ctx') = n_tokens (server_context.batch ctx) + added
      ∧ server_slot.n_prompt_tokens_processed slot'
        = server_slot.n_prompt_tokens_processed slot + added
      ∧ (server_slot.n_past slot <= server_slot.n_prompt_tokens slot →
         server_slot.n_past slot' <= server_slot.n_prompt_tokens slot)
      ∧ n_tokens (server_context.batch ctx')
        <= Z.max (n_tokens (server_context.batch ctx)) n_batch
      ∧ (server_slot.n_prompt_tokens slot <= server_slot.n_past slot'
         ∨ n_batch <= n_tokens (server_context.batch ctx'))
      ∧ (bt_token <$> server_context.batch ctx')
        = (bt_token <$> server_context.batch ctx)
          ++ take (Z.to_nat added)
               (drop (Z.to_nat (server_slot.n_past slot)) (server_slot.prompt_tokens slot)).
Proof.
  revert slot_npast slot ctx.
  induction fuel as [|fuel IH]; intros slot_npast slot ctx Hga Hpast Hlen Hfuel; simpl.
  - rewrite decide_False by lia.
    eexists _, _. split; [done|]. cbv zeta.
    rewrite Z.sub_diag. simpl. rewrite app_nil_r. repeat split; first [lia|done].
  - case_decide as Hgo.
    2:{ eexists _, _. split; [done|]. cbv zeta.
        rewrite Z.sub_diag. simpl. rewrite app_nil_r. repeat split; first [lia|done]. }
    rewrite decide_False by (by intros []). simpl.
    unfold element_at. rewrite decide_True by done.
    destruct (lookup_lt_is_Some_2 (server_slot.prompt_tokens slot)
                (Z.to_nat (server_slot.n_past slot))) as [token Htoken]; [lia|].
    rewrite Htoken. simpl.
    match goal with
    | |- context [server_context.add_prompt_tokens fuel n_batch ?np ga_i_ ?s ?c] =>
        destruct (IH np s c) as (slot' & ctx' & -> & Hadded & Hbatch & Hproc & Hle & Hmax
                                 & Hend & Htokens)
    end.
    { by destruct (slot_params.cache_prompt _). }
    { destruct (slot_params.cache_prompt _); simpl; lia. }
    { by destruct (slot_params.cache_prompt _). }
    { destruct (slot_params.cache_prompt _); simpl; lia. }
    assert (server_slot.n_past
              ((if slot_params.cache_prompt (server_slot.params slot)
                then slot <| server_slot.cache_tokens :=
                               server_slot.cache_tokens slot ++ [token] |>
                else slot)
                 <| server_slot.n_prompt_tokens_processed :=
                      server_slot.n_prompt_tokens_processed
                        (if slot_params.cache_prompt (server_slot.params slot)
                         then slot <| server_slot.cache_tokens :=
                                        server_slot.cache_tokens slot ++ [token] |>
                         else slot) + 1 |>
                 <| server_slot.n_past := server_slot.n_past slot + 1 |>)
            = server_slot.n_past slot + 1) as Hn by done.
    eexists _, _. split; [done|]. cbv zeta in *.
    destruct (slot_params.cache_prompt (server_slot.params slot)); simpl in *.
    all: unfold n_tokens, llama_batch_add in *; rewrite ?length_app in *; simpl in *.
    all: repeat split; try lia.
    all: rewrite Htokens, fmap_app, <- app_assoc; f_equal; simpl.
    all: replace (Z.to_nat (server_slot.n_past slot' - server_slot.n_past slot))
           with (S (Z.to_nat (server_slot.n_past slot' - (server_slot.n_past slot + 1))))
           by lia.
    all: rewrite (drop_S _ _ _ Htoken); simpl; do 2 f_equal; f_equal; lia.
Qed.

Lemma add_prompt_tokens_fills_batch_witness :
  let slot :=
    server_slot.default <| server_slot.prompt_tokens := [11; 12; 13] |>
                        <| server_slot.n_prompt_tokens := 3 |> in
  ∃ slot' ctx',
    server_context.add_prompt_tokens 3 2 0 0 slot (server_context.make example_params)
    = Some (slot', ctx')
    ∧ server_slot.n_past slot' = 2
    ∧ bt_token <$> server_context.batch ctx' = [11; 12].
Proof.
  intros slot.
  destruct (add_prompt_tokens_fills_batch 3 2 0 0 slot (server_context.make example_params))
    as (slot' & ctx' & Hrun & _);
    [reflexivity|by vm_compute|by vm_compute|by vm_compute|].
  exists slot', ctx'. split; [done|].
  vm_compute in Hrun. injection Hrun as <- <-. by split.
Defined.

(** ** The scheduler at rest *)

Lemma all_idle_forallb (l : list server_slot.t) :
  Forall (λ slot, server_slot.state slot = SLOT_STATE_IDLE) l →
  forallb (λ slot, negb (server_slot.is_processing slot)) l = true.
Proof.
  induction 1 as [|slot l Hst _ IH]; [done|]. simpl. rewrite IH.
  unfold server_slot.is_processing. rewrite bool_decide_false; [done|].
  by intros [].
Qed.

(** X13: an iteration of the scheduler with all slots idle.  When no
    system prompt is waiting to be set and every slot is idle,
    [update_slots] answers and touches neither the slots nor the batch nor
    the two queues: it posts no NEXT_RESPONSE task and sends no result.  It
    clears the KV cache if there is no system prompt and the cache has not
    been cleared yet, and a second iteration changes nothing at all. *)
Theorem update_slots_idle (m : llama_model) (o : oracle) (ctx : server_context.t) :
  server_context.system_need_update ctx = false →
  Forall (λ slot, server_slot.state slot = SLOT_STATE_IDLE) (server_context.slots ctx) →
  ∃ ctx',
    server_context.update_slots m o ctx = Some ctx'
    ∧ server_context.slots ctx' = server_context.slots ctx
    ∧ server_context.batch ctx' = server_context.batch ctx
    ∧ server_context.queue_tasks ctx' = server_context.queue_tasks ctx
    ∧ server_context.queue_results ctx' = server_context.queue_results ctx
    ∧ server_context.kv_log ctx'
      = server_context.kv_log ctx
        ++ (if bool_decide (server_context.system_prompt ctx = "")
               && server_context.clean_kv_cache ctx
            then [kv_cache_clear false; kv_cache_clear true] else [])
    ∧ server_context.update_slots m o ctx' = Some ctx'.
Proof.
  intros Hsys Hidle. unfold server_context.update_slots.
  rewrite Hsys. simpl. rewrite (all_idle_forallb _ Hidle).
  eexists. split; [done|].
  destruct (bool_decide (server_context.system_prompt ctx = "")) eqn:Hprompt;
    destruct (server_context.clean_kv_cache ctx) eqn:Hclean; simpl.
  all: rewrite ?app_nil_r, <- ?app_assoc; repeat split; try done.
  all: rewrite ?Hsys; simpl; rewrite ?(all_idle_forallb _ Hidle), ?Hprompt, ?Hclean;
    simpl; rewrite ?andb_false_r; done.
Qed.

Lemma update_slots_idle_witness :
  ∃ ctx0 ctx',
    start example_model example_oracle example_params = Some ctx0
    ∧ server_context.update_slots example_model example_oracle ctx0 = Some ctx'
    ∧ server_context.queue_tasks ctx' = server_context.queue_tasks ctx0
    ∧ server_context.update_slots example_model example_oracle ctx' = Some ctx'.
Proof.
  destruct (start example_model example_oracle example_params) as [ctx0|] eqn:Hstart;
    [|by vm_compute in Hstart].
  destruct (update_slots_idle example_model example_oracle ctx0)
    as (ctx' & Hrun & _ & _ & Hq & _ & _ & Hagain).
  - vm_compute in Hstart. by injection Hstart as <-.
  - vm_compute in Hstart. injection Hstart as <-. by repeat constructor.
  - by exists ctx0, ctx'.
Defined.

(** X14: the answer to a metrics task.  [process_single_task] leaves the
    slots and the task queue alone and sends one result for the id of the
    task, with [stop] set and [error] not set, in which the numbers of idle
    and of processing slots add up to the number of slots and the number of
    deferred tasks is the length of the deferred queue. *)
Theorem metrics_task_counts (m : llama_model) (o : oracle) (task : server_task.t)
    (ctx : server_context.t) :
  server_task.type task = SERVER_TASK_TYPE_METRICS →
  ∃ n_idle n_processing,
    server_context.process_single_task m o task ctx
    = Some (server_context.send
              {| server_task_result.id := server_task.id task;
                 server_task_result.data :=
                   data_metrics n_idle n_processing
                     (Z.of_nat (length (server_queue.queue_tasks_deferred
                                          (server_context.queue_tasks ctx))));
                 server_task_result.stop := true;
                 server_task_result.error := false |} ctx)
    ∧ n_idle + n_processing = Z.of_nat (length (server_context.slots ctx))
    ∧ 0 <= n_idle ∧ 0 <= n_processing.
Proof.
  intros Hty. unfold server_context.process_single_task. cbv zeta. rewrite Hty.
  eexists _, _. split; [reflexivity|]. split; [|lia].
  induction (server_context.slots ctx) as [|slot l IH]; [done|].
  rewrite !filter_cons. repeat case_decide; simpl in *; try done; lia.
Qed.

Lemma metrics_task_counts_witness :
  ∃ n_idle n_processing ctx',
    server_context.process_single_task example_model example_oracle
      (server_task.make SERVER_TASK_TYPE_METRICS) example_context = Some ctx'
    ∧ n_idle + n_processing = Z.of_nat (length (server_context.slots example_context)).
Proof.
  destruct (metrics_task_counts example_model example_oracle
              (server_task.make SERVER_TASK_TYPE_METRICS) example_context eq_refl)
    as (n_idle & n_processing & Hrun & Hsum & _).
  by eexists n_idle, n_processing, _.
Defined.

(** ** The slots from the start on *)

Lemma init_slots_fresh o n_ctx_slot ids ctx finished ctx' :
  server_context.model_dft ctx = false →
  server_context.init_slots o n_ctx_slot ids ctx = Some (finished, ctx') →
  finished = true
  ∧ slot_ids ctx' = slot_ids ctx ++ ids
  ∧ (Forall fresh_slot (server_context.slots ctx) →
     Forall fresh_slot (server_context.slots ctx'))
  ∧ server_context.queue_tasks ctx' = server_context.queue_tasks ctx
  ∧ server_context.queue_results ctx' = server_context.queue_results ctx.
Proof.
  revert ctx. induction ids as [|i ids IH]; intros ctx Hdft H; simpl in H.
  - simplify_eq. unfold slot_ids. by rewrite app_nil_r.
  - rewrite Hdft in H. cbv zeta in H. case_decide; [done|].
    apply IH in H as (-> & Hids & Hfresh & Hq & Hr); [|done].
    split; [done|]. unfold slot_ids in *. simpl in *.
    rewrite Hids, fmap_app, <- app_assoc. split; [done|]. split; [|done].
    intros Hall. apply Hfresh. apply Forall_app. split; [done|].
    apply Forall_singleton. by unfold fresh_slot.
Qed.

Lemma load_model_draft m o params_ ctx ctx' :
  gpt_params.speculative_model_empty params_ = true →
  server_context.model_dft ctx = false →
  server_context.load_model m o params_ ctx = (true, ctx') →
  server_context.model_dft ctx' = false
  ∧ server_context.queue_tasks ctx' = server_context.queue_tasks ctx
  ∧ server_context.queue_results ctx' = server_context.queue_results ctx.
Proof.
  unfold server_context.load_model. cbv zeta. simpl. intros -> Hdft H. simpl in H.
  repeat case_match; simplify_eq/=; done.
Qed.

Lemma system_prompt_set_empty sys_prompt ctx ctx' :
  server_context.slots ctx = [] →
  server_context.system_prompt_set sys_prompt ctx = Some ctx' →
  server_context.model_dft ctx' = server_context.model_dft ctx
  ∧ server_context.queue_tasks ctx' = server_context.queue_tasks ctx
  ∧ server_context.queue_results ctx' = server_context.queue_results ctx.
Proof.
  unfold server_context.system_prompt_set, server_context.for_slots,
    server_context.for_slots_with.
  intros Hs H. simpl in H. rewrite Hs in H. simpl in H. by simplify_eq/=.
Qed.

Lemma start_fresh (m : llama_model) (o : oracle) (params_ : gpt_params.t)
    (ctx : server_context.t) :
  start m o params_ = Some ctx →
  gpt_params.speculative_model_empty params_ = true →
  1 <= gpt_params.n_parallel params_
  ∧ slot_ids ctx = Z.of_nat <$> seq 0 (Z.to_nat (gpt_params.n_parallel params_))
  ∧ Forall fresh_slot (server_context.slots ctx)
  ∧ server_context.queue_tasks ctx = server_queue.empty
  ∧ server_context.queue_results ctx = server_response.empty.
Proof.
  unfold start. intros H Hempty. cbv zeta in H.
  apply bind_Some in H as (ctx1 & Hsys & H).
  assert (server_context.slots ctx1 = []
          ∧ server_context.model_dft ctx1 = false
          ∧ server_context.queue_tasks ctx1 = server_queue.empty
          ∧ server_context.queue_results ctx1 = server_response.empty)
    as (Hs1 & Hd1 & Hq1 & Hr1).
  { case_bool_decide; [|by simplify_eq].
    pose proof (system_prompt_set_no_slots _ (server_context.make params_) _ eq_refl Hsys).
    apply system_prompt_set_empty in Hsys as (Hd & Hq & Hr); [|done].
    rewrite Hd, Hq, Hr. done. }
  destruct (server_context.load_model m o params_ ctx1) as [loaded ctx2] eqn:Hload.
  destruct loaded; [|done].
  pose proof (load_model_draft _ _ _ _ _ Hempty Hd1 Hload) as (Hd2 & Hq2 & Hr2).
  apply load_model_context in Hload as (_ & Hp & Hs2).
  unfold server_context.init in H. cbv zeta in H. rewrite Hp in H.
  case_decide; [done|].
  apply bind_Some in H as ([finished ctx3] & Hinit & H).
  apply init_slots_fresh in Hinit as (-> & Hids & Hfresh & Hq3 & Hr3); [|done].
  unfold slot_ids in *. rewrite Hs2, Hs1 in Hids, Hfresh. simpl in Hids.
  case_decide as Hnil; simplify_eq/=.
  split.
  { destruct (decide (1 <= gpt_params.n_parallel params_)); [done|].
    destruct Hnil. apply fmap_nil_inv with (f := server_slot.id). rewrite Hids.
    replace (Z.to_nat (gpt_params.n_parallel params_)) with 0%nat by lia. done. }
  split; [done|]. split; [by apply Hfresh|]. split; congruence.
Qed.

(** X15: the server as [main] starts it.  When [start] succeeds without a
    draft model, there is at least one slot, the slots are numbered 0, 1, ...
    up to [n_parallel - 1] in the order of the vector, none of them has
    served a task (idle, no task id, no cached and no prompt tokens), and
    the two queues are empty. *)
Theorem start_slots (m : llama_model) (o : oracle) (params_ : gpt_params.t)
    (ctx : server_context.t) :
  start m o params_ = Some ctx →
  gpt_params.speculative_model_empty params_ = true →
  1 <= gpt_params.n_parallel params_
  ∧ slot_ids ctx = Z.of_nat <$> seq 0 (Z.to_nat (gpt_params.n_parallel params_))
  ∧ Forall fresh_slot (server_context.slots ctx)
  ∧ server_context.queue_tasks ctx = server_queue.empty
  ∧ server_context.queue_results ctx = server_response.empty.
Proof. apply start_fresh. Qed.

Lemma start_slots_witness :
  ∃ ctx,
    start example_model example_oracle example_params = Some ctx
    ∧ slot_ids ctx = [0; 1]
    ∧ Forall fresh_slot (server_context.slots ctx).
Proof.
  destruct (start example_model example_oracle example_params) as [ctx|] eqn:Hstart;
    [|by vm_compute in Hstart].
  destruct (start_slots example_model example_oracle example_params ctx Hstart eq_refl)
    as (_ & Hids & Hfresh & _).
  exists ctx. split; [done|]. split; [|done]. rewrite Hids. reflexivity.
Defined.

(** ** The ids of the slots never change *)

Lemma insert_slot_ids i slot slot' ctx ctx' :
  server_context.slots ctx !! i = Some slot →
  server_slot.id slot' = server_slot.id slot →
  server_context.slots ctx' = server_context.slots ctx →
  slot_ids (ctx' <| server_context.slots := <[ i := slot' ]> (server_context.slots ctx') |>)
  = slot_ids ctx.
Proof.
  intros Hi Hid Hs. unfold slot_ids. simpl. rewrite Hs, list_fmap_insert, Hid.
  apply list_insert_id. by rewrite list_lookup_fmap, Hi.
Qed.

Lemma for_slots_from_ids {L}
    (body : L -> server_slot.t -> server_context.t
            -> option (L * server_slot.t * server_context.t * bool))
    todo l ctx l' ctx' :
  (∀ l slot c l1 slot1 c1 go_on,
     body l slot c = Some (l1, slot1, c1, go_on) →
     server_slot.id slot1 = server_slot.id slot
     ∧ server_context.slots c1 = server_context.slots c) →
  server_context.for_slots_from body todo l ctx = Some (l', ctx') →
  slot_ids ctx' = slot_ids ctx.
Proof.
  intros Hbody. revert l ctx.
  induction todo as [|i todo IH]; intros l ctx H; simpl in H; [by simplify_eq|].
  destruct (server_context.slots ctx !! i) as [slot|] eqn:Hi; [|by simplify_eq].
  apply bind_Some in H as ([[[l1 slot1] c1] go_on] & Hb & H).
  destruct (Hbody _ _ _ _ _ _ _ Hb) as [Hid Hs].
  pose proof (insert_slot_ids i slot slot1 ctx c1 Hi Hid Hs) as Hids.
  destruct go_on; [|by simplify_eq].
  apply IH in H. by rewrite H.
Qed.

Lemma for_slots_ids body ctx ctx' :
  (∀ slot c slot1 c1,
     body slot c = Some (slot1, c1) →
     server_slot.id slot1 = server_slot.id slot
     ∧ server_context.slots c1 = server_context.slots c) →
  server_context.for_slots body ctx = Some ctx' →
  slot_ids ctx' = slot_ids ctx.
Proof.
  unfold server_context.for_slots, server_context.for_slots_with. intros Hbody H.
  apply fmap_Some in H as ([l1 c1] & H & ->). simpl.
  eapply for_slots_from_ids; [|exact H].
  intros l slot c l2 slot2 c2 go_on Hb.
  apply bind_Some in Hb as ([s3 c3] & Hb & ?). simplify_eq. by eapply Hbody.
Qed.

Lemma with_slot_ids i body ctx ctx' :
  (∀ slot c slot1 c1,
     body slot c = Some (slot1, c1) →
     server_slot.id slot1 = server_slot.id slot
     ∧ server_context.slots c1 = server_context.slots c) →
  server_context.with_slot i body ctx = Some ctx' →
  slot_ids ctx' = slot_ids ctx.
Proof.
  unfold server_context.with_slot. intros Hbody H.
  apply bind_Some in H as (slot & Hi & H).
  apply bind_Some in H as ([slot1 c1] & Hb & H). simplify_eq.
  destruct (Hbody _ _ _ _ Hb) as [Hid Hs]. by eapply insert_slot_ids.
Qed.

Lemma release_slot_id slot ctx :
  server_slot.id (server_context.release_slot slot ctx).1 = server_slot.id slot
  ∧ server_context.slots (server_context.release_slot slot ctx).2
    = server_context.slots ctx.
Proof.
  unfold server_context.release_slot, server_slot.release.
  by destruct (server_slot.is_processing slot).
Qed.

Lemma release_then_id slot ctx slot' ctx' :
  server_context.release_slot slot ctx = (slot', ctx') →
  server_slot.id slot' = server_slot.id slot
  ∧ server_context.slots ctx' = server_context.slots ctx.
Proof. intros H. pose proof (release_slot_id slot ctx) as Hr. by rewrite H in Hr. Qed.

Lemma context_shift_id slot ctx slot' ctx' :
  server_context.context_shift slot ctx = Some (slot', ctx') →
  server_slot.id slot' = server_slot.id slot
  ∧ server_context.slots ctx' = server_context.slots ctx.
Proof.
  intros H. unfold server_context.context_shift in H. cbv zeta in H.
  case_decide; [|by simplify_eq].
  match type of H with
  | (if ?b then _ else _) = _ => destruct b
  end; [|by simplify_eq].
  match type of H with
  | (if ?b then _ else _) = _ => destruct b
  end.
  - destruct (server_context.release_slot slot ctx) as [s c] eqn:Hrel.
    apply release_then_id in Hrel. by simplify_eq.
  - case_decide; [done|].
    apply bind_Some in H as (s1 & Hs1 & H). simplify_eq.
    destruct (slot_params.cache_prompt (server_slot.params slot)).
    + apply bind_Some in Hs1 as (cache & _ & Hs1). by simplify_eq.
    + by simplify_eq.
Qed.

Lemma add_sampled_token_id slot ctx slot' ctx' :
  server_context.add_sampled_token slot ctx = Some (slot', ctx') →
  server_slot.id slot' = server_slot.id slot
  ∧ server_context.slots ctx' = server_context.slots ctx.
Proof.
  unfold server_context.add_sampled_token. intros H.
  case_decide; [by simplify_eq|]. cbv zeta in H. simpl in H.
  by destruct (slot_params.cache_prompt (server_slot.params slot)); simplify_eq.
Qed.

Lemma truncate_prompt_id slot slot' :
  server_context.truncate_prompt slot = Some slot' →
  server_slot.id slot' = server_slot.id slot.
Proof.
  unfold server_context.truncate_prompt. intros H. cbv zeta in H.
  destr_head; done.
Qed.

Lemma reuse_cache_id slot slot' :
  server_context.reuse_cache slot = Some slot' →
  server_slot.id slot' = server_slot.id slot.
Proof. unfold server_context.reuse_cache. intros H. destr_head; done. Qed.

Lemma leave_one_token_id slot :
  server_slot.id (server_context.leave_one_token slot) = server_slot.id slot.
Proof.
  unfold server_context.leave_one_token. cbv zeta. by repeat case_decide.
Qed.

Lemma check_prompt_id n_ubatch slot ctx r :
  server_context.check_prompt n_ubatch slot ctx = Some r →
  match r with
  | inl (s, c) | inr (s, c) =>
      server_slot.id s = server_slot.id slot
      ∧ server_context.slots c = server_context.slots ctx
  end.
Proof.
  intros H. unfold server_context.check_prompt in H. cbv zeta in H.
  destruct (server_context.is_embedding slot).
  - case_decide; [|by simplify_eq].
    destruct (server_context.release_slot slot ctx) as [s c] eqn:Hrel.
    apply release_then_id in Hrel. by simplify_eq.
  - match type of H with
    | (if ?b then _ else _) = _ => destruct b
    end.
    + destruct (server_context.release_slot slot ctx) as [s c] eqn:Hrel.
      apply release_then_id in Hrel. by simplify_eq.
    + apply bind_Some in H as (s1 & H1 & H).
      apply bind_Some in H as (s2 & H2 & H). simplify_eq.
      apply truncate_prompt_id in H1. apply reuse_cache_id in H2.
      split; [|done]. by rewrite H2, H1.
Qed.

Lemma tokenize_prompt_id m n_ubatch slot ctx r :
  server_context.tokenize_prompt m n_ubatch slot ctx = Some r →
  match r with
  | inl (s, c) | inr (s, c) =>
      server_slot.id s = server_slot.id slot
      ∧ server_context.slots c = server_context.slots ctx
  end.
Proof.
  intros H. unfold server_context.tokenize_prompt in H.
  apply bind_Some in H as (assembled & Ha & H).
  destruct assembled as [[]|[tokens c0]].
  - destruct (server_context.release_slot slot ctx) as [s c] eqn:Hrel.
    apply release_then_id in Hrel. by simplify_eq.
  - apply assemble_prompt_same in Ha as [Hs0 _].
    cbv zeta in H. case_decide.
    + match type of H with
      | context [server_context.release_slot ?s ?c] =>
          destruct (server_context.release_slot s c) as [s1 c1] eqn:Hrel
      end.
      apply release_then_id in Hrel as [Hid Hs]. simplify_eq. simpl.
      split; [done|congruence].
    + apply bind_Some in H as (checked & Hc & H).
      apply check_prompt_id in Hc.
      destruct checked as [[s c]|[s c]]; simplify_eq; simpl in *.
      * destruct Hc. split; [done|congruence].
      * destruct Hc as [Hid Hs]. rewrite leave_one_token_id.
        split; [done|congruence].
Qed.

Lemma add_prompt_tokens_id fuel n_batch slot_npast ga_i_ slot ctx slot' ctx' :
  server_context.add_prompt_tokens fuel n_batch slot_npast ga_i_ slot ctx
  = Some (slot', ctx') →
  server_slot.id slot' = server_slot.id slot.
Proof.
  revert slot_npast ga_i_ slot ctx.
  induction fuel as [|fuel IH]; intros slot_npast ga_i_ slot ctx H; simpl in H.
  - case_decide; [done|]. by simplify_eq.
  - case_decide; [|by simplify_eq].
    apply bind_Some in H as ([npast1 ga1] & _ & H).
    apply bind_Some in H as (token & _ & H).
    apply IH in H. rewrite H. simpl.
    by destruct (slot_params.cache_prompt (server_slot.params slot)).
Qed.

Lemma keep_common_part_id o slot ctx :
  server_slot.id (server_context.keep_common_part o slot ctx).1 = server_slot.id slot.
Proof.
  unfold server_context.keep_common_part. cbv zeta. by repeat case_match.
Qed.

Lemma admit_prompt_id o n_batch slot ctx slot' ctx' :
  server_context.admit_prompt o n_batch slot ctx = Some (slot', ctx') →
  server_slot.id slot' = server_slot.id slot
  ∧ server_context.slots ctx' = server_context.slots ctx.
Proof.
  intros H. unfold server_context.admit_prompt in H.
  pose proof (keep_common_part_id o slot ctx) as Hid1.
  destruct (keep_common_part_same o slot ctx) as [_ [Hc1 _]].
  destruct (server_context.keep_common_part o slot ctx) as [s1 c1]. simpl in *.
  apply bind_Some in H as (cache & _ & H). cbv zeta in H.
  apply bind_Some in H as ([s2 c2] & Htokens & H).
  pose proof (add_prompt_tokens_id _ _ _ _ _ _ _ _ Htokens) as Hid2.
  apply add_prompt_tokens_ok in Htokens as (_ & [Hc2 _] & _). simpl in *.
  repeat case_decide; simplify_eq/=; split; congruence.
Qed.

Lemma add_prompt_id m o n_batch n_ubatch batch_type slot ctx l' slot' ctx' go_on :
  server_context.add_prompt m o n_batch n_ubatch batch_type slot ctx
  = Some (l', slot', ctx', go_on) →
  server_slot.id slot' = server_slot.id slot
  ∧ server_context.slots ctx' = server_context.slots ctx.
Proof.
  intros H. unfold server_context.add_prompt in H. cbv zeta in H.
  case_decide as Hst; [|by simplify_eq].
  apply bind_Some in H as (tokenized & Htok & H).
  assert (match tokenized with
          | inl (s, c) | inr (s, c) =>
              server_slot.id s = server_slot.id slot
              ∧ server_context.slots c = server_context.slots ctx
          end) as Hr.
  { destruct (decide (server_slot.prompt_tokens slot = [])).
    - exact (tokenize_prompt_id m n_ubatch slot ctx tokenized Htok).
    - by simplify_eq. }
  clear Htok. destruct tokenized as [[s c]|[s c]]; [by simplify_eq|].
  destruct Hr as [Hid Hs].
  match type of H with
  | (if ?b then _ else _) = _ => destruct b
  end; [by simplify_eq|].
  case_decide; [by simplify_eq|].
  apply bind_Some in H as ([s2 c2] & Hadmit & H). simplify_eq.
  apply admit_prompt_id in Hadmit as [? ?]. split; congruence.
Qed.

Lemma self_extend_while_id fuel slot ctx slot' ctx' :
  server_context.self_extend_while fuel slot ctx = Some (slot', ctx') →
  server_slot.id slot' = server_slot.id slot.
Proof.
  revert slot ctx. induction fuel as [|fuel IH]; intros slot ctx H; simpl in H.
  - case_decide; [done|]. by simplify_eq.
  - case_decide; [|by simplify_eq]. apply IH in H. by rewrite H.
Qed.

Lemma self_extend_id n_tokens_ slot ctx slot' ctx' :
  server_context.self_extend n_tokens_ slot ctx = Some (slot', ctx') →
  server_slot.id slot' = server_slot.id slot
  ∧ server_context.slots ctx' = server_context.slots ctx.
Proof.
  unfold server_context.self_extend. intros H.
  case_decide; [|by simplify_eq].
  apply bind_Some in H as ([s c] & Hw & H). simplify_eq.
  pose proof (self_extend_while_id _ _ _ _ _ Hw) as Hid.
  apply self_extend_while_same in Hw as [_ [Hs _]]. by split.
Qed.

Lemma process_token_id m result slot ctx go_on slot' ctx' :
  server_context.process_token m result slot ctx = (go_on, slot', ctx') →
  server_slot.id slot' = server_slot.id slot
  ∧ server_context.slots ctx' = server_context.slots ctx.
Proof.
  intros H. apply process_token_ok in H as [(Hid & _) [Hs _]]. by split.
Qed.

Lemma release_and_send_final_id slot ctx slot' ctx' :
  server_context.release_and_send_final slot ctx = (slot', ctx') →
  server_slot.id slot' = server_slot.id slot
  ∧ server_context.slots ctx' = server_context.slots ctx.
Proof.
  unfold server_context.release_and_send_final. intros H.
  destruct (server_context.release_slot slot ctx) as [s c] eqn:Hrel.
  apply release_then_id in Hrel. by simplify_eq.
Qed.

Lemma process_accepted_id m ids slot ctx slot' ctx' :
  server_context.process_accepted m ids slot ctx = (slot', ctx') →
  server_slot.id slot' = server_slot.id slot
  ∧ server_context.slots ctx' = server_context.slots ctx.
Proof.
  revert slot ctx. induction ids as [|id_ ids IH]; intros slot ctx H; simpl in H.
  - by simplify_eq.
  - destruct (server_context.process_token m _ slot ctx) as [[go_on s] c] eqn:Hp.
    apply process_token_id in Hp as [Hid Hs].
    destruct go_on.
    + apply IH in H as [? ?]. split; congruence.
    + apply release_and_send_final_id in H as [? ?]. split; congruence.
Qed.

Lemma sample_slot_id m o i n_tokens_ slot ctx slot' ctx' :
  server_context.sample_slot m o i n_tokens_ slot ctx = Some (slot', ctx') →
  server_slot.id slot' = server_slot.id slot
  ∧ server_context.slots ctx' = server_context.slots ctx.
Proof.
  intros H. unfold server_context.sample_slot in H.
  case_decide; [by simplify_eq|]. cbv zeta in H.
  match type of H with
  | match ?a with _ => _ end = _ =>
      assert (match a with
              | inl (s, c) =>
                  server_slot.id s = server_slot.id slot
                  ∧ server_context.slots c = server_context.slots ctx
              | inr s => server_slot.id s = server_slot.id slot
              end) as Ha; [|destruct a as [[s c]|s]]
  end.
  { clear H. case_decide.
    - case_decide; [|case_decide; [|done]].
      + destruct (server_context.release_slot slot _) as [s c] eqn:Hrel.
        by apply release_then_id in Hrel.
      + destruct (server_context.release_slot slot _) as [s c] eqn:Hrel.
        by apply release_then_id in Hrel.
    - by case_decide. }
  { by simplify_eq. }
  destruct (server_context.process_token m _ _ ctx) as [[go_on s1] c1] eqn:Hp.
  apply process_token_id in Hp as [Hid1 Hs1]. simpl in Hid1.
  destruct go_on; simpl in H.
  2:{ simplify_eq. apply release_and_send_final_id in H as [? ?]. split; congruence. }
  destruct (server_slot.can_speculate s1); simpl in H; [|simplify_eq; split; congruence].
  case_decide; [simplify_eq; split; congruence|].
  apply bind_Some in H as (s2 & Hcommit & H). simplify_eq.
  unfold server_context.speculative_commit in Hcommit. cbv zeta in Hcommit.
  case_decide; simplify_eq.
  apply process_accepted_id in H as [Hid Hs]. simpl in *. split; congruence.
Qed.

Lemma decode_batch_ids m o fuel k i n_batch ctx ctx' :
  server_context.decode_batch m o fuel k i n_batch ctx = Some ctx' →
  slot_ids ctx' = slot_ids ctx.
Proof.
  revert k i n_batch ctx.
  induction fuel as [|fuel IH]; intros k i n_batch ctx H; simpl in H.
  - case_decide; [done|]. by simplify_eq.
  - case_decide; [|by simplify_eq].
    apply bind_Some in H as (ctx1 & Hext & H).
    apply for_slots_ids in Hext; [|intros ????; apply self_extend_id].
    rewrite <- Hext. case_decide.
    + case_decide.
      * eapply for_slots_ids; [|exact H].
        intros slot c slot' c' Hb. cbv beta in Hb.
        destruct (server_context.release_slot slot c) as [s1 c1] eqn:Hrel.
        apply release_then_id in Hrel. by simplify_eq.
      * by eapply IH.
    + apply bind_Some in H as (ctx2 & Hsample & H).
      apply for_slots_ids in Hsample; [|intros ????; apply sample_slot_id].
      rewrite <- Hsample. by eapply IH.
Qed.

Lemma update_slots_ids m o ctx ctx' :
  server_context.update_slots m o ctx = Some ctx' → slot_ids ctx' = slot_ids ctx.
Proof.
  intros H. unfold server_context.update_slots in H.
  apply bind_Some in H as (ctx1 & Hsys & H).
  assert (slot_ids ctx1 = slot_ids ctx) as <-.
  { destruct (server_context.system_need_update ctx); [|by simplify_eq].
    apply system_prompt_update_same in Hsys as [Hs _]. unfold slot_ids. by rewrite Hs. }
  clear Hsys.
  match type of H with
  | (if ?b then _ else _) = _ => destruct b
  end.
  { simplify_eq. by case_match. }
  apply bind_Some in H as ([i q] & _ & H). cbv zeta in H.
  apply bind_Some in H as (ctx2 & Hshift & H).
  apply for_slots_ids in Hshift; [|intros ????; apply context_shift_id].
  apply bind_Some in H as (ctx3 & Hsampled & H).
  apply for_slots_ids in Hsampled; [|intros ????; apply add_sampled_token_id].
  apply bind_Some in H as (ctx4 & Hprompt & H).
  assert (slot_ids ctx4 = slot_ids ctx3) as Hids4.
  { match type of Hprompt with
    | (if ?b then _ else _) = _ => destruct b
    end; [|by simplify_eq].
    apply fmap_Some in Hprompt as ([l c] & Hprompt & ->). simpl.
    eapply for_slots_from_ids; [|exact Hprompt].
    intros ???????. apply add_prompt_id. }
  assert (slot_ids ctx4 = slot_ids ctx1) as <-.
  { rewrite Hids4, Hsampled. unfold slot_ids in *. simpl in *. exact Hshift. }
  case_decide; [by simplify_eq|].
  by eapply decode_batch_ids.
Qed.

Lemma launch_id o slot task ctx answer slot' ctx' :
  server_context.launch_slot_with_task o slot task ctx = Some (answer, slot', ctx') →
  server_slot.id slot' = server_slot.id slot
  ∧ server_context.slots ctx' = server_context.slots ctx.
Proof.
  intros H. apply launch_answer in H as (Hid & _ & _ & _ & Hout).
  split; [done|]. destruct answer.
  - by destruct Hout as (-> & _).
  - by destruct Hout as (_ & msg & ->).
Qed.

Lemma on_idle_slot_ids task action ctx ctx' :
  (∀ id_slot slot c slot' c',
     action id_slot slot c = Some (slot', c') →
     server_slot.id slot' = server_slot.id slot
     ∧ server_context.slots c' = server_context.slots c) →
  server_context.on_idle_slot task action ctx = Some ctx' →
  slot_ids ctx' = slot_ids ctx.
Proof.
  unfold server_context.on_idle_slot. intros Haction H.
  destr_head; try done.
  eapply with_slot_ids; [|exact H]. intros ????. apply Haction.
Qed.

Lemma process_single_task_ids m o task ctx ctx' :
  server_context.process_single_task m o task ctx = Some ctx' →
  slot_ids ctx' = slot_ids ctx.
Proof.
  intros H. unfold server_context.process_single_task in H. cbv zeta in H.
  destruct (server_task.type task).
  - match type of H with
    | match ?f with _ => _ end = _ => destruct f as [i|]
    end; [|by simplify_eq].
    apply bind_Some in H as (slot & Hi & H).
    destruct (server_slot.is_processing slot); [by simplify_eq|].
    apply bind_Some in H as (ctx1 & Hsys & H).
    assert (slot_ids ctx1 = slot_ids ctx) as <-.
    { destruct (d_system_prompt (server_task.data task)) as [sys_prompt|];
        [|by simplify_eq].
      apply bind_Some in Hsys as (ctx0 & Hset & Hreset).
      apply for_slots_ids in Hreset.
      2:{ intros s c s' c' Hb. simpl in Hb. by simplify_eq. }
      rewrite Hreset. unfold server_context.system_prompt_set in Hset.
      apply bind_Some in Hset as (ctx2 & Hloop & Hset). simplify_eq.
      apply for_slots_ids in Hloop.
      2:{ intros s c s' c' Hb. injection Hb as Hb. by apply release_then_id. }
      exact Hloop. }
    eapply with_slot_ids; [|exact H].
    intros s c s' c' Hb.
    apply bind_Some in Hb as ([[answer s2] c2] & Hlaunch & Hb). simplify_eq.
    by apply launch_id in Hlaunch.
  - apply fmap_Some in H as ([l c] & H & ->). simpl.
    eapply for_slots_from_ids; [|exact H].
    intros l0 slot c0 l1 slot' c1 go_on Hb. cbv beta in Hb.
    case_decide; [|by simplify_eq].
    destruct (server_context.release_slot slot c0) as [s1 c2] eqn:Hrel.
    apply release_then_id in Hrel. by simplify_eq.
  - by simplify_eq.
  - by simplify_eq.
  - eapply on_idle_slot_ids; [|exact H].
    intros id_slot slot c slot' c' Ha.
    unfold server_context.slot_save in Ha. simpl in Ha. by simplify_eq.
  - eapply on_idle_slot_ids; [|exact H].
    intros id_slot slot c slot' c' Ha.
    unfold server_context.slot_restore in Ha. cbv beta zeta in Ha. destr_head; done.
  - eapply on_idle_slot_ids; [|exact H].
    intros id_slot slot c slot' c' Ha.
    unfold server_context.slot_erase in Ha. simpl in Ha. by simplify_eq.
  - by simplify_eq.
Qed.

Lemma step_ids m ev ctx ctx' : step m ev ctx = Some ctx' → slot_ids ctx' = slot_ids ctx.
Proof.
  intros H. destruct ev; simpl in H; unfold on_queue_tasks, on_queue_results in H.
  - apply bind_Some in H as (q & _ & H). by simplify_eq.
  - apply bind_Some in H as (q & _ & H). by simplify_eq.
  - apply bind_Some in H as (q & _ & H). by simplify_eq.
  - by simplify_eq.
  - by simplify_eq.
  - by simplify_eq.
  - by simplify_eq.
  - apply bind_Some in H as ([res r] & _ & H). by simplify_eq.
  - unfold server_context.cancel_tasks in H. cbv zeta in H.
    apply bind_Some in H as (q & _ & H). simplify_eq. unfold slot_ids. simpl.
    f_equal. refine (proj1 (foldl_same _ _ _ _)). intros c a. split; reflexivity.
  - by simplify_eq/=.
  - apply bind_Some in H as ([task q] & _ & H).
    by apply process_single_task_ids in H.
  - by apply update_slots_ids in H.
Qed.

Lemma run_ids m evs ctx ctx' : run m evs ctx = Some ctx' → slot_ids ctx' = slot_ids ctx.
Proof.
  revert ctx. induction evs as [|ev evs IH]; intros ctx H; simpl in H.
  - by simplify_eq.
  - apply bind_Some in H as (ctx1 & Hstep & H).
    apply step_ids in Hstep. apply IH in H. congruence.
Qed.

Lemma find_numbered_slot (l : list server_slot.t) (k i : nat) :
  server_slot.id <$> l = Z.of_nat <$> seq k (length l) →
  (k <= i < k + length l)%nat →
  fst <$> list_find (λ slot, server_slot.id slot = Z.of_nat i) l = Some (i - k)%nat.
Proof.
  revert k. induction l as [|slot l IH]; intros k Hids Hi; simpl in Hids, Hi; [lia|].
  injection Hids as Hid Hids.
  change (list_find ?P (slot :: l))
    with (if decide (P slot) then Some (0%nat, slot) else prod_map S id <$> list_find P l).
  destruct (decide (server_slot.id slot = Z.of_nat i)) as [Hslot|Hslot]; simpl.
  - f_equal. lia.
  - specialize (IH (S k) Hids ltac:(lia)).
    destruct (list_find _ l) as [[j s]|]; simpl in *; [|done].
    injection IH as ->. f_equal. lia.
Qed.

(** X16: the slots keep their places and their ids.  Whatever the
    handlers and the scheduler do after the start, the vector of slots has
    the ids it had at the start, in the same order.  So on a server started
    without draft model, [get_slot_by_id] finds for every id from 0 to
    [n_parallel - 1] the slot at that very index, at any time. *)
Theorem slot_ids_fixed (m : llama_model) (o : oracle) (params_ : gpt_params.t)
    (evs : list event) (ctx0 ctx : server_context.t) :
  start m o params_ = Some ctx0 →
  run m evs ctx0 = Some ctx →
  slot_ids ctx = slot_ids ctx0
  ∧ (gpt_params.speculative_model_empty params_ = true →
     ∀ i : nat,
       Z.of_nat i < gpt_params.n_parallel params_ →
       server_context.get_slot_by_id (Z.of_nat i) ctx = Some i).
Proof.
  intros Hstart Hrun. apply run_ids in Hrun. split; [done|].
  intros Hempty i Hi.
  destruct (start_fresh m o params_ ctx0 Hstart Hempty) as (Hn & Hids & _).
  rewrite <- Hrun in Hids. unfold slot_ids in Hids.
  unfold server_context.get_slot_by_id.
  assert (length (server_context.slots ctx) = Z.to_nat (gpt_params.n_parallel params_))
    as Hlen.
  { apply (f_equal length) in Hids.
    by rewrite !length_fmap, length_seq in Hids. }
  rewrite (find_numbered_slot _ 0 i); [f_equal; lia| |lia].
  by rewrite Hlen.
Qed.

Lemma slot_ids_fixed_witness :
  ∃ ctx0 ctx,
    start example_model example_oracle example_params = Some ctx0
    ∧ run example_model completion_run ctx0 = Some ctx
    ∧ slot_ids ctx = slot_ids ctx0
    ∧ server_context.get_slot_by_id 1 ctx = Some 1%nat.
Proof.
  destruct (start example_model example_oracle example_params) as [ctx0|] eqn:Hstart;
    [|by vm_compute in Hstart].
  destruct (run example_model completion_run ctx0) as [ctx|] eqn:Hrun.
  2:{ vm_compute in Hstart. injection Hstart as <-. by vm_compute in Hrun. }
  destruct (slot_ids_fixed example_model example_oracle example_params
              completion_run ctx0 ctx Hstart Hrun) as [Hids Hget].
  exists ctx0, ctx. split; [done|]. split; [done|]. split; [done|].
  apply (Hget eq_refl 1%nat). by vm_compute.
Defined.

(** ** The results the scheduler sends *)

Lemma sent_to_same T ctx ctx' :
  server_context.queue_results ctx' = server_context.queue_results ctx →
  sent_to T ctx ctx'.
Proof.
  intros H. unfold sent_to. cbv zeta. rewrite H. split; [done|].
  exists []. by rewrite app_nil_r.
Qed.

Lemma sent_to_trans T c1 c2 c3 : sent_to T c1 c2 → sent_to T c2 c3 → sent_to T c1 c3.
Proof.
  unfold sent_to. cbv zeta. intros (Hw1 & new1 & Hq1 & Hall1) (Hw2 & new2 & Hq2 & Hall2).
  split; [congruence|]. exists (new1 ++ new2).
  rewrite Hq2, Hq1, <- app_assoc. split; [done|].
  apply Forall_app. split; [done|]. by rewrite Hw1 in Hall2.
Qed.

Lemma sent_to_weaken (T T' : Z → Prop) ctx ctx' :
  (∀ t, T t → T' t) → sent_to T ctx ctx' → sent_to T' ctx ctx'.
Proof.
  unfold sent_to. cbv zeta. intros HT (Hw & new & Hq & Hall).
  split; [done|]. exists new. split; [done|].
  eapply Forall_impl; [exact Hall|]. intros res [? ?]. auto.
Qed.

Lemma sent_to_send (T : Z → Prop) res ctx :
  T (server_task_result.id res) → sent_to T ctx (server_context.send res ctx).
Proof.
  intros HT. unfold sent_to, server_context.send, server_response.send. cbv zeta. simpl.
  case_decide; simpl.
  - split; [done|]. exists [res]. split; [done|]. by apply Forall_singleton.
  - split; [done|]. exists []. by rewrite app_nil_r.
Qed.

Lemma sent_to_then_send (T : Z → Prop) res ctx ctx' :
  T (server_task_result.id res) →
  server_context.queue_results ctx' = server_context.queue_results ctx →
  sent_to T ctx (server_context.send res ctx').
Proof.
  intros HT Hq. eapply sent_to_trans; [by apply sent_to_same|by apply sent_to_send].
Qed.

Lemma insert_slot_tasks i slot slot' ctx ctx' :
  server_context.slots ctx !! i = Some slot →
  server_slot.id_task slot' = server_slot.id_task slot →
  server_context.slots ctx' = server_context.slots ctx →
  slot_tasks (ctx' <| server_context.slots := <[ i := slot' ]> (server_context.slots ctx') |>)
  = slot_tasks ctx.
Proof.
  intros Hi Hid Hs. unfold slot_tasks. simpl. rewrite Hs, list_fmap_insert, Hid.
  apply list_insert_id. by rewrite list_lookup_fmap, Hi.
Qed.

Lemma for_slots_from_sent {L} (T : Z → Prop)
    (body : L -> server_slot.t -> server_context.t
            -> option (L * server_slot.t * server_context.t * bool))
    todo l ctx l' ctx' :
  (∀ l slot c l1 slot1 c1 go_on,
     body l slot c = Some (l1, slot1, c1, go_on) →
     server_slot.id_task slot1 = server_slot.id_task slot
     ∧ server_context.slots c1 = server_context.slots c
     ∧ sent_to (λ t, t = server_slot.id_task slot) c c1) →
  (∀ t, t ∈ slot_tasks ctx → T t) →
  server_context.for_slots_from body todo l ctx = Some (l', ctx') →
  sent_to T ctx ctx' ∧ slot_tasks ctx' = slot_tasks ctx.
Proof.
  intros Hbody. revert l ctx.
  induction todo as [|i todo IH]; intros l ctx HT H; simpl in H.
  { simplify_eq. split; [by apply sent_to_same|done]. }
  destruct (server_context.slots ctx !! i) as [slot|] eqn:Hi.
  2:{ simplify_eq. split; [by apply sent_to_same|done]. }
  apply bind_Some in H as ([[[l1 slot1] c1] go_on] & Hb & H).
  destruct (Hbody _ _ _ _ _ _ _ Hb) as (Hid & Hs & Hsent).
  pose proof (insert_slot_tasks i slot slot1 ctx c1 Hi Hid Hs) as Htasks.
  assert (T (server_slot.id_task slot)) as Hslot.
  { apply HT. unfold slot_tasks. apply list_elem_of_fmap. exists slot.
    split; [done|]. by eapply list_elem_of_lookup_2. }
  assert (sent_to T ctx
            (c1 <| server_context.slots := <[ i := slot1 ]> (server_context.slots c1) |>))
    as Hsent1.
  { eapply sent_to_trans; [|by apply sent_to_same].
    eapply sent_to_weaken; [|exact Hsent]. by intros t ->. }
  destruct go_on; [|simplify_eq; by split].
  apply IH in H as [Hsent2 Htasks2]; [|intros t Ht; apply HT; by rewrite <- Htasks].
  split; [by eapply sent_to_trans|by rewrite Htasks2].
Qed.

Lemma for_slots_sent (T : Z → Prop) body ctx ctx' :
  (∀ slot c slot1 c1,
     body slot c = Some (slot1, c1) →
     server_slot.id_task slot1 = server_slot.id_task slot
     ∧ server_context.slots c1 = server_context.slots c
     ∧ sent_to (λ t, t = server_slot.id_task slot) c c1) →
  (∀ t, t ∈ slot_tasks ctx → T t) →
  server_context.for_slots body ctx = Some ctx' →
  sent_to T ctx ctx' ∧ slot_tasks ctx' = slot_tasks ctx.
Proof.
  unfold server_context.for_slots, server_context.for_slots_with. intros Hbody HT H.
  apply fmap_Some in H as ([l1 c1] & H & ->). simpl.
  eapply for_slots_from_sent; [|done|exact H].
  intros l slot c l2 slot2 c2 go_on Hb.
  apply bind_Some in Hb as ([s3 c3] & Hb & ?). simplify_eq. by eapply Hbody.
Qed.

(** the step leaves the task of the slot, the slots of the server and the
    results alone *)
Ltac quiet_step :=
  simplify_eq; simpl in *; split; [done|]; split; [done|]; by apply sent_to_same.

Lemma release_sent slot ctx slot' ctx' :
  server_context.release_slot slot ctx = (slot', ctx') →
  server_slot.id_task slot' = server_slot.id_task slot
  ∧ server_context.slots ctx' = server_context.slots ctx
  ∧ server_context.queue_results ctx' = server_context.queue_results ctx.
Proof.
  unfold server_context.release_slot, server_slot.release. intros H.
  destruct (server_slot.is_processing slot); by simplify_eq.
Qed.

(** a slot is released and a result is sent for its task *)
Lemma release_and_send slot ctx slot' ctx' res :
  server_context.release_slot slot ctx = (slot', ctx') →
  server_task_result.id res = server_slot.id_task slot →
  server_slot.id_task slot' = server_slot.id_task slot
  ∧ server_context.slots (server_context.send res ctx') = server_context.slots ctx
  ∧ sent_to (λ t, t = server_slot.id_task slot) ctx (server_context.send res ctx').
Proof.
  intros Hrel Hres. apply release_sent in Hrel as (Hid & Hs & Hq).
  split; [done|]. split; [done|]. by apply sent_to_then_send.
Qed.

Lemma context_shift_sent slot ctx slot' ctx' :
  server_context.context_shift slot ctx = Some (slot', ctx') →
  server_slot.id_task slot' = server_slot.id_task slot
  ∧ server_context.slots ctx' = server_context.slots ctx
  ∧ sent_to (λ t, t = server_slot.id_task slot) ctx ctx'.
Proof.
  intros H. unfold server_context.context_shift in H. cbv zeta in H.
  case_decide; [|quiet_step].
  match type of H with
  | (if ?b then _ else _) = _ => destruct b
  end; [|quiet_step].
  match type of H with
  | (if ?b then _ else _) = _ => destruct b
  end.
  - destruct (server_context.release_slot slot ctx) as [s c] eqn:Hrel.
    simplify_eq. eapply release_and_send; [done|].
    by apply release_sent in Hrel as (-> & _).
  - case_decide; [done|].
    apply bind_Some in H as (s1 & Hs1 & H). simplify_eq.
    destruct (slot_params.cache_prompt (server_slot.params slot)).
    + apply bind_Some in Hs1 as (cache & _ & Hs1). simplify_eq.
      quiet_step.
    + quiet_step.
Qed.

Lemma add_sampled_token_sent slot ctx slot' ctx' :
  server_context.add_sampled_token slot ctx = Some (slot', ctx') →
  server_slot.id_task slot' = server_slot.id_task slot
  ∧ server_context.slots ctx' = server_context.slots ctx
  ∧ sent_to (λ t, t = server_slot.id_task slot) ctx ctx'.
Proof.
  unfold server_context.add_sampled_token. intros H.
  case_decide; [quiet_step|].
  cbv zeta in H. simpl in H.
  destruct (slot_params.cache_prompt (server_slot.params slot)); simplify_eq.
  all: quiet_step.
Qed.

Lemma infill_tokens_results m slot ctx tokens ctx' :
  server_context.infill_tokens m slot ctx = Some (tokens, ctx') →
  server_context.queue_results ctx' = server_context.queue_results ctx.
Proof.
  unfold server_context.infill_tokens. intros H. cbv zeta in H.
  match type of H with
  | (let '(_, _) := ?x in _) = _ =>
      assert (server_context.queue_results x.2 = server_context.queue_results ctx)
        as Hsame; [|destruct x as [b c]]
  end.
  { clear H. by repeat case_match. }
  destr_head. done.
Qed.

Lemma assemble_prompt_results m slot ctx tokens ctx' :
  server_context.assemble_prompt m slot ctx = Some (inr (tokens, ctx')) →
  server_context.queue_results ctx' = server_context.queue_results ctx.
Proof.
  unfold server_context.assemble_prompt. intros H.
  destr_head.
  all: try match goal with
       | Hi : server_context.infill_tokens _ _ _ = Some _ |- _ =>
           apply infill_tokens_results in Hi
       end.
  all: done.
Qed.

Lemma check_prompt_sent n_ubatch slot ctx r :
  server_context.check_prompt n_ubatch slot ctx = Some r →
  match r with
  | inl (s, c) | inr (s, c) =>
      server_slot.id_task s = server_slot.id_task slot
      ∧ server_context.slots c = server_context.slots ctx
      ∧ sent_to (λ t, t = server_slot.id_task slot) ctx c
  end.
Proof.
  intros H. unfold server_context.check_prompt in H. cbv zeta in H.
  destruct (server_context.is_embedding slot).
  - case_decide; [|quiet_step].
    destruct (server_context.release_slot slot ctx) as [s c] eqn:Hrel.
    simplify_eq. eapply release_and_send; [done|].
    by apply release_sent in Hrel as (-> & _).
  - match type of H with
    | (if ?b then _ else _) = _ => destruct b
    end.
    + destruct (server_context.release_slot slot ctx) as [s c] eqn:Hrel.
      simplify_eq. eapply release_and_send; [done|].
      by apply release_sent in Hrel as (-> & _).
    + apply bind_Some in H as (s1 & H1 & H).
      apply bind_Some in H as (s2 & H2 & H). simplify_eq.
      apply truncate_prompt_same in H1 as (_ & Hid1 & _).
      apply reuse_cache_same in H2 as (_ & Hid2 & _).
      split; [by rewrite Hid2, Hid1|]. by split; [|apply sent_to_same].
Qed.

Lemma tokenize_prompt_sent m n_ubatch slot ctx r :
  server_context.tokenize_prompt m n_ubatch slot ctx = Some r →
  match r with
  | inl (s, c) | inr (s, c) =>
      server_slot.id_task s = server_slot.id_task slot
      ∧ server_context.slots c = server_context.slots ctx
      ∧ sent_to (λ t, t = server_slot.id_task slot) ctx c
  end.
Proof.
  intros H. unfold server_context.tokenize_prompt in H.
  apply bind_Some in H as (assembled & Ha & H).
  destruct assembled as [[]|[tokens c0]].
  - destruct (server_context.release_slot slot ctx) as [s c] eqn:Hrel.
    simplify_eq. eapply release_and_send; [done|].
    by apply release_sent in Hrel as (-> & _).
  - pose proof (assemble_prompt_results _ _ _ _ _ Ha) as Hr0.
    apply assemble_prompt_same in Ha as [Hs0 _].
    cbv zeta in H. case_decide.
    + match type of H with
      | context [server_context.release_slot ?s ?c] =>
          destruct (server_context.release_slot s c) as [s1 c1] eqn:Hrel
      end.
      apply release_sent in Hrel as (Hid & Hs & Hq). simplify_eq. simpl in *.
      split; [done|]. split; [congruence|].
      apply sent_to_then_send; [done|congruence].
    + apply bind_Some in H as (checked & Hc & H).
      apply check_prompt_sent in Hc.
      destruct checked as [[s c]|[s c]]; simplify_eq; simpl in *.
      * destruct Hc as (Hid & Hs & Hsent). split; [done|]. split; [congruence|].
        eapply sent_to_trans; [by apply sent_to_same|exact Hsent].
      * destruct Hc as (Hid & Hs & Hsent).
        destruct (leave_one_token_same s) as (_ & Hid1 & _).
        split; [congruence|]. split; [congruence|].
        eapply sent_to_trans; [by apply sent_to_same|exact Hsent].
Qed.

Lemma add_prompt_tokens_sent fuel n_batch slot_npast ga_i_ slot ctx slot' ctx' :
  server_context.add_prompt_tokens fuel n_batch slot_npast ga_i_ slot ctx
  = Some (slot', ctx') →
  server_slot.id_task slot' = server_slot.id_task slot
  ∧ server_context.slots ctx' = server_context.slots ctx
  ∧ server_context.queue_results ctx' = server_context.queue_results ctx.
Proof.
  revert slot_npast ga_i_ slot ctx.
  induction fuel as [|fuel IH]; intros slot_npast ga_i_ slot ctx H; simpl in H.
  - case_decide; [done|]. by simplify_eq.
  - case_decide; [|by simplify_eq].
    apply bind_Some in H as ([npast1 ga1] & _ & H).
    apply bind_Some in H as (token & _ & H).
    apply IH in H as (Hid & Hs & Hq). rewrite Hid, Hs, Hq. simpl.
    by destruct (slot_params.cache_prompt (server_slot.params slot)).
Qed.

Lemma keep_common_part_sent o slot ctx :
  server_slot.id_task (server_context.keep_common_part o slot ctx).1
  = server_slot.id_task slot
  ∧ server_context.slots (server_context.keep_common_part o slot ctx).2
    = server_context.slots ctx
  ∧ server_context.queue_results (server_context.keep_common_part o slot ctx).2
    = server_context.queue_results ctx.
Proof.
  unfold server_context.keep_common_part. cbv zeta. by repeat case_match.
Qed.

Lemma admit_prompt_sent o n_batch slot ctx slot' ctx' :
  server_context.admit_prompt o n_batch slot ctx = Some (slot', ctx') →
  server_slot.id_task slot' = server_slot.id_task slot
  ∧ server_context.slots ctx' = server_context.slots ctx
  ∧ server_context.queue_results ctx' = server_context.queue_results ctx.
Proof.
  intros H. unfold server_context.admit_prompt in H.
  destruct (keep_common_part_sent o slot ctx) as (Hid1 & Hs1 & Hq1).
  destruct (server_context.keep_common_part o slot ctx) as [s1 c1]. simpl in *.
  apply bind_Some in H as (cache & _ & H). cbv zeta in H.
  apply bind_Some in H as ([s2 c2] & Htokens & H).
  apply add_prompt_tokens_sent in Htokens as (Hid2 & Hs2 & Hq2). simpl in *.
  repeat case_decide; simplify_eq/=; repeat split; congruence.
Qed.

Lemma add_prompt_sent m o n_batch n_ubatch batch_type slot ctx l' slot' ctx' go_on :
  server_context.add_prompt m o n_batch n_ubatch batch_type slot ctx
  = Some (l', slot', ctx', go_on) →
  server_slot.id_task slot' = server_slot.id_task slot
  ∧ server_context.slots ctx' = server_context.slots ctx
  ∧ sent_to (λ t, t = server_slot.id_task slot) ctx ctx'.
Proof.
  intros H. unfold server_context.add_prompt in H. cbv zeta in H.
  case_decide as Hst; [|quiet_step].
  apply bind_Some in H as (tokenized & Htok & H).
  assert (match tokenized with
          | inl (s, c) | inr (s, c) =>
              server_slot.id_task s = server_slot.id_task slot
              ∧ server_context.slots c = server_context.slots ctx
              ∧ sent_to (λ t, t = server_slot.id_task slot) ctx c
          end) as Hr.
  { destruct (decide (server_slot.prompt_tokens slot = [])).
    - exact (tokenize_prompt_sent m n_ubatch slot ctx tokenized Htok).
    - quiet_step. }
  clear Htok. destruct tokenized as [[s c]|[s c]]; [by simplify_eq|].
  destruct Hr as (Hid & Hs & Hsent).
  match type of H with
  | (if ?b then _ else _) = _ => destruct b
  end; [by simplify_eq|].
  case_decide; [by simplify_eq|].
  apply bind_Some in H as ([s2 c2] & Hadmit & H). simplify_eq.
  apply admit_prompt_sent in Hadmit as (Hid2 & Hs2 & Hq2).
  split; [congruence|]. split; [congruence|].
  eapply sent_to_trans; [exact Hsent|by apply sent_to_same].
Qed.

Lemma foldl_kv_results calls ctx :
  server_context.slots (foldl (λ ctx j, server_context.kv j ctx) ctx calls)
  = server_context.slots ctx
  ∧ server_context.queue_results (foldl (λ ctx j, server_context.kv j ctx) ctx calls)
    = server_context.queue_results ctx.
Proof.
  revert ctx. induction calls as [|j calls IH]; intros ctx; simpl; [done|].
  destruct (IH (server_context.kv j ctx)) as [-> ->]. done.
Qed.

Lemma self_extend_while_sent fuel slot ctx slot' ctx' :
  server_context.self_extend_while fuel slot ctx = Some (slot', ctx') →
  server_slot.id_task slot' = server_slot.id_task slot
  ∧ server_context.slots ctx' = server_context.slots ctx
  ∧ server_context.queue_results ctx' = server_context.queue_results ctx.
Proof.
  revert slot ctx. induction fuel as [|fuel IH]; intros slot ctx H; simpl in H.
  - case_decide; [done|]. by simplify_eq.
  - case_decide; [|by simplify_eq].
    apply IH in H as (Hid & Hs & Hq). rewrite Hid, Hs, Hq. simpl.
    split; [done|]. split; reflexivity.
Qed.

Lemma self_extend_sent n_tokens_ slot ctx slot' ctx' :
  server_context.self_extend n_tokens_ slot ctx = Some (slot', ctx') →
  server_slot.id_task slot' = server_slot.id_task slot
  ∧ server_context.slots ctx' = server_context.slots ctx
  ∧ sent_to (λ t, t = server_slot.id_task slot) ctx ctx'.
Proof.
  unfold server_context.self_extend. intros H.
  case_decide; [|quiet_step].
  apply bind_Some in H as ([s c] & Hw & H). simplify_eq.
  apply self_extend_while_sent in Hw as (Hid & Hs & Hq).
  split; [done|]. split; [done|]. by apply sent_to_same.
Qed.

Lemma process_token_text_sends m result slot ctx :
  let r := server_context.process_token_text m result slot ctx in
  r.2 = ctx ∨ ∃ tkn, r.2 = server_context.send_partial_response r.1 tkn ctx.
Proof.
  unfold server_context.process_token_text.
  repeat (case_match; simplify_eq/=); eauto.
Qed.

Lemma process_token_sent m result slot ctx go_on slot' ctx' :
  server_context.process_token m result slot ctx = (go_on, slot', ctx') →
  server_slot.id_task slot' = server_slot.id_task slot
  ∧ server_context.slots ctx' = server_context.slots ctx
  ∧ sent_to (λ t, t = server_slot.id_task slot) ctx ctx'.
Proof.
  intros H. pose proof H as Hok.
  apply process_token_ok in Hok as [(_ & Hid & _) [Hs _]].
  split; [done|]. split; [done|].
  unfold server_context.process_token in H.
  pose proof (process_token_text_same m result slot ctx) as ((_ & Hid1 & _) & _).
  destruct (process_token_text_sends m result slot ctx) as [Hc|[tkn Hc]].
  all: destruct (server_context.process_token_text m result slot ctx) as [s c].
  all: simpl in *; simplify_eq.
  - by apply sent_to_same.
  - by apply sent_to_send.
Qed.

Lemma release_and_send_final_sent slot ctx slot' ctx' :
  server_context.release_and_send_final slot ctx = (slot', ctx') →
  server_slot.id_task slot' = server_slot.id_task slot
  ∧ server_context.slots ctx' = server_context.slots ctx
  ∧ sent_to (λ t, t = server_slot.id_task slot) ctx ctx'.
Proof.
  unfold server_context.release_and_send_final. intros H.
  destruct (server_context.release_slot slot ctx) as [s c] eqn:Hrel.
  simplify_eq. eapply release_and_send; [done|].
  by apply release_sent in Hrel as (-> & _).
Qed.

Lemma process_accepted_sent m ids slot ctx slot' ctx' :
  server_context.process_accepted m ids slot ctx = (slot', ctx') →
  server_slot.id_task slot' = server_slot.id_task slot
  ∧ server_context.slots ctx' = server_context.slots ctx
  ∧ sent_to (λ t, t = server_slot.id_task slot) ctx ctx'.
Proof.
  revert slot ctx. induction ids as [|id_ ids IH]; intros slot ctx H; simpl in H.
  - quiet_step.
  - destruct (server_context.process_token m _ slot ctx) as [[go_on s] c] eqn:Hp.
    apply process_token_sent in Hp as (Hid & Hs & Hsent).
    assert (server_slot.id_task slot' = server_slot.id_task s
            ∧ server_context.slots ctx' = server_context.slots c
            ∧ sent_to (λ t, t = server_slot.id_task s) c ctx') as (Hid2 & Hs2 & Hsent2).
    { destruct go_on; [by apply IH|by apply release_and_send_final_sent]. }
    split; [congruence|]. split; [congruence|].
    eapply sent_to_trans; [exact Hsent|]. by rewrite <- Hid.
Qed.

Lemma sample_slot_sent m o i n_tokens_ slot ctx slot' ctx' :
  server_context.sample_slot m o i n_tokens_ slot ctx = Some (slot', ctx') →
  server_slot.id_task slot' = server_slot.id_task slot
  ∧ server_context.slots ctx' = server_context.slots ctx
  ∧ sent_to (λ t, t = server_slot.id_task slot) ctx ctx'.
Proof.
  intros H. unfold server_context.sample_slot in H.
  case_decide; [quiet_step|]. cbv zeta in H.
  match type of H with
  | match ?a with _ => _ end = _ =>
      assert (match a with
              | inl (s, c) =>
                  server_slot.id_task s = server_slot.id_task slot
                  ∧ server_context.slots c = server_context.slots ctx
                  ∧ sent_to (λ t, t = server_slot.id_task slot) ctx c
              | inr s => server_slot.id_task s = server_slot.id_task slot
              end) as Ha; [|destruct a as [[s c]|s]]
  end.
  { clear H. case_decide.
    - case_decide; [|case_decide; [|done]].
      + destruct (server_context.release_slot slot _) as [s c] eqn:Hrel.
        apply release_sent in Hrel as (Hid & Hs & Hq). simpl.
        split; [done|]. split; [done|].
        apply (sent_to_trans _ _ (server_context.send_embedding slot ctx));
          [by apply sent_to_send|by apply sent_to_same].
      + destruct (server_context.release_slot slot _) as [s c] eqn:Hrel.
        apply release_sent in Hrel as (Hid & Hs & Hq). simpl.
        split; [done|]. split; [done|].
        apply (sent_to_trans _ _ (server_context.send_rerank slot ctx));
          [by apply sent_to_send|by apply sent_to_same].
    - case_decide; [quiet_step|done]. }
  { by simplify_eq. }
  destruct (server_context.process_token m _ _ ctx) as [[go_on s1] c1] eqn:Hp.
  apply process_token_sent in Hp as (Hid1 & Hs1 & Hsent1). simpl in Hid1, Hsent1.
  rewrite Ha in Hid1, Hsent1.
  destruct go_on; simpl in H.
  2:{ simplify_eq. apply release_and_send_final_sent in H as (Hid2 & Hs2 & Hsent2).
      split; [congruence|]. split; [congruence|].
      eapply sent_to_trans; [exact Hsent1|]. by rewrite <- Hid1. }
  destruct (server_slot.can_speculate s1); simpl in H; [|by simplify_eq].
  case_decide; [by simplify_eq|].
  apply bind_Some in H as (s2 & Hcommit & H). simplify_eq.
  unfold server_context.speculative_commit in Hcommit. cbv zeta in Hcommit.
  case_decide; simplify_eq.
  apply process_accepted_sent in H as (Hid2 & Hs2 & Hsent2). simpl in *.
  split; [congruence|]. split; [congruence|].
  eapply sent_to_trans; [exact Hsent1|].
  eapply sent_to_trans; [|rewrite <- Hid1; exact Hsent2]. by apply sent_to_same.
Qed.

Lemma decode_batch_sent m o (T : Z → Prop) fuel k i n_batch ctx ctx' :
  (∀ t, t ∈ slot_tasks ctx → T t) →
  server_context.decode_batch m o fuel k i n_batch ctx = Some ctx' →
  sent_to T ctx ctx' ∧ slot_tasks ctx' = slot_tasks ctx.
Proof.
  revert k i n_batch ctx.
  induction fuel as [|fuel IH]; intros k i n_batch ctx HT H; simpl in H.
  - case_decide; [done|]. simplify_eq. split; [by apply sent_to_same|done].
  - case_decide; [|simplify_eq; split; [by apply sent_to_same|done]].
    apply bind_Some in H as (ctx1 & Hext & H).
    eapply for_slots_sent in Hext as [Hsent1 Htasks1];
      [|intros ????; apply self_extend_sent|exact HT].
    assert (sent_to T ctx1 ctx' ∧ slot_tasks ctx' = slot_tasks ctx1) as [Hsent2 Htasks2].
    { assert (∀ t, t ∈ slot_tasks ctx1 → T t) as HT1
        by (intros t Ht; apply HT; by rewrite <- Htasks1).
      case_decide.
      - case_decide.
        + eapply for_slots_sent; [|exact HT1|exact H].
          intros slot c slot' c' Hb. cbv beta in Hb.
          destruct (server_context.release_slot slot c) as [s1 c1] eqn:Hrel.
          simplify_eq. eapply release_and_send; [done|].
          by apply release_sent in Hrel as (-> & _).
        + by eapply IH.
      - apply bind_Some in H as (ctx2 & Hsample & H).
        eapply for_slots_sent in Hsample as [Hsent2 Htasks2];
          [|intros ????; apply sample_slot_sent|exact HT1].
        apply IH in H as [Hsent3 Htasks3];
          [|intros t Ht; apply HT1; by rewrite <- Htasks2].
        split; [by eapply sent_to_trans|by rewrite Htasks3]. }
    split; [by eapply sent_to_trans|by rewrite Htasks2].
Qed.

Lemma system_prompt_decode_results m o fuel k i ctx decoded ctx' :
  server_context.system_prompt_decode m o fuel k i ctx = Some (decoded, ctx') →
  server_context.queue_results ctx' = server_context.queue_results ctx.
Proof.
  revert k i ctx. induction fuel as [|fuel IH]; intros k i ctx H; simpl in H.
  - case_decide; [done|]. by simplify_eq.
  - case_decide; [|by simplify_eq].
    case_decide; [by simplify_eq|].
    apply IH in H. by rewrite H.
Qed.

Lemma foldl_results {A} (f : server_context.t → A → server_context.t) l ctx :
  (∀ c a, server_context.queue_results (f c a) = server_context.queue_results c) →
  server_context.queue_results (foldl f ctx l) = server_context.queue_results ctx.
Proof.
  intros Hf. revert ctx. induction l as [|a l IH]; intros ctx; simpl; [done|].
  by rewrite IH.
Qed.

Lemma system_prompt_update_results m o ctx ctx' :
  server_context.system_prompt_update m o ctx = Some ctx' →
  server_context.queue_results ctx' = server_context.queue_results ctx.
Proof.
  unfold server_context.system_prompt_update. cbv zeta. intros H.
  case_bool_decide; [|by simplify_eq].
  apply bind_Some in H as ([decoded c] & Hd & H).
  apply system_prompt_decode_results in Hd. simpl in Hd.
  destruct decoded; simplify_eq; [|done]. simpl. rewrite <- Hd.
  by apply foldl_results.
Qed.

(** the tasks of the slots are those of an earlier context *)
Ltac tasks_kept :=
  unfold slot_tasks in *; simpl in *; intros; congruence.

Lemma update_slots_sent m o ctx ctx' :
  server_context.update_slots m o ctx = Some ctx' →
  sent_to (λ t, t ∈ slot_tasks ctx) ctx ctx'.
Proof.
  intros H. unfold server_context.update_slots in H.
  apply bind_Some in H as (ctx1 & Hsys & H).
  assert (server_context.slots ctx1 = server_context.slots ctx
          ∧ server_context.queue_results ctx1 = server_context.queue_results ctx)
    as [Hs1 Hq1].
  { destruct (server_context.system_need_update ctx); [|by simplify_eq].
    split; [by apply system_prompt_update_same in Hsys as [? _]|].
    by apply system_prompt_update_results in Hsys. }
  clear Hsys.
  assert (slot_tasks ctx1 = slot_tasks ctx) as Htasks1
    by (unfold slot_tasks; by rewrite Hs1).
  eapply sent_to_trans; [by apply sent_to_same|]. rewrite <- Htasks1.
  clear Hs1 Hq1 Htasks1 ctx.
  match type of H with
  | (if ?b then _ else _) = _ => destruct b
  end.
  { simplify_eq. apply sent_to_same. by case_match. }
  apply bind_Some in H as ([i q] & _ & H). cbv zeta in H.
  apply bind_Some in H as (ctx2 & Hshift & H).
  eapply (for_slots_sent (λ t, t ∈ slot_tasks ctx1)) in Hshift as [Hsent2 Htasks2];
    [|intros ????; apply context_shift_sent|done].
  apply bind_Some in H as (ctx3 & Hsampled & H).
  eapply (for_slots_sent (λ t, t ∈ slot_tasks ctx1)) in Hsampled as [Hsent3 Htasks3];
    [|intros ????; apply add_sampled_token_sent|by tasks_kept].
  apply bind_Some in H as (ctx4 & Hprompt & H).
  assert (sent_to (λ t, t ∈ slot_tasks ctx1) ctx3 ctx4
          ∧ slot_tasks ctx4 = slot_tasks ctx1) as [Hsent4 Htasks4].
  { match type of Hprompt with
    | (if ?b then _ else _) = _ => destruct b
    end.
    2:{ simplify_eq. split; [by apply sent_to_same|]. by tasks_kept. }
    apply fmap_Some in Hprompt as ([l c] & Hprompt & ->). simpl.
    eapply (for_slots_from_sent (λ t, t ∈ slot_tasks ctx1)) in Hprompt
      as [Hsent4 Htasks4].
    - split; [exact Hsent4|]. by tasks_kept.
    - intros ???????. apply add_prompt_sent.
    - by tasks_kept. }
  assert (sent_to (λ t, t ∈ slot_tasks ctx1) ctx1 ctx4) as Hsent.
  { eapply sent_to_trans; [by apply sent_to_same|].
    eapply sent_to_trans; [exact Hsent2|].
    eapply sent_to_trans; [|eapply sent_to_trans; [exact Hsent3|exact Hsent4]].
    by apply sent_to_same. }
  case_decide; [by simplify_eq|].
  eapply sent_to_trans; [exact Hsent|].
  eapply decode_batch_sent; [|exact H]. by tasks_kept.
Qed.

Lemma on_idle_slot_sent task action ctx ctx' :
  (∀ id_slot slot c slot' c',
     action id_slot slot c = Some (slot', c') →
     sent_to (λ t, t = server_task.id task) c c') →
  server_context.on_idle_slot task action ctx = Some ctx' →
  sent_to (λ t, t = server_task.id task) ctx ctx'.
Proof.
  unfold server_context.on_idle_slot. intros Haction H.
  apply bind_Some in H as (id_slot & _ & H).
  destruct (server_context.get_slot_by_id id_slot ctx) as [i|].
  2:{ simplify_eq. by apply sent_to_send. }
  apply bind_Some in H as (slot & Hi & H).
  destruct (server_slot.is_processing slot); [simplify_eq; by apply sent_to_same|].
  unfold server_context.with_slot in H.
  apply bind_Some in H as (slot1 & Hi1 & H).
  apply bind_Some in H as ([slot2 c2] & Hb & H). simplify_eq.
  eapply sent_to_trans; [by eapply Haction|by apply sent_to_same].
Qed.

Lemma process_single_task_sent m o task ctx ctx' :
  server_context.process_single_task m o task ctx = Some ctx' →
  sent_to (λ t, t = server_task.id task) ctx ctx'.
Proof.
  intros H. unfold server_context.process_single_task in H. cbv zeta in H.
  destruct (server_task.type task).
  - match type of H with
    | match ?f with _ => _ end = _ => destruct f as [i|]
    end; [|simplify_eq; by apply sent_to_same].
    apply bind_Some in H as (slot & Hi & H).
    destruct (server_slot.is_processing slot); [simplify_eq; by apply sent_to_same|].
    apply bind_Some in H as (ctx1 & Hsys & H).
    assert (server_context.queue_results ctx1 = server_context.queue_results ctx) as Hr1.
    { destruct (d_system_prompt (server_task.data task)) as [sys_prompt|];
        [|by simplify_eq].
      apply bind_Some in Hsys as (ctx0 & Hset & Hreset).
      apply system_prompt_set_results in Hset.
      eapply for_slots_results; [|exact Hset|exact Hreset].
      intros s c s' c' Hb. simpl in Hb. by simplify_eq. }
    clear Hsys. unfold server_context.with_slot in H.
    apply bind_Some in H as (slot1 & Hi1 & H).
    apply bind_Some in H as ([slot2 ctx2] & Hb & H). simplify_eq/=.
    apply bind_Some in Hb as ([[answer s2] c2] & Hlaunch & Hb). simplify_eq.
    apply launch_answer in Hlaunch as (_ & _ & _ & _ & Hout).
    eapply sent_to_trans; [by apply sent_to_same|].
    eapply sent_to_trans; [|by apply sent_to_same].
    destruct answer.
    + destruct Hout as (-> & _). by apply sent_to_same.
    + destruct Hout as (_ & msg & ->). by apply sent_to_send.
  - apply fmap_Some in H as ([l c] & H & ->). simpl. apply sent_to_same.
    unfold server_context.for_slots_with in H.
    eapply (for_slots_from_inv
              (λ c, server_context.queue_results c = server_context.queue_results ctx)
              (λ _, True)) in H as [H _]; [done|done| |done|by apply Forall_true].
    intros l0 slot c0 l1 slot' c1 go_on Hc _ _ Hb. cbv beta in Hb.
    split; [|split; [by apply Forall_true|done]].
    case_decide; [|by simplify_eq].
    destruct (server_context.release_slot slot c0) as [s1 c2] eqn:Hrel.
    apply release_sent in Hrel as (_ & _ & Hq). simplify_eq. congruence.
  - simplify_eq. by apply sent_to_same.
  - simplify_eq. by apply sent_to_send.
  - eapply on_idle_slot_sent; [|exact H].
    intros id_slot slot c slot' c' Ha.
    unfold server_context.slot_save in Ha. simpl in Ha. simplify_eq.
    by apply sent_to_send.
  - eapply on_idle_slot_sent; [|exact H].
    intros id_slot slot c slot' c' Ha.
    unfold server_context.slot_restore in Ha. cbv beta zeta in Ha.
    destr_head; by apply sent_to_send.
  - eapply on_idle_slot_sent; [|exact H].
    intros id_slot slot c slot' c' Ha.
    unfold server_context.slot_erase in Ha. simpl in Ha. simplify_eq.
    eapply sent_to_trans; [|by apply sent_to_send]. by apply sent_to_same.
  - simplify_eq. by apply sent_to_send.
Qed.

(** X17: whom an iteration of the scheduler answers.  A call of
    [update_slots] changes nothing in the set of the waiting ids and takes
    no result away; every result it adds carries the [id_task] that one of
    the slots had at the start of the call, and that id was waited for. *)
Theorem update_slots_answers_slot_tasks (m : llama_model) (o : oracle)
    (ctx ctx' : server_context.t) :
  server_context.update_slots m o ctx = Some ctx' →
  let r := server_context.queue_results ctx in
  let r' := server_context.queue_results ctx' in
  server_response.waiting_task_ids r' = server_response.waiting_task_ids r
  ∧ ∃ new,
      server_response.queue_results r' = server_response.queue_results r ++ new
      ∧ ∀ res, res ∈ new →
          (∃ slot, slot ∈ server_context.slots ctx
                   ∧ server_task_result.id res = server_slot.id_task slot)
          ∧ server_task_result.id res ∈ server_response.waiting_task_ids r.
Proof.
  intros H. apply update_slots_sent in H as (Hw & new & Hq & Hall).
  split; [done|]. exists new. split; [done|].
  intros res Hres. rewrite Forall_forall in Hall.
  destruct (Hall res Hres) as [Ht Hwait]. split; [|done].
  unfold slot_tasks in Ht. apply list_elem_of_fmap in Ht as (slot & ? & ?). eauto.
Qed.

Lemma update_slots_answers_slot_tasks_witness :
  ∃ ctx0 ctx ctx',
    start example_model example_oracle example_params = Some ctx0
    ∧ run example_model last_token_run ctx0 = Some ctx
    ∧ server_context.update_slots example_model example_oracle ctx = Some ctx'
    ∧ length (server_response.queue_results (server_context.queue_results ctx')) = 1%nat
    ∧ server_response.waiting_task_ids (server_context.queue_results ctx')
      = server_response.waiting_task_ids (server_context.queue_results ctx)
    ∧ ∃ new,
        server_response.queue_results (server_context.queue_results ctx')
        = server_response.queue_results (server_context.queue_results ctx) ++ new
        ∧ ∀ res, res ∈ new →
            (∃ slot, slot ∈ server_context.slots ctx
                     ∧ server_task_result.id res = server_slot.id_task slot)
            ∧ server_task_result.id res
              ∈ server_response.waiting_task_ids (server_context.queue_results ctx).
Proof.
  destruct (start example_model example_oracle example_params) as [ctx0|] eqn:Hstart;
    [|by vm_compute in Hstart].
  destruct (run example_model last_token_run ctx0) as [ctx|] eqn:Hrun.
  2:{ vm_compute in Hstart. injection Hstart as <-. by vm_compute in Hrun. }
  destruct (server_context.update_slots example_model example_oracle ctx)
    as [ctx'|] eqn:Hupd.
  2:{ vm_compute in Hstart. injection Hstart as <-.
      vm_compute in Hrun. injection Hrun as <-. by vm_compute in Hupd. }
  exists ctx0, ctx, ctx'. split; [done|]. split; [done|]. split; [done|].
  split; [|exact (update_slots_answers_slot_tasks example_model example_oracle ctx ctx' Hupd)].
  vm_compute in Hstart. injection Hstart as <-.
  vm_compute in Hrun. injection Hrun as <-.
  vm_compute in Hupd. by injection Hupd as <-.
Defined.

(** X18: whom a task is answered to.  Whatever its type,
    [process_single_task] changes nothing in the set of the waiting ids and
    takes no result away; every result it adds carries the id of the task
    itself, and that id was waited for. *)
Theorem process_single_task_answers_task (m : llama_model) (o : oracle)
    (task : server_task.t) (ctx ctx' : server_context.t) :
  server_context.process_single_task m o task ctx = Some ctx' →
  let r := server_context.queue_results ctx in
  let r' := server_context.queue_results ctx' in
  server_response.waiting_task_ids r' = server_response.waiting_task_ids r
  ∧ ∃ new,
      server_response.queue_results r' = server_response.queue_results r ++ new
      ∧ ∀ res, res ∈ new →
          server_task_result.id res = server_task.id task
          ∧ server_task.id task ∈ server_response.waiting_task_ids r.
Proof.
  intros H. apply process_single_task_sent in H as (Hw & new & Hq & Hall).
  split; [done|]. exists new. split; [done|].
  intros res Hres. rewrite Forall_forall in Hall.
  destruct (Hall res Hres) as [Ht Hwait]. split; [done|]. by rewrite <- Ht.
Qed.

Lemma process_single_task_answers_task_witness :
  let task := restore_request <| server_task.id := 4 |> in
  ∃ ctx0 ctx',
    start example_model example_oracle example_params = Some ctx0
    ∧ let ctx := ctx0 <| server_context.queue_results :=
                          server_response.add_waiting_task_id 4 server_response.empty |> in
      server_context.process_single_task example_model example_oracle task ctx = Some ctx'
      ∧ length (server_response.queue_results (server_context.queue_results ctx')) = 1%nat
      ∧ server_response.waiting_task_ids (server_context.queue_results ctx')
        = server_response.waiting_task_ids (server_context.queue_results ctx)
      ∧ ∃ new,
          server_response.queue_results (server_context.queue_results ctx')
          = server_response.queue_results (server_context.queue_results ctx) ++ new
          ∧ ∀ res, res ∈ new →
              server_task_result.id res = server_task.id task
              ∧ server_task.id task
                ∈ server_response.waiting_task_ids (server_context.queue_results ctx).
Proof.
  intros task.
  destruct (start example_model example_oracle example_params) as [ctx0|] eqn:Hstart;
    [|by vm_compute in Hstart].
  set (ctx := ctx0 <| server_context.queue_results :=
                        server_response.add_waiting_task_id 4 server_response.empty |>).
  destruct (server_context.process_single_task example_model example_oracle task ctx)
    as [ctx'|] eqn:Hp.
  2:{ vm_compute in Hstart. injection Hstart as <-. by vm_compute in Hp. }
  exists ctx0, ctx'. split; [done|]. cbv zeta. fold ctx. split; [done|].
  split; [|exact (process_single_task_answers_task example_model example_oracle
                    task ctx ctx' Hp)].
  vm_compute in Hstart. injection Hstart as <-.
  vm_compute in Hp. by injection Hp as <-.
Defined.

(** ** The tasks of a request *)

Lemma ids_taken_0 ctx : ids_taken 0 ctx = ctx.
Proof.
  unfold ids_taken. destruct ctx as [? ? ? ? ? ? ? ? ? ? ? q ? ?]. simpl.
  f_equal. destruct q; simpl. f_equal. lia.
Qed.

Lemma ids_taken_S n ctx :
  ids_taken n (ids_taken 1 ctx) = ids_taken (S n) ctx.
Proof.
  unfold ids_taken. simpl. do 2 f_equal. lia.
Qed.

Lemma create_task_run cmpl_type_ data_ replace_prompt p tasks ctx tasks' ctx' :
  server_context.create_task cmpl_type_ data_ replace_prompt p tasks ctx
  = Some (tasks', ctx') →
  ctx' = ids_taken 1 ctx
  ∧ tasks' = tasks
             ++ [ {| server_task.id := server_queue.id (server_context.queue_tasks ctx);
                     server_task.id_target := -1;
                     server_task.cmpl_type := cmpl_type_;
                     server_task.type := SERVER_TASK_TYPE_COMPLETION;
                     server_task.data :=
                       if replace_prompt then server_context.with_prompt p data_
                       else data_ |} ].
Proof.
  unfold server_context.create_task, server_queue.get_new_id, server_queue.next_id.
  intros H. case_decide; [done|]. by simplify_eq/=.
Qed.

Lemma multi_prompt_tasks_run jn cmpl_type_ data_ i prompts tasks ctx r ctx' :
  server_context.multi_prompt_tasks jn cmpl_type_ data_ i prompts tasks ctx
  = Some (r, ctx') →
  let first := server_queue.id (server_context.queue_tasks ctx) in
  let ok e := is_string e || jn e in
  match r with
  | server_context.created tasks' =>
      Forall (λ e, ok e = true) prompts
      ∧ ctx' = ids_taken (length prompts) ctx
      ∧ tasks' = tasks
                 ++ imap (λ k e,
                            {| server_task.id := first + Z.of_nat k;
                               server_task.id_target := -1;
                               server_task.cmpl_type := cmpl_type_;
                               server_task.type := SERVER_TASK_TYPE_COMPLETION;
                               server_task.data :=
                                 server_context.with_prompt e
                                   (server_context.with_index (Z.of_nat (i + k)) data_) |})
                        prompts
  | server_context.prompt_error =>
      ∃ valid e rest,
        prompts = valid ++ e :: rest
        ∧ Forall (λ e, ok e = true) valid ∧ ok e = false
        ∧ ctx' = ids_taken (length valid) ctx
  end.
Proof.
  revert data_ i tasks ctx.
  induction prompts as [|e prompts IH]; intros data_ i tasks ctx H; simpl in H.
  { simplify_eq. cbv zeta. split; [done|]. by rewrite ids_taken_0, app_nil_r. }
  destruct (is_string e || jn e) eqn:He.
  2:{ simplify_eq. cbv zeta. exists [], e, prompts.
      split; [done|]. split; [done|]. split; [done|]. by rewrite ids_taken_0. }
  apply bind_Some in H as ([tasks1 ctx1] & Hc & H).
  apply create_task_run in Hc as [-> ->].
  apply IH in H. cbv zeta in *. destruct r as [|tasks'].
  - destruct H as (valid & e' & rest & -> & Hvalid & He' & ->).
    exists (e :: valid), e', rest. split; [done|]. split; [by constructor|].
    split; [done|]. simpl. by rewrite ids_taken_S.
  - destruct H as (Hall & -> & ->). split; [by constructor|].
    split; [by rewrite ids_taken_S|].
    rewrite <- app_assoc. f_equal. simpl. f_equal.
    + f_equal; [lia|]. by rewrite Nat.add_0_r.
    + apply imap_ext. intros k p _. simpl. f_equal; [lia|].
      unfold server_context.with_prompt, server_context.with_index. simpl.
      do 3 f_equal. lia.
Qed.

Lemma rerank_tasks_run cmpl_type_ data_ question i documents tasks ctx tasks' ctx' :
  server_context.rerank_tasks cmpl_type_ data_ question i documents tasks ctx
  = Some (tasks', ctx') →
  let first := server_queue.id (server_context.queue_tasks ctx) in
  ctx' = ids_taken (length documents) ctx
  ∧ tasks' = tasks
             ++ imap (λ k document,
                        {| server_task.id := first + Z.of_nat k;
                           server_task.id_target := -1;
                           server_task.cmpl_type := cmpl_type_;
                           server_task.type := SERVER_TASK_TYPE_COMPLETION;
                           server_task.data :=
                             server_context.with_prompt (JArray [question; document])
                               (server_context.with_index (Z.of_nat (i + k) - 1) data_) |})
                    documents.
Proof.
  revert data_ i tasks ctx.
  induction documents as [|document documents IH]; intros data_ i tasks ctx H; simpl in H.
  { simplify_eq. cbv zeta. by rewrite ids_taken_0, app_nil_r. }
  apply bind_Some in H as ([tasks1 ctx1] & Hc & H).
  apply create_task_run in Hc as [-> ->].
  apply IH in H. cbv zeta in *. destruct H as (-> & ->).
  split; [by rewrite ids_taken_S|].
  rewrite <- app_assoc. f_equal. simpl. f_equal.
  - f_equal; [lia|]. by rewrite Nat.add_0_r.
  - apply imap_ext. intros k p _. simpl. f_equal; [lia|].
    unfold server_context.with_prompt, server_context.with_index. simpl.
    do 3 f_equal. lia.
Qed.

Lemma create_tasks_cmpl_run jn data_ cmpl_type_ ctx r ctx' :
  server_context.create_tasks_cmpl jn data_ cmpl_type_ ctx = Some (r, ctx') →
  let first := server_queue.id (server_context.queue_tasks ctx) in
  let ok e := is_string e || jn e in
  match d_prompt data_ with
  | None => r = server_context.prompt_error ∧ ctx' = ctx
  | Some prompt_ =>
      if ok prompt_ then
        r = server_context.created [created_task cmpl_type_ data_ first 0 prompt_]
        ∧ ctx' = ids_taken 1 ctx
      else
        match prompt_ with
        | JArray prompts =>
            if decide (cmpl_type_ = SERVER_TASK_CMPL_TYPE_RERANK) then
              r = server_context.created
                    (imap (λ k document,
                             created_task cmpl_type_ data_ first k
                               (JArray (take 1 prompts ++ [document])))
                          (drop 1 prompts))
              ∧ ctx' = ids_taken (length (drop 1 prompts)) ctx
            else
              match r with
              | server_context.created tasks =>
                  Forall (λ e, ok e = true) prompts
                  ∧ tasks = imap (created_task cmpl_type_ data_ first) prompts
                  ∧ ctx' = ids_taken (length prompts) ctx
              | server_context.prompt_error =>
                  ∃ valid e rest,
                    prompts = valid ++ e :: rest
                    ∧ Forall (λ e, ok e = true) valid ∧ ok e = false
                    ∧ ctx' = ids_taken (length valid) ctx
              end
        | _ => r = server_context.prompt_error ∧ ctx' = ctx
        end
  end.
Proof.
  intros H. cbv zeta. unfold server_context.create_tasks_cmpl in H.
  destruct (d_prompt data_) as [prompt_|] eqn:Hprompt; [|by simplify_eq].
  destruct (is_string prompt_ || jn prompt_) eqn:Hok.
  { apply bind_Some in H as ([tasks1 ctx1] & Hc & H).
    apply create_task_run in Hc as [-> ->]. simplify_eq. split; [|done].
    assert (server_context.with_prompt prompt_ (server_context.with_index 0 data_)
            = server_context.with_index 0 data_) as Hd.
    { unfold server_context.with_prompt, server_context.with_index. simpl.
      by rewrite Hprompt. }
    unfold created_task. change (Z.of_nat 0) with 0. by rewrite Hd, Z.add_0_r. }
  destruct prompt_ as [| | | | |prompts|]; try by simplify_eq.
  case_decide as Hrerank.
  - destruct prompts as [|question documents]; simpl.
    { simplify_eq. by rewrite ids_taken_0. }
    apply bind_Some in H as ([tasks1 ctx1] & Hr & H). simplify_eq.
    apply rerank_tasks_run in Hr as [-> ->]. rewrite drop_0. split; [|done].
    f_equal. simpl. apply imap_ext. intros k p _. unfold created_task. simpl.
    do 3 f_equal. lia.
  - apply multi_prompt_tasks_run in H. cbv zeta in H. destruct r as [|tasks]; [done|].
    destruct H as (Hall & -> & ->). split; [done|]. split; [|done]. simpl.
    apply imap_ext. intros k p _. done.
Qed.

Lemma imap_lookup_Some {A B} (f : nat → A → B) (l : list A) (k : nat) (y : B) :
  imap f l !! k = Some y → ∃ x, l !! k = Some x ∧ y = f k x.
Proof.
  rewrite list_lookup_imap. destruct (l !! k) as [x|]; simpl; [|done].
  intros ?. simplify_eq. eauto.
Qed.

Lemma create_tasks_cmpl_ids_taken jn data_ cmpl_type_ ctx tasks ctx' :
  server_context.create_tasks_cmpl jn data_ cmpl_type_ ctx
  = Some (server_context.created tasks, ctx') →
  ctx' = ids_taken (length tasks) ctx.
Proof.
  intros H. apply create_tasks_cmpl_run in H. cbv zeta in H.
  destruct (d_prompt data_) as [prompt_|]; [|by destruct H].
  destruct (is_string prompt_ || jn prompt_).
  { destruct H as [? ->]. by simplify_eq. }
  destruct prompt_ as [| | | | |prompts|]; try by destruct H.
  case_decide.
  - destruct H as [? ->]. simplify_eq. by rewrite length_imap.
  - destruct H as (_ & -> & ->). by rewrite length_imap.
Qed.

Lemma create_tasks_cmpl_created jn data_ cmpl_type_ ctx tasks ctx' :
  server_context.create_tasks_cmpl jn data_ cmpl_type_ ctx
  = Some (server_context.created tasks, ctx') →
  ∀ (k : nat) task,
    tasks !! k = Some task →
    ∃ p, task = created_task cmpl_type_ data_
                  (server_queue.id (server_context.queue_tasks ctx)) k p.
Proof.
  intros H. apply create_tasks_cmpl_run in H. cbv zeta in H.
  destruct (d_prompt data_) as [prompt_|]; [|by destruct H].
  destruct (is_string prompt_ || jn prompt_).
  { destruct H as [? ->]. simplify_eq.
    intros [|k] task Hk; simplify_eq/=. eauto. }
  destruct prompt_ as [| | | | |prompts|]; try by destruct H.
  case_decide.
  - destruct H as [? ->]. simplify_eq.
    intros k task Hk. apply imap_lookup_Some in Hk as (document & _ & ->). eauto.
  - destruct H as (_ & -> & ->).
    intros k task Hk. apply imap_lookup_Some in Hk as (e & _ & ->). eauto.
Qed.

Lemma created_ids cmpl_type_ data_ first (tasks : list server_task.t) :
  (∀ (k : nat) task,
     tasks !! k = Some task → ∃ p, task = created_task cmpl_type_ data_ first k p) →
  server_task.id <$> tasks = (λ k : nat, first + Z.of_nat k) <$> seq 0 (length tasks).
Proof.
  intros Htasks. apply list_eq. intros k. rewrite !list_lookup_fmap.
  destruct (tasks !! k) as [task|] eqn:Hk; simpl.
  - pose proof (lookup_lt_Some _ _ _ Hk) as Hlt.
    rewrite lookup_seq_lt by done. simpl.
    destruct (Htasks k task Hk) as [p ->]. done.
  - apply lookup_ge_None in Hk. by rewrite lookup_seq_ge.
Qed.

(** X19: the tasks of one request.  The tasks that [create_tasks_cmpl]
    returns take their ids from the counter of the task queue, one after
    the other, and the counter has moved on by their number; nothing else
    of the server has changed.  The [k]-th task is a completion task of the
    requested kind whose data are the data of the request with a prompt of
    its own and with [k] as "index". *)
Theorem create_tasks_cmpl_tasks (json_is_array_of_numbers : json → bool)
    (data_ : task_data) (cmpl_type_ : server_task_cmpl_type)
    (ctx ctx' : server_context.t) (tasks : list server_task.t) :
  server_context.create_tasks_cmpl json_is_array_of_numbers data_ cmpl_type_ ctx
  = Some (server_context.created tasks, ctx') →
  ctx' = ids_taken (length tasks) ctx
  ∧ ∀ (k : nat) task,
      tasks !! k = Some task →
      ∃ p, task = created_task cmpl_type_ data_
                    (server_queue.id (server_context.queue_tasks ctx)) k p.
Proof.
  intros H. split.
  - apply create_tasks_cmpl_run in H. cbv zeta in H.
    destruct (d_prompt data_) as [prompt_|]; [|by destruct H].
    destruct (is_string prompt_ || json_is_array_of_numbers prompt_).
    { destruct H as [? ->]. by simplify_eq. }
    destruct prompt_ as [| | | | |prompts|]; try by destruct H.
    case_decide.
    + destruct H as [? ->]. simplify_eq. by rewrite length_imap.
    + destruct H as (_ & -> & ->). by rewrite length_imap.
  - by eapply create_tasks_cmpl_created.
Qed.

(** X20: one task per prompt.  A prompt that is a string or an array of
    numbers makes one task, with that prompt.  Any other array makes one
    task per element, in order, each element being a string or an array of
    numbers; but for a rerank it makes one task less than it has elements:
    each element after the first is paired with the first, whatever the
    elements are. *)
Theorem create_tasks_cmpl_prompts (json_is_array_of_numbers : json → bool)
    (data_ : task_data) (cmpl_type_ : server_task_cmpl_type)
    (ctx ctx' : server_context.t) (tasks : list server_task.t) :
  server_context.create_tasks_cmpl json_is_array_of_numbers data_ cmpl_type_ ctx
  = Some (server_context.created tasks, ctx') →
  let singleton e := is_string e || json_is_array_of_numbers e in
  ∃ prompt_,
    d_prompt data_ = Some prompt_
    ∧ (d_prompt ∘ server_task.data) <$> tasks
      = Some <$>
          (if singleton prompt_ then [prompt_]
           else match prompt_ with
                | JArray prompts =>
                    if decide (cmpl_type_ = SERVER_TASK_CMPL_TYPE_RERANK)
                    then (λ document, JArray (take 1 prompts ++ [document]))
                           <$> drop 1 prompts
                    else prompts
                | _ => []
                end)
    ∧ (singleton prompt_ = false → cmpl_type_ ≠ SERVER_TASK_CMPL_TYPE_RERANK →
       ∀ prompts, prompt_ = JArray prompts → Forall (λ e, singleton e = true) prompts).
Proof.
  intros H. apply create_tasks_cmpl_run in H. cbv zeta in *.
  destruct (d_prompt data_) as [prompt_|]; [|by destruct H].
  exists prompt_. split; [done|].
  destruct (is_string prompt_ || json_is_array_of_numbers prompt_).
  { destruct H as [? ->]. simplify_eq. by split. }
  destruct prompt_ as [| | | | |prompts|]; try by destruct H.
  case_decide.
  - destruct H as [? ->]. simplify_eq. split; [|done].
    rewrite fmap_imap, <- list_fmap_compose, <- imap_const. by apply imap_ext.
  - destruct H as (Hall & -> & ->). split.
    + rewrite fmap_imap, <- imap_const. by apply imap_ext.
    + intros _ _ ? ?. by simplify_eq.
Qed.

(** X21: a refused request has taken ids.  [create_tasks_cmpl] throws when
    the data have no prompt, when the prompt is neither a string nor an
    array, and, unless the request is a rerank, when an element of the
    array is neither a string nor an array of numbers.  In the last case
    the elements before the first such element have each taken an id from
    the counter of the task queue, and these ids are not given back. *)
Theorem create_tasks_cmpl_throws (json_is_array_of_numbers : json → bool)
    (data_ : task_data) (cmpl_type_ : server_task_cmpl_type)
    (ctx ctx' : server_context.t) :
  server_context.create_tasks_cmpl json_is_array_of_numbers data_ cmpl_type_ ctx
  = Some (server_context.prompt_error, ctx') →
  let singleton e := is_string e || json_is_array_of_numbers e in
  (d_prompt data_ = None ∧ ctx' = ctx)
  ∨ ∃ prompt_,
      d_prompt data_ = Some prompt_ ∧ singleton prompt_ = false
      ∧ ((is_array prompt_ = false ∧ ctx' = ctx)
         ∨ (cmpl_type_ ≠ SERVER_TASK_CMPL_TYPE_RERANK
            ∧ ∃ valid e rest,
                prompt_ = JArray (valid ++ e :: rest)
                ∧ Forall (λ e, singleton e = true) valid
                ∧ singleton e = false
                ∧ ctx' = ids_taken (length valid) ctx)).
Proof.
  intros H. apply create_tasks_cmpl_run in H. cbv zeta in *.
  destruct (d_prompt data_) as [prompt_|]; [|left; by destruct H].
  right. exists prompt_. split; [done|].
  destruct (is_string prompt_ || json_is_array_of_numbers prompt_); [by destruct H|].
  split; [done|].
  destruct prompt_ as [| | | | |prompts|]; try (left; by destruct H).
  right. case_decide; [by destruct H|]. split; [done|].
  destruct H as (valid & e & rest & -> & ? & ? & ->). by exists valid, e, rest.
Qed.

Lemma post_many_with_ids tasks q :
  Forall (λ task, server_task.id task ≠ -1) tasks →
  server_queue.post_many tasks false q
  = Some (q <| server_queue.queue_tasks := server_queue.queue_tasks q ++ tasks |>).
Proof.
  revert q. induction tasks as [|task tasks IH]; intros q Hall; simpl.
  - f_equal. destruct q; simpl. by rewrite app_nil_r.
  - apply Forall_cons in Hall as [Hid Hall].
    unfold server_queue.assign_id. case_decide; [done|]. simpl.
    rewrite (IH _ Hall). unfold server_queue.push. simpl. by rewrite <- app_assoc.
Qed.

(** X22: a request enters the server.  When the id counter of the task
    queue is not negative, the opening of the completion handlers leaves
    the tasks of the request at the back of the task queue, in the order of
    their prompts, and their ids, which differ from one another and from
    every id the counter gave before, among the waiting ids.  The counter
    has moved on by the number of the tasks; the queued results and the
    slots are as before. *)
Theorem post_tasks_cmpl_enqueues (json_is_array_of_numbers : json → bool)
    (data_ : task_data) (cmpl_type_ : server_task_cmpl_type)
    (ctx ctx' : server_context.t) (tasks : list server_task.t) :
  0 <= server_queue.id (server_context.queue_tasks ctx) →
  server_context.post_tasks_cmpl json_is_array_of_numbers data_ cmpl_type_ ctx
  = Some (server_context.created tasks, ctx') →
  let q := server_context.queue_tasks ctx in
  let q' := server_context.queue_tasks ctx' in
  let r := server_context.queue_results ctx in
  let r' := server_context.queue_results ctx' in
  server_queue.queue_tasks q' = server_queue.queue_tasks q ++ tasks
  ∧ server_queue.queue_tasks_deferred q' = server_queue.queue_tasks_deferred q
  ∧ server_queue.id q' = server_queue.id q + Z.of_nat (length tasks)
  ∧ server_task.id <$> tasks
    = (λ k : nat, server_queue.id q + Z.of_nat k) <$> seq 0 (length tasks)
  ∧ server_response.waiting_task_ids r'
    = server_response.waiting_task_ids r ∪ server_task.get_list_id tasks
  ∧ server_response.queue_results r' = server_response.queue_results r
  ∧ server_context.slots ctx' = server_context.slots ctx.
Proof.
  intros Hid H. unfold server_context.post_tasks_cmpl in H.
  apply bind_Some in H as ([r1 ctx1] & Hc & H).
  destruct r1 as [|tasks1]; [by simplify_eq|].
  apply bind_Some in H as (q1 & Hpost & H). simplify_eq.
  pose proof (create_tasks_cmpl_created _ _ _ _ _ _ Hc) as Htasks.
  apply create_tasks_cmpl_ids_taken in Hc as ->.
  pose proof (created_ids _ _ _ _ Htasks) as Hids.
  rewrite post_many_with_ids in Hpost.
  2:{ apply Forall_lookup. intros k task Hk.
      destruct (Htasks k task Hk) as [p ->]. simpl. lia. }
  simplify_eq. cbv zeta. simpl.
  destruct (add_waiting_tasks_ids tasks (server_context.queue_results ctx)) as [-> ->].
  repeat split; try done.
  unfold server_task.get_list_id. apply (comm_L (∪)).
Qed.

Lemma create_tasks_cmpl_tasks_witness :
  let data_ := request_data (JArray [JString "a"; JArray [JInt 1; JInt 2]]) in
  let ctx := server_context.make example_params in
  ∃ task0 task1 ctx',
    server_context.create_tasks_cmpl array_of_numbers data_
      SERVER_TASK_CMPL_TYPE_NORMAL ctx
    = Some (server_context.created [task0; task1], ctx')
    ∧ ctx' = ids_taken 2 ctx
    ∧ ∃ p, task1 = created_task SERVER_TASK_CMPL_TYPE_NORMAL data_ 0 1 p.
Proof.
  intros data_ ctx.
  destruct (server_context.create_tasks_cmpl array_of_numbers data_
              SERVER_TASK_CMPL_TYPE_NORMAL ctx) as [[[|tasks] ctx']|] eqn:H;
    try by vm_compute in H.
  destruct (create_tasks_cmpl_tasks _ _ _ _ _ _ H) as [Hctx Htasks].
  destruct tasks as [|task0 [|task1 [|task2 tasks]]]; try by vm_compute in H.
  exists task0, task1, ctx'. split; [done|]. split; [exact Hctx|].
  exact (Htasks 1%nat task1 eq_refl).
Defined.

Lemma create_tasks_cmpl_prompts_witness :
  let data_ := request_data (JArray [JString "q"; JString "a"; JInt 7]) in
  ∃ tasks ctx',
    server_context.create_tasks_cmpl array_of_numbers data_
      SERVER_TASK_CMPL_TYPE_RERANK (server_context.make example_params)
    = Some (server_context.created tasks, ctx')
    ∧ (d_prompt ∘ server_task.data) <$> tasks
      = [ Some (JArray [JString "q"; JString "a"]); Some (JArray [JString "q"; JInt 7]) ].
Proof.
  intros data_.
  destruct (server_context.create_tasks_cmpl array_of_numbers data_
              SERVER_TASK_CMPL_TYPE_RERANK (server_context.make example_params))
    as [[[|tasks] ctx']|] eqn:H; try by vm_compute in H.
  destruct (create_tasks_cmpl_prompts _ _ _ _ _ _ H) as (prompt_ & Hp & Hl & _).
  exists tasks, ctx'. split; [done|].
  vm_compute in Hp. injection Hp as <-. exact Hl.
Defined.

Lemma create_tasks_cmpl_throws_witness :
  let data_ := request_data (JArray [JString "a"; JBool true; JString "b"]) in
  let ctx := server_context.make example_params in
  ∃ ctx',
    server_context.create_tasks_cmpl array_of_numbers data_
      SERVER_TASK_CMPL_TYPE_NORMAL ctx
    = Some (server_context.prompt_error, ctx')
    ∧ ctx' = ids_taken 1 ctx.
Proof.
  intros data_ ctx.
  destruct (server_context.create_tasks_cmpl array_of_numbers data_
              SERVER_TASK_CMPL_TYPE_NORMAL ctx) as [[[|tasks] ctx']|] eqn:H;
    try by vm_compute in H.
  exists ctx'. split; [done|].
  destruct (create_tasks_cmpl_throws _ _ _ _ _ H)
    as [[Hp _]|(prompt_ & Hp & _ & [[Ha _]|(_ & valid & e & rest & Hl & Hvalid & He & ->)])].
  - by vm_compute in Hp.
  - vm_compute in Hp. injection Hp as <-. by vm_compute in Ha.
  - vm_compute in Hp. injection Hp as <-. injection Hl as Hl.
    destruct valid as [|v1 [|v2 valid]]; simplify_eq/=; try done.
    apply Forall_cons in Hvalid as [_ Hvalid].
    apply Forall_cons in Hvalid as [Hv _]. by vm_compute in Hv.
Defined.

Lemma post_tasks_cmpl_enqueues_witness :
  let data_ := request_data (JArray [JString "a"; JString "b"]) in
  ∃ ctx0 tasks ctx',
    start example_model example_oracle example_params = Some ctx0
    ∧ server_context.post_tasks_cmpl array_of_numbers data_
        SERVER_TASK_CMPL_TYPE_NORMAL ctx0
      = Some (server_context.created tasks, ctx')
    ∧ server_queue.queue_tasks (server_context.queue_tasks ctx') = tasks
    ∧ server_task.id <$> tasks = [0; 1]
    ∧ server_response.waiting_task_ids (server_context.queue_results ctx')
      = ∅ ∪ server_task.get_list_id tasks.
Proof.
  intros data_.
  destruct (start example_model example_oracle example_params) as [ctx0|] eqn:Hstart;
    [|by vm_compute in Hstart].
  destruct (server_context.post_tasks_cmpl array_of_numbers data_
              SERVER_TASK_CMPL_TYPE_NORMAL ctx0) as [[[|tasks] ctx']|] eqn:H.
  2:{ assert (0 <= server_queue.id (server_context.queue_tasks ctx0)) as Hid.
      { vm_compute in Hstart. injection Hstart as <-. by vm_compute. }
      destruct (post_tasks_cmpl_enqueues _ _ _ _ _ _ Hid H)
        as (Hq & _ & _ & Hids & Hw & _).
      exists ctx0, tasks, ctx'. split; [done|]. split; [done|].
      vm_compute in Hstart. injection Hstart as <-.
      split; [exact Hq|]. split; [|exact Hw].
      rewrite Hids. clear Hids Hq Hw.
      vm_compute in H. by injection H as <- <-. }
  all: vm_compute in Hstart; injection Hstart as <-; by vm_compute in H.
Defined.

(** ** Cancellation *)











(** ** The final result of a task *)




